(** * rift import/export fixer: a shallow embedding of [fix_imports.py]

    The repository holds three variants of one tool that normalises the
    export and import style of a JavaScript tree.  [fix_imports.py] is the
    complete one (scanner, duplicate resolver, style classifier, cross-file
    pass, driver) and is the one embedded here, function by function and
    under the names of the source.  [fix.py] is a shortened copy of it, of
    which the two functions that can run are embedded in [Abridged];
    [modern_import_export_fixer.py] is an older version in one function.

    The tool works on Python [str] values with the [re] module.  Texts are
    modelled as lists of characters with code points below 256, regular
    expressions as a small abstract syntax with a backtracking matcher that
    follows the search order of [re] (leftmost, greedy first), dictionaries
    whose iteration order matters as association lists, and the remaining
    dictionaries as [gmap]s.  The files of a tree are a [gmap] from path to
    content, threaded through the driver. *)

From Stdlib Require Import Ascii String.
From stdpp Require Import gmap strings list.

Set Default Proof Using "Type".

Abbreviation text := (list ascii).

Definition txt (s : string) : text := list_ascii_of_string s.

Definition NL : ascii := "010"%char.

(** ** Python's character predicates, for code points below 256 *)

Module Chr.

Definition code (c : ascii) : nat := nat_of_ascii c.

Definition between (lo hi n : nat) : bool := (lo <=? n) && (n <=? hi).

(** [str.isspace], which is also what [\s] matches. *)
Definition is_space (c : ascii) : bool :=
  let n := code c in
  between 9 13 n || between 28 32 n || (n =? 133) || (n =? 160).

(** What [\w] matches: alphanumerics and the underscore. *)
Definition is_word (c : ascii) : bool :=
  let n := code c in
  between 48 57 n || between 65 90 n || (n =? 95) || between 97 122 n
  || (n =? 170) || between 178 179 n || (n =? 181) || between 185 186 n
  || between 188 190 n || between 192 214 n || between 216 246 n
  || between 248 255 n.

Definition eqb (a b : ascii) : bool := Ascii.eqb a b.

Definition mem (c : ascii) (l : text) : bool := existsb (eqb c) l.

End Chr.

(** ** The methods of [str] the tool uses *)

Module Py.

Fixpoint strip_prefix (p s : text) : option text :=
  match p, s with
  | [], _ => Some s
  | a :: p', b :: s' => if Chr.eqb a b then strip_prefix p' s' else None
  | _ :: _, [] => None
  end.

(** [s.startswith(p)] *)
Definition startswith (p s : text) : bool :=
  match strip_prefix p s with Some _ => true | None => false end.

(** [s.endswith(p)] *)
Definition endswith (p s : text) : bool := startswith (rev p) (rev s).

(** [p in s] *)
Fixpoint contains (p s : text) : bool :=
  startswith p s || match s with [] => false | _ :: s' => contains p s' end.

(** [s[a:b]], [s[:a]] and [s[a:]] for non-negative bounds. *)
Definition slice (s : text) (a b : nat) : text := take (b - a) (drop a s).

(** [s.lstrip()], [s.rstrip()] and [s.strip()] *)
Fixpoint lstrip (s : text) : text :=
  match s with
  | c :: s' => if Chr.is_space c then lstrip s' else s
  | [] => []
  end.

Definition rstrip (s : text) : text := rev (lstrip (rev s)).

Definition strip (s : text) : text := rstrip (lstrip s).

(** [s.split(sep)] for a non-empty separator: [cur] is the piece being
    read, reversed, and [skip] the characters of a separator still to be
    passed over. *)
Fixpoint split_go (sep : text) (skip : nat) (cur : text) (s : text)
  : list text :=
  match s with
  | [] => [rev cur]
  | c :: s' =>
      match skip with
      | S k => split_go sep k cur s'
      | 0 =>
          if startswith sep s
          then rev cur :: split_go sep (length sep - 1) [] s'
          else split_go sep 0 (c :: cur) s'
      end
  end.

Definition split (sep s : text) : list text := split_go sep 0 [] s.

(** [sep.join(l)] *)
Fixpoint join (sep : text) (l : list text) : text :=
  match l with
  | [] => []
  | [x] => x
  | x :: l' => x ++ sep ++ join sep l'
  end.

(** [s.find(c, from)]: the least index at or after [from] holding [c];
    [None] stands for -1. *)
Fixpoint find_go (c : ascii) (s : text) (i : nat) : option nat :=
  match s with
  | [] => None
  | x :: s' => if Chr.eqb x c then Some i else find_go c s' (S i)
  end.

Definition find (c : ascii) (s : text) (from : nat) : option nat :=
  find_go c (drop from s) from.

(** [s.rfind(c, 0, upto)]: the greatest index below [upto] holding [c]. *)
Fixpoint rfind_go (c : ascii) (s : text) (i : nat) (last : option nat)
  : option nat :=
  match s with
  | [] => last
  | x :: s' => rfind_go c s' (S i) (if Chr.eqb x c then Some i else last)
  end.

Definition rfind (c : ascii) (s : text) (upto : nat) : option nat :=
  rfind_go c (take upto s) 0 None.

(** [s.replace(old, new)] for a non-empty [old]: every occurrence, left to
    right, without overlap. *)
Fixpoint replace_go (old new : text) (skip : nat) (s : text) : text :=
  match s with
  | [] => []
  | c :: s' =>
      match skip with
      | S k => replace_go old new k s'
      | 0 =>
          if startswith old s
          then new ++ replace_go old new (length old - 1) s'
          else c :: replace_go old new 0 s'
      end
  end.

Definition replace (old new s : text) : text := replace_go old new 0 s.

Definition hex_digit (n : nat) : ascii :=
  ascii_of_nat (if n <? 10 then 48 + n else 87 + n).

(** [repr(s)] for a string that holds no quote character: single quotes
    around it, the backslash doubled, and the characters that are not
    printable escaped. *)
Definition repr_char (c : ascii) : text :=
  let n := Chr.code c in
  if n =? 92 then txt "\\"
  else if n =? 9 then txt "\t"
  else if n =? 10 then txt "\n"
  else if n =? 13 then txt "\r"
  else if (n <? 32) || Chr.between 127 160 n || (n =? 173)
  then txt "\x" ++ [hex_digit (n / 16); hex_digit (n mod 16)]
  else [c].

Definition repr (s : text) : text :=
  txt "'" ++ concat (map repr_char s) ++ txt "'".

End Py.

(** ** Regular expressions

    The fragment of [re] syntax the tool's patterns are written in.
    Repetition is only ever applied to a single character class, so the
    matcher is structurally recursive: a continuation receives the cursor
    after each way of matching, tried in the order in which [re] tries
    them, and the first success is the match. *)

Module Re.

Inductive cset : Type :=
| CSpace                  (* \s *)
| CWord                   (* \w *)
| CDot                    (* .  without DOTALL *)
| COneOf (l : text)       (* [...]  *)
| CNoneOf (l : text).     (* [^...] *)

Definition cset_mem (cs : cset) (c : ascii) : bool :=
  match cs with
  | CSpace => Chr.is_space c
  | CWord => Chr.is_word c
  | CDot => negb (Chr.eqb c NL)
  | COneOf l => Chr.mem c l
  | CNoneOf l => negb (Chr.mem c l)
  end.

Inductive regex : Type :=
| Lit (s : text)              (* literal characters *)
| Cls (cs : cset)             (* one character of a class *)
| Star (cs : cset)            (* cs*  *)
| LazyStar (cs : cset)        (* cs*? *)
| Seq (r1 r2 : regex)
| Alt (r1 r2 : regex)         (* r1|r2 *)
| Opt (r : regex)             (* r? *)
| Group (n : nat) (r : regex) (* the n-th capturing group *)
| WordB                       (* \b *)
| Bol                         (* ^ without MULTILINE *)
| Eol                         (* $ without MULTILINE *)
| EolM.                       (* $ with MULTILINE *)

(** cs+ *)
Definition Plus (cs : cset) : regex := Seq (Cls cs) (Star cs).

Fixpoint seqs (l : list regex) : regex :=
  match l with
  | [] => Lit []
  | [r] => r
  | r :: l' => Seq r (seqs l')
  end.

(** A position in the subject: its offset, the character before it, the
    characters from it on, and the groups captured so far. *)
Record cursor : Type := Cursor {
  pos : nat;
  prev : option ascii;
  rest : text;
  caps : list (nat * text)
}.

Definition last_or (d : option ascii) (s : text) : option ascii :=
  match last s with Some c => Some c | None => d end.

Definition word_opt (o : option ascii) : bool :=
  match o with Some c => Chr.is_word c | None => false end.

Definition at_boundary (st : cursor) : bool :=
  xorb (word_opt (prev st)) (word_opt (head (rest st))).

Section Matcher.
Context {A : Type}.

Fixpoint star_greedy (cs : cset) (k : cursor -> option A)
    (p : nat) (pv : option ascii) (r : text) (cp : list (nat * text))
  : option A :=
  match r with
  | c :: r' =>
      if cset_mem cs c then
        match star_greedy cs k (S p) (Some c) r' cp with
        | Some a => Some a
        | None => k (Cursor p pv r cp)
        end
      else k (Cursor p pv r cp)
  | [] => k (Cursor p pv r cp)
  end.

Fixpoint star_lazy (cs : cset) (k : cursor -> option A)
    (p : nat) (pv : option ascii) (r : text) (cp : list (nat * text))
  : option A :=
  match k (Cursor p pv r cp) with
  | Some a => Some a
  | None =>
      match r with
      | c :: r' =>
          if cset_mem cs c then star_lazy cs k (S p) (Some c) r' cp
          else None
      | [] => None
      end
  end.

Fixpoint run (re : regex) (k : cursor -> option A) (st : cursor)
  : option A :=
  match re with
  | Lit s =>
      match Py.strip_prefix s (rest st) with
      | Some r' =>
          k (Cursor (pos st + length s) (last_or (prev st) s) r' (caps st))
      | None => None
      end
  | Cls cs =>
      match rest st with
      | c :: r' =>
          if cset_mem cs c
          then k (Cursor (S (pos st)) (Some c) r' (caps st))
          else None
      | [] => None
      end
  | Star cs => star_greedy cs k (pos st) (prev st) (rest st) (caps st)
  | LazyStar cs => star_lazy cs k (pos st) (prev st) (rest st) (caps st)
  | Seq r1 r2 => run r1 (run r2 k) st
  | Alt r1 r2 =>
      match run r1 k st with
      | Some a => Some a
      | None => run r2 k st
      end
  | Opt r =>
      match run r k st with
      | Some a => Some a
      | None => k st
      end
  | Group n r =>
      run r
        (fun st' =>
           k (Cursor (pos st') (prev st') (rest st')
                ((n, take (pos st' - pos st) (rest st)) :: caps st')))
        st
  | WordB => if at_boundary st then k st else None
  | Bol => if pos st =? 0 then k st else None
  | Eol =>
      match rest st with
      | [] => k st
      | [c] => if Chr.eqb c NL then k st else None
      | _ => None
      end
  | EolM =>
      match rest st with
      | [] => k st
      | c :: _ => if Chr.eqb c NL then k st else None
      end
  end.
End Matcher.

(** A match object: [start()], [end()], [group(0)] and the groups. *)
Record rmatch : Type := Match {
  m_start : nat;
  m_end : nat;
  m_text : text;
  m_caps : list (nat * text)
}.

Fixpoint assoc (n : nat) (l : list (nat * text)) : option text :=
  match l with
  | [] => None
  | (i, s) :: l' => if i =? n then Some s else assoc n l'
  end.

(** [m.group(n)], the empty text standing for a group that is not set. *)
Definition group (n : nat) (mt : rmatch) : text :=
  default [] (assoc n (m_caps mt)).

Definition match_at (re : regex) (p : nat) (pv : option ascii) (r : text)
  : option rmatch :=
  run re
    (fun st' =>
       Some (Match p (pos st') (take (pos st' - p) r) (caps st')))
    (Cursor p pv r []).

(** The scan of [re.finditer]: the leftmost match from the current
    position, then on from its end.  After an empty match the scan moves
    one character on; the repetitions of the tool's patterns being greedy,
    a pattern whose first match at a position is empty has no other match
    there, so this is also what [re] does. *)
Fixpoint scan (re : regex) (skip p : nat) (pv : option ascii) (r : text)
  : list rmatch :=
  match skip with
  | S k =>
      match r with
      | [] => []
      | c :: r' => scan re k (S p) (Some c) r'
      end
  | 0 =>
      match match_at re p pv r with
      | Some mt =>
          mt :: match r with
                | [] => []
                | c :: r' => scan re (m_end mt - p - 1) (S p) (Some c) r'
                end
      | None =>
          match r with
          | [] => []
          | c :: r' => scan re 0 (S p) (Some c) r'
          end
      end
  end.

(** [re.finditer(re, s)] *)
Definition finditer (re : regex) (s : text) : list rmatch :=
  scan re 0 0 None s.

(** [re.search(re, s)] *)
Definition search (re : regex) (s : text) : option rmatch :=
  head (finditer re s).

(** [re.match(re, s)] *)
Definition match_ (re : regex) (s : text) : option rmatch :=
  match_at re 0 None s.

(** [re.findall(re, s)] for a pattern with one group. *)
Definition findall1 (re : regex) (s : text) : list text :=
  map (group 1) (finditer re s).

Fixpoint rebuild (repl : rmatch -> text) (s : text) (p : nat)
    (ms : list rmatch) : text :=
  match ms with
  | [] => drop p s
  | mt :: ms' =>
      Py.slice s p (m_start mt) ++ repl mt ++ rebuild repl s (m_end mt) ms'
  end.

(** [re.sub(re, repl, s)], the replacement given as a function of the
    match. *)
Definition sub (re : regex) (repl : rmatch -> text) (s : text) : text :=
  rebuild repl s 0 (finditer re s).

End Re.

(** ** Small helpers on texts and lists *)

Fixpoint text_eqb (a b : text) : bool :=
  match a, b with
  | [], [] => true
  | x :: a', y :: b' => Chr.eqb x y && text_eqb a' b'
  | _, _ => false
  end.

(** [x in l] for a list or a set of texts. *)
Definition mem_text (x : text) (l : list text) : bool :=
  existsb (text_eqb x) l.

Definition is_nil {A : Type} (l : list A) : bool :=
  match l with [] => true | _ => false end.

(** [enumerate(l)] *)
Fixpoint enumerate_from {A : Type} (n : nat) (l : list A) : list (nat * A) :=
  match l with
  | [] => []
  | x :: l' => (n, x) :: enumerate_from (S n) l'
  end.

Definition enumerate {A : Type} (l : list A) : list (nat * A) :=
  enumerate_from 0 l.

(** ** The tool's patterns *)

Module Pat.
Import Re.

Definition ws : regex := Star CSpace.          (* \s* *)
Definition ws1 : regex := Plus CSpace.         (* \s+ *)
Definition word1 : regex := Plus CWord.        (* \w+ *)
Definition quote : regex := Cls (COneOf (txt "'" ++ [ascii_of_nat 34])).
Definition not_quote : cset := CNoneOf (txt "'" ++ [ascii_of_nat 34]).
Definition not_brace : cset := CNoneOf (txt "}").
Definition opt_semi : regex := Opt (Seq ws (Lit (txt ";"))).  (* (?:\s*;)? *)

(** export\s+default\s+(\w+)(?:\s*;)? *)
Definition export_default : regex :=
  seqs [Lit (txt "export"); ws1; Lit (txt "default"); ws1;
        Group 1 word1; opt_semi].

(** export\s+default\s+function\s*\( *)
Definition export_default_function : regex :=
  seqs [Lit (txt "export"); ws1; Lit (txt "default"); ws1;
        Lit (txt "function"); ws; Lit (txt "(")].

(** export\s+default\s+class\s+\{ *)
Definition export_default_class : regex :=
  seqs [Lit (txt "export"); ws1; Lit (txt "default"); ws1;
        Lit (txt "class"); ws1; Lit (txt "{")].

(** export\s+class\s+(\w+) *)
Definition export_class : regex :=
  seqs [Lit (txt "export"); ws1; Lit (txt "class"); ws1; Group 1 word1].

(** export\s+function\s+(\w+) *)
Definition export_function : regex :=
  seqs [Lit (txt "export"); ws1; Lit (txt "function"); ws1; Group 1 word1].

(** export\s+(?:const|let|var)\s+(\w+) *)
Definition export_const : regex :=
  seqs [Lit (txt "export"); ws1;
        Alt (Lit (txt "const")) (Alt (Lit (txt "let")) (Lit (txt "var")));
        ws1; Group 1 word1].

(** export\s*\{([^}]+)\}(?:\s*;)? *)
Definition export_braces : regex :=
  seqs [Lit (txt "export"); ws; Lit (txt "{"); Group 1 (Plus not_brace);
        Lit (txt "}"); opt_semi].

(** class\s+(\w+) *)
Definition class_decl : regex :=
  seqs [Lit (txt "class"); ws1; Group 1 word1].

(** import\s+(\w+)\s+from\s+Q([^Q]+)Q, where Q stands for the class of
    the two quote characters *)
Definition import_default : regex :=
  seqs [Lit (txt "import"); ws1; Group 1 word1; ws1; Lit (txt "from"); ws1;
        quote; Group 2 (Plus not_quote); quote].

(** import\s*\{([^}]+)\}\s+from\s+Q([^Q]+)Q *)
Definition import_named : regex :=
  seqs [Lit (txt "import"); ws; Lit (txt "{"); Group 1 (Plus not_brace);
        Lit (txt "}"); ws1; Lit (txt "from"); ws1;
        quote; Group 2 (Plus not_quote); quote].

(** //.*?$ with MULTILINE *)
Definition line_comment : regex :=
  seqs [Lit (txt "//"); LazyStar CDot; EolM].

(** export\s*\{[^}]*\bNAME\b[^}]*\}(?:\s*;)?, NAME escaped *)
Definition export_braces_with (name : text) : regex :=
  seqs [Lit (txt "export"); ws; Lit (txt "{"); Star not_brace; WordB;
        Lit name; WordB; Star not_brace; Lit (txt "}"); opt_semi].

(** \{([^}]+)\} *)
Definition braces : regex :=
  seqs [Lit (txt "{"); Group 1 (Plus not_brace); Lit (txt "}")].

(** \b(\w+)\b *)
Definition bare_word : regex := seqs [WordB; Group 1 word1; WordB].

(** ,?\s*\bNAME\b\s*,?, NAME escaped *)
Definition name_in_list (name : text) : regex :=
  seqs [Opt (Lit (txt ",")); ws; WordB; Lit name; WordB; ws;
        Opt (Lit (txt ","))].

(** ,\s*, *)
Definition comma_comma : regex := seqs [Lit (txt ","); ws; Lit (txt ",")].
(** \{\s*, *)
Definition brace_comma : regex := seqs [Lit (txt "{"); ws; Lit (txt ",")].
(** ,\s*\} *)
Definition comma_brace : regex := seqs [Lit (txt ","); ws; Lit (txt "}")].

(** ;;+ *)
Definition semis : regex :=
  seqs [Lit (txt ";"); Plus (COneOf (txt ";"))].

(** \n\s*\n\s*\n *)
Definition blank_lines : regex :=
  seqs [Lit [NL]; ws; Lit [NL]; ws; Lit [NL]].

End Pat.

(** ** Declaration scanner *)

Inductive export_type : Type :=
| Default | Named | Class | Function | Const | Destructured.

Definition export_type_eqb (a b : export_type) : bool :=
  match a, b with
  | Default, Default | Named, Named | Class, Class | Function, Function
  | Const, Const | Destructured, Destructured => true
  | _, _ => false
  end.

(** The dictionary key of each kind, as it is printed in change records. *)
Definition type_name (t : export_type) : text :=
  match t with
  | Default => txt "default"
  | Named => txt "named"
  | Class => txt "class"
  | Function => txt "function"
  | Const => txt "const"
  | Destructured => txt "destructured"
  end.

(** An entry [(name, start, end)] of one of the scanner's lists. *)
Record decl : Type := Decl { d_name : text; d_start : nat; d_end : nat }.

(** The dictionary [find_all_exports] returns. *)
Record exports : Type := Exports {
  e_default : list decl;
  e_named : list decl;
  e_class : list decl;
  e_function : list decl;
  e_const : list decl;
  e_destructured : list decl
}.

(** [exports.items()], in the order of the dictionary literal. *)
Definition items (e : exports) : list (export_type * list decl) :=
  [(Default, e_default e); (Named, e_named e); (Class, e_class e);
   (Function, e_function e); (Const, e_const e);
   (Destructured, e_destructured e)].

Definition anonymous : text := txt "_anonymous_".

Definition decl_of (mt : Re.rmatch) : decl :=
  Decl (Re.group 1 mt) (Re.m_start mt) (Re.m_end mt).

Definition has_name (n : text) (l : list decl) : bool :=
  existsb (fun d => text_eqb (d_name d) n) l.

(** The start of the line that holds offset [p]:
    [content.rfind('\n', 0, p) + 1]. *)
Definition line_start_of (content : text) (p : nat) : nat :=
  match Py.rfind NL content p with Some i => S i | None => 0 end.

Definition find_all_exports (content : text) : exports :=
  let default_ids := map decl_of (Re.finditer Pat.export_default content) in
  let anon :=
    flat_map
      (fun pattern =>
         map (fun mt => Decl anonymous (Re.m_start mt) (Re.m_end mt))
           (Re.finditer pattern content))
      [Pat.export_default_function; Pat.export_default_class] in
  let l_default := default_ids ++ anon in
  let l_class := map decl_of (Re.finditer Pat.export_class content) in
  let l_function := map decl_of (Re.finditer Pat.export_function content) in
  let l_const := map decl_of (Re.finditer Pat.export_const content) in
  let l_destructured :=
    flat_map
      (fun mt =>
         let names := map Py.strip (Py.split (txt ",") (Re.group 1 mt)) in
         map (fun name => Decl name (Re.m_start mt) (Re.m_end mt)) names)
      (Re.finditer Pat.export_braces content) in
  let l_named :=
    flat_map
      (fun mt =>
         let class_name := Re.group 1 mt in
         let start_pos := Re.m_start mt in
         let line_start := line_start_of content start_pos in
         let preceding_text :=
           Py.strip (Py.slice content line_start start_pos) in
         if negb (Py.endswith (txt "export") preceding_text)
            && negb (Py.endswith (txt "export default") preceding_text)
            && negb (has_name class_name l_class)
            && negb (has_name class_name l_destructured)
            && negb (has_name class_name l_default)
         then [Decl class_name start_pos (Re.m_end mt)]
         else [])
      (Re.finditer Pat.class_decl content) in
  Exports l_default l_named l_class l_function l_const l_destructured.

(** An entry [(name, path, start, end)] of the import scanner's lists. *)
Record import_decl : Type := Import {
  i_name : text; i_path : text; i_start : nat; i_end : nat
}.

Record imports : Type := Imports {
  i_default : list import_decl;
  i_named : list import_decl
}.

Definition nonempty (s : text) : bool :=
  match s with [] => false | _ => true end.

Definition find_all_imports (content : text) : imports :=
  let l_default :=
    map (fun mt =>
           Import (Re.group 1 mt) (Re.group 2 mt) (Re.m_start mt) (Re.m_end mt))
      (Re.finditer Pat.import_default content) in
  let l_named :=
    flat_map
      (fun mt =>
         let path := Re.group 2 mt in
         let import_list :=
           Re.sub Pat.line_comment (fun _ => []) (Re.group 1 mt) in
         let names :=
           filter (fun n => nonempty n = true)
             (map Py.strip (Py.split (txt ",") import_list)) in
         map (fun name =>
                let name_parts := Py.split (txt " as ") name in
                let actual_name := Py.strip (default [] (head name_parts)) in
                Import actual_name path (Re.m_start mt) (Re.m_end mt))
           names)
      (Re.finditer Pat.import_named content) in
  Imports l_default l_named.

(** ** Duplicate resolver *)

(** An entry [(export_type, start, end)] of [all_exports]. *)
Record position : Type := Position {
  p_type : export_type; p_start : nat; p_end : nat
}.

(** [all_exports[name].append(p)], a new key going to the end. *)
Fixpoint add_position (name : text) (p : position)
    (all : list (text * list position)) : list (text * list position) :=
  match all with
  | [] => [(name, [p])]
  | (n, ps) :: all' =>
      if text_eqb n name then (n, ps ++ [p]) :: all'
      else (n, ps) :: add_position name p all'
  end.

Definition collect_exports (e : exports) : list (text * list position) :=
  fold_left
    (fun all '(export_type, export_list) =>
       fold_left
         (fun all d =>
            add_position (d_name d)
              (Position export_type (d_start d) (d_end d)) all)
         export_list all)
    (items e) [].

(** [positions.sort(key=lambda x: x[1], reverse=True)]: descending by start
    offset, entries with equal offsets keeping their order. *)
Fixpoint insert_desc (x : position) (l : list position) : list position :=
  match l with
  | [] => [x]
  | y :: l' =>
      if p_start y <=? p_start x then x :: y :: l'
      else y :: insert_desc x l'
  end.

Definition sort_desc (l : list position) : list position :=
  foldr insert_desc [] l.

(** [l.index(t)] *)
Fixpoint index_of (t : export_type) (l : list export_type) : option nat :=
  match l with
  | [] => None
  | x :: l' => if export_type_eqb x t then Some 0 else S <$> index_of t l'
  end.

(** The entry to keep, by priority class, function, const, destructured;
    entry 0 when the list holds none of these kinds. *)
Definition keep_index (export_types : list export_type) : nat :=
  match index_of Class export_types with
  | Some i => i
  | None =>
      match index_of Function export_types with
      | Some i => i
      | None =>
          match index_of Const export_types with
          | Some i => i
          | None => default 0 (index_of Destructured export_types)
          end
      end
  end.

(** Removal of one entry that is not kept. *)
Definition remove_position (name : text) (p : position)
    (st : text * list text) : text * list text :=
  let '(content, changes) := st in
  let '(Position export_type start end_) := p in
  match export_type with
  | Destructured =>
      let base := start - 50 in
      match Re.search (Pat.export_braces_with name)
              (Py.slice content base (end_ + 50)) with
      | Some mt =>
          let actual_start := base + Re.m_start mt in
          let actual_end := base + Re.m_end mt in
          let export_content := Py.slice content actual_start actual_end in
          (* the search cannot fail: [export_content] matched the pattern
             above, which has a name or a word boundary between its braces *)
          let inner :=
            from_option (Re.group 1) [] (Re.search Pat.braces export_content) in
          let names_in_export := Re.findall1 Pat.bare_word inner in
          if length names_in_export =? 1 then
            (take actual_start content ++ drop actual_end content,
             changes ++ [txt "Removed duplicate export { " ++ name ++ txt " }"])
          else
            let new_export :=
              Re.sub (Pat.name_in_list name) (fun _ => []) export_content in
            let new_export :=
              Re.sub Pat.comma_comma (fun _ => txt ",") new_export in
            let new_export :=
              Re.sub Pat.brace_comma (fun _ => txt "{") new_export in
            let new_export :=
              Re.sub Pat.comma_brace (fun _ => txt "}") new_export in
            (take actual_start content ++ new_export ++ drop actual_end content,
             changes ++ [txt "Removed " ++ name ++ txt " from export statement"])
      | None => (content, changes)
      end
  | _ =>
      let line_start := line_start_of content start in
      let line_end := default (length content) (Py.find NL content end_) in
      let line := Py.slice content line_start line_end in
      if Py.startswith (txt "export") (Py.strip line) then
        (take line_start content ++ drop (line_end + 1) content,
         changes ++ [txt "Removed duplicate " ++ type_name export_type
                       ++ txt " export of " ++ name])
      else (content, changes)
  end.

(** The body of the loop over [duplicates.items()]. *)
Definition resolve_name (st : text * list text)
    (entry : text * list position) : text * list text :=
  let '(name, positions) := entry in
  let positions := sort_desc positions in
  let keep := keep_index (p_type <$> positions) in
  fold_left
    (fun st '(i, p) => if i =? keep then st else remove_position name p st)
    (enumerate positions) st.

Definition collapse_semis (content : text) : text :=
  Re.sub Pat.semis (fun _ => txt ";") content.

Definition collapse_blank_lines (content : text) : text :=
  Re.sub Pat.blank_lines (fun _ => [NL; NL]) content.

Definition remove_duplicate_exports (content : text) : text * list text :=
  let all_exports := collect_exports (find_all_exports content) in
  let duplicates :=
    filter (fun entry => 1 < length (snd entry)) all_exports in
  match duplicates with
  | [] => (content, [])
  | _ =>
      let '(content, changes) := fold_left resolve_name duplicates (content, []) in
      (collapse_blank_lines (collapse_semis content), changes)
  end.

(** ** Paths: the operations of [pathlib] and [os.path] the tool calls,
    for POSIX paths *)

Module Path.

Definition slash : ascii := "/"%char.
Definition dot : ascii := "."%char.

(** The components [pathlib] keeps: neither empty nor a single dot. *)
Definition parts (p : text) : list text :=
  filter (fun x => nonempty x && negb (text_eqb x [dot]) = true)
    (Py.split [slash] p).

(** [Path(p).name] *)
Definition name (p : text) : text := default [] (last (parts p)).

(** [Path(p).stem] *)
Definition stem (p : text) : text :=
  let n := name p in
  match Py.rfind dot n (length n) with
  | Some i => if (0 <? i) && (i <? length n - 1) then take i n else n
  | None => n
  end.

(** [os.path.basename(p)] *)
Definition basename (p : text) : text :=
  match Py.rfind slash p (length p) with
  | Some i => drop (S i) p
  | None => p
  end.

(** [os.path.splitext(p)[0]] for a [p] without a slash: split at the last
    dot unless only dots come before it. *)
Definition splitext_root (p : text) : text :=
  match Py.rfind dot p (length p) with
  | Some i =>
      if existsb (fun c => negb (Chr.eqb c dot)) (take i p)
      then take i p else p
  | None => p
  end.

Fixpoint rstrip_slashes_rev (r : text) : text :=
  match r with
  | c :: r' => if Chr.eqb c slash then rstrip_slashes_rev r' else r
  | [] => []
  end.

(** [os.path.dirname(p)] *)
Definition dirname (p : text) : text :=
  let head :=
    match Py.rfind slash p (length p) with
    | Some i => take (S i) p
    | None => []
    end in
  if forallb (fun c => Chr.eqb c slash) head then head
  else rev (rstrip_slashes_rev (rev head)).

(** [os.path.join(a, b)] *)
Definition join (a b : text) : text :=
  if Py.startswith [slash] b then b
  else if negb (nonempty a) || Py.endswith [slash] a then a ++ b
  else a ++ [slash] ++ b.

(** The loop of [os.path.normpath] over the components, [new_comps]
    kept reversed. *)
Definition norm_step (initial_slashes : nat) (new_comps : list text)
    (comp : text) : list text :=
  if negb (nonempty comp) || text_eqb comp [dot] then new_comps
  else
    match new_comps with
    | [] =>
        if negb (text_eqb comp [dot; dot]) || (initial_slashes =? 0)
        then [comp] else []
    | top :: below =>
        if negb (text_eqb comp [dot; dot]) || text_eqb top [dot; dot]
        then comp :: new_comps else below
    end.

(** [os.path.normpath(p)] *)
Definition normpath (p : text) : text :=
  match p with
  | [] => [dot]
  | _ =>
      let initial_slashes :=
        if Py.startswith [slash] p then
          if Py.startswith [slash; slash] p
             && negb (Py.startswith [slash; slash; slash] p)
          then 2 else 1
        else 0 in
      let comps :=
        rev (fold_left (norm_step initial_slashes) (Py.split [slash] p) []) in
      let path := replicate initial_slashes slash ++ Py.join [slash] comps in
      match path with [] => [dot] | _ => path end
  end.

End Path.

(** ** Style classifier *)

Module PatS.
Import Re Pat.

(** class\s+NAME\b *)
Definition class_named (name : text) : regex :=
  seqs [Lit (txt "class"); ws1; Lit name; WordB].

(** export\s+class\s+NAME\b *)
Definition export_class_named_b (name : text) : regex :=
  seqs [Lit (txt "export"); ws1; Lit (txt "class"); ws1; Lit name; WordB].

(** export\s+class\s+NAME *)
Definition export_class_named (name : text) : regex :=
  seqs [Lit (txt "export"); ws1; Lit (txt "class"); ws1; Lit name].

(** export\s+function\s+NAME *)
Definition export_function_named (name : text) : regex :=
  seqs [Lit (txt "export"); ws1; Lit (txt "function"); ws1; Lit name].

(** export\s+default\s+NAME(?:\s*;)? *)
Definition export_default_named (name : text) : regex :=
  seqs [Lit (txt "export"); ws1; Lit (txt "default"); ws1; Lit name;
        opt_semi].

(** export\s+default\s+class\s+NAME *)
Definition export_default_class_named (name : text) : regex :=
  seqs [Lit (txt "export"); ws1; Lit (txt "default"); ws1;
        Lit (txt "class"); ws1; Lit name].

(** export\s+default\s+function\s+NAME *)
Definition export_default_function_named (name : text) : regex :=
  seqs [Lit (txt "export"); ws1; Lit (txt "default"); ws1;
        Lit (txt "function"); ws1; Lit name].

(** export\s+default\s+ *)
Definition export_default_any : regex :=
  seqs [Lit (txt "export"); ws1; Lit (txt "default"); ws1].

(** import\s+NAME\s+from *)
Definition import_default_of (name : text) : regex :=
  seqs [Lit (txt "import"); ws1; Lit name; ws1; Lit (txt "from")].

(** import\s*{\s*NAME\s*}\s*from *)
Definition import_named_of (name : text) : regex :=
  seqs [Lit (txt "import"); ws; Lit (txt "{"); ws; Lit name; ws;
        Lit (txt "}"); ws; Lit (txt "from")].

(** import\s+\w+\s+from\s+Q([^Q]+)Q *)
Definition import_default_path : regex :=
  seqs [Lit (txt "import"); ws1; word1; ws1; Lit (txt "from"); ws1;
        quote; Group 1 (Plus not_quote); quote].

(** import\s*\{[^}]+\}\s+from\s+Q([^Q]+)Q *)
Definition import_named_path : regex :=
  seqs [Lit (txt "import"); ws; Lit (txt "{"); Plus not_brace;
        Lit (txt "}"); ws1; Lit (txt "from"); ws1;
        quote; Group 1 (Plus not_quote); quote].

(** import\s*{\s*NAME\s*}\s+from\s+Q(PATH)Q, PATH escaped *)
Definition import_named_of_from (name path : text) : regex :=
  seqs [Lit (txt "import"); ws; Lit (txt "{"); ws; Lit name; ws;
        Lit (txt "}"); ws1; Lit (txt "from"); ws1;
        quote; Group 1 (Lit path); quote].

(** import\s+(\w+)\s+from\s+Q(PATH)Q, PATH escaped *)
Definition import_default_from (path : text) : regex :=
  seqs [Lit (txt "import"); ws1; Group 1 word1; ws1; Lit (txt "from"); ws1;
        quote; Group 2 (Lit path); quote].

(** import\s+{?\s*UIComponent(?:\s+as\s+\w+)?\s*}?\s+from\s+Q([^Q]+)Q *)
Definition import_uicomponent : regex :=
  seqs [Lit (txt "import"); ws1; Opt (Lit (txt "{")); ws;
        Lit (txt "UIComponent");
        Opt (seqs [ws1; Lit (txt "as"); ws1; word1]);
        ws; Opt (Lit (txt "}")); ws1; Lit (txt "from"); ws1;
        quote; Group 1 (Plus not_quote); quote].

(** UIComponent\s+as\s+(\w+) *)
Definition uicomponent_alias : regex :=
  seqs [Lit (txt "UIComponent"); ws1; Lit (txt "as"); ws1; Group 1 word1].

(** import\s+{([^}]+)}\s+from\s+Q([^Q]*UIComponent(?:\.js)?)Q *)
Definition import_from_uicomponent : regex :=
  seqs [Lit (txt "import"); ws1; Lit (txt "{"); Group 1 (Plus not_brace);
        Lit (txt "}"); ws1; Lit (txt "from"); ws1; quote;
        Group 2 (seqs [Star not_quote; Lit (txt "UIComponent");
                       Opt (Lit (txt ".js"))]);
        quote].

(** ^\s*UIComponent\s*$ *)
Definition only_uicomponent : regex :=
  seqs [Bol; ws; Lit (txt "UIComponent"); ws; Eol].

End PatS.

(** The loop of [_remove_named_export]: the matches are those of the text
    the function was called with, the edits go to the current text. *)
Definition remove_named_step (name : text) (st : text * list text)
    (mt : Re.rmatch) : text * list text :=
  let '(content, changes) := st in
  let export_list := Re.group 1 mt in
  let export_start := Re.m_start mt in
  let export_end := Re.m_end mt in
  let names := map Py.strip (Py.split (txt ",") export_list) in
  if mem_text name names then
    if length names =? 1 then
      (take export_start content ++ drop export_end content,
       changes ++ [txt "Removed named export for " ++ name])
    else
      let new_export_list :=
        Py.join (txt ",")
          (filter (fun n => text_eqb n name = false) names) in
      let new_export := txt "export { " ++ new_export_list ++ txt " };" in
      (take export_start content ++ new_export ++ drop export_end content,
       changes ++ [txt "Removed " ++ name ++ txt " from named exports"])
  else (content, changes).

Definition _remove_named_export (content name : text) : text * list text :=
  fold_left (remove_named_step name)
    (Re.finditer Pat.export_braces content) (content, []).

Definition modernize_exports (content filename : text)
    (keep_as_default should_be_named : list text) : text * list text :=
  let exports := find_all_exports content in
  let basename := Path.stem filename in
  if mem_text basename keep_as_default then
    let class_exports :=
      filter (fun n => text_eqb n basename = true)
        (map d_name (e_class exports)) in
    if negb (is_nil class_exports)
       && negb (has_name basename (e_default exports)) then
      if has_name basename (e_destructured exports) then
        let '(content, named_changes) :=
          _remove_named_export content basename in
        let content :=
          Re.sub (PatS.class_named basename)
            (fun _ => txt "export default class " ++ basename) content in
        (content,
         named_changes ++ [txt "Added default export for " ++ basename])
      else if has_name basename (e_class exports) then
        let content :=
          Re.sub (PatS.export_class_named_b basename)
            (fun _ => txt "export default class " ++ basename) content in
        (content, [txt "Class to Default export: " ++ basename])
      else (content, [])
    else (content, [])
  else
    let st :=
      fold_left
        (fun '(content, changes) d =>
           let name := d_name d in
           if mem_text name should_be_named || text_eqb name basename then
             let has_named := has_name name (e_destructured exports) in
             let has_class := has_name name (e_class exports) in
             let has_function := has_name name (e_function exports) in
             let has_const := has_name name (e_const exports) in
             if negb (has_named || has_class || has_function || has_const)
             then
               (Re.sub (PatS.export_default_named name)
                  (fun _ => txt "export { " ++ name ++ txt " };") content,
                changes ++ [txt "Default to Named export: " ++ name])
             else (content, changes)
           else (content, changes))
        (e_default exports) (content, []) in
    fold_left
      (fun '(content, changes) d =>
         let name := d_name d in
         if mem_text name should_be_named then
           let has_destructured := has_name name (e_destructured exports) in
           if negb has_destructured then
             let content :=
               Re.sub (PatS.export_class_named_b name)
                 (fun _ => txt "class " ++ name) content in
             let content :=
               Py.rstrip content
               ++ [NL; NL] ++ txt "export { " ++ name ++ txt " };" ++ [NL] in
             (content, changes ++ [txt "Class export to Named: " ++ name])
           else (content, changes)
         else (content, changes))
      (e_class exports) st.

(** [fix_imports].  The two policy dictionaries map a symbol to the import
    head that replaces the wrong one; they are given as the lists of their
    items.  The source splices a symbol into its patterns as it is written
    and hands the import head to [re.sub] as a template; the embedding
    reads both literally, which is what [re] does for identifiers, the
    symbols of the dictionaries that [main] builds.  The statements about
    [fix_imports] are made for policy lists of identifiers. *)

Inductive import_type : Type := IDefault | INamed.

Definition import_type_eqb (a b : import_type) : bool :=
  match a, b with
  | IDefault, IDefault | INamed, INamed => true
  | _, _ => false
  end.

(** [imported_modules[path].add(t)], a new path going to the end. *)
Fixpoint add_import_type (path : text) (t : import_type)
    (l : list (text * list import_type)) : list (text * list import_type) :=
  match l with
  | [] => [(path, [t])]
  | (p, ts) :: l' =>
      if text_eqb p path then (p, t :: ts) :: l'
      else (p, ts) :: add_import_type path t l'
  end.

Definition has_type (t : import_type) (ts : list import_type) : bool :=
  existsb (import_type_eqb t) ts.

Definition fix_imports (content : text)
    (modern_imports default_imports : list (text * text)) (filename : text)
  : text * list text :=
  let st :=
    fold_left
      (fun '(content, changes) '(module_name, correct_import) =>
         let wrong_pattern := PatS.import_default_of module_name in
         match Re.search wrong_pattern content with
         | Some _ =>
             (Re.sub wrong_pattern (fun _ => correct_import) content,
              changes ++ [txt "Import modernized: " ++ module_name])
         | None => (content, changes)
         end)
      modern_imports (content, []) in
  let st :=
    fold_left
      (fun '(content, changes) '(module_name, correct_import) =>
         let wrong_pattern := PatS.import_named_of module_name in
         match Re.search wrong_pattern content with
         | Some _ =>
             (Re.sub wrong_pattern (fun _ => correct_import) content,
              changes ++ [txt "Base class import fixed: " ++ module_name])
         | None => (content, changes)
         end)
      default_imports st in
  let imported_modules :=
    fold_left
      (fun acc '(pattern, import_type) =>
         fold_left
           (fun acc mt => add_import_type (Re.group 1 mt) import_type acc)
           (Re.finditer pattern (fst st)) acc)
      [(PatS.import_default_path, IDefault); (PatS.import_named_path, INamed)]
      [] in
  fold_left
    (fun '(content, changes) '(path, import_types) =>
       let module_name := Path.stem path in
       if mem_text module_name (map fst default_imports) then
         if has_type INamed import_types
            && negb (has_type IDefault import_types) then
           (Re.sub (PatS.import_named_of_from module_name path)
              (fun mt =>
                 txt "import " ++ module_name ++ txt " from '"
                 ++ Re.group 1 mt ++ txt "'")
              content,
            changes ++ [txt "Fixed named import to default: " ++ module_name])
         else (content, changes)
       else if mem_text module_name (map fst modern_imports) then
         if has_type IDefault import_types
            && negb (has_type INamed import_types) then
           (* the matches are those of the text at this point; the
              replacement is spliced in as it is written, backslash and
              digit included *)
           fold_left
             (fun '(content', changes) mt =>
                let import_name := Re.group 1 mt in
                let replacement :=
                  txt "import { " ++ module_name ++ txt " } from '\2'" in
                (take (Re.m_start mt) content' ++ replacement
                 ++ drop (Re.m_end mt) content',
                 changes ++ [txt "Fixed default import to named: "
                               ++ import_name ++ txt " -> " ++ module_name]))
             (Re.finditer (PatS.import_default_from path) content)
             (content, changes)
         else (content, changes)
       else (content, changes))
    imported_modules st.

(** [check_uicomponent_imports] *)
Definition check_uicomponent_imports (content filename : text)
  : text * list text :=
  if text_eqb (Path.name filename) (txt "UIComponent.js") then (content, [])
  else
    let st :=
      fold_left
        (fun '(content', changes) mt =>
           let import_path := Re.group 1 mt in
           let import_statement := Re.m_text mt in
           if Py.contains (txt "{") import_statement
              && Py.contains (txt "}") import_statement then
             let new_import :=
               if Py.contains (txt "as") import_statement then
                 match Re.search PatS.uicomponent_alias import_statement with
                 | Some alias_match =>
                     txt "import " ++ Re.group 1 alias_match ++ txt " from "
                     ++ Py.repr import_path
                 | None =>
                     txt "import UIComponent from " ++ Py.repr import_path
                 end
               else txt "import UIComponent from " ++ Py.repr import_path in
             (Py.replace import_statement new_import content',
              changes
              ++ [txt "Fixed UIComponent import to use default import"])
           else (content', changes))
        (Re.finditer PatS.import_uicomponent content) (content, []) in
    fold_left
      (fun '(content', changes) mt =>
         let imported_names := Py.strip (Re.group 1 mt) in
         let import_path := Re.group 2 mt in
         let import_statement := Re.m_text mt in
         match Re.match_ PatS.only_uicomponent imported_names with
         | Some _ =>
             let new_import :=
               txt "import UIComponent from " ++ Py.repr import_path in
             (Py.replace import_statement new_import content',
              changes
              ++ [txt "Fixed UIComponent path import to use default import"])
         | None => (content', changes)
         end)
      (Re.finditer PatS.import_from_uicomponent (fst st)) st.

(** ** The two import-side functions of [fix.py]

    [fix.py] is a shortened copy of [fix_imports.py].  Its export scanner
    ends with a look-behind of variable width, which [re] refuses to
    compile, so the functions of [fix.py] that scan exports raise on every
    text; the two functions below do not scan exports. *)

Module Abridged.

(** //.*$ with MULTILINE *)
Definition line_comment : Re.regex :=
  Re.seqs [Re.Lit (txt "//"); Re.Star Re.CDot; Re.EolM].

Definition find_all_imports (content : text) : imports :=
  let l_default :=
    map (fun mt =>
           Import (Re.group 1 mt) (Re.group 2 mt) (Re.m_start mt) (Re.m_end mt))
      (Re.finditer Pat.import_default content) in
  let l_named :=
    flat_map
      (fun mt =>
         let import_list :=
           Re.sub line_comment (fun _ => []) (Re.group 1 mt) in
         let path := Re.group 2 mt in
         let names :=
           filter (fun n => nonempty n = true)
             (map Py.strip (Py.split (txt ",") import_list)) in
         map (fun name =>
                let actual_name :=
                  Py.strip (default [] (head (Py.split (txt " as ") name))) in
                Import actual_name path (Re.m_start mt) (Re.m_end mt))
           names)
      (Re.finditer Pat.import_named content) in
  Imports l_default l_named.

Definition check_uicomponent_imports (content filename : text)
  : text * list text :=
  if text_eqb (Path.name filename) (txt "UIComponent.js") then (content, [])
  else
    fold_left
      (fun '(content', changes) mt =>
         let import_statement := Re.m_text mt in
         let import_path := Re.group 1 mt in
         if Py.contains (txt "{") import_statement then
           let alias := Re.search PatS.uicomponent_alias import_statement in
           let new_import :=
             txt "import "
             ++ from_option (Re.group 1) (txt "UIComponent") alias
             ++ txt " from " ++ Py.repr import_path in
           (Py.replace import_statement new_import content',
            changes ++ [txt "Fixed UIComponent import to default"])
         else (content', changes))
      (Re.finditer PatS.import_uicomponent content) (content, []).

End Abridged.

(** ** Cross-file consistency pass *)

Inductive style : Type := StyleNamed | StyleDefault.

(** [resolve_import_path] *)
Definition resolve_import_path (source_file import_path : text) : text :=
  if Py.startswith (txt "./") import_path
     || Py.startswith (txt "../") import_path then
    let source_dir := Path.dirname source_file in
    let absolute_path := Path.normpath (Path.join source_dir import_path) in
    if negb (Py.endswith (txt ".js") absolute_path)
    then absolute_path ++ txt ".js"
    else absolute_path
  else import_path.

(** The counts [{"named": n, "default": d}] of one module path. *)
Record counts : Type := Counts { c_named : nat; c_default : nat }.

Definition bump (t : import_type) (o : option counts) : option counts :=
  let c := default (Counts 0 0) o in
  Some match t with
       | IDefault => Counts (c_named c) (S (c_default c))
       | INamed => Counts (S (c_named c)) (c_default c)
       end.

(** The tally of one file's imports, added to [import_styles]. *)
Definition tally_file (js_file content : text)
    (import_styles : gmap text counts) : gmap text counts :=
  let imports := find_all_imports content in
  let count t :=
    fold_left
      (fun acc item =>
         partial_alter (bump t)
           (resolve_import_path js_file (i_path item)) acc) in
  count INamed (i_named imports) (count IDefault (i_default imports) import_styles).

(** The style decided for one module path from its counts. *)
Definition dominant_style (c : counts) : style :=
  if c_default c <? c_named c then StyleNamed
  else if 0 <? c_default c then StyleDefault
  else StyleNamed.

(** The files of the tree: path to content.  A path that is not in the map
    cannot be read. *)
Abbreviation files := (gmap text text).

(** The first pass of [analyze_import_export_relationships]. *)
Definition import_tally (fs : files) (js_files : list text)
  : gmap text counts :=
  fold_left
    (fun import_styles js_file =>
       match fs !! js_file with
       | Some content => tally_file js_file content import_styles
       | None => import_styles
       end)
    js_files ∅.

Definition analyze_import_export_relationships (fs : files)
    (js_files : list text) : gmap text style :=
  dominant_style <$> import_tally fs js_files.

(** [fix_import_export_mismatches] *)
Definition fix_import_export_mismatches (content file_path : text)
    (export_style_map : gmap text style) : text * list text :=
  match export_style_map !! file_path with
  | None => (content, [])
  | Some StyleNamed =>
      let exports := find_all_exports content in
      fold_left
        (fun '(content, changes) d =>
           let name := d_name d in
           if text_eqb name anonymous then (content, changes)
           else if negb (has_name name (e_destructured exports)) then
             let content :=
               Re.sub (PatS.export_default_named name)
                 (fun _ => txt "export { " ++ name ++ txt " };") content in
             let content :=
               Re.sub (PatS.export_default_class_named name)
                 (fun _ => txt "export class " ++ name) content in
             let content :=
               Re.sub (PatS.export_default_function_named name)
                 (fun _ => txt "export function " ++ name) content in
             (content,
              changes
              ++ [txt "Converted default export to named export: " ++ name])
           else (content, changes))
        (e_default exports) (content, [])
  | Some StyleDefault =>
      let exports := find_all_exports content in
      let file_name := Path.basename file_path in
      let base_name := Path.splitext_root file_name in
      let candidates :=
        e_class exports ++ e_function exports ++ e_destructured exports in
      if has_name base_name candidates && nonempty base_name then
        let main_export := base_name in
        let has_default := negb (is_nil (e_default exports)) in
        if has_default then (content, [])
        else
          match Re.search (PatS.export_class_named main_export) content,
                Re.search (PatS.export_function_named main_export) content
          with
          | Some _, _ =>
              (Re.sub (PatS.export_class_named main_export)
                 (fun _ => txt "export default class " ++ main_export) content,
               [txt "Converted named class export to default: "
                  ++ main_export])
          | None, Some _ =>
              (Re.sub (PatS.export_function_named main_export)
                 (fun _ => txt "export default function " ++ main_export)
                 content,
               [txt "Converted named function export to default: "
                  ++ main_export])
          | None, None =>
              if has_name main_export (e_destructured exports) then
                let '(content, named_changes) :=
                  _remove_named_export content main_export in
                (Py.rstrip content ++ [NL; NL] ++ txt "export default "
                   ++ main_export ++ txt ";" ++ [NL],
                 named_changes
                 ++ [txt "Added default export for " ++ main_export])
              else (content, [])
          end
      else (content, [])
  end.

(** ** The driver *)

Record args : Type := Args {
  dry_run : bool;
  fix_duplicates_only : bool;
  skip_ui_component : bool
}.

Definition keep_as_default_exports : list text :=
  map txt ["UIComponent"; "World"; "main"]%string.

Definition should_be_named_exports : list text :=
  map txt
    ["CONFIG"; "UIConfig"; "AssetManager"; "TargetSystem"; "WeatherSystem";
     "EnvironmentSystem"; "MenuSystem"; "ScreenManager"; "MissionBriefing";
     "RoundSummary"; "ScreenEffects"; "HitIndicator"; "Feature"; "Sky";
     "EnhancedSky"; "Enemy"; "Player"; "Level"; "Weapon"; "Bullet"; "Blaster";
     "Shotgun"; "AssaultRifle"; "HealthPack"; "Item"; "WeaponItem";
     "Projectile"; "CombatSystem"; "HUDSystem"; "NotificationSystem";
     "ProgressionSystem"; "MovementSystem"; "DOMFactory"; "EventManager";
     "InputHandler"]%string.

(** [{name: f'import {{ {name} }} from' for name in should_be_named}] *)
Definition modern_import_fixes (should_be_named : list text)
  : list (text * text) :=
  map (fun name => (name, txt "import { " ++ name ++ txt " } from"))
    should_be_named.

(** [{name: f'import {name} from' for name in keep_as_default}] *)
Definition keep_default_imports (keep_as_default : list text)
  : list (text * text) :=
  map (fun name => (name, txt "import " ++ name ++ txt " from"))
    keep_as_default.

(** The passes over one file's text, in the order of the loop of [main]:
    duplicates, exports, imports, UIComponent imports, cross-file
    mismatches, doubled semicolons. *)
Definition process_file (a : args) (keep_as_default should_be_named : list text)
    (export_style_map : gmap text style) (js_file content : text)
  : text * list text :=
  let name := Path.name js_file in
  let '(content, all_changes) := remove_duplicate_exports content in
  let '(content, all_changes) :=
    if negb (fix_duplicates_only a) then
      let '(content, export_changes) :=
        modernize_exports content name keep_as_default should_be_named in
      let '(content, import_changes) :=
        fix_imports content (modern_import_fixes should_be_named)
          (keep_default_imports keep_as_default) name in
      (content, all_changes ++ export_changes ++ import_changes)
    else (content, all_changes) in
  let '(content, all_changes) :=
    if negb (skip_ui_component a) then
      let '(content, ui_changes) := check_uicomponent_imports content name in
      (content, all_changes ++ ui_changes)
    else (content, all_changes) in
  let '(content, mismatch_changes) :=
    fix_import_export_mismatches content js_file export_style_map in
  let all_changes := all_changes ++ mismatch_changes in
  if Py.contains (txt ";;") content then
    (collapse_semis content, all_changes ++ [txt "Double semicolons fixed"])
  else (content, all_changes).

(** The handling of UIComponent.js that [main] runs before the analysis:
    the file gets a default export when it has none. *)
Definition ensure_uicomponent_default (a : args) (js_files : list text)
    (fs : files) : files :=
  match
    head (filter (fun f => text_eqb (Path.name f) (txt "UIComponent.js") = true)
            js_files)
  with
  | Some ui_component_file =>
      if fix_duplicates_only a then fs
      else
        match fs !! ui_component_file with
        | Some content =>
            match Re.search PatS.export_default_any content with
            | Some _ => fs
            | None =>
                let rewritten :=
                  if Py.contains (txt "class UIComponent") content
                     && negb (Py.contains (txt "export class UIComponent")
                                content)
                  then
                    Some (Py.rstrip content ++ [NL; NL]
                          ++ txt "export default UIComponent;" ++ [NL])
                  else if Py.contains (txt "export class UIComponent") content
                  then
                    Some (Py.replace (txt "export class UIComponent")
                            (txt "export default class UIComponent") content)
                  else None in
                match rewritten with
                | Some content' =>
                    if dry_run a then fs
                    else <[ui_component_file := content']> fs
                | None => fs
                end
            end
        | None => fs
        end
  | None => fs
  end.

(** The loop of [main] over the files, the map built by the analysis in
    hand. *)
Definition process_all (a : args) (export_style_map : gmap text style)
    (js_files : list text) (fs : files) : files :=
  fold_left
    (fun fs js_file =>
       match fs !! js_file with
       | Some original_content =>
           let '(content, _) :=
             process_file a keep_as_default_exports should_be_named_exports
               export_style_map js_file original_content in
           if negb (text_eqb content original_content) && negb (dry_run a)
           then <[js_file := content]> fs
           else fs
       | None => fs
       end)
    js_files fs.

(** What [main] does to the tree, together with the map it worked with. *)
Definition main (a : args) (js_files : list text) (fs : files)
  : files * gmap text style :=
  let fs1 := ensure_uicomponent_default a js_files fs in
  let export_style_map := analyze_import_export_relationships fs1 js_files in
  (process_all a export_style_map js_files fs1, export_style_map).

(** ** Vocabulary of the statements *)

(** A text given line by line; [blank] is an empty line, and as the last
    entry the newline that ends the text. *)
Definition blank : string := EmptyString.

Definition lines (l : list string) : text := Py.join [NL] (map txt l).

#[global] Instance export_type_eq_dec : EqDecision export_type.
Proof. solve_decision. Defined.

(** A file that exports two symbols twice each, the first of the four lines
    longer than the others. *)
Definition two_duplicated_symbols : text :=
  lines ["export default Alpha; // kept for old callers";
         "export const Alpha = 1;";
         "export default Beta;";
         "export const Beta = 2;";
         "console.log(Alpha, Beta);";
         blank].

(** Five files that import one module, three by name and two as default. *)
Definition five_importers : files :=
  list_to_map
    [(txt "src/a.js", lines ["import { Sky } from './sky';"]);
     (txt "src/b.js", lines ["import { Sky } from './sky';"]);
     (txt "src/ui/c.js", lines ["import { Sky } from '../sky.js';"]);
     (txt "src/d.js", lines ["import Sky from './sky';"]);
     (txt "src/e.js", lines ["import Sky from './sky';"])].

Definition five_importers_paths : list text :=
  map txt ["src/a.js"; "src/b.js"; "src/ui/c.js"; "src/d.js"; "src/e.js"]%string.

Definition run_args : args := Args false false false.


(** The change record of the UIComponent pass. *)
Definition ui_change : text :=
  txt "Fixed UIComponent import to use default import".

(** A non-empty run of word characters. *)
Definition is_identifier (s : text) : bool :=
  nonempty s && forallb Chr.is_word s.

Definition is_quote (c : ascii) : bool :=
  Re.cset_mem (Re.COneOf (txt "'" ++ [ascii_of_nat 34])) c.

(** A non-empty text without a quote character. *)
Definition is_quoted_body (s : text) : bool :=
  nonempty s && forallb (fun c => negb (is_quote c)) s.

(** A non-empty text without a quote or a white space character. *)
Definition is_plain_path (s : text) : bool :=
  nonempty s
  && forallb (fun c => negb (is_quote c) && negb (Chr.is_space c)) s.

(** The character classes a match of a pattern has to read, in order: a
    necessary condition for a match, used to show that a text has none. *)
Fixpoint musts (re : Re.regex) : list Re.cset :=
  match re with
  | Re.Lit s => map (fun c => Re.COneOf [c]) s
  | Re.Cls cs => [cs]
  | Re.Seq r1 r2 => musts r1 ++ musts r2
  | Re.Group _ r => musts r
  | _ => []
  end.

(** [embeds ps s]: [s] has characters of the classes [ps], in order. *)
Fixpoint embeds (ps : list Re.cset) (s : text) {struct s} : bool :=
  match ps, s with
  | [], _ => true
  | _ :: _, [] => false
  | p :: ps', c :: s' =>
      if Re.cset_mem p c then embeds ps' s' else embeds ps s'
  end.

(** The classes still to be read after [u] has been read. *)
Fixpoint residual (ps : list Re.cset) (u : text) {struct u} : list Re.cset :=
  match ps, u with
  | [], _ => []
  | _ :: _, [] => ps
  | p :: ps', c :: u' =>
      if Re.cset_mem p c then residual ps' u' else residual ps u'
  end.

(** The classes the word import has to meet. *)
Definition import_word : list Re.cset := musts (Re.Lit (txt "import")).

(** Scenario A of the specification: its input, the text with the default
    export made a named one, and a tree in which the file is imported as
    default by another file. *)
Definition scenario_a : text := lines ["export default Foo;"; "class Foo {}"].

Definition scenario_a_out : text := lines ["export { Foo };"; "class Foo {}"].

Definition scenario_a_tree : files :=
  list_to_map
    [(txt "src/Foo.js", scenario_a);
     (txt "src/app.js", lines ["import Foo from './Foo';"; "new Foo();"])].

Definition scenario_a_paths : list text :=
  [txt "src/Foo.js"; txt "src/app.js"].

(** A class repetition stops in front of [r]. *)
Definition stops (cs : Re.cset) (r : text) : bool :=
  match r with
  | [] => true
  | c :: _ => negb (Re.cset_mem cs c)
  end.

(** Start offsets never grow along the list. *)
Definition descending (l : list position) : Prop :=
  forall i j a b, i <= j -> l !! i = Some a -> l !! j = Some b ->
                  p_start b <= p_start a.

(** ** Vocabulary of the further properties *)

Definition records_of (t : import_type) (i : imports) : list import_decl :=
  match t with IDefault => i_default i | INamed => i_named i end.

(** The imports of kind [t] in one file that resolve to [module_path]. *)
Definition file_uses (t : import_type) (js_file content module_path : text)
  : nat :=
  length
    (filter
       (fun item => resolve_import_path js_file (i_path item) = module_path)
       (records_of t (find_all_imports content))).

(** Their number over the files of the tree that can be read. *)
Definition uses (t : import_type) (fs : files) (js_files : list text)
    (module_path : text) : nat :=
  sum_list_with
    (fun js_file =>
       match fs !! js_file with
       | Some content => file_uses t js_file content module_path
       | None => 0
       end)
    js_files.

(** The entry of a module path with [n] named and [d] default imports. *)
Definition entry (n d : nat) : option counts :=
  if n + d =? 0 then None else Some (Counts n d).

(** [import_path.startswith('./') or import_path.startswith('../')] *)
Definition is_relative (import_path : text) : bool :=
  Py.startswith (txt "./") import_path || Py.startswith (txt "../") import_path.

(** A last component of a specifier that names a module without its
    extension: not empty, no slash, neither of the two dot components, and
    not ending in .js. *)
Definition is_module_name (x : text) : bool :=
  nonempty x
  && forallb (fun c => negb (Chr.eqb Path.slash c)) x
  && negb (text_eqb x (txt "."))
  && negb (text_eqb x (txt ".."))
  && negb (Py.endswith (txt ".js") x).

(** Spans [(start, end)] that are not empty, lie between [lo] and [hi], come
    in text order and do not overlap. *)
Fixpoint spans_from (lo hi : nat) (l : list (nat * nat)) : Prop :=
  match l with
  | [] => True
  | (a, b) :: l' => lo <= a /\ a < b /\ b <= hi /\ spans_from b hi l'
  end.

Definition span (d : decl) : nat * nat := (d_start d, d_end d).

Definition m_span (mt : Re.rmatch) : nat * nat := (Re.m_start mt, Re.m_end mt).

(** What a successful run hands to its continuation: the Re.cursor after a
    prefix [u] of the text, which holds the characters the pattern has to
    read. *)
Definition consumed (ps : list Re.cset) (st st' : Re.cursor) : Prop :=
  exists u, Re.rest st = u ++ Re.rest st' /\ Re.pos st' = Re.pos st + length u
            /\ embeds ps u = true.

Definition well_formed (p : position) : Prop := p_start p <= p_end p.

Definition semi : ascii := ";"%char.

(** The rank of a kind in the resolver's order of preference. *)
Definition rank (t : export_type) : nat :=
  match t with
  | Class => 4 | Function => 3 | Const => 2 | Destructured => 1
  | Default | Named => 0
  end.

(** A pattern that fails on [r] before it hands over to what follows. *)
Definition dead (re : Re.regex) (r : text) : Prop :=
  forall (A : Type) (k : Re.cursor -> option A) p pv cp,
    Re.run re k (Re.Cursor p pv r cp) = None.

(** A text in which a pattern has no match, from any offset. *)
Definition no_match (re : Re.regex) (r : text) : Prop :=
  forall skip p pv, Re.scan re skip p pv r = [].

(** A path as it is written between the quotes of an import statement:
    not empty, without quote, white space or opening brace. *)
Definition is_module_path (s : text) : bool :=
  is_plain_path s && forallb (fun c => negb (Chr.eqb "{" c)) s.

(** What follows the word import in a pattern: white space or an opening
    brace. *)
Definition after_import (re : Re.regex) : Prop :=
  forall c r, Chr.is_space c = false -> Chr.eqb "{" c = false ->
              dead re (c :: r).

(** Two statements: a default import and a named import of [X] from
    the path [P], followed by the rest of the file. *)
Definition default_import (X P tl : text) (q : ascii) : text :=
  txt "import " ++ X ++ txt " from " ++ q :: P ++ q :: tl.

Definition named_import (X P tl : text) (q : ascii) : text :=
  txt "import { " ++ X ++ txt " } from " ++ q :: P ++ q :: tl.

(** The default import as a whole, up to the closing quote. *)
Definition default_statement (X P : text) (q : ascii) : text :=
  txt "import " ++ X ++ txt " from " ++ q :: P ++ [q].

Definition named_statement (X P : text) (q : ascii) : text :=
  txt "import { " ++ X ++ txt " } from " ++ q :: P ++ [q].

(** The step of the first and of the second loop of [fix_imports]. *)
Definition modern_step
  : text * list text -> text * text -> text * list text :=
  fun '(content, changes) '(module_name, correct_import) =>
  match Re.search (PatS.import_default_of module_name) content with
  | Some _ =>
      (Re.sub (PatS.import_default_of module_name) (fun _ => correct_import)
         content,
       changes ++ [txt "Import modernized: " ++ module_name])
  | None => (content, changes)
  end.

Definition default_step
  : text * list text -> text * text -> text * list text :=
  fun '(content, changes) '(module_name, correct_import) =>
  match Re.search (PatS.import_named_of module_name) content with
  | Some _ =>
      (Re.sub (PatS.import_named_of module_name) (fun _ => correct_import)
         content,
       changes ++ [txt "Base class import fixed: " ++ module_name])
  | None => (content, changes)
  end.

(** A text that is empty or ends with a newline: what follows it starts a
    line. *)
Definition ends_line (pre : text) : bool :=
  negb (nonempty pre) || Py.endswith [NL] pre.

(** A text that starts with a character that is not a word character. *)
Definition starts_non_word (s : text) : bool :=
  match s with
  | c :: _ => negb (Chr.is_word c)
  | [] => false
  end.

(** [mentions l re]: every match of [re] reads the characters of [l] in a
    row. *)
Fixpoint mentions (l : text) (re : Re.regex) : bool :=
  match re with
  | Re.Lit s => Py.contains l s
  | Re.Seq r1 r2 => mentions l r1 || mentions l r2
  | Re.Alt r1 r2 => mentions l r1 && mentions l r2
  | Re.Group _ r => mentions l r
  | _ => false
  end.

(** [reads st st']: the cursor [st'] is further on in the text than [st],
    and the groups captured between the two are pieces of the text. *)
Definition reads (st st' : Re.cursor) : Prop :=
  (exists u, Re.rest st = u ++ Re.rest st')
  /\ forall n s, (n, s) ∈ Re.caps st' ->
                 (n, s) ∈ Re.caps st \/ Py.contains s (Re.rest st) = true.

(** ** Two more functions of [fix.py]

    [_remove_named_export] and [fix_imports] of [fix.py] do not scan
    exports either.  The first differs from the one of [fix_imports.py] in
    the names it reads from a list (blank entries are dropped) and in the
    statement it writes; the second has the two loops of [fix_imports.py],
    followed by a consolidation of its own over the imports of the text it
    was called with. *)

Module AbridgedFixers.

(** import\s*{\s*NAME\s*}\s+from\s+Q PATH Q, PATH escaped *)
Definition import_named_at (name path : text) : Re.regex :=
  Re.seqs [Re.Lit (txt "import"); Pat.ws; Re.Lit (txt "{"); Pat.ws;
           Re.Lit name; Pat.ws; Re.Lit (txt "}"); Pat.ws1;
           Re.Lit (txt "from"); Pat.ws1; Pat.quote; Re.Lit path; Pat.quote].

(** import\s+NAME\s+from\s+Q PATH Q, PATH escaped *)
Definition import_default_at (name path : text) : Re.regex :=
  Re.seqs [Re.Lit (txt "import"); Pat.ws1; Re.Lit name; Pat.ws1;
           Re.Lit (txt "from"); Pat.ws1; Pat.quote; Re.Lit path; Pat.quote].

Definition remove_named_step (name : text) (st : text * list text)
    (mt : Re.rmatch) : text * list text :=
  let '(content, changes) := st in
  let export_list := Re.group 1 mt in
  let names :=
    filter (fun n => nonempty n = true)
      (map Py.strip (Py.split (txt ",") export_list)) in
  if mem_text name names then
    if length names =? 1 then
      (take (Re.m_start mt) content ++ drop (Re.m_end mt) content,
       changes ++ [txt "Removed named export for " ++ name])
    else
      let new_export :=
        txt "export {"
        ++ Py.join (txt ",") (filter (fun n => text_eqb n name = false) names)
        ++ txt "};" in
      (take (Re.m_start mt) content ++ new_export
       ++ drop (Re.m_end mt) content,
       changes ++ [txt "Removed " ++ name ++ txt " from named exports"])
  else (content, changes).

Definition _remove_named_export (content name : text) : text * list text :=
  fold_left (remove_named_step name)
    (Re.finditer Pat.export_braces content) (content, []).

(** [import_groups.setdefault(path, []).append(e)], a new path going to
    the end. *)
Fixpoint add_import (path : text) (e : import_type * text)
    (l : list (text * list (import_type * text)))
  : list (text * list (import_type * text)) :=
  match l with
  | [] => [(path, [e])]
  | (p, es) :: l' =>
      if text_eqb p path then (p, es ++ [e]) :: l'
      else (p, es) :: add_import path e l'
  end.

(** A replacement that [re.sub] takes as it is written: one without a
    backslash. *)
Definition plain_template (repl : text) : bool :=
  negb (Chr.mem (ascii_of_nat 92) repl).

(** One entry of a group in the consolidation: the substitution is made,
    and the change recorded, whether or not the pattern has a match.
    [None] stands for a replacement that holds a backslash, which [re.sub]
    would interpret; the embedding does not follow it there. *)
Definition consolidate (pattern : Re.regex) (repl record module_name : text)
    (st : option (text * list text)) (e : import_type * text)
  : option (text * list text) :=
  match st with
  | None => None
  | Some (content, changes) =>
      if text_eqb (snd e) module_name then
        if plain_template repl then
          Some (Re.sub pattern (fun _ => repl) content, changes ++ [record])
        else None
      else Some (content, changes)
  end.

Definition fix_imports (content : text)
    (modern_imports default_imports : list (text * text)) (filename : text)
  : option (text * list text) :=
  let imports := Abridged.find_all_imports content in
  let st := fold_left modern_step modern_imports (content, []) in
  let st := fold_left default_step default_imports st in
  let import_groups :=
    fold_left
      (fun acc '(imp_type, imp_list) =>
         fold_left
           (fun acc i => add_import (i_path i) (imp_type, i_name i) acc)
           imp_list acc)
      [(IDefault, i_default imports); (INamed, i_named imports)] [] in
  fold_left
    (fun st '(path, imp_list) =>
       let module_name := Path.stem path in
       if mem_text module_name (map fst default_imports)
          && existsb (fun e => import_type_eqb (fst e) INamed) imp_list then
         fold_left
           (consolidate (import_named_at module_name path)
              (txt "import " ++ module_name ++ txt " from '" ++ path
               ++ txt "'")
              (txt "Fixed named import to default: " ++ module_name)
              module_name)
           imp_list st
       else if mem_text module_name (map fst modern_imports)
               && existsb (fun e => import_type_eqb (fst e) IDefault) imp_list
       then
         fold_left
           (consolidate (import_default_at module_name path)
              (txt "import { " ++ module_name ++ txt " } from '" ++ path
               ++ txt "'")
              (txt "Fixed default import to named: " ++ module_name)
              module_name)
           imp_list st
       else st)
    import_groups (Some st).

End AbridgedFixers.

(** [duplicates] of [remove_duplicate_exports]: the names declared more
    than once, with their declarations. *)
Definition duplicates (content : text) : list (text * list position) :=
  filter (fun entry => 1 < length (snd entry))
    (collect_exports (find_all_exports content)).

(** * Properties *)

Lemma chr_eqb_eq (a b : ascii) : Chr.eqb a b = true <-> a = b.
Proof. apply Ascii.eqb_eq. Qed.

Lemma chr_eqb_refl (a : ascii) : Chr.eqb a a = true.
Proof. by apply chr_eqb_eq. Qed.

Lemma text_eqb_eq (a b : text) : text_eqb a b = true <-> a = b.
Proof.
  revert b. induction a as [|x a IH]; intros [|y b]; simpl; try done.
  rewrite andb_true_iff, chr_eqb_eq, IH. split.
  - by intros [-> ->].
  - by intros [= -> ->].
Qed.

Lemma text_eqb_refl (a : text) : text_eqb a a = true.
Proof. by apply text_eqb_eq. Qed.

(** ** The duplicate resolver's choice of the declaration to keep *)

Section Selection.

Implicit Types (l : list position) (ts : list export_type).

Lemma export_type_eqb_eq (a b : export_type) :
  export_type_eqb a b = true <-> a = b.
Proof. destruct a, b; simpl; split; congruence. Qed.

Lemma index_of_Some t ts i :
  index_of t ts = Some i ->
  ts !! i = Some t /\ forall j, j < i -> ts !! j <> Some t.
Proof.
  revert i. induction ts as [|x ts IH]; intros i; simpl; [done|].
  destruct (export_type_eqb x t) eqn:E.
  - intros [= <-]. apply export_type_eqb_eq in E as ->.
    split; [done|]. intros j Hj. lia.
  - destruct (index_of t ts) as [i'|]; simpl; [|done].
    intros [= <-]. destruct (IH i' eq_refl) as [H1 H2]. split; [done|].
    intros [|j] Hj; simpl.
    + intros [= ->]. destruct t; discriminate.
    + apply H2. lia.
Qed.

Lemma index_of_None t ts : index_of t ts = None <-> t ∉ ts.
Proof.
  induction ts as [|x ts IH]; simpl.
  - split; [intros _; apply not_elem_of_nil | done].
  - rewrite not_elem_of_cons.
    destruct (export_type_eqb x t) eqn:E.
    + apply export_type_eqb_eq in E as ->. split; [done | by intros [? _]].
    + assert (t <> x) as Hne.
      { intros ->. destruct x; discriminate. }
      destruct (index_of t ts); simpl.
      * split; [done|]. intros [_ Hn]. by apply IH in Hn.
      * split; [|done]. intros _. split; [done|]. by apply IH.
Qed.

Lemma index_of_elem t ts : t ∈ ts -> exists i, index_of t ts = Some i.
Proof.
  intros Hin. destruct (index_of t ts) as [i|] eqn:E; [eauto|].
  apply index_of_None in E. done.
Qed.

(** Skipping entry [k] of an enumeration is folding over the list without
    its [k]-th element. *)
Lemma fold_enumerate_skip {A St : Type} (f : St -> A -> St) (xs : list A) :
  forall (n k : nat) (st : St),
    fold_left (fun st '(i, x) => if i =? n + k then st else f st x)
      (enumerate_from n xs) st
    = fold_left f (delete k xs) st.
Proof.
  induction xs as [|x xs IH]; intros n k st; simpl; [done|].
  destruct k as [|k].
  - replace (n + 0) with n by lia. rewrite Nat.eqb_refl.
    clear IH. generalize (S n) (Nat.lt_succ_diag_r n). revert st.
    induction xs as [|y xs IH]; intros st m Hm; simpl; [done|].
    destruct (Nat.eqb_spec m n); [lia|]. apply IH. lia.
  - destruct (Nat.eqb_spec n (n + S k)); [lia|].
    replace (n + S k) with (S n + k) by lia. apply IH.
Qed.

Lemma resolve_name_removes name l st :
  resolve_name st (name, l)
  = fold_left (fun st p => remove_position name p st)
      (delete (keep_index (p_type <$> sort_desc l)) (sort_desc l)) st.
Proof.
  unfold resolve_name, enumerate.
  rewrite <- (fold_enumerate_skip (fun st p => remove_position name p st)
                (sort_desc l) 0).
  done.
Qed.

(** The sort is a stable descending sort. *)

Lemma insert_desc_perm x l : insert_desc x l ≡ₚ x :: l.
Proof.
  induction l as [|y l IH]; simpl; [done|].
  destruct (p_start y <=? p_start x); [done|].
  rewrite IH. apply Permutation_swap.
Qed.

Lemma sort_desc_perm l : sort_desc l ≡ₚ l.
Proof.
  induction l as [|x l IH]; simpl; [done|].
  rewrite insert_desc_perm. by rewrite IH.
Qed.

Lemma descending_cons x l :
  descending l -> (forall y, y ∈ l -> p_start y <= p_start x) ->
  descending (x :: l).
Proof.
  intros Hl Hx [|i] [|j] a b Hij; simpl; intros Ha Hb; simplify_eq.
  - done.
  - apply Hx. by eapply list_elem_of_lookup_2.
  - lia.
  - eapply (Hl i j); eauto. lia.
Qed.

Lemma descending_tail x l : descending (x :: l) -> descending l.
Proof.
  intros H i j a b Hij Ha Hb. apply (H (S i) (S j)); simpl; auto. lia.
Qed.

Lemma descending_head x l y :
  descending (x :: l) -> y ∈ l -> p_start y <= p_start x.
Proof.
  intros H [j Hj]%list_elem_of_lookup_1.
  apply (H 0 (S j)); simpl; auto. lia.
Qed.

Lemma insert_desc_descending x l :
  descending l -> descending (insert_desc x l).
Proof.
  induction l as [|y l IH]; intros Hl; simpl.
  - intros [|i] [|j] a b Hij; simpl; intros Ha Hb; simplify_eq. done.
  - destruct (Nat.leb_spec (p_start y) (p_start x)) as [Hle|Hlt].
    + apply descending_cons; [done|].
      intros z [->|Hz]%elem_of_cons; [done|].
      pose proof (descending_head _ _ _ Hl Hz). lia.
    + apply descending_cons.
      * apply IH. by eapply descending_tail.
      * intros z Hz. rewrite insert_desc_perm in Hz.
        apply elem_of_cons in Hz as [->|Hz]; [lia|].
        by eapply descending_head.
Qed.

Lemma sort_desc_descending l : descending (sort_desc l).
Proof.
  induction l as [|x l IH]; simpl.
  - intros i j a b _ Ha. by rewrite lookup_nil in Ha.
  - by apply insert_desc_descending.
Qed.

(** The head of the sorted list: the entry with the greatest start
    offset, the earliest of them in the given order. *)
Lemma sort_desc_head l :
  l <> [] ->
  exists p l1 l2,
    l = l1 ++ p :: l2 /\ head (sort_desc l) = Some p
    /\ (forall q, q ∈ l1 -> p_start q < p_start p)
    /\ (forall q, q ∈ l2 -> p_start q <= p_start p).
Proof.
  induction l as [|x l IH]; [done|]. intros _.
  destruct l as [|y l].
  - exists x, [], []. simpl. split_and!; [done|done|..];
      intros q Hq; by apply elem_of_nil in Hq.
  - destruct IH as (p & l1 & l2 & Heq & Hhd & H1 & H2); [done|].
    change (sort_desc (x :: y :: l)) with (insert_desc x (sort_desc (y :: l))).
    destruct (sort_desc (y :: l)) as [|z s]; [done|].
    simpl in Hhd. injection Hhd as ->. simpl.
    destruct (Nat.leb_spec (p_start p) (p_start x)) as [Hle|Hlt].
    + exists x, [], (y :: l). simpl. split_and!; [done|done|..].
      * intros q Hq; by apply elem_of_nil in Hq.
      * intros q Hq. rewrite Heq in Hq.
        apply elem_of_app in Hq as [Hq|Hq].
        -- apply H1 in Hq. lia.
        -- apply elem_of_cons in Hq as [->|Hq]; [done|].
           apply H2 in Hq. lia.
    + exists p, (x :: l1), l2. rewrite Heq. simpl. split_and!; [done|done|..].
      * intros q [->|Hq]%elem_of_cons; [done|]. by apply H1.
      * done.
Qed.

Lemma keep_index_same_kind t l :
  l <> [] -> (forall q, q ∈ l -> p_type q = t) ->
  keep_index (p_type <$> l) = 0.
Proof.
  intros Hne Hall. destruct l as [|x l]; [done|].
  assert (forall u, u <> t -> index_of u (p_type <$> (x :: l)) = None) as Hno.
  { intros u Hu. apply index_of_None.
    intros (q & -> & Hq)%list_elem_of_fmap. by apply Hall in Hq. }
  assert (index_of t (p_type <$> (x :: l)) = Some 0) as Hyes.
  { simpl. rewrite (Hall x) by apply list_elem_of_here.
    by rewrite (proj2 (export_type_eqb_eq t t)). }
  unfold keep_index.
  destruct t; rewrite ?Hyes; rewrite ?Hno by done; done.
Qed.

Lemma elem_of_delete_other {A : Type} (xs : list A) (k : nat) (p q : A) :
  xs !! k = Some p -> q ∈ xs -> q <> p -> q ∈ delete k xs.
Proof.
  intros Hk Hq Hne. rewrite (delete_Permutation _ _ _ Hk) in Hq.
  by apply elem_of_cons in Hq as [->|Hq].
Qed.

End Selection.

(** The choice among the entries of one symbol.  When a symbol has a
    const-form and a default declaration and neither a class nor a function
    export, the entry the resolver keeps is a const-form one, the one with
    the greatest start offset; every other entry, each default declaration
    among them, is handed to [remove_position]. *)
Lemma const_kept_default_removed (name : text) (positions : list position)
    (st : text * list text) :
  Const ∈ (p_type <$> positions) ->
  Class ∉ (p_type <$> positions) ->
  Function ∉ (p_type <$> positions) ->
  exists k p,
    keep_index (p_type <$> sort_desc positions) = k
    /\ sort_desc positions !! k = Some p
    /\ p_type p = Const
    /\ (forall q, q ∈ positions -> p_type q = Const -> p_start q <= p_start p)
    /\ (forall q, q ∈ positions -> p_type q = Default ->
                  q ∈ delete k (sort_desc positions))
    /\ resolve_name st (name, positions)
       = fold_left (fun st q => remove_position name q st)
           (delete k (sort_desc positions)) st.
Proof.
  intros Hconst Hclass Hfun.
  pose proof (sort_desc_perm positions) as Hperm.
  assert ((p_type <$> sort_desc positions) ≡ₚ (p_type <$> positions)) as Hpt
    by by apply fmap_Permutation.
  rewrite <- Hpt in Hconst, Hclass, Hfun.
  apply index_of_None in Hclass, Hfun.
  destruct (index_of_elem _ _ Hconst) as [k Hk].
  destruct (index_of_Some _ _ _ Hk) as [Hat Hfirst].
  apply list_lookup_fmap_Some in Hat as (p & Hp & Hty).
  exists k, p. split_and!.
  - unfold keep_index. by rewrite Hclass, Hfun, Hk.
  - done.
  - done.
  - intros q Hq Hqt. rewrite <- Hperm in Hq.
    apply list_elem_of_lookup_1 in Hq as [j Hj].
    destruct (Nat.le_gt_cases k j) as [Hle|Hlt].
    + by apply (sort_desc_descending positions k j).
    + exfalso. apply (Hfirst j Hlt).
      by rewrite list_lookup_fmap, Hj, <- Hqt.
  - intros q Hq Hqt. rewrite <- Hperm in Hq.
    eapply elem_of_delete_other; eauto. intros ->. congruence.
  - rewrite resolve_name_removes.
    unfold keep_index. by rewrite Hclass, Hfun, Hk.
Qed.

(** When all the entries of a symbol are of one kind, the entry the
    resolver keeps is the one with the greatest start offset (of several at
    one offset, the first in scan order); every other one is handed to
    [remove_position]. *)
Lemma same_kind_keep_index (name : text) (positions : list position)
    (t : export_type) (st : text * list text) :
  positions <> [] ->
  (forall q, q ∈ positions -> p_type q = t) ->
  exists p l1 l2,
    positions = l1 ++ p :: l2
    /\ (forall q, q ∈ l1 -> p_start q < p_start p)
    /\ (forall q, q ∈ l2 -> p_start q <= p_start p)
    /\ keep_index (p_type <$> sort_desc positions) = 0
    /\ head (sort_desc positions) = Some p
    /\ resolve_name st (name, positions)
       = fold_left (fun st q => remove_position name q st)
           (tail (sort_desc positions)) st.
Proof.
  intros Hne Hall.
  destruct (sort_desc_head positions Hne) as (p & l1 & l2 & Heq & Hhd & H1 & H2).
  assert (keep_index (p_type <$> sort_desc positions) = 0) as Hkeep.
  { apply (keep_index_same_kind t).
    - intros Hnil. by rewrite Hnil in Hhd.
    - intros q Hq. apply Hall. by rewrite <- (sort_desc_perm positions). }
  exists p, l1, l2. split_and!; try done.
  rewrite resolve_name_removes, Hkeep.
  by destruct (sort_desc positions).
Qed.

(** The priority among kinds: with a class export of the same symbol in the
    file, the const-form declaration is removed together with the default
    export. *)
Lemma const_removed_when_class_present :
  let content :=
    lines ["export class X {}"; "export const X = 1;"; "export default X;"] in
  has_name (txt "X") (e_default (find_all_exports content)) = true
  /\ has_name (txt "X") (e_const (find_all_exports content)) = true
  /\ remove_duplicate_exports content
     = (lines ["export class X {}"; blank],
        [txt "Removed duplicate default export of X";
         txt "Removed duplicate const export of X"])
  /\ has_name (txt "X")
       (e_const (find_all_exports (fst (remove_duplicate_exports content))))
     = false.
Proof. vm_compute. done. Qed.

(** With one duplicated symbol the priority holds: the default export
    goes, the const stays. *)
Example const_kept_in_two_line_file :
  remove_duplicate_exports (lines ["export default X;"; "export const X = 1;"])
  = (lines ["export const X = 1;"],
     [txt "Removed duplicate default export of X"]).
Proof. vm_compute. done. Qed.

(** C2.  With two duplicated symbols the priority of the const form over
    the default export is broken for the second one: each of [A] and [B]
    has a default and a const-form declaration, and the resolver, which
    says that it removes the default export of [B], removes the line of its
    const-form declaration and leaves the default export.  The offsets of
    [B] are those of the text before the line of [A] was removed. *)
Theorem priority_broken_for_second_symbol :
  let content :=
    lines ["export default A; // old"; "export const A = 1;";
           "export default B;"; "export const B = 2;"; blank] in
  let out := fst (remove_duplicate_exports content) in
  has_name (txt "B") (e_default (find_all_exports content)) = true
  /\ has_name (txt "B") (e_const (find_all_exports content)) = true
  /\ has_name (txt "B") (e_class (find_all_exports content)) = false
  /\ has_name (txt "B") (e_function (find_all_exports content)) = false
  /\ remove_duplicate_exports content
     = (lines ["export const A = 1;"; "export default B;"; blank],
        [txt "Removed duplicate default export of A";
         txt "Removed duplicate default export of B"])
  /\ has_name (txt "B") (e_const (find_all_exports out)) = false
  /\ has_name (txt "B") (e_default (find_all_exports out)) = true.
Proof. vm_compute. split_and!; reflexivity. Qed.


(** ** The duplicate resolver on whole files *)

(** With one duplicated name the resolver is the loop body [resolve_name]
    followed by the two clean-ups. *)
Lemma one_duplicated_name (content name : text) (positions : list position) :
  filter (fun entry => 1 < length (snd entry))
    (collect_exports (find_all_exports content)) = [(name, positions)] ->
  remove_duplicate_exports content
  = let '(content', changes) := resolve_name (content, []) (name, positions) in
    (collapse_blank_lines (collapse_semis content'), changes).
Proof. intros H. unfold remove_duplicate_exports. by rewrite H. Qed.

(** A text in which no name is declared twice comes back as it is. *)
Lemma no_duplicates_unchanged (content : text) :
  filter (fun entry => 1 < length (snd entry))
    (collect_exports (find_all_exports content)) = [] ->
  remove_duplicate_exports content = (content, []).
Proof. intros H. unfold remove_duplicate_exports. by rewrite H. Qed.

(** C5.  On [export {A, A};] the resolver takes both occurrences of [A] out
    of the statement and leaves an empty export list, with one change
    record. *)
Theorem duplicate_in_one_statement :
  remove_duplicate_exports (txt "export {A, A};")
  = (txt "export {};", [txt "Removed A from export statement"]).
Proof. vm_compute. done. Qed.

(** C1.  The offsets recorded for [Beta] are those of the text before the
    line of [Alpha] was removed; the first pass looks for the default export
    of [Beta] on the last line and leaves it, the second pass removes it.
    The other passes over the file change nothing in either run. *)
Theorem second_pass_changes_output :
  let first := remove_duplicate_exports two_duplicated_symbols in
  let second := remove_duplicate_exports (fst first) in
  let passes :=
    process_file run_args keep_as_default_exports should_be_named_exports ∅
      (txt "src/values.js") in
  first
  = (lines ["export const Alpha = 1;"; "export default Beta;";
            "export const Beta = 2;"; "console.log(Alpha, Beta);"; blank],
     [txt "Removed duplicate default export of Alpha"])
  /\ second
     = (lines ["export const Alpha = 1;"; "export const Beta = 2;";
               "console.log(Alpha, Beta);"; blank],
        [txt "Removed duplicate default export of Beta"])
  /\ fst second <> fst first
  /\ snd second <> []
  /\ passes two_duplicated_symbols = first
  /\ passes (fst first) = second.
Proof. vm_compute. split_and!; done. Qed.

(** C6.  An anonymous default export is recorded twice, once under the
    keyword that follows [default] and once under the anonymous marker.
    The cross-file pass skips the second record and rewrites the statement
    through the first; the duplicate resolver removes the first of two
    anonymous default exports. *)
Theorem anonymous_default_export_rewritten :
  let content := lines ["export default function(a) { return a; }"; blank] in
  let file := txt "src/util.js" in
  e_default (find_all_exports content)
  = [Decl (txt "function") 0 23; Decl anonymous 0 24]
  /\ fix_import_export_mismatches content file {[ file := StyleNamed ]}
     = (lines ["export { function };(a) { return a; }"; blank],
        [txt "Converted default export to named export: function"])
  /\ remove_duplicate_exports
       (lines ["export default function() {}"; "export default class {}"])
     = (lines ["export default class {}"],
        [txt "Removed duplicate default export of _anonymous_"]).
Proof. vm_compute. done. Qed.

(** ** The cross-file tally *)

Lemma analyze_lookup (fs : files) (js_files : list text) (module_path : text) :
  analyze_import_export_relationships fs js_files !! module_path
  = dominant_style <$> import_tally fs js_files !! module_path.
Proof. unfold analyze_import_export_relationships. apply lookup_fmap. Qed.

(** C7.  The style of a module path in the map of the analysis is decided
    by its two counts in the tally: named when the named count exceeds the
    default count, else default when the default count is positive, else
    named; three named against two default imports give named, a single
    default import gives default. *)
Theorem style_from_counts (fs : files) (js_files : list text)
    (module_path : text) (c : counts) :
  import_tally fs js_files !! module_path = Some c ->
  let decided :=
    analyze_import_export_relationships fs js_files !! module_path in
  (c_named c > c_default c -> decided = Some StyleNamed)
  /\ (c_named c <= c_default c -> c_default c > 0 ->
      decided = Some StyleDefault)
  /\ (c_named c <= c_default c -> c_default c = 0 ->
      decided = Some StyleNamed)
  /\ (c = Counts 3 2 -> decided = Some StyleNamed)
  /\ (c = Counts 0 1 -> decided = Some StyleDefault).
Proof.
  intros Hc decided. subst decided. rewrite analyze_lookup, Hc. simpl.
  unfold dominant_style.
  split_and!.
  - intros H. destruct (Nat.ltb_spec (c_default c) (c_named c)); [done|lia].
  - intros H1 H2.
    destruct (Nat.ltb_spec (c_default c) (c_named c)); [lia|].
    destruct (Nat.ltb_spec 0 (c_default c)); [done|lia].
  - intros H1 H2.
    destruct (Nat.ltb_spec (c_default c) (c_named c)); [lia|].
    destruct (Nat.ltb_spec 0 (c_default c)); [lia|done].
  - by intros ->.
  - by intros ->.
Qed.

Lemma style_from_counts_witness :
  import_tally five_importers five_importers_paths !! txt "src/sky.js"
  = Some (Counts 3 2)
  /\ analyze_import_export_relationships five_importers five_importers_paths
     !! txt "src/sky.js"
     = Some StyleNamed.
Proof.
  assert (import_tally five_importers five_importers_paths !! txt "src/sky.js"
          = Some (Counts 3 2)) as H by (vm_compute; reflexivity).
  split; [exact H|].
  exact (proj1 (proj2 (proj2 (proj2
           (style_from_counts five_importers five_importers_paths
              (txt "src/sky.js") (Counts 3 2) H)))) eq_refl).
Defined.

(** A module that is not in the tally has no style in the map. *)
Lemma style_absent (fs : files) (js_files : list text) (module_path : text) :
  import_tally fs js_files !! module_path = None ->
  analyze_import_export_relationships fs js_files !! module_path = None.
Proof. intros H. by rewrite analyze_lookup, H. Qed.

(** ** The order of the analysis in a run *)

Lemma ensure_uicomponent_default_other (a : args) (js_files : list text)
    (fs : files) (f : text) :
  Path.name f <> txt "UIComponent.js" ->
  ensure_uicomponent_default a js_files fs !! f = fs !! f.
Proof.
  intros Hf. unfold ensure_uicomponent_default.
  destruct (head _) as [ui|] eqn:Hhd; [|done].
  assert (Path.name ui = txt "UIComponent.js") as Hui.
  { apply head_Some_elem_of, list_elem_of_filter in Hhd as [Hhd _].
    by apply text_eqb_eq. }
  repeat case_match; try done.
  all: apply lookup_insert_ne; congruence.
Qed.

Lemma ensure_uicomponent_default_off (a : args) (js_files : list text)
    (fs : files) :
  dry_run a = true \/ fix_duplicates_only a = true ->
  ensure_uicomponent_default a js_files fs = fs.
Proof.
  intros H. unfold ensure_uicomponent_default.
  repeat case_match; try done; destruct H; congruence.
Qed.

Lemma ensure_uicomponent_default_absent (a : args) (js_files : list text)
    (fs : files) :
  (forall f, f ∈ js_files -> Path.name f <> txt "UIComponent.js") ->
  ensure_uicomponent_default a js_files fs = fs.
Proof.
  intros H. unfold ensure_uicomponent_default.
  destruct (head _) as [ui|] eqn:Hhd; [|done].
  apply head_Some_elem_of, list_elem_of_filter in Hhd as [Hname Hin].
  apply text_eqb_eq in Hname. by apply H in Hin.
Qed.

(** C8.  The map of styles a run works with is computed once,
    from the tree as the handling of UIComponent.js leaves it and before
    the loop over the files; that handling rewrites no file but
    UIComponent.js, and none at all in a dry run, when only duplicates are
    fixed or when the tree has no UIComponent.js, so that the map is then
    the one of the original tree. *)
Theorem tally_taken_after_uicomponent_handling (a : args)
    (js_files : list text) (fs : files) :
  snd (main a js_files fs)
  = analyze_import_export_relationships
      (ensure_uicomponent_default a js_files fs) js_files
  /\ (forall f, Path.name f <> txt "UIComponent.js" ->
                ensure_uicomponent_default a js_files fs !! f = fs !! f)
  /\ (dry_run a = true \/ fix_duplicates_only a = true
      \/ (forall f, f ∈ js_files -> Path.name f <> txt "UIComponent.js") ->
      snd (main a js_files fs)
      = analyze_import_export_relationships fs js_files).
Proof.
  split_and!.
  - done.
  - intros f. apply ensure_uicomponent_default_other.
  - intros H. simpl. destruct H as [H|[H|H]].
    + rewrite ensure_uicomponent_default_off; auto.
    + rewrite ensure_uicomponent_default_off; auto.
    + by rewrite ensure_uicomponent_default_absent.
Qed.

Lemma tally_taken_after_uicomponent_handling_witness :
  let a := Args true false false in
  let fs : files :=
    {[ txt "src/UIComponent.js" := lines ["export class UIComponent {}"] ]} in
  (dry_run a = true \/ fix_duplicates_only a = true
   \/ (forall f, f ∈ [txt "src/UIComponent.js"] ->
                 Path.name f <> txt "UIComponent.js"))
  /\ snd (main a [txt "src/UIComponent.js"] fs)
     = analyze_import_export_relationships fs [txt "src/UIComponent.js"].
Proof.
  intros a fs.
  assert (dry_run a = true \/ fix_duplicates_only a = true
          \/ (forall f, f ∈ [txt "src/UIComponent.js"] ->
                        Path.name f <> txt "UIComponent.js")) as H
    by (left; reflexivity).
  split; [exact H|].
  exact (proj2 (proj2 (tally_taken_after_uicomponent_handling a
                         [txt "src/UIComponent.js"] fs)) H).
Defined.

(** C8.  UIComponent.js is rewritten before the imports are tallied: a
    class export in it becomes a default export, and where that text stands
    in an import path the tally is that of the rewritten file. *)
Lemma tally_not_of_original_tree :
  let ui := txt "src/UIComponent.js" in
  let plain : files := {[ ui := lines ["export class UIComponent {}"] ]} in
  let odd : files :=
    {[ ui := lines ["import Base from './export class UIComponent';"] ]} in
  ensure_uicomponent_default run_args [ui] plain !! ui
  = Some (lines ["export default class UIComponent {}"])
  /\ analyze_import_export_relationships odd [ui]
     !! txt "src/export class UIComponent.js" = Some StyleDefault
  /\ snd (main run_args [ui] odd) !! txt "src/export class UIComponent.js"
     = None
  /\ snd (main run_args [ui] odd)
     <> analyze_import_export_relationships odd [ui].
Proof.
  intros ui plain odd.
  assert (analyze_import_export_relationships odd [ui]
            !! txt "src/export class UIComponent.js" = Some StyleDefault) as H1
    by (vm_compute; reflexivity).
  assert (snd (main run_args [ui] odd)
            !! txt "src/export class UIComponent.js" = None) as H2
    by (vm_compute; reflexivity).
  split_and!; [vm_compute; reflexivity|exact H1|exact H2|].
  intros Heq. rewrite Heq, H1 in H2. discriminate H2.
Qed.


(** ** Facts about the matcher *)

Section MatcherFacts.

Import Re.

Lemma strip_prefix_app (p s : text) : Py.strip_prefix p (p ++ s) = Some s.
Proof.
  induction p as [|c p IH]; simpl; [done|]. by rewrite chr_eqb_refl.
Qed.

Lemma strip_prefix_Some (p s r : text) :
  Py.strip_prefix p s = Some r -> s = p ++ r.
Proof.
  revert s. induction p as [|c p IH]; intros [|d s]; simpl; try congruence.
  destruct (Chr.eqb c d) eqn:E; [|done].
  apply chr_eqb_eq in E as ->. intros H. f_equal. by apply IH.
Qed.

Lemma last_or_app (pv : option ascii) (u v : text) :
  last_or (last_or pv u) v = last_or pv (u ++ v).
Proof.
  unfold last_or. rewrite last_app. by destruct (last v).
Qed.

Context {A : Type}.
Implicit Types (k : cursor -> option A) (cs : cset) (a : A).

Lemma run_seq r1 r2 k st : run (Seq r1 r2) k st = run r1 (run r2 k) st.
Proof. done. Qed.

Lemma run_lit_app l k p pv r cp :
  run (Lit l) k (Cursor p pv (l ++ r) cp)
  = k (Cursor (p + length l) (last_or pv l) r cp).
Proof. simpl. by rewrite strip_prefix_app. Qed.

Lemma star_greedy_exact cs k p pv u r cp a :
  forallb (cset_mem cs) u = true ->
  stops cs r = true ->
  k (Cursor (p + length u) (last_or pv u) r cp) = Some a ->
  star_greedy cs k p pv (u ++ r) cp = Some a.
Proof.
  revert p pv. induction u as [|c u IH]; intros p pv Hu Hr Hk.
  - simpl in *. replace (p + 0) with p in Hk by lia.
    destruct r as [|d r]; simpl in *; [done|].
    apply negb_true_iff in Hr. by rewrite Hr.
  - simpl in Hu. apply andb_true_iff in Hu as [Hc Hu].
    simpl. rewrite Hc. rewrite (IH (S p) (Some c)); [done|done|done|].
    rewrite <- Hk. f_equal. f_equal; [simpl; lia|].
    change (c :: u) with ([c] ++ u). by rewrite <- last_or_app.
Qed.

Lemma run_star_exact cs k p pv u r cp a :
  forallb (cset_mem cs) u = true ->
  stops cs r = true ->
  k (Cursor (p + length u) (last_or pv u) r cp) = Some a ->
  run (Star cs) k (Cursor p pv (u ++ r) cp) = Some a.
Proof. apply star_greedy_exact. Qed.

Lemma run_plus_exact cs k p pv u r cp a :
  nonempty u = true ->
  forallb (cset_mem cs) u = true ->
  stops cs r = true ->
  k (Cursor (p + length u) (last_or pv u) r cp) = Some a ->
  run (Plus cs) k (Cursor p pv (u ++ r) cp) = Some a.
Proof.
  destruct u as [|c u]; [done|]. intros _ Hu Hr Hk.
  simpl in Hu. apply andb_true_iff in Hu as [Hc Hu].
  unfold Plus. rewrite run_seq. simpl. rewrite Hc.
  apply star_greedy_exact; [done|done|].
  rewrite <- Hk. f_equal. f_equal; [simpl; lia|].
  change (c :: u) with ([c] ++ u). by rewrite <- last_or_app.
Qed.

Lemma run_opt_take r k st a :
  run r k st = Some a -> run (Opt r) k st = Some a.
Proof. simpl. by intros ->. Qed.

Lemma run_opt_skip r k st a :
  run r k st = None -> k st = Some a -> run (Opt r) k st = Some a.
Proof. simpl. by intros ->. Qed.

End MatcherFacts.

(** ** Necessary conditions for a match *)

Section Embedding.

Import Re.

Implicit Types (ps qs : list cset) (s u r : text).

Lemma embeds_nil_l s : embeds [] s = true.
Proof. by destruct s. Qed.

Lemma embeds_tail_cons s :
  forall ps,
    (forall p, embeds (p :: ps) s = true -> embeds ps s = true)
    /\ (forall c, embeds ps s = true -> embeds ps (c :: s) = true).
Proof.
  induction s as [|d s IH]; intros ps.
  - split; [done|]. intros c. by destruct ps.
  - assert (forall p, embeds (p :: ps) (d :: s) = true ->
                      embeds ps (d :: s) = true) as Htail.
    { intros p. simpl. destruct (cset_mem p d).
      - apply IH.
      - intros H. apply (proj1 (IH ps)) in H. by apply IH. }
    split; [done|].
    intros c. destruct ps as [|p ps]; [done|].
    intros H. change (embeds (p :: ps) (c :: d :: s))
      with (if cset_mem p c then embeds ps (d :: s)
            else embeds (p :: ps) (d :: s)).
    destruct (cset_mem p c); [|done].
    destruct (IH ps) as [_ Hc]. destruct (IH (p :: ps)) as [Ht _].
    simpl in H. destruct (cset_mem p d).
    + by apply Hc.
    + apply Hc. by apply (proj1 (IH ps) p).
Qed.

Lemma embeds_cons ps c s : embeds ps s = true -> embeds ps (c :: s) = true.
Proof. apply embeds_tail_cons. Qed.

Lemma embeds_tail p ps s : embeds (p :: ps) s = true -> embeds ps s = true.
Proof. apply embeds_tail_cons. Qed.

Lemma embeds_app_l u ps r : embeds ps r = true -> embeds ps (u ++ r) = true.
Proof. induction u; simpl; [done|]. intros H. by apply embeds_cons, IHu. Qed.

Lemma embeds_drop qs ps s : embeds (qs ++ ps) s = true -> embeds ps s = true.
Proof.
  induction qs as [|q qs IH]; simpl; [done|].
  intros H. by apply IH, (embeds_tail q).
Qed.

Lemma embeds_take ps qs s : embeds (ps ++ qs) s = true -> embeds ps s = true.
Proof.
  revert ps. induction s as [|c s IH]; intros [|p ps]; simpl; try done.
  destruct (cset_mem p c); [apply IH | apply (IH (p :: ps))].
Qed.

Lemma embeds_cons_false ps c s :
  embeds ps (c :: s) = false -> embeds ps s = false.
Proof.
  intros H. destruct (embeds ps s) eqn:E; [|done].
  by rewrite (embeds_cons _ c _ E) in H.
Qed.

(** A predicate no character of [s] satisfies cannot be met. *)
Lemma embeds_absent p qs ps s :
  forallb (fun c => negb (cset_mem p c)) s = true ->
  embeds (qs ++ p :: ps) s = false.
Proof.
  revert qs. induction s as [|c s IH]; intros qs Hs.
  - by destruct qs.
  - simpl in Hs. apply andb_true_iff in Hs as [Hc Hs].
    apply negb_true_iff in Hc.
    destruct qs as [|q qs]; simpl.
    + rewrite Hc. by apply (IH []).
    + destruct (cset_mem q c); [by apply IH|]. by apply (IH (q :: qs)).
Qed.

Lemma embeds_skip p ps u r :
  forallb (fun c => negb (cset_mem p c)) u = true ->
  embeds (p :: ps) (u ++ r) = embeds (p :: ps) r.
Proof.
  induction u as [|c u IH]; simpl; [done|].
  intros [Hc Hu]%andb_true_iff. apply negb_true_iff in Hc.
  rewrite Hc. by apply IH.
Qed.

Lemma embeds_lit l ps r :
  embeds ps r = true ->
  embeds (map (fun c => COneOf [c]) l ++ ps) (l ++ r) = true.
Proof.
  intros H. induction l as [|c l IH]; simpl; [done|].
  unfold Chr.mem. simpl. by rewrite chr_eqb_refl.
Qed.

Context {A : Type}.
Implicit Types (k : cursor -> option A).

Lemma star_greedy_suffix cs k r :
  forall p pv cp a,
    star_greedy cs k p pv r cp = Some a ->
    exists st', k st' = Some a
                /\ forall ps, embeds ps (rest st') = true -> embeds ps r = true.
Proof.
  induction r as [|c r IH]; intros p pv cp a; simpl.
  - intros H. eauto.
  - destruct (cset_mem cs c); [|by eauto].
    destruct (star_greedy cs k (S p) (Some c) r cp) eqn:E.
    + intros [= ->]. destruct (IH _ _ _ _ E) as (st' & Hk & Hs).
      exists st'. split; [done|]. intros ps Hps. by apply embeds_cons, Hs.
    + eauto.
Qed.

Lemma star_lazy_suffix cs k r :
  forall p pv cp a,
    star_lazy cs k p pv r cp = Some a ->
    exists st', k st' = Some a
                /\ forall ps, embeds ps (rest st') = true -> embeds ps r = true.
Proof.
  induction r as [|c r IH]; intros p pv cp a; simpl.
  - destruct (k _) eqn:E; [|done]. intros [= ->]. eauto.
  - destruct (k _) eqn:E.
    + intros [= ->]. eauto.
    + destruct (cset_mem cs c); [|done].
      intros H. destruct (IH _ _ _ _ H) as (st' & Hk & Hs).
      exists st'. split; [done|]. intros ps Hps. by apply embeds_cons, Hs.
Qed.

End Embedding.

Lemma run_embeds {A : Type} (re : Re.regex) :
  forall (k : Re.cursor -> option A) (st : Re.cursor) (a : A),
    Re.run re k st = Some a ->
    exists st',
      k st' = Some a
      /\ forall ps, embeds ps (Re.rest st') = true ->
                    embeds (musts re ++ ps) (Re.rest st) = true.
Proof.
  revert A.
  induction re as [l|cs|cs|cs|r1 IH1 r2 IH2|r1 IH1 r2 IH2|r IH|n r IH| | | | ];
    intros A k st a; simpl.
  - destruct (Py.strip_prefix l (Re.rest st)) as [r'|] eqn:E; [|done].
    apply strip_prefix_Some in E. intros H. eexists. split; [exact H|].
    simpl. intros ps Hps. rewrite E. by apply embeds_lit.
  - destruct (Re.rest st) as [|c r'] eqn:E; [done|].
    destruct (Re.cset_mem cs c) eqn:Hc; [|done].
    intros H. eexists. split; [exact H|]. simpl. intros ps Hps.
    destruct ps; by rewrite Hc.
  - apply star_greedy_suffix.
  - apply star_lazy_suffix.
  - intros H. destruct (IH1 _ _ _ _ H) as (st1 & H1 & Hs1).
    destruct (IH2 _ _ _ _ H1) as (st2 & H2 & Hs2).
    exists st2. split; [done|]. intros ps Hps.
    rewrite <- app_assoc. by apply Hs1, Hs2.
  - destruct (Re.run r1 k st) eqn:E.
    + intros [= ->]. destruct (IH1 _ _ _ _ E) as (st' & Hk & Hs).
      exists st'. split; [done|]. intros ps Hps.
      by apply (embeds_drop (musts r1)), Hs.
    + intros H. destruct (IH2 _ _ _ _ H) as (st' & Hk & Hs).
      exists st'. split; [done|]. intros ps Hps.
      by apply (embeds_drop (musts r2)), Hs.
  - destruct (Re.run r k st) eqn:E.
    + intros [= ->]. destruct (IH _ _ _ _ E) as (st' & Hk & Hs).
      exists st'. split; [done|]. intros ps Hps.
      by apply (embeds_drop (musts r)), Hs.
    + eauto.
  - intros H. destruct (IH _ _ _ _ H) as (st' & Hk & Hs).
    eexists. split; [exact Hk|]. done.
  - destruct (Re.at_boundary st); [eauto|done].
  - destruct (Re.pos st =? 0); [eauto|done].
  - destruct (Re.rest st) as [|c [|d r']] eqn:E; try done.
    + intros H. exists st. rewrite E. eauto.
    + destruct (Chr.eqb c NL); [|done]. intros H. exists st. rewrite E. eauto.
  - destruct (Re.rest st) as [|c r'] eqn:E.
    + intros H. exists st. rewrite E. eauto.
    + destruct (Chr.eqb c NL); [|done]. intros H. exists st. rewrite E. eauto.
Qed.

Lemma match_at_embeds (re : Re.regex) p pv r mt :
  Re.match_at re p pv r = Some mt -> embeds (musts re) r = true.
Proof.
  unfold Re.match_at. intros H.
  destruct (run_embeds _ _ _ _ H) as (st' & _ & Hs).
  specialize (Hs [] (embeds_nil_l _)). by rewrite app_nil_r in Hs.
Qed.

Lemma match_at_no_embed (re : Re.regex) p pv r :
  embeds (musts re) r = false -> Re.match_at re p pv r = None.
Proof.
  intros H. destruct (Re.match_at re p pv r) eqn:E; [|done].
  apply match_at_embeds in E. congruence.
Qed.

Lemma scan_no_embed (re : Re.regex) r :
  embeds (musts re) r = false ->
  forall skip p pv, Re.scan re skip p pv r = [].
Proof.
  induction r as [|c r IH]; intros H skip p pv.
  - destruct skip; simpl; [|done]. by rewrite match_at_no_embed.
  - pose proof (embeds_cons_false _ _ _ H) as H'.
    destruct skip; simpl; [|by apply IH].
    rewrite match_at_no_embed by done. by apply IH.
Qed.

(** A text that does not hold the characters a pattern has to read has no
    match of it. *)
Lemma finditer_no_embed (re : Re.regex) s :
  embeds (musts re) s = false -> Re.finditer re s = [].
Proof. intros H. by apply scan_no_embed. Qed.

Lemma search_no_embed (re : Re.regex) s :
  embeds (musts re) s = false -> Re.search re s = None.
Proof. intros H. unfold Re.search. by rewrite finditer_no_embed. Qed.

Lemma sub_no_embed (re : Re.regex) repl s :
  embeds (musts re) s = false -> Re.sub re repl s = s.
Proof. intros H. unfold Re.sub. by rewrite finditer_no_embed. Qed.

(** ** Characters *)

Ltac by_cases_on_char c :=
  destruct c as [[] [] [] [] [] [] [] []]; vm_compute; try done.

Lemma word_not_space c : Chr.is_word c = true -> Chr.is_space c = false.
Proof. by_cases_on_char c. Qed.

Lemma word_not_quote c : Chr.is_word c = true -> is_quote c = false.
Proof. by_cases_on_char c. Qed.

Lemma quote_not_space c : is_quote c = true -> Chr.is_space c = false.
Proof. by_cases_on_char c. Qed.

Lemma word_not_brace c :
  Chr.is_word c = true -> Re.cset_mem Pat.not_brace c = true.
Proof. by_cases_on_char c. Qed.

Lemma space_not_brace c :
  Chr.is_space c = true -> Re.cset_mem Pat.not_brace c = true.
Proof. by_cases_on_char c. Qed.

Lemma word_not_slash c : Chr.is_word c = true -> Chr.eqb "/" c = false.
Proof. by_cases_on_char c. Qed.

Lemma word_not_comma c : Chr.is_word c = true -> Chr.eqb "," c = false.
Proof. by_cases_on_char c. Qed.

Lemma word_not_blank c : Chr.is_word c = true -> Chr.eqb " " c = false.
Proof. by_cases_on_char c. Qed.

Lemma forallb_impl {X : Type} (f g : X -> bool) (l : list X) :
  (forall x, f x = true -> g x = true) ->
  forallb f l = true -> forallb g l = true.
Proof.
  intros Hfg. induction l as [|x l IH]; simpl; [done|].
  intros [Hx Hl]%andb_true_iff. by rewrite (Hfg x Hx), IH.
Qed.

Lemma forallb_rev {X : Type} (f : X -> bool) (l : list X) :
  forallb f (rev l) = forallb f l.
Proof.
  induction l as [|x l IH]; simpl; [done|].
  rewrite forallb_app, IH. simpl. rewrite andb_true_r. apply andb_comm.
Qed.

Lemma forallb_neg_of_word (d : ascii) (X : text) :
  (forall c, Chr.is_word c = true -> Chr.eqb d c = false) ->
  forallb Chr.is_word X = true ->
  forallb (fun c => negb (Chr.eqb d c)) X = true.
Proof.
  intros Hd. apply forallb_impl. intros c Hc. by rewrite (Hd c Hc).
Qed.

(** ** Scans *)

Section ScanFacts.

Import Re.

Lemma run_group {A} n r (k : cursor -> option A) st :
  run (Group n r) k st
  = run r
      (fun st' =>
         k (Cursor (pos st') (prev st') (rest st')
              ((n, take (pos st' - pos st) (rest st)) :: caps st')))
      st.
Proof. done. Qed.

Lemma run_cls_cons {A} cs (k : cursor -> option A) p pv c r cp :
  cset_mem cs c = true ->
  run (Cls cs) k (Cursor p pv (c :: r) cp) = k (Cursor (S p) (Some c) r cp).
Proof. simpl. by intros ->. Qed.

Lemma run_cls_app {A} cs (k : cursor -> option A) p pv c r cp :
  cset_mem cs c = true ->
  run (Cls cs) k (Cursor p pv ([c] ++ r) cp) = k (Cursor (S p) (Some c) r cp).
Proof. apply run_cls_cons. Qed.

Lemma scan_past_end (re : regex) r :
  (forall p pv, match_at re p pv [] = None) ->
  forall skip p pv, length r <= skip -> scan re skip p pv r = [].
Proof.
  intros Hnil. induction r as [|c r IH]; intros skip p pv Hlen.
  - destruct skip; simpl; [|done]. by rewrite Hnil.
  - destruct skip as [|skip]; simpl in *; [lia|]. apply IH. lia.
Qed.

(** A match at offset 0 that ends with the text is the only match. *)
Lemma finditer_whole (re : regex) s mt :
  embeds (musts re) [] = false ->
  match_at re 0 None s = Some mt ->
  m_end mt = length s ->
  finditer re s = [mt].
Proof.
  intros Hnil Hm Hend. unfold finditer.
  assert (forall p pv, match_at re p pv [] = None) as Hno
    by (intros; by apply match_at_no_embed).
  destruct s as [|c s]; simpl.
  - by rewrite Hno in Hm.
  - rewrite Hm. f_equal. apply scan_past_end; [done|]. simpl in Hend. lia.
Qed.

Lemma scan_cons_none re p pv c r :
  match_at re p pv (c :: r) = None ->
  scan re 0 p pv (c :: r) = scan re 0 (S p) (Some c) r.
Proof. simpl. by intros ->. Qed.

Lemma scan_head re p pv r mt :
  match_at re p pv r = Some mt -> head (scan re 0 p pv r) = Some mt.
Proof. destruct r; simpl; by intros ->. Qed.

Lemma scan_ext (re1 re2 : regex) :
  (forall p pv r, match_at re1 p pv r = match_at re2 p pv r) ->
  forall r skip p pv, scan re1 skip p pv r = scan re2 skip p pv r.
Proof.
  intros H. induction r as [|c r IH]; intros skip p pv.
  - destruct skip; simpl; [|done]. by rewrite H.
  - destruct skip; simpl; [|apply IH]. rewrite H.
    destruct (match_at re2 p pv (c :: r)); by rewrite IH.
Qed.

Lemma embeds_app (ps : list cset) (u r : text) : embeds ps (u ++ r) = embeds (residual ps u) r.
Proof.
  revert ps. induction u as [|c u IH]; intros [|p ps]; simpl; try done.
  - by destruct r.
  - destruct (cset_mem p c); apply IH.
Qed.

(** With one character left to read after [e], a class that [e] lacks
    cannot be followed by further classes. *)
Lemma embeds_one_left (cs0 : cset) (qs ps : list cset) (e : text) (c : ascii) :
  forallb (fun x => negb (cset_mem cs0 x)) e = true ->
  ps <> [] ->
  embeds (qs ++ cs0 :: ps) (e ++ [c]) = false.
Proof.
  intros He Hps. revert qs. induction e as [|x e IH]; intros qs.
  - destruct qs as [|q qs]; simpl.
    + destruct (cset_mem cs0 c); by destruct ps.
    + destruct (cset_mem q c); by destruct qs.
  - simpl in He. apply andb_true_iff in He as [Hx He].
    apply negb_true_iff in Hx.
    destruct qs as [|q qs]; simpl.
    + rewrite Hx. by apply (IH He []).
    + destruct (cset_mem q x); [by apply IH|]. by apply (IH He (q :: qs)).
Qed.

Lemma absent_oneof (d : ascii) (s : text) :
  forallb (fun c => negb (Chr.eqb d c)) s = true ->
  forallb (fun c => negb (cset_mem (COneOf [d]) c)) s = true.
Proof.
  apply forallb_impl. intros c Hc. simpl. unfold Chr.mem. simpl.
  rewrite orb_false_r. unfold Chr.eqb in *. by rewrite Ascii.eqb_sym.
Qed.

Lemma stops_quote cs q r :
  (forall c, is_quote c = true -> cset_mem cs c = false) ->
  is_quote q = true -> stops cs ([q] ++ r) = true.
Proof. intros H Hq. simpl. by rewrite (H q Hq). Qed.

Lemma stops_not_quote q r : is_quote q = true -> stops Pat.not_quote (q :: r) = true.
Proof.
  intros Hq. unfold stops.
  change (cset_mem Pat.not_quote q) with (negb (is_quote q)). by rewrite Hq.
Qed.

End ScanFacts.

(** ** Facts about the string methods *)

Lemma startswith_cons_ne d sep c s :
  Chr.eqb d c = false -> Py.startswith (d :: sep) (c :: s) = false.
Proof. unfold Py.startswith. simpl. by intros ->. Qed.

Lemma startswith_app p s : Py.startswith p (p ++ s) = true.
Proof. unfold Py.startswith. by rewrite strip_prefix_app. Qed.

Lemma split_go_skip sep u :
  forall cur r, Py.split_go sep (length u) cur (u ++ r) = Py.split_go sep 0 cur r.
Proof. induction u as [|c u IH]; intros cur r; simpl; [by destruct r|]. apply IH. Qed.

Lemma split_go_accum d sep u :
  forallb (fun c => negb (Chr.eqb d c)) u = true ->
  forall cur r,
    Py.split_go (d :: sep) 0 cur (u ++ r)
    = Py.split_go (d :: sep) 0 (rev u ++ cur) r.
Proof.
  induction u as [|c u IH]; intros Hu cur r; [done|].
  simpl in Hu. apply andb_true_iff in Hu as [Hc Hu].
  apply negb_true_iff in Hc.
  change ((c :: u) ++ r) with (c :: (u ++ r)).
  cbn [Py.split_go]. rewrite (startswith_cons_ne _ _ _ _ Hc).
  rewrite IH by done. simpl. by rewrite <- app_assoc.
Qed.

Lemma split_go_at_sep d sep cur r :
  Py.split_go (d :: sep) 0 cur ((d :: sep) ++ r)
  = rev cur :: Py.split_go (d :: sep) 0 [] r.
Proof.
  change ((d :: sep) ++ r) with (d :: (sep ++ r)).
  cbn [Py.split_go].
  change (d :: sep ++ r) with ((d :: sep) ++ r). rewrite startswith_app.
  f_equal. simpl. rewrite Nat.sub_0_r. apply split_go_skip.
Qed.

Lemma split_go_end sep cur : Py.split_go sep 0 cur [] = [rev cur].
Proof. done. Qed.

Lemma split_absent d sep s :
  forallb (fun c => negb (Chr.eqb d c)) s = true ->
  Py.split (d :: sep) s = [s].
Proof.
  intros H. unfold Py.split.
  rewrite <- (app_nil_r s) at 1. rewrite split_go_accum by done.
  simpl. by rewrite app_nil_r, rev_involutive.
Qed.

Lemma split_once d sep u v :
  forallb (fun c => negb (Chr.eqb d c)) u = true ->
  forallb (fun c => negb (Chr.eqb d c)) v = true ->
  Py.split (d :: sep) (u ++ (d :: sep) ++ v) = [u; v].
Proof.
  intros Hu Hv. unfold Py.split.
  rewrite split_go_accum by done. rewrite split_go_at_sep.
  rewrite app_nil_r, rev_involutive. f_equal.
  by apply split_absent.
Qed.

Lemma lstrip_stop c s :
  Chr.is_space c = false -> Py.lstrip (c :: s) = c :: s.
Proof. simpl. by intros ->. Qed.

Lemma lstrip_spaces w s :
  forallb Chr.is_space w = true -> Py.lstrip (w ++ s) = Py.lstrip s.
Proof.
  induction w as [|c w IH]; simpl; [done|].
  intros [-> Hw]%andb_true_iff. by apply IH.
Qed.

Lemma rstrip_spaces s w :
  forallb Chr.is_space w = true -> Py.rstrip (s ++ w) = Py.rstrip s.
Proof.
  intros Hw. unfold Py.rstrip. rewrite rev_app_distr.
  rewrite lstrip_spaces; [done|]. by rewrite forallb_rev.
Qed.

Lemma rstrip_stop s c :
  Chr.is_space c = false -> Py.rstrip (s ++ [c]) = s ++ [c].
Proof.
  intros Hc. unfold Py.rstrip. rewrite rev_app_distr. simpl.
  rewrite Hc. simpl. by rewrite rev_involutive.
Qed.

Lemma identifier_inv (X : text) :
  is_identifier X = true ->
  forallb Chr.is_word X = true
  /\ (exists c X', X = c :: X' /\ Chr.is_word c = true)
  /\ (exists X' c, X = X' ++ [c] /\ Chr.is_word c = true).
Proof.
  unfold is_identifier. intros [Hne Hall]%andb_true_iff.
  split; [done|]. split.
  - destruct X as [|c X']; [done|]. simpl in Hall.
    apply andb_true_iff in Hall as [Hc _]. eauto.
  - destruct (exists_last (l:=X)) as (X' & c & ->); [by destruct X|].
    rewrite forallb_app in Hall. apply andb_true_iff in Hall as [_ Hc].
    simpl in Hc. rewrite andb_true_r in Hc. eauto.
Qed.

Lemma plain_path_inv P :
  is_plain_path P = true ->
  nonempty P = true
  /\ forallb (fun c => negb (is_quote c)) P = true
  /\ forallb (fun c => negb (Chr.is_space c)) P = true.
Proof.
  unfold is_plain_path. intros [Hne H]%andb_true_iff. split; [done|].
  split; (eapply forallb_impl; [|exact H]); simpl;
    intros c [H1 H2]%andb_true_iff; done.
Qed.

Lemma lstrip_identifier X s :
  is_identifier X = true -> Py.lstrip (X ++ s) = X ++ s.
Proof.
  intros (_ & (c & X' & -> & Hc) & _)%identifier_inv.
  apply lstrip_stop. by apply word_not_space.
Qed.

Lemma rstrip_identifier s Y :
  is_identifier Y = true -> Py.rstrip (s ++ Y) = s ++ Y.
Proof.
  intros (_ & _ & (Y' & c & -> & Hc))%identifier_inv.
  rewrite app_assoc. apply rstrip_stop. by apply word_not_space.
Qed.

Lemma strip_identifier X : is_identifier X = true -> Py.strip X = X.
Proof.
  intros HX. unfold Py.strip.
  rewrite <- (app_nil_r X) at 1. rewrite lstrip_identifier by done.
  rewrite app_nil_r. change X with ([] ++ X) at 1. by rewrite rstrip_identifier.
Qed.

Lemma contains_app_r p u r :
  Py.contains p r = true -> Py.contains p (u ++ r) = true.
Proof.
  intros H. induction u as [|c u IH]; simpl; [done|].
  rewrite IH. apply orb_true_r.
Qed.

Lemma replace_go_past old new s :
  forall skip, length s <= skip -> Py.replace_go old new skip s = [].
Proof.
  induction s as [|c s IH]; intros skip H; simpl; [done|].
  destruct skip; simpl in *; [lia|]. apply IH. lia.
Qed.

Lemma replace_self s new :
  nonempty s = true -> Py.replace s new s = new.
Proof.
  destruct s as [|c s]; [done|]. intros _. unfold Py.replace.
  cbn [Py.replace_go]. rewrite <- (app_nil_r (c :: s)) at 2.
  rewrite startswith_app. rewrite replace_go_past; [apply app_nil_r|].
  simpl. lia.
Qed.

Lemma repr_char_no_quote c :
  is_quote c = false ->
  forallb (fun x => negb (is_quote x)) (Py.repr_char c) = true.
Proof. by_cases_on_char c. Qed.

Lemma repr_body_no_quote P :
  forallb (fun x => negb (is_quote x)) P = true ->
  forallb (fun x => negb (is_quote x)) (concat (map Py.repr_char P)) = true.
Proof.
  induction P as [|c P IH]; simpl; [done|].
  intros [Hc HP]%andb_true_iff. apply negb_true_iff in Hc.
  rewrite forallb_app, (repr_char_no_quote c Hc). by apply IH.
Qed.

(** ** The import scanner *)

Section ImportScanner.

Import Re.

Lemma match_import_named (s1 g1 s2 s3 g2 : text) (q1 q2 : ascii) :
  forallb Chr.is_space s1 = true ->
  nonempty g1 = true -> forallb (cset_mem Pat.not_brace) g1 = true ->
  nonempty s2 = true -> forallb Chr.is_space s2 = true ->
  nonempty s3 = true -> forallb Chr.is_space s3 = true ->
  is_quote q1 = true -> is_quote q2 = true ->
  is_quoted_body g2 = true ->
  let s :=
    txt "import" ++ s1 ++ txt "{" ++ g1 ++ txt "}" ++ s2 ++ txt "from" ++ s3
    ++ [q1] ++ g2 ++ [q2] in
  match_at Pat.import_named 0 None s
  = Some (Match 0 (length s) s [(2, g2); (1, g1)]).
Proof.
  intros Hs1 Hg1 Hg1' Hs2 Hs2' Hs3 Hs3' Hq1 Hq2 Hg2 s.
  apply andb_true_iff in Hg2 as [Hg2 Hg2'].
  unfold match_at, Pat.import_named. cbn [seqs]. subst s.
  rewrite run_seq, run_lit_app.
  rewrite run_seq. apply run_star_exact; [done|done|].
  rewrite run_seq, run_lit_app.
  rewrite run_seq, run_group.
  apply run_plus_exact; [done|done|done|].
  cbn beta iota delta [pos prev rest caps].
  rewrite run_seq, run_lit_app.
  rewrite run_seq. apply run_plus_exact; [done|done|done|].
  rewrite run_seq, run_lit_app.
  rewrite run_seq. apply run_plus_exact; [done|done| |].
  { simpl. by rewrite (quote_not_space _ Hq1). }
  rewrite run_seq. unfold Pat.quote at 1. rewrite run_cls_app by exact Hq1.
  rewrite run_seq, run_group.
  apply run_plus_exact; [done| | |].
  { eapply forallb_impl; [|exact Hg2']. done. }
  { unfold stops. change (cset_mem Pat.not_quote q2) with (negb (is_quote q2)).
    by rewrite Hq2. }
  cbn beta iota delta [pos prev rest caps].
  unfold Pat.quote. rewrite run_cls_cons by exact Hq2.
  cbn beta iota delta [pos prev rest caps].
  rewrite (take_app_length' g2) by lia. rewrite (take_app_length' g1) by lia.
  f_equal. f_equal.
  - rewrite !length_app. simpl. lia.
  - apply take_ge. rewrite !length_app. simpl. lia.
Qed.

(** C9.  For an aliased named import the scanner records the
    imported name, the side before [as]; the local name is not recorded. *)
Theorem aliased_import_records_imported_name (X Y P : text) (q : ascii) :
  is_identifier X = true -> is_identifier Y = true ->
  is_quote q = true -> is_quoted_body P = true ->
  let statement :=
    txt "import { " ++ X ++ txt " as " ++ Y ++ txt " } from " ++ [q] ++ P
    ++ [q] in
  i_named (find_all_imports statement) = [Import X P 0 (length statement)].
Proof.
  intros HX HY Hq HP statement.
  destruct (identifier_inv X HX) as (HXw & _ & _).
  destruct (identifier_inv Y HY) as (HYw & _ & _).
  set (G1 := txt " " ++ X ++ txt " as " ++ Y ++ txt " ").
  assert (statement
          = txt "import" ++ txt " " ++ txt "{" ++ G1 ++ txt "}" ++ txt " "
            ++ txt "from" ++ txt " " ++ [q] ++ P ++ [q]) as Hs.
  { subst statement G1. cbn. rewrite <- !app_assoc. cbn.
    rewrite <- !app_assoc. reflexivity. }
  assert (forallb (cset_mem Pat.not_brace) G1 = true) as HG1.
  { subst G1. rewrite !forallb_app. 
    rewrite (forallb_impl _ _ _ word_not_brace HXw).
    by rewrite (forallb_impl _ _ _ word_not_brace HYw). }
  assert (finditer Pat.import_named statement
          = [Match 0 (length statement) statement [(2, P); (1, G1)]]) as Hfind.
  { apply finditer_whole; [done| |done].
    rewrite Hs. by apply match_import_named. }
  unfold find_all_imports. cbn [i_named]. rewrite Hfind.
  cbn [flat_map]. rewrite app_nil_r.
  change (group 1 _) with G1. change (group 2 _) with P.
  cbn [m_start m_end].
  assert (forall d, (forall c, Chr.is_word c = true -> Chr.eqb d c = false) ->
                    Chr.eqb d " " = false -> Chr.eqb d "a" = false ->
                    Chr.eqb d "s" = false ->
                    forallb (fun c => negb (Chr.eqb d c)) G1 = true) as Hnot.
  { intros d Hd H1 H2 H3. subst G1. rewrite !forallb_app.
    rewrite (forallb_neg_of_word d X), (forallb_neg_of_word d Y) by done.
    simpl. by rewrite H1, H2, H3. }
  rewrite sub_no_embed.
  2:{ apply (embeds_absent (COneOf ["/"%char]) [] [_]), absent_oneof.
      apply Hnot; [apply word_not_slash|done..]. }
  change (txt ",") with [","%char].
  rewrite split_absent by (apply Hnot; [apply word_not_comma|done..]).
  cbn [map].
  assert (Py.strip G1 = X ++ txt " as " ++ Y) as ->.
  { unfold Py.strip. subst G1.
    rewrite (lstrip_spaces (txt " ")) by done.
    rewrite lstrip_identifier by done.
    rewrite !app_assoc. rewrite rstrip_spaces by done.
    by rewrite rstrip_identifier. }
  rewrite filter_cons_True by (destruct X; [discriminate HX|done]).
  rewrite filter_nil. cbn [map].
  change (txt " as ") with (" "%char :: txt "as ").
  rewrite split_once.
  2,3: apply forallb_neg_of_word; [apply word_not_blank|done].
  cbn [head default from_option id]. 
  by rewrite strip_identifier.
Qed.

(** To the end of a line, the greedy and the lazy repetition read the same
    characters. *)
Lemma star_to_eol {A : Type} (k : cursor -> option A) (r : text) :
  forall p pv cp,
    star_greedy CDot (run EolM k) p pv r cp
    = star_lazy CDot (run EolM k) p pv r cp.
Proof.
  induction r as [|c r IH]; intros p pv cp.
  - simpl. by destruct (k _).
  - cbn [star_greedy star_lazy]. cbn [run rest cset_mem].
    destruct (Chr.eqb c NL) eqn:E; cbn [negb].
    + by destruct (k _).
    + rewrite IH. by destruct (star_lazy _ _ _ _ _ _).
Qed.

Lemma line_comment_match_at p pv r :
  match_at Abridged.line_comment p pv r = match_at Pat.line_comment p pv r.
Proof.
  unfold match_at, Abridged.line_comment, Pat.line_comment. cbn [seqs].
  rewrite !run_seq. cbn [run].
  destruct (Py.strip_prefix _ _); [|done]. apply star_to_eol.
Qed.

Lemma abridged_find_all_imports (content : text) :
  Abridged.find_all_imports content = find_all_imports content.
Proof.
  unfold Abridged.find_all_imports, find_all_imports. f_equal.
  apply flat_map_ext. intros mt. unfold sub, finditer.
  by rewrite (scan_ext _ _ line_comment_match_at).
Qed.

End ImportScanner.

Lemma aliased_import_records_imported_name_witness :
  is_identifier (txt "Foo") = true
  /\ is_identifier (txt "Bar") = true
  /\ is_quote "'"%char = true
  /\ is_quoted_body (txt "./foo") = true
  /\ i_named (find_all_imports (txt "import { Foo as Bar } from './foo'"))
     = [Import (txt "Foo") (txt "./foo") 0 34].
Proof.
  split_and!; [reflexivity..|].
  exact (aliased_import_records_imported_name (txt "Foo") (txt "Bar")
           (txt "./foo") "'"%char eq_refl eq_refl eq_refl eq_refl).
Defined.

(** C9: the record of [import { Foo as Bar }] carries [Foo], not the local
    name [Bar]. *)
Lemma aliased_import_local_name_not_recorded :
  map i_name
    (i_named (find_all_imports (txt "import { Foo as Bar } from './foo'")))
  = [txt "Foo"]
  /\ txt "Foo" <> txt "Bar".
Proof. vm_compute. done. Qed.

(** ** The UIComponent pass *)

Section UIComponentPass.

Import Re.

Ltac finish_match g :=
  cbn beta iota delta [pos prev rest caps];
  rewrite (take_app_length' g) by lia;
  f_equal; f_equal;
  [ rewrite !length_app; simpl; lia
  | apply take_ge; rewrite !length_app; simpl; lia ].

Lemma match_import_uicomponent_plain (P : text) (q : ascii) :
  is_quote q = true -> is_plain_path P = true ->
  let s :=
    txt "import" ++ txt " " ++ txt "{" ++ txt " " ++ txt "UIComponent"
    ++ txt " " ++ txt "}" ++ txt " " ++ txt "from" ++ txt " " ++ [q] ++ P
    ++ [q] in
  match_at PatS.import_uicomponent 0 None s
  = Some (Match 0 (length s) s [(1, P)]).
Proof.
  intros Hq (HP & HPq & HPs)%plain_path_inv s.
  unfold match_at, PatS.import_uicomponent. cbn [seqs]. subst s.
  rewrite run_seq, run_lit_app.
  rewrite run_seq. apply run_plus_exact; [done..|].
  rewrite run_seq. apply run_opt_take. rewrite run_lit_app.
  rewrite run_seq. apply run_star_exact; [done..|].
  rewrite run_seq, run_lit_app.
  rewrite run_seq. apply run_opt_skip; [reflexivity|].
  rewrite run_seq. apply run_star_exact; [done..|].
  rewrite run_seq. apply run_opt_take. rewrite run_lit_app.
  rewrite run_seq. apply run_plus_exact; [done..|].
  rewrite run_seq, run_lit_app.
  rewrite run_seq. apply run_plus_exact; [done|done| |].
  { apply stops_quote; [apply quote_not_space|done]. }
  rewrite run_seq. unfold Pat.quote at 1. rewrite run_cls_app by exact Hq.
  rewrite run_seq, run_group.
  apply run_plus_exact; [done|done| |].
  { by apply stops_not_quote. }
  cbn beta iota delta [pos prev rest caps].
  unfold Pat.quote. rewrite run_cls_cons by exact Hq.
  finish_match P.
Qed.

Lemma match_import_uicomponent_aliased (X P : text) (q : ascii) :
  is_identifier X = true -> is_quote q = true -> is_plain_path P = true ->
  let s :=
    txt "import" ++ txt " " ++ txt "{" ++ txt " " ++ txt "UIComponent"
    ++ txt " " ++ txt "as" ++ txt " " ++ X
    ++ txt " " ++ txt "}" ++ txt " " ++ txt "from" ++ txt " " ++ [q] ++ P
    ++ [q] in
  match_at PatS.import_uicomponent 0 None s
  = Some (Match 0 (length s) s [(1, P)]).
Proof.
  intros HX Hq (HP & HPq & HPs)%plain_path_inv s.
  destruct (identifier_inv X HX) as (HXw & (x & X' & HXeq & Hx) & _).
  assert (nonempty X = true) as HXne by (by rewrite HXeq).
  unfold match_at, PatS.import_uicomponent. cbn [seqs]. subst s.
  rewrite run_seq, run_lit_app.
  rewrite run_seq. apply run_plus_exact; [done..|].
  rewrite run_seq. apply run_opt_take. rewrite run_lit_app.
  rewrite run_seq. apply run_star_exact; [done..|].
  rewrite run_seq, run_lit_app.
  rewrite run_seq. apply run_opt_take.
  rewrite run_seq. apply run_plus_exact; [done..|].
  rewrite run_seq, run_lit_app.
  rewrite run_seq. apply run_plus_exact; [done|done| |].
  { rewrite HXeq. simpl. by rewrite (word_not_space x Hx). }
  apply run_plus_exact; [done..|].
  rewrite run_seq. apply run_star_exact; [done..|].
  rewrite run_seq. apply run_opt_take. rewrite run_lit_app.
  rewrite run_seq. apply run_plus_exact; [done..|].
  rewrite run_seq, run_lit_app.
  rewrite run_seq. apply run_plus_exact; [done|done| |].
  { apply stops_quote; [apply quote_not_space|done]. }
  rewrite run_seq. unfold Pat.quote at 1. rewrite run_cls_app by exact Hq.
  rewrite run_seq, run_group.
  apply run_plus_exact; [done|done| |].
  { by apply stops_not_quote. }
  cbn beta iota delta [pos prev rest caps].
  unfold Pat.quote. rewrite run_cls_cons by exact Hq.
  finish_match P.
Qed.

Lemma match_uicomponent_alias (X r : text) (p : nat) (pv : option ascii) :
  is_identifier X = true -> stops CWord r = true ->
  exists mt,
    match_at PatS.uicomponent_alias p pv
      (txt "UIComponent" ++ txt " " ++ txt "as" ++ txt " " ++ X ++ r)
    = Some mt
    /\ group 1 mt = X.
Proof.
  intros HX Hr.
  destruct (identifier_inv X HX) as (HXw & (x & X' & HXeq & Hx) & _).
  assert (nonempty X = true) as HXne by (by rewrite HXeq).
  eexists. split.
  - unfold match_at, PatS.uicomponent_alias. cbn [seqs].
    rewrite run_seq, run_lit_app.
    rewrite run_seq. apply run_plus_exact; [done..|].
    rewrite run_seq, run_lit_app.
    rewrite run_seq. apply run_plus_exact; [done|done| |].
    { rewrite HXeq. simpl. by rewrite (word_not_space x Hx). }
    rewrite run_group.
    apply run_plus_exact; [done..|].
    cbn beta iota delta [pos prev rest caps]. reflexivity.
  - unfold group. cbn [m_caps assoc Nat.eqb default from_option id].
    apply take_app_length'. lia.
Qed.

Ltac eval_residual :=
  match goal with
  | |- context [residual ?ps (txt ?s)] =>
      let r := eval vm_compute in (residual ps (txt s)) in
      change (residual ps (txt s)) with r
  end.

Lemma second_loop_none (A P : text) :
  forallb Chr.is_word A = true ->
  forallb (fun c => negb (is_quote c)) P = true ->
  finditer PatS.import_from_uicomponent
    (txt "import " ++ A ++ txt " from " ++ Py.repr P) = [].
Proof.
  intros HA HP. apply finditer_no_embed.
  rewrite (embeds_app _ (txt "import ")). eval_residual.
  rewrite embeds_skip.
  2:{ eapply forallb_impl; [|exact HA]. intros c Hc. revert Hc.
      by_cases_on_char c. }
  unfold Py.repr.
  rewrite (embeds_app _ (txt " from ")). eval_residual.
  rewrite (embeds_app _ (txt "'")). eval_residual.
  apply (embeds_one_left (COneOf (txt "'" ++ [ascii_of_nat 34]))
           [_; _; _; _; _; _; _; _; _]); [|done].
  by apply repr_body_no_quote.
Qed.

Lemma check_uicomponent_own_file (content filename : text) :
  Path.name filename = txt "UIComponent.js" ->
  check_uicomponent_imports content filename = (content, []).
Proof.
  intros H. unfold check_uicomponent_imports. by rewrite H.
Qed.

Lemma check_uicomponent_plain (filename P : text) (q : ascii) :
  Path.name filename <> txt "UIComponent.js" ->
  is_quote q = true -> is_plain_path P = true ->
  check_uicomponent_imports
    (txt "import { UIComponent } from " ++ [q] ++ P ++ [q]) filename
  = (txt "import UIComponent from " ++ Py.repr P, [ui_change]).
Proof.
  intros Hname Hq HP.
  destruct (plain_path_inv P HP) as (HPne & HPq & HPs).
  set (T := txt "import { UIComponent } from " ++ [q] ++ P ++ [q]).
  assert (finditer PatS.import_uicomponent T
          = [Match 0 (length T) T [(1, P)]]) as Hfind.
  { apply finditer_whole; [done| |done].
    by apply match_import_uicomponent_plain. }
  unfold check_uicomponent_imports.
  destruct (text_eqb _ _) eqn:E; [apply text_eqb_eq in E; contradiction|].
  clear E.
  rewrite Hfind. cbn [fold_left].
  change (group 1 (Match 0 (length T) T [(1, P)])) with P. cbn [m_text].
  assert (Py.contains (txt "{") T = true) as -> by reflexivity.
  assert (Py.contains (txt "}") T = true) as -> by reflexivity.
  assert (search PatS.uicomponent_alias T = None) as ->.
  { apply search_no_embed. subst T.
    rewrite (embeds_app _ (txt "import { UIComponent } from ")). eval_residual.
    apply (embeds_absent CSpace [_; _] [_]).
    simpl. rewrite (quote_not_space q Hq). simpl.
    rewrite forallb_app, HPs. simpl. by rewrite (quote_not_space q Hq). }
  assert ((if Py.contains (txt "as") T
           then txt "import UIComponent from " ++ Py.repr P
           else txt "import UIComponent from " ++ Py.repr P)
          = txt "import " ++ txt "UIComponent" ++ txt " from " ++ Py.repr P)
    as -> by (by destruct (Py.contains _ T)).
  cbn [andb fst]. rewrite replace_self by done.
  rewrite second_loop_none by done. done.
Qed.

Lemma check_uicomponent_aliased (filename X P : text) (q : ascii) :
  Path.name filename <> txt "UIComponent.js" ->
  is_identifier X = true -> is_quote q = true -> is_plain_path P = true ->
  check_uicomponent_imports
    (txt "import { UIComponent as " ++ X ++ txt " } from " ++ [q] ++ P ++ [q])
    filename
  = (txt "import " ++ X ++ txt " from " ++ Py.repr P, [ui_change]).
Proof.
  intros Hname HX Hq HP.
  destruct (plain_path_inv P HP) as (HPne & HPq & HPs).
  destruct (identifier_inv X HX) as (HXw & _ & _).
  set (T := txt "import { UIComponent as " ++ X ++ txt " } from " ++ [q] ++ P
            ++ [q]).
  assert (finditer PatS.import_uicomponent T
          = [Match 0 (length T) T [(1, P)]]) as Hfind.
  { apply finditer_whole; [done| |done].
    by apply match_import_uicomponent_aliased. }
  destruct (match_uicomponent_alias X (txt " } from " ++ [q] ++ P ++ [q])
              9 (Some " "%char) HX eq_refl) as (am & Ham & Hgroup).
  assert (search PatS.uicomponent_alias T = Some am) as Hsearch.
  { unfold search, finditer. subst T.
    cbn [txt list_ascii_of_string app].
    do 9 (rewrite scan_cons_none by reflexivity).
    apply scan_head. exact Ham. }
  unfold check_uicomponent_imports.
  destruct (text_eqb _ _) eqn:E; [apply text_eqb_eq in E; contradiction|].
  clear E.
  rewrite Hfind. cbn [fold_left].
  change (group 1 (Match 0 (length T) T [(1, P)])) with P. cbn [m_text].
  assert (Py.contains (txt "{") T = true) as -> by reflexivity.
  assert (Py.contains (txt "}") T = true) as ->.
  { apply (contains_app_r _ (txt "import { UIComponent as ")),
      (contains_app_r _ X). reflexivity. }
  assert (Py.contains (txt "as") T = true) as -> by reflexivity.
  rewrite Hsearch, Hgroup.
  cbn [andb fst]. rewrite replace_self by done.
  rewrite second_loop_none by done. done.
Qed.

Lemma abridged_check_uicomponent (filename : text) :
  (Path.name filename = txt "UIComponent.js" ->
   forall content,
     Abridged.check_uicomponent_imports content filename = (content, []))
  /\ (Path.name filename <> txt "UIComponent.js" ->
      forall (P X : text) (q : ascii),
        is_quote q = true -> is_plain_path P = true ->
        is_identifier X = true ->
        Abridged.check_uicomponent_imports
          (txt "import { UIComponent } from " ++ [q] ++ P ++ [q]) filename
        = (txt "import UIComponent from " ++ Py.repr P,
           [txt "Fixed UIComponent import to default"])
        /\ Abridged.check_uicomponent_imports
             (txt "import { UIComponent as " ++ X ++ txt " } from " ++ [q]
              ++ P ++ [q])
             filename
           = (txt "import " ++ X ++ txt " from " ++ Py.repr P,
              [txt "Fixed UIComponent import to default"])).
Proof.
  split.
  { intros H content. unfold Abridged.check_uicomponent_imports.
    by rewrite H. }
  intros Hname P X q Hq HP HX.
  destruct (plain_path_inv P HP) as (HPne & HPq & HPs).
  split.
  - set (T := txt "import { UIComponent } from " ++ [q] ++ P ++ [q]).
    assert (finditer PatS.import_uicomponent T
            = [Match 0 (length T) T [(1, P)]]) as Hfind.
    { apply finditer_whole; [done| |done].
      by apply match_import_uicomponent_plain. }
    unfold Abridged.check_uicomponent_imports.
    destruct (text_eqb _ _) eqn:E; [apply text_eqb_eq in E; contradiction|].
    clear E. rewrite Hfind. cbn [fold_left].
    change (group 1 (Match 0 (length T) T [(1, P)])) with P. cbn [m_text].
    assert (Py.contains (txt "{") T = true) as -> by reflexivity.
    assert (search PatS.uicomponent_alias T = None) as ->.
    { apply search_no_embed. subst T.
      rewrite (embeds_app _ (txt "import { UIComponent } from ")).
      eval_residual.
      apply (embeds_absent CSpace [_; _] [_]).
      simpl. rewrite (quote_not_space q Hq). simpl.
      rewrite forallb_app, HPs. simpl. by rewrite (quote_not_space q Hq). }
    cbn [from_option]. by rewrite replace_self.
  - set (T := txt "import { UIComponent as " ++ X ++ txt " } from " ++ [q]
              ++ P ++ [q]).
    assert (finditer PatS.import_uicomponent T
            = [Match 0 (length T) T [(1, P)]]) as Hfind.
    { apply finditer_whole; [done| |done].
      by apply match_import_uicomponent_aliased. }
    destruct (match_uicomponent_alias X (txt " } from " ++ [q] ++ P ++ [q])
                9 (Some " "%char) HX eq_refl) as (am & Ham & Hgroup).
    assert (search PatS.uicomponent_alias T = Some am) as Hsearch.
    { unfold search, finditer. subst T.
      cbn [txt list_ascii_of_string app].
      do 9 (rewrite scan_cons_none by reflexivity).
      apply scan_head. exact Ham. }
    unfold Abridged.check_uicomponent_imports.
    destruct (text_eqb _ _) eqn:E; [apply text_eqb_eq in E; contradiction|].
    clear E. rewrite Hfind. cbn [fold_left].
    change (group 1 (Match 0 (length T) T [(1, P)])) with P. cbn [m_text].
    assert (Py.contains (txt "{") T = true) as -> by reflexivity.
    rewrite Hsearch. cbn [from_option]. rewrite Hgroup.
    by rewrite replace_self.
Qed.

End UIComponentPass.

(** C10.  The pass returns the file named UIComponent.js as it
    is.  In any other file, an import statement that names UIComponent
    alone between its braces, with or without an alias, becomes a default
    import of the alias or of UIComponent, the path written by [repr]. *)
Theorem uicomponent_import_made_default (filename : text) :
  (Path.name filename = txt "UIComponent.js" ->
   forall content,
     check_uicomponent_imports content filename = (content, []))
  /\ (Path.name filename <> txt "UIComponent.js" ->
      forall (P X : text) (q : ascii),
        is_quote q = true -> is_plain_path P = true ->
        is_identifier X = true ->
        check_uicomponent_imports
          (txt "import { UIComponent } from " ++ [q] ++ P ++ [q]) filename
        = (txt "import UIComponent from " ++ Py.repr P, [ui_change])
        /\ check_uicomponent_imports
             (txt "import { UIComponent as " ++ X ++ txt " } from " ++ [q]
              ++ P ++ [q])
             filename
           = (txt "import " ++ X ++ txt " from " ++ Py.repr P, [ui_change])).
Proof.
  split.
  - intros H content. by apply check_uicomponent_own_file.
  - intros H P X q Hq HP HX. split.
    + by apply check_uicomponent_plain.
    + by apply check_uicomponent_aliased.
Qed.

Lemma uicomponent_import_made_default_witness :
  Path.name (txt "src/ui/Menu.js") <> txt "UIComponent.js"
  /\ is_quote "'"%char = true
  /\ is_plain_path (txt "./UIComponent") = true
  /\ is_identifier (txt "Base") = true
  /\ check_uicomponent_imports
       (txt "import { UIComponent } from './UIComponent'")
       (txt "src/ui/Menu.js")
     = (txt "import UIComponent from './UIComponent'", [ui_change])
  /\ check_uicomponent_imports
       (txt "import { UIComponent as Base } from './UIComponent'")
       (txt "src/ui/Menu.js")
     = (txt "import Base from './UIComponent'", [ui_change]).
Proof.
  assert (Path.name (txt "src/ui/Menu.js") <> txt "UIComponent.js") as H
    by (vm_compute; discriminate).
  split_and!; [exact H|reflexivity..| |].
  - exact (proj1 (proj2 (uicomponent_import_made_default (txt "src/ui/Menu.js"))
                    H (txt "./UIComponent") (txt "Base") "'"%char
                    eq_refl eq_refl eq_refl)).
  - exact (proj2 (proj2 (uicomponent_import_made_default (txt "src/ui/Menu.js"))
                    H (txt "./UIComponent") (txt "Base") "'"%char
                    eq_refl eq_refl eq_refl)).
Defined.

(** C10: an import that names UIComponent together with another symbol, or
    that has no white space after [import], is left as a named import. *)
Lemma uicomponent_named_import_kept :
  check_uicomponent_imports
    (txt "import { UIComponent, helper } from './UIComponent';")
    (txt "Menu.js")
  = (txt "import { UIComponent, helper } from './UIComponent';", [])
  /\ check_uicomponent_imports
       (txt "import{UIComponent} from './UIComponent';") (txt "Menu.js")
     = (txt "import{UIComponent} from './UIComponent';", []).
Proof. vm_compute. done. Qed.

(** ** Scenario A: a text without an import *)

Section ScenarioA.

Import Re.

Lemma no_import_no_embed (s : text) (r : regex) :
  embeds import_word s = false ->
  embeds (musts (Seq (Lit (txt "import")) r)) s = false.
Proof.
  intros H.
  change (musts (Seq (Lit (txt "import")) r)) with (import_word ++ musts r).
  destruct (embeds (import_word ++ musts r) s) eqn:E; [|done].
  apply embeds_take in E. congruence.
Qed.

Lemma fold_search_none {B : Type} (content : text) (changes : list text)
    (pat : text -> regex) (f : text -> B -> text * list text -> text * list text)
    (l : list (text * B)) :
  (forall n, search (pat n) content = None) ->
  fold_left
    (fun '(content, changes) '(module_name, correct_import) =>
       match search (pat module_name) content with
       | Some _ => f module_name correct_import (content, changes)
       | None => (content, changes)
       end)
    l (content, changes)
  = (content, changes).
Proof.
  intros H. induction l as [|[n b] l IH]; simpl; [done|]. by rewrite H.
Qed.

Lemma fix_imports_no_import (content filename : text)
    (modern_imports default_imports : list (text * text)) :
  embeds import_word content = false ->
  fix_imports content modern_imports default_imports filename = (content, []).
Proof.
  intros H. unfold fix_imports.
  rewrite (fold_search_none content [] PatS.import_default_of
             (fun module_name correct_import '(content, changes) =>
                (sub (PatS.import_default_of module_name)
                   (fun _ => correct_import) content,
                 changes ++ [txt "Import modernized: " ++ module_name]))).
  2:{ intros n. apply search_no_embed. by apply no_import_no_embed. }
  rewrite (fold_search_none content [] PatS.import_named_of
             (fun module_name correct_import '(content, changes) =>
                (sub (PatS.import_named_of module_name)
                   (fun _ => correct_import) content,
                 changes ++ [txt "Base class import fixed: " ++ module_name]))).
  2:{ intros n. apply search_no_embed. by apply no_import_no_embed. }
  cbn [fold_left fst].
  rewrite !finditer_no_embed by (by apply no_import_no_embed).
  done.
Qed.

Lemma check_uicomponent_no_import (content filename : text) :
  embeds import_word content = false ->
  check_uicomponent_imports content filename = (content, []).
Proof.
  intros H. unfold check_uicomponent_imports.
  destruct (text_eqb _ _); [done|].
  rewrite (finditer_no_embed PatS.import_uicomponent)
    by (by apply (no_import_no_embed content)).
  cbn [fold_left fst].
  by rewrite (finditer_no_embed PatS.import_from_uicomponent)
    by (by apply (no_import_no_embed content)).
Qed.

Lemma modernize_scenario_a (filename : text) (keep named : list text) :
  mem_text (txt "Foo") named = true ->
  mem_text (Path.stem filename) keep = false ->
  modernize_exports scenario_a filename keep named
  = (scenario_a_out, [txt "Default to Named export: Foo"]).
Proof.
  intros Hnamed Hkeep. unfold modernize_exports.
  rewrite Hkeep.
  assert (find_all_exports scenario_a
          = Exports [Decl (txt "Foo") 0 19] [] [] [] [] []) as ->
    by (vm_compute; reflexivity).
  cbn [fold_left e_default e_class e_destructured e_function e_const d_name].
  rewrite Hnamed. vm_compute. reflexivity.
Qed.

Lemma mismatches_scenario_a (js_file : text) (export_style_map : gmap text style) :
  ~ (export_style_map !! js_file = Some StyleDefault
     /\ Path.splitext_root (Path.basename js_file) = txt "Foo") ->
  fix_import_export_mismatches scenario_a_out js_file export_style_map
  = (scenario_a_out, []).
Proof.
  intros Hnot. unfold fix_import_export_mismatches.
  destruct (export_style_map !! js_file) as [[]|] eqn:Hstyle; [| |done].
  - vm_compute. reflexivity.
  - assert (find_all_exports scenario_a_out
            = Exports [] [] [] [] [] [Decl (txt "Foo") 0 15]) as ->
      by (vm_compute; reflexivity).
    cbn [e_class e_function e_destructured app has_name existsb d_name].
    destruct (text_eqb (txt "Foo") _) eqn:E; [|done].
    apply text_eqb_eq in E. exfalso. apply Hnot. split; [done|]. by rewrite <- E.
Qed.

(** C4.  Scenario A, with policy lists of identifiers, in a run that is
    not restricted to duplicates, for a file whose basename is not a symbol
    kept as default and which the cross-file map does not turn back into a
    default export: the output is the input with [export default Foo;]
    replaced by [export { Foo };]. *)
Theorem scenario_a_converted (a : args) (keep named : list text)
    (export_style_map : gmap text style) (js_file : text) :
  Forall (fun n => is_identifier n = true) keep ->
  Forall (fun n => is_identifier n = true) named ->
  fix_duplicates_only a = false ->
  mem_text (txt "Foo") named = true ->
  mem_text (Path.stem (Path.name js_file)) keep = false ->
  ~ (export_style_map !! js_file = Some StyleDefault
     /\ Path.splitext_root (Path.basename js_file) = txt "Foo") ->
  let out := fst (process_file a keep named export_style_map js_file scenario_a) in
  process_file a keep named export_style_map js_file scenario_a
  = (scenario_a_out, [txt "Default to Named export: Foo"])
  /\ Py.contains (txt "export { Foo };") out = true
  /\ has_name (txt "Foo") (e_default (find_all_exports out)) = false
  /\ Py.contains (txt "export default") out = false.
Proof.
  intros _ _ Hmode Hnamed Hkeep Hstyle out.
  assert (embeds import_word scenario_a_out = false) as Hno
    by (vm_compute; reflexivity).
  assert (process_file a keep named export_style_map js_file scenario_a
          = (scenario_a_out, [txt "Default to Named export: Foo"])) as Hrun.
  { unfold process_file.
    assert (remove_duplicate_exports scenario_a = (scenario_a, [])) as ->
      by (vm_compute; reflexivity).
    rewrite Hmode. cbn [negb].
    rewrite modernize_scenario_a by done.
    rewrite fix_imports_no_import by done.
    assert ((if negb (skip_ui_component a)
             then
               let '(content, ui_changes) :=
                 check_uicomponent_imports scenario_a_out (Path.name js_file) in
               (content,
                ([] ++ [txt "Default to Named export: Foo"] ++ []) ++ ui_changes)
             else
               (scenario_a_out, [] ++ [txt "Default to Named export: Foo"] ++ []))
            = (scenario_a_out, [txt "Default to Named export: Foo"])) as ->.
    { destruct (skip_ui_component a); [done|].
      cbn [negb]. by rewrite check_uicomponent_no_import. }
    rewrite mismatches_scenario_a by done.
    assert (Py.contains (txt ";;") scenario_a_out = false) as ->
      by (vm_compute; reflexivity).
    done. }
  subst out. rewrite Hrun. split; [reflexivity|].
  vm_compute. split_and!; reflexivity.
Qed.

End ScenarioA.

Lemma scenario_a_converted_witness :
  let named := txt "Foo" :: should_be_named_exports in
  let js_file := txt "src/Foo.js" in
  Forall (fun n => is_identifier n = true) keep_as_default_exports
  /\ Forall (fun n => is_identifier n = true) named
  /\ fix_duplicates_only run_args = false
  /\ mem_text (txt "Foo") named = true
  /\ mem_text (Path.stem (Path.name js_file)) keep_as_default_exports = false
  /\ process_file run_args keep_as_default_exports named ∅ js_file scenario_a
     = (scenario_a_out, [txt "Default to Named export: Foo"]).
Proof.
  intros named js_file.
  assert (~ ((∅ : gmap text style) !! js_file = Some StyleDefault
             /\ Path.splitext_root (Path.basename js_file) = txt "Foo")) as H.
  { intros [H _]. rewrite lookup_empty in H. discriminate H. }
  assert (Forall (fun n => is_identifier n = true) keep_as_default_exports)
    as H1 by (by repeat constructor).
  assert (Forall (fun n => is_identifier n = true) named)
    as H2 by (by repeat constructor).
  split_and!; [exact H1|exact H2|reflexivity..|].
  exact (proj1 (scenario_a_converted run_args keep_as_default_exports named ∅
                  js_file H1 H2 eq_refl eq_refl eq_refl H)).
Defined.

(** C4: in a file named after a symbol kept as default the default export
    of [Foo] stays; and where another file imports [Foo] as default, the
    cross-file pass turns the named export back into a default export. *)
Lemma scenario_a_default_export_remains :
  let named := txt "Foo" :: should_be_named_exports in
  let style_map :=
    analyze_import_export_relationships scenario_a_tree scenario_a_paths in
  process_file run_args keep_as_default_exports named ∅ (txt "src/main.js")
    scenario_a
  = (scenario_a, [])
  /\ style_map !! txt "src/Foo.js" = Some StyleDefault
  /\ process_file run_args keep_as_default_exports named style_map
       (txt "src/Foo.js") scenario_a
     = (lines [blank; "class Foo {}"; blank; "export default Foo;"; blank],
        [txt "Default to Named export: Foo";
         txt "Removed named export for Foo";
         txt "Added default export for Foo"])
  /\ Py.contains (txt "export { Foo };") scenario_a = false
  /\ Py.contains (txt "export { Foo };")
       (lines [blank; "class Foo {}"; blank; "export default Foo;"; blank])
     = false.
Proof. vm_compute. split_and!; reflexivity. Qed.

(** ** Further properties

    Prefixes and suffixes of texts. *)

Lemma endswith_app (p s : text) : Py.endswith p (s ++ p) = true.
Proof. unfold Py.endswith. rewrite rev_app_distr. apply startswith_app. Qed.

Lemma startswith_nil (s : text) : Py.startswith [] s = true.
Proof. done. Qed.

Lemma startswith_cons (a b : ascii) (p s : text) :
  Py.startswith (a :: p) (b :: s) = Chr.eqb a b && Py.startswith p s.
Proof. unfold Py.startswith. simpl. by destruct (Chr.eqb a b). Qed.

(** A pattern that lacks [x] is matched before [x] or not at all. *)
Lemma startswith_before (p u v : text) (x : ascii) :
  forallb (fun c => negb (Chr.eqb c x)) p = true ->
  Py.startswith p (u ++ x :: v) = Py.startswith p u.
Proof.
  revert p. induction u as [|b u IH]; intros [|a p] Hp; try done.
  - simpl in Hp. apply andb_true_iff in Hp as [Ha _].
    apply negb_true_iff in Ha. simpl. by rewrite startswith_cons, Ha.
  - simpl in Hp. apply andb_true_iff in Hp as [_ Hp]. simpl.
    rewrite !startswith_cons. by rewrite IH.
Qed.

Lemma endswith_after (p u v : text) (x : ascii) :
  forallb (fun c => negb (Chr.eqb c x)) p = true ->
  Py.endswith p (v ++ x :: u) = Py.endswith p u.
Proof.
  intros Hp. unfold Py.endswith.
  rewrite rev_app_distr. simpl. rewrite <- app_assoc. simpl.
  apply startswith_before. by rewrite forallb_rev.
Qed.

Lemma text_eqb_length (a b : text) : length a <> length b -> text_eqb a b = false.
Proof.
  intros H. destruct (text_eqb a b) eqn:E; [|done].
  apply text_eqb_eq in E. by subst.
Qed.

(** *** The driver: what a run writes *)

Lemma process_all_step (a : args) (m : gmap text style) (f : text)
    (js : list text) (fs : files) :
  process_all a m (f :: js) fs
  = process_all a m js
      match fs !! f with
      | Some original =>
          if negb (text_eqb (fst (process_file a keep_as_default_exports
                                    should_be_named_exports m f original))
                     original)
             && negb (dry_run a)
          then <[f := fst (process_file a keep_as_default_exports
                             should_be_named_exports m f original)]> fs
          else fs
      | None => fs
      end.
Proof.
  unfold process_all. simpl. destruct (fs !! f); [|done].
  by destruct (process_file _ _ _ _ _ _).
Qed.

Lemma process_all_dry (a : args) (m : gmap text style) (js_files : list text)
    (fs : files) :
  dry_run a = true -> process_all a m js_files fs = fs.
Proof.
  intros Hdry. revert fs.
  induction js_files as [|f js IH]; intros fs; [done|].
  rewrite process_all_step, IH.
  destruct (fs !! f); [|done]. by rewrite Hdry, andb_false_r.
Qed.

(** X1.  With the dry-run option [main] writes nothing: every file of the
    tree is left as it was. *)
Theorem dry_run_leaves_tree (a : args) (js_files : list text) (fs : files) :
  dry_run a = true -> fst (main a js_files fs) = fs.
Proof.
  intros Hdry. unfold main. cbn [fst].
  rewrite ensure_uicomponent_default_off by auto.
  by apply process_all_dry.
Qed.

Lemma dry_run_leaves_tree_witness :
  let a := Args true false false in
  dry_run a = true
  /\ fst (main a scenario_a_paths scenario_a_tree) = scenario_a_tree.
Proof.
  intros a. split; [reflexivity|].
  exact (dry_run_leaves_tree a scenario_a_paths scenario_a_tree eq_refl).
Defined.

Lemma process_all_other (a : args) (m : gmap text style) (js_files : list text)
    (fs : files) (f : text) :
  f ∉ js_files -> process_all a m js_files fs !! f = fs !! f.
Proof.
  revert fs. induction js_files as [|g js IH]; intros fs Hf; [done|].
  apply not_elem_of_cons in Hf as [Hne Hf].
  rewrite process_all_step, IH by done.
  repeat case_match; try done. by apply lookup_insert_ne.
Qed.

Lemma process_all_is_Some (a : args) (m : gmap text style)
    (js_files : list text) (fs : files) (f : text) :
  is_Some (process_all a m js_files fs !! f) <-> is_Some (fs !! f).
Proof.
  revert fs. induction js_files as [|g js IH]; intros fs; [done|].
  rewrite process_all_step, IH.
  repeat case_match; try done.
  destruct (decide (g = f)) as [->|Hne].
  - rewrite lookup_insert_eq. split; eauto.
  - by rewrite lookup_insert_ne.
Qed.

Lemma ensure_uicomponent_default_is_Some (a : args) (js_files : list text)
    (fs : files) (f : text) :
  is_Some (ensure_uicomponent_default a js_files fs !! f) <-> is_Some (fs !! f).
Proof.
  unfold ensure_uicomponent_default.
  repeat case_match; try done.
  all: match goal with |- context [<[?g := _]> _] =>
         destruct (decide (g = f)) as [->|Hne];
         [rewrite lookup_insert_eq; split; eauto | by rewrite lookup_insert_ne]
       end.
Qed.

Lemma ensure_uicomponent_default_unlisted (a : args) (js_files : list text)
    (fs : files) (f : text) :
  f ∉ js_files -> ensure_uicomponent_default a js_files fs !! f = fs !! f.
Proof.
  intros Hf. unfold ensure_uicomponent_default.
  destruct (head _) as [ui|] eqn:Hhd; [|done].
  apply head_Some_elem_of, list_elem_of_filter in Hhd as [_ Hin].
  repeat case_match; try done.
  all: apply lookup_insert_ne; intros ->; done.
Qed.

(** X2.  A run neither creates nor deletes a file: a path is in the tree
    after [main] exactly when it was in it before, and a file that is not
    among the listed JavaScript files keeps its content. *)
Theorem run_keeps_the_set_of_files (a : args) (js_files : list text)
    (fs : files) (f : text) :
  (is_Some (fst (main a js_files fs) !! f) <-> is_Some (fs !! f))
  /\ (f ∉ js_files -> fst (main a js_files fs) !! f = fs !! f).
Proof.
  unfold main. cbn [fst]. split.
  - by rewrite process_all_is_Some, ensure_uicomponent_default_is_Some.
  - intros Hf. rewrite process_all_other by done.
    by apply ensure_uicomponent_default_unlisted.
Qed.

Lemma process_all_listed (a : args) (m : gmap text style)
    (js_files : list text) (fs : files) (f content : text) :
  NoDup js_files -> f ∈ js_files -> dry_run a = false ->
  fs !! f = Some content ->
  process_all a m js_files fs !! f
  = Some (fst (process_file a keep_as_default_exports should_be_named_exports
                 m f content)).
Proof.
  intros Hnd Hin Hdry. revert fs.
  induction js_files as [|g js IH]; intros fs Hf; [by apply elem_of_nil in Hin|].
  apply NoDup_cons in Hnd as [Hg Hnd].
  rewrite process_all_step.
  apply elem_of_cons in Hin as [->|Hin].
  - rewrite process_all_other by done. rewrite Hf, Hdry. cbn [negb].
    rewrite andb_true_r.
    destruct (text_eqb _ content) eqn:E; cbn [negb].
    + apply text_eqb_eq in E. by rewrite E.
    + by rewrite lookup_insert_eq.
  - apply IH; [done|done|].
    assert (g <> f) as Hne by (intros ->; done).
    repeat case_match; try done. by rewrite lookup_insert_ne.
Qed.

(** X3.  In a run that writes, with every path listed once, the content
    [main] leaves in a listed file is the result of the per-file passes on
    that file's own content, as the handling of UIComponent.js left it, with
    the style map of the run: no file's rewriting depends on the rewriting
    of another file. *)
Theorem run_rewrites_each_file_on_its_own (a : args) (js_files : list text)
    (fs : files) (f content : text) :
  NoDup js_files -> f ∈ js_files -> dry_run a = false ->
  ensure_uicomponent_default a js_files fs !! f = Some content ->
  fst (main a js_files fs) !! f
  = Some (fst (process_file a keep_as_default_exports should_be_named_exports
                 (snd (main a js_files fs)) f content)).
Proof.
  intros Hnd Hin Hdry Hf. unfold main. cbn [fst snd].
  by apply process_all_listed.
Qed.

Lemma run_rewrites_each_file_on_its_own_witness :
  let f := txt "src/app.js" in
  let content := lines ["import Foo from './Foo';"; "new Foo();"] in
  NoDup scenario_a_paths /\ f ∈ scenario_a_paths /\ dry_run run_args = false
  /\ ensure_uicomponent_default run_args scenario_a_paths scenario_a_tree !! f
     = Some content
  /\ fst (main run_args scenario_a_paths scenario_a_tree) !! f
     = Some (fst (process_file run_args keep_as_default_exports
                    should_be_named_exports
                    (snd (main run_args scenario_a_paths scenario_a_tree))
                    f content)).
Proof.
  intros f content.
  assert (NoDup scenario_a_paths) as H1 by (by vm_compute; compute_done).
  assert (f ∈ scenario_a_paths) as H2 by compute_done.
  assert (ensure_uicomponent_default run_args scenario_a_paths scenario_a_tree
            !! f = Some content) as H4 by (vm_compute; reflexivity).
  split_and!; [exact H1|exact H2|reflexivity|exact H4|].
  exact (run_rewrites_each_file_on_its_own run_args scenario_a_paths
           scenario_a_tree f content H1 H2 eq_refl H4).
Defined.

(** *** The usage tally *)

Section Tally.

Lemma bump_entry (t : import_type) (n d : nat) :
  bump t (entry n d)
  = match t with INamed => entry (S n) d | IDefault => entry n (S d) end.
Proof.
  unfold entry, bump.
  destruct (Nat.eqb_spec (n + d) 0) as [H|H].
  - assert (n = 0) as -> by lia. assert (d = 0) as -> by lia. by destruct t.
  - destruct t; simpl.
    + by rewrite Nat.add_succ_r.
    + done.
Qed.

Lemma iter_bump_entry (t : import_type) (k n d : nat) :
  Nat.iter k (bump t) (entry n d)
  = match t with INamed => entry (n + k) d | IDefault => entry n (d + k) end.
Proof.
  induction k as [|k IH]; simpl.
  - rewrite !Nat.add_0_r. by destruct t.
  - rewrite IH. destruct t; rewrite bump_entry; f_equal; lia.
Qed.

Lemma count_lookup (t : import_type) (js_file module_path : text)
    (items : list import_decl) (acc : gmap text counts) :
  fold_left
    (fun acc item =>
       partial_alter (bump t) (resolve_import_path js_file (i_path item)) acc)
    items acc !! module_path
  = Nat.iter
      (length
         (filter
            (fun item =>
               resolve_import_path js_file (i_path item) = module_path)
            items))
      (bump t) (acc !! module_path).
Proof.
  revert acc. induction items as [|item items IH]; intros acc; [done|].
  cbn [fold_left]. rewrite IH.
  destruct (decide (resolve_import_path js_file (i_path item) = module_path))
    as [E|E].
  - rewrite filter_cons_True by done. cbn [length].
    rewrite Nat.iter_succ_r. f_equal. rewrite <- E. apply lookup_partial_alter_eq.
  - rewrite filter_cons_False by done. f_equal.
    by apply lookup_partial_alter_ne.
Qed.

Lemma tally_file_lookup (js_file content module_path : text)
    (acc : gmap text counts) (n d : nat) :
  acc !! module_path = entry n d ->
  tally_file js_file content acc !! module_path
  = entry (n + file_uses INamed js_file content module_path)
      (d + file_uses IDefault js_file content module_path).
Proof.
  intros Hacc. unfold tally_file. rewrite !count_lookup, Hacc.
  by rewrite !iter_bump_entry.
Qed.

Lemma import_tally_from (fs : files) (js_files : list text)
    (module_path : text) (acc : gmap text counts) (n d : nat) :
  acc !! module_path = entry n d ->
  fold_left
    (fun import_styles js_file =>
       match fs !! js_file with
       | Some content => tally_file js_file content import_styles
       | None => import_styles
       end)
    js_files acc !! module_path
  = entry (n + uses INamed fs js_files module_path)
      (d + uses IDefault fs js_files module_path).
Proof.
  revert acc n d. induction js_files as [|f js IH]; intros acc n d Hacc.
  - simpl. by rewrite !Nat.add_0_r.
  - cbn [fold_left]. unfold uses. cbn [sum_list_with]. fold (uses INamed fs js module_path).
    fold (uses IDefault fs js module_path).
    destruct (fs !! f) as [content|].
    + rewrite (IH _ _ _ (tally_file_lookup f content module_path acc n d Hacc)).
      f_equal; lia.
    + by rewrite (IH _ _ _ Hacc).
Qed.

End Tally.

Lemma import_tally_entry (fs : files) (js_files : list text)
    (module_path : text) :
  import_tally fs js_files !! module_path
  = entry (uses INamed fs js_files module_path)
      (uses IDefault fs js_files module_path).
Proof.
  unfold import_tally.
  by rewrite (import_tally_from fs js_files module_path ∅ 0 0).
Qed.


(** X5.  The style map does not depend on the order in which the files are
    read. *)
Theorem analysis_ignores_file_order (fs : files) (js_files js_files' : list text) :
  js_files ≡ₚ js_files' ->
  analyze_import_export_relationships fs js_files
  = analyze_import_export_relationships fs js_files'.
Proof.
  intros Hperm. apply map_eq. intros m.
  rewrite !analyze_lookup, !import_tally_entry.
  unfold uses. by rewrite Hperm.
Qed.

Lemma analysis_ignores_file_order_witness :
  let js_files := [txt "src/Foo.js"; txt "src/app.js"] in
  let js_files' := [txt "src/app.js"; txt "src/Foo.js"] in
  js_files ≡ₚ js_files'
  /\ analyze_import_export_relationships scenario_a_tree js_files
     = analyze_import_export_relationships scenario_a_tree js_files'.
Proof.
  intros js_files js_files'.
  assert (js_files ≡ₚ js_files') as H by apply perm_swap.
  split; [exact H|].
  exact (analysis_ignores_file_order scenario_a_tree js_files js_files' H).
Defined.

(** X6.  Every module path in the tally has at least one import counted,
    so it is classified named exactly when its named imports outnumber its
    default imports: a tie goes to default, and the case of no import at all
    does not occur. *)
Theorem every_tallied_module_is_imported (fs : files) (js_files : list text)
    (module_path : text) (c : counts) :
  import_tally fs js_files !! module_path = Some c ->
  0 < c_named c + c_default c
  /\ (analyze_import_export_relationships fs js_files !! module_path
      = Some StyleNamed <-> c_default c < c_named c).
Proof.
  intros Hc. rewrite analyze_lookup, Hc. cbn [fmap option_fmap option_map].
  rewrite import_tally_entry in Hc. unfold entry in Hc.
  destruct (Nat.eqb_spec (uses INamed fs js_files module_path
                          + uses IDefault fs js_files module_path) 0) as [H|H];
    [discriminate Hc|].
  injection Hc as <-. cbn [c_named c_default]. split; [lia|].
  unfold dominant_style. cbn [c_named c_default].
  destruct (Nat.ltb_spec (uses IDefault fs js_files module_path)
              (uses INamed fs js_files module_path)) as [H1|H1].
  - split; [done|]. done.
  - destruct (Nat.ltb_spec 0 (uses IDefault fs js_files module_path)) as [H2|H2].
    + split; [discriminate|lia].
    + lia.
Qed.

Lemma every_tallied_module_is_imported_witness :
  let c := Counts 3 2 in
  import_tally five_importers five_importers_paths !! txt "src/sky.js" = Some c
  /\ 0 < c_named c + c_default c
  /\ (analyze_import_export_relationships five_importers five_importers_paths
        !! txt "src/sky.js" = Some StyleNamed
      <-> c_default c < c_named c).
Proof.
  intros c.
  assert (import_tally five_importers five_importers_paths !! txt "src/sky.js"
          = Some c) as H by (vm_compute; reflexivity).
  split; [exact H|].
  exact (every_tallied_module_is_imported five_importers five_importers_paths
           (txt "src/sky.js") c H).
Defined.

(** *** Path resolution *)

Section Resolve.

Lemma split_slash_snoc (b y : text) :
  forallb (fun c => negb (Chr.eqb Path.slash c)) y = true ->
  forall cur,
    Py.split_go [Path.slash] 0 cur (b ++ [Path.slash] ++ y)
    = Py.split_go [Path.slash] 0 cur b ++ [y].
Proof.
  intros Hy. induction b as [|c b IH]; intros cur.
  - rewrite app_nil_l, split_go_at_sep. simpl.
    f_equal. by apply split_absent.
  - change ((c :: b) ++ [Path.slash] ++ y) with (c :: (b ++ [Path.slash] ++ y)).
    cbn [Py.split_go]. rewrite !startswith_cons, !startswith_nil, !andb_true_r.
    destruct (Chr.eqb Path.slash c).
    + cbn [length Nat.sub]. by rewrite IH.
    + apply IH.
Qed.

Lemma norm_step_regular (n : nat) (stack : list text) (y : text) :
  nonempty y = true -> text_eqb y (txt ".") = false ->
  text_eqb y (txt "..") = false ->
  Path.norm_step n stack y = y :: stack.
Proof.
  intros H1 H2 H3. unfold Path.norm_step.
  change [Path.dot; Path.dot] with (txt ".."). change [Path.dot] with (txt ".").
  rewrite H1, H2. cbn [negb orb]. destruct stack; by rewrite H3.
Qed.

Lemma join_snoc (sep : text) (l : list text) (y : text) :
  Py.join sep (l ++ [y])
  = match l with [] => y | _ => Py.join sep l ++ sep ++ y end.
Proof.
  induction l as [|x l IH]; [done|].
  destruct l as [|x' l]; [done|].
  change ((x :: x' :: l) ++ [y]) with (x :: ((x' :: l) ++ [y])).
  change (Py.join sep (x :: (x' :: l) ++ [y]))
    with (x ++ sep ++ Py.join sep ((x' :: l) ++ [y])).
  rewrite IH. change (Py.join sep (x :: x' :: l))
    with (x ++ sep ++ Py.join sep (x' :: l)).
  by rewrite <- !app_assoc.
Qed.

(** The normal form of a path, up to its last component. *)
Lemma normpath_last (b : text) :
  exists k,
    (k = [] \/ exists k', k = k' ++ [Path.slash])
    /\ forall y,
         nonempty y = true ->
         forallb (fun c => negb (Chr.eqb Path.slash c)) y = true ->
         text_eqb y (txt ".") = false -> text_eqb y (txt "..") = false ->
         Path.normpath (b ++ [Path.slash] ++ y) = k ++ y.
Proof.
  set (n := if Py.startswith [Path.slash] (b ++ [Path.slash]) then
              if Py.startswith [Path.slash; Path.slash] (b ++ [Path.slash])
                 && negb (Py.startswith [Path.slash; Path.slash; Path.slash]
                            (b ++ [Path.slash]))
              then 2 else 1
            else 0).
  set (stack := fold_left (Path.norm_step n) (Py.split [Path.slash] b) []).
  exists (replicate n Path.slash
          ++ match rev stack with
             | [] => []
             | _ => Py.join [Path.slash] (rev stack) ++ [Path.slash]
             end).
  split.
  - destruct (rev stack) as [|x l].
    + rewrite app_nil_r. destruct n as [|n]; [by left|right].
      exists (replicate n Path.slash).
      change [Path.slash] with (replicate 1 Path.slash).
      rewrite <- replicate_add. f_equal. lia.
    + right. eexists. by rewrite app_assoc.
  - intros y Hne Hy Hd Hdd.
    unfold Path.normpath.
    destruct (b ++ [Path.slash] ++ y) as [|c0 rest0] eqn:E0;
      [by destruct b|]. rewrite <- E0. clear c0 rest0 E0.
    assert (forall p, forallb (fun c => negb (Chr.eqb c Path.slash)) p = false
                      -> True) as _ by done.
    assert (forall p, forallb (Chr.eqb Path.slash) p = true ->
              Py.startswith p (b ++ [Path.slash] ++ y)
              = Py.startswith p (b ++ [Path.slash])) as Hsw.
    { intros p Hp. destruct y as [|c y]; [done|].
      cbn [forallb] in Hy. apply andb_true_iff in Hy as [Hc _].
      apply negb_true_iff in Hc.
      replace (b ++ [Path.slash] ++ c :: y)
        with ((b ++ [Path.slash]) ++ c :: y) by (by rewrite <- !app_assoc).
      rewrite startswith_before; [done|].
      eapply forallb_impl; [|exact Hp]. intros x Hx.
      apply chr_eqb_eq in Hx. subst x. by rewrite Hc. }
    rewrite !Hsw by done. fold n.
    unfold Py.split. rewrite split_slash_snoc by done.
    rewrite fold_left_app. cbn [fold_left]. fold (Py.split [Path.slash] b).
    fold stack. rewrite norm_step_regular by done.
    cbn [rev]. rewrite join_snoc.
    destruct (rev stack) as [|x l] eqn:Erev.
    + rewrite !app_nil_r.
      destruct (replicate n Path.slash ++ y) eqn:E; [|done].
      destruct n; [|done]. by destruct y.
    + rewrite <- !app_assoc.
      destruct (replicate n Path.slash ++ _) eqn:E; [|done].
      destruct n; [|done]. simpl in E. by destruct x, l.
Qed.

Lemma join_app (d p t : text) :
  nonempty p = true -> Path.join d (p ++ t) = Path.join d p ++ t.
Proof.
  destruct p as [|c p]; [done|]. intros _. unfold Path.join.
  change ((c :: p) ++ t) with (c :: (p ++ t)).
  rewrite !startswith_cons, !startswith_nil.
  destruct (Chr.eqb Path.slash c); simpl; [done|].
  destruct (negb (nonempty d) || Py.endswith [Path.slash] d);
    by rewrite <- ?app_assoc.
Qed.

Lemma join_last (d q y : text) :
  exists b, Path.join d (q ++ [Path.slash] ++ y) = b ++ [Path.slash] ++ y.
Proof.
  unfold Path.join. repeat case_match.
  - by exists q.
  - exists (d ++ q). by rewrite <- app_assoc.
  - exists (d ++ [Path.slash] ++ q). by rewrite <- !app_assoc.
Qed.

End Resolve.

(** X7.  A relative specifier, one that starts with ./ or ../, resolves to
    a path that ends in .js; any other specifier is returned as it is
    written. *)
Theorem relative_import_resolves_to_js (source_file import_path : text) :
  (is_relative import_path = true ->
   Py.endswith (txt ".js") (resolve_import_path source_file import_path) = true)
  /\ (is_relative import_path = false ->
      resolve_import_path source_file import_path = import_path).
Proof.
  unfold resolve_import_path, is_relative. split; intros ->; [|done].
  destruct (Py.endswith (txt ".js") (Path.normpath _)) eqn:E; cbn [negb];
    [done|]. apply endswith_app.
Qed.

(** X8.  For a relative specifier, writing the .js extension of the
    module or leaving it out gives the same resolved path. *)
Theorem extension_is_optional (source_file q x : text) :
  is_module_name x = true ->
  is_relative (q ++ txt "/" ++ x) = true ->
  resolve_import_path source_file (q ++ txt "/" ++ x ++ txt ".js")
  = resolve_import_path source_file (q ++ txt "/" ++ x).
Proof.
  unfold is_module_name, is_relative.
  intros [[[[Hne Hsl]%andb_true_iff Hd%negb_true_iff]%andb_true_iff
             Hdd%negb_true_iff]%andb_true_iff Hjs%negb_true_iff]%andb_true_iff
         Hrel.
  assert (exists x0 x', x = x0 :: x' /\ Chr.eqb Path.slash x0 = false)
    as (x0 & x' & Hx & Hx0).
  { destruct x as [|x0 x']; [done|]. cbn [forallb] in Hsl.
    apply andb_true_iff in Hsl as [H0 _]. apply negb_true_iff in H0. eauto. }
  assert (is_relative (q ++ txt "/" ++ x ++ txt ".js") = true) as Hrel'.
  { unfold is_relative.
    replace (q ++ txt "/" ++ x ++ txt ".js")
      with ((q ++ txt "/" ++ x) ++ txt ".js") by (by rewrite <- !app_assoc).
    unfold Py.startswith in *.
    apply orb_true_iff in Hrel. apply orb_true_iff.
    destruct Hrel as [H|H]; [left|right].
    all: destruct (Py.strip_prefix _ (q ++ _)) as [r|] eqn:E; [|done].
    all: apply strip_prefix_Some in E; rewrite E, <- app_assoc.
    all: by rewrite strip_prefix_app. }
  unfold resolve_import_path. unfold is_relative in Hrel'.
  rewrite Hrel, Hrel'.
  replace (q ++ txt "/" ++ x ++ txt ".js")
    with ((q ++ txt "/" ++ x) ++ txt ".js") by (by rewrite <- !app_assoc).
  rewrite join_app by (by destruct q).
  change (txt "/") with [Path.slash].
  destruct (join_last (Path.dirname source_file) q x) as (b & ->).
  destruct (normpath_last b) as (k & Hk & Hnorm).
  rewrite <- !app_assoc.
  rewrite (Hnorm (x ++ txt ".js")).
  2:{ by rewrite Hx. }
  2:{ by rewrite forallb_app, Hsl. }
  2,3: apply text_eqb_length; rewrite Hx, length_app; simpl; lia.
  rewrite (Hnorm x) by done.
  rewrite app_assoc, endswith_app. cbn [negb].
  assert (Py.endswith (txt ".js") (k ++ x) = false) as ->.
  { destruct Hk as [->|(k' & ->)]; [done|].
    rewrite <- app_assoc. cbn [app]. by rewrite endswith_after. }
  cbn [negb]. by rewrite <- app_assoc.
Qed.

Lemma extension_is_optional_witness :
  let source_file := txt "src/ui/c.js" in
  let q := txt ".." in
  let x := txt "sky" in
  is_module_name x = true
  /\ is_relative (q ++ txt "/" ++ x) = true
  /\ resolve_import_path source_file (q ++ txt "/" ++ x ++ txt ".js")
     = resolve_import_path source_file (q ++ txt "/" ++ x).
Proof.
  intros source_file q x. split_and!; [reflexivity|reflexivity|].
  exact (extension_is_optional source_file q x eq_refl eq_refl).
Defined.

(** *** Matches are prefixes, scans are ordered *)

Section Consumption.

Import Re.

Implicit Types (ps qs : list cset) (s u r : text).

Lemma embeds_concat ps qs u r :
  embeds ps u = true -> embeds qs r = true -> embeds (ps ++ qs) (u ++ r) = true.
Proof.
  revert ps. induction u as [|c u IH]; intros [|p ps] Hu Hr; try done.
  - simpl. by apply embeds_cons, embeds_app_l.
  - simpl in *. destruct (cset_mem p c); [by apply IH|].
    by apply (IH (p :: ps)).
Qed.

Context {A : Type}.
Implicit Types (k : cursor -> option A).

Lemma consumed_refl st : consumed [] st st.
Proof. exists []. split_and!; [done|simpl; lia|done]. Qed.

Lemma consumed_trans ps qs st1 st2 st3 :
  consumed ps st1 st2 -> consumed qs st2 st3 -> consumed (ps ++ qs) st1 st3.
Proof.
  intros (u & Hu & Hp & He) (v & Hv & Hq & Hf). exists (u ++ v).
  split_and!.
  - by rewrite Hu, Hv, app_assoc.
  - rewrite length_app. lia.
  - by apply embeds_concat.
Qed.

Lemma consumed_weaken ps st st' : consumed ps st st' -> consumed [] st st'.
Proof. intros (u & Hu & Hp & _). exists u. split_and!; try done. apply embeds_nil_l. Qed.

Lemma star_greedy_consumed cs k r :
  forall p pv cp a,
    star_greedy cs k p pv r cp = Some a ->
    exists st', k st' = Some a /\ consumed [] (Cursor p pv r cp) st'.
Proof.
  induction r as [|c r IH]; intros p pv cp a; simpl.
  - intros H. eexists. split; [exact H|]. apply consumed_refl.
  - assert (k (Cursor p pv (c :: r) cp) = Some a ->
            exists st', k st' = Some a
                        /\ consumed [] (Cursor p pv (c :: r) cp) st') as Hstop.
    { intros H. eexists. split; [exact H|]. apply consumed_refl. }
    destruct (cset_mem cs c); [|done].
    destruct (star_greedy cs k (S p) (Some c) r cp) eqn:E; [|done].
    intros [= ->]. destruct (IH _ _ _ _ E) as (st' & Hk & u & Hu & Hp & _).
    exists st'. split; [done|]. exists (c :: u). simpl in *.
    split_and!; [by rewrite Hu|lia|done].
Qed.

Lemma star_lazy_consumed cs k r :
  forall p pv cp a,
    star_lazy cs k p pv r cp = Some a ->
    exists st', k st' = Some a /\ consumed [] (Cursor p pv r cp) st'.
Proof.
  induction r as [|c r IH]; intros p pv cp a; simpl.
  - destruct (k _) eqn:E; [|done]. intros [= ->].
    eexists. split; [exact E|]. apply consumed_refl.
  - destruct (k _) eqn:E.
    + intros [= ->]. eexists. split; [exact E|]. apply consumed_refl.
    + destruct (cset_mem cs c); [|done].
      intros H. destruct (IH _ _ _ _ H) as (st' & Hk & u & Hu & Hp & _).
      exists st'. split; [done|]. exists (c :: u). simpl in *.
      split_and!; [by rewrite Hu|lia|done].
Qed.

End Consumption.

Lemma run_consumed {A : Type} (re : Re.regex) :
  forall (k : Re.cursor -> option A) (st : Re.cursor) (a : A),
    Re.run re k st = Some a ->
    exists st', k st' = Some a /\ consumed (musts re) st st'.
Proof.
  revert A.
  induction re as [l|cs|cs|cs|r1 IH1 r2 IH2|r1 IH1 r2 IH2|r IH|n r IH| | | | ];
    intros A k st a; simpl.
  - destruct (Py.strip_prefix l (Re.rest st)) as [r'|] eqn:E; [|done].
    apply strip_prefix_Some in E. intros H. eexists. split; [exact H|].
    exists l. simpl. split_and!; [done|done|].
    rewrite <- (app_nil_r l) at 2.
    rewrite <- (app_nil_r (map _ l)). by apply embeds_lit.
  - destruct (Re.rest st) as [|c r'] eqn:E; [done|].
    destruct (Re.cset_mem cs c) eqn:Hc; [|done].
    intros H. eexists. split; [exact H|]. exists [c]. simpl.
    split_and!; [done|lia|by rewrite Hc].
  - destruct st as [p pv r cp]. apply star_greedy_consumed.
  - destruct st as [p pv r cp]. apply star_lazy_consumed.
  - intros H. destruct (IH1 _ _ _ _ H) as (st1 & H1 & Hs1).
    destruct (IH2 _ _ _ _ H1) as (st2 & H2 & Hs2).
    exists st2. split; [done|]. by eapply consumed_trans.
  - destruct (Re.run r1 k st) eqn:E.
    + intros [= ->]. destruct (IH1 _ _ _ _ E) as (st' & Hk & Hs).
      exists st'. split; [done|]. by eapply consumed_weaken.
    + intros H. destruct (IH2 _ _ _ _ H) as (st' & Hk & Hs).
      exists st'. split; [done|]. by eapply consumed_weaken.
  - destruct (Re.run r k st) eqn:E.
    + intros [= ->]. destruct (IH _ _ _ _ E) as (st' & Hk & Hs).
      exists st'. split; [done|]. by eapply consumed_weaken.
    + intros H. eexists. split; [exact H|]. apply consumed_refl.
  - intros H. destruct (IH _ _ _ _ H) as (st' & Hk & Hs).
    eexists. split; [exact Hk|]. done.
  - destruct (Re.at_boundary st); [|done].
    intros H. eexists. split; [exact H|]. apply consumed_refl.
  - destruct (Re.pos st =? 0); [|done].
    intros H. eexists. split; [exact H|]. apply consumed_refl.
  - destruct (Re.rest st) as [|c [|d r']] eqn:E; try done.
    + intros H. eexists. split; [exact H|]. apply consumed_refl.
    + destruct (Chr.eqb c NL); [|done].
      intros H. eexists. split; [exact H|]. apply consumed_refl.
  - destruct (Re.rest st) as [|c r'] eqn:E.
    + intros H. eexists. split; [exact H|]. apply consumed_refl.
    + destruct (Chr.eqb c NL); [|done].
      intros H. eexists. split; [exact H|]. apply consumed_refl.
Qed.

(** A match at [p] is a prefix of the text from [p] on. *)
Lemma match_at_prefix (re : Re.regex) p pv r mt :
  Re.match_at re p pv r = Some mt ->
  exists u r',
    r = u ++ r' /\ Re.m_start mt = p /\ Re.m_end mt = p + length u
    /\ Re.m_text mt = u /\ embeds (musts re) u = true.
Proof.
  unfold Re.match_at. intros H.
  destruct (run_consumed _ _ _ _ H) as (st' & Hk & u & Hu & Hp & He).
  simpl in *. injection Hk as <-. exists u, (Re.rest st'). simpl.
  split_and!; try done.
  rewrite Hp, Hu. replace (p + length u - p) with (length u) by lia.
  by rewrite take_app_length.
Qed.

Lemma spans_from_mono lo lo' hi l :
  lo <= lo' -> spans_from lo' hi l -> spans_from lo hi l.
Proof. destruct l as [|[a b] l]; simpl; [done|]. intros ? (?&?&?&?). split_and!; try done. lia. Qed.

Lemma scan_spans (re : Re.regex) :
  embeds (musts re) [] = false ->
  forall r skip p pv,
    spans_from (p + skip) (p + length r) (map m_span (Re.scan re skip p pv r)).
Proof.
  intros Hne. induction r as [|c r IH]; intros skip p pv.
  - destruct skip; simpl; [|done]. by rewrite match_at_no_embed.
  - cbn [length]. replace (p + S (length r)) with (S p + length r) by lia.
    destruct skip as [|skip]; cbn [Re.scan].
    + destruct (Re.match_at re p pv (c :: r)) as [mt|] eqn:E.
      * destruct (match_at_prefix _ _ _ _ _ E) as (u & r' & Hr & Hs & He & _ & Hu).
        assert (0 < length u) by (destruct u; [congruence|simpl; lia]).
        assert (length (c :: r) = length u + length r') as Hlen
          by (by rewrite Hr, length_app).
        cbn [length] in Hlen. cbn [map spans_from m_span].
        unfold m_span at 1. split_and!; try lia.
        eapply spans_from_mono; [|apply (IH (Re.m_end mt - p - 1) (S p) (Some c))].
        lia.
      * eapply spans_from_mono; [|apply (IH 0)]. lia.
    + replace (p + S skip) with (S p + skip) by lia. apply IH.
Qed.

Lemma finditer_spans (re : Re.regex) (s : text) :
  embeds (musts re) [] = false ->
  spans_from 0 (length s) (map m_span (Re.finditer re s)).
Proof. intros H. apply (scan_spans re H s 0 0 None). Qed.

Lemma spans_from_bounds lo hi l a b :
  spans_from lo hi l -> (a, b) ∈ l -> lo <= a /\ a < b /\ b <= hi.
Proof.
  revert lo. induction l as [|[a' b'] l IH]; intros lo Hl Hin.
  - by apply elem_of_nil in Hin.
  - destruct Hl as (H1 & H2 & H3 & Hl).
    apply elem_of_cons in Hin as [[= -> ->]|Hin]; [done|].
    destruct (IH _ Hl Hin) as (?&?&?). lia.
Qed.

Lemma spans_from_kept (keep : Re.rmatch -> bool) (name : Re.rmatch -> text)
    (ms : list Re.rmatch) :
  forall lo hi,
    spans_from lo hi (map m_span ms) ->
    spans_from lo hi
      (map span
         (flat_map
            (fun mt =>
               if keep mt then [Decl (name mt) (Re.m_start mt) (Re.m_end mt)]
               else [])
            ms)).
Proof.
  induction ms as [|mt ms IH]; intros lo hi; [done|].
  cbn [map flat_map spans_from m_span]. unfold m_span at 1.
  intros (H1 & H2 & H3 & Hl). destruct (keep mt).
  - cbn [app map spans_from]. unfold span at 1. cbn [d_start d_end].
    split_and!; try done. by apply IH.
  - cbn [app]. eapply spans_from_mono; [|by apply IH]. lia.
Qed.

Lemma spans_from_decl_of (ms : list Re.rmatch) lo hi :
  spans_from lo hi (map m_span ms) ->
  spans_from lo hi (map span (map decl_of ms)).
Proof. by rewrite map_map. Qed.

Lemma finditer_span_bounds (re : Re.regex) (s : text) (mt : Re.rmatch) :
  embeds (musts re) [] = false ->
  mt ∈ Re.finditer re s ->
  Re.m_start mt < Re.m_end mt /\ Re.m_end mt <= length s.
Proof.
  intros Hne Hin.
  destruct (spans_from_bounds 0 (length s) (map m_span (Re.finditer re s))
              (Re.m_start mt) (Re.m_end mt)) as (_ & ? & ?); [|..|done].
  - by apply finditer_spans.
  - apply list_elem_of_fmap. by exists mt.
Qed.

(** X9.  The class, function, const and bare-class records of the scanner
    have spans that are not empty, follow one another in the text without
    overlap and lie within the text; every default and braces record has a
    span that is not empty and ends within the text. *)
Theorem export_spans_lie_in_text_order (content : text) :
  let e := find_all_exports content in
  spans_from 0 (length content) (map span (e_class e))
  /\ spans_from 0 (length content) (map span (e_function e))
  /\ spans_from 0 (length content) (map span (e_const e))
  /\ spans_from 0 (length content) (map span (e_named e))
  /\ (forall d, d ∈ e_default e ++ e_destructured e ->
                d_start d < d_end d /\ d_end d <= length content).
Proof.
  cbn zeta. unfold find_all_exports.
  cbn [e_class e_function e_const e_named e_default e_destructured].
  split_and!.
  - apply spans_from_decl_of, finditer_spans. reflexivity.
  - apply spans_from_decl_of, finditer_spans. reflexivity.
  - apply spans_from_decl_of, finditer_spans. reflexivity.
  - apply (spans_from_kept _ (Re.group 1)), finditer_spans. reflexivity.
  - intros d Hd. rewrite !elem_of_app in Hd.
    destruct Hd as [[Hd|Hd]|Hd].
    + apply list_elem_of_fmap in Hd as (mt & -> & Hmt).
      by apply finditer_span_bounds in Hmt.
    + cbn [flat_map] in Hd. rewrite app_nil_r in Hd.
      apply elem_of_app in Hd as [Hd|Hd];
        apply list_elem_of_fmap in Hd as (mt & -> & Hmt);
        by apply finditer_span_bounds in Hmt.
    + apply list_elem_of_In, in_flat_map in Hd as (mt & Hmt & Hd).
      apply list_elem_of_In in Hmt, Hd.
      apply list_elem_of_fmap in Hd as (name & -> & _).
      by apply finditer_span_bounds in Hmt.
Qed.

(** *** Substitution with shorter texts only deletes *)

Section OnlyDeletes.

Import Re.

Lemma embeds_singletons_sublist (w u : text) :
  embeds (map (fun c => COneOf [c]) w) u = true -> w `sublist_of` u.
Proof.
  revert w. induction u as [|c u IH]; intros [|a w]; simpl; try done.
  - intros _. apply sublist_nil_l.
  - unfold Chr.mem. simpl. rewrite orb_false_r.
    destruct (Chr.eqb c a) eqn:E.
    + apply chr_eqb_eq in E as ->. intros H. by apply sublist_skip, IH.
    + intros H. by apply sublist_cons, (IH (a :: w)).
Qed.

Lemma slice_from (s : text) (p : nat) : Py.slice s p p = [].
Proof. unfold Py.slice. by rewrite Nat.sub_diag. Qed.

Lemma scan_lower (re : regex) :
  forall r skip p pv mt,
    mt ∈ scan re skip p pv r -> p + skip <= m_start mt.
Proof.
  induction r as [|c r IH]; intros skip p pv mt.
  - destruct skip; simpl; [|by intros ?%elem_of_nil].
    destruct (match_at re p pv []) as [mt'|] eqn:E; [|by intros ?%elem_of_nil].
    intros ->%list_elem_of_singleton.
    destruct (match_at_prefix _ _ _ _ _ E) as (_ & _ & _ & -> & _). lia.
  - destruct skip as [|skip]; cbn [scan].
    + destruct (match_at re p pv (c :: r)) as [mt'|] eqn:E.
      * intros [->|H]%elem_of_cons.
        -- destruct (match_at_prefix _ _ _ _ _ E) as (_ & _ & _ & -> & _). lia.
        -- apply IH in H. lia.
      * intros H. apply IH in H. lia.
    + intros H. apply IH in H. lia.
Qed.

Lemma rebuild_step (repl : rmatch -> text) (pre r : text) (c : ascii)
    (ms : list rmatch) :
  (forall mt, mt ∈ ms -> S (length pre) <= m_start mt) ->
  rebuild repl (pre ++ c :: r) (length pre) ms
  = c :: rebuild repl (pre ++ c :: r) (S (length pre)) ms.
Proof.
  assert (drop (length pre) (pre ++ c :: r) = c :: r) as Hd0
    by apply drop_app_length.
  assert (drop (S (length pre)) (pre ++ c :: r) = r) as Hd1.
  { change (S (length pre)) with (1 + length pre). rewrite Nat.add_comm.
    by rewrite <- drop_drop, Hd0. }
  destruct ms as [|mt ms]; cbn [rebuild]; intros Hms.
  - by rewrite Hd0, Hd1.
  - unfold Py.slice. rewrite Hd0, Hd1.
    specialize (Hms mt (list_elem_of_here _ _)).
    replace (m_start mt - length pre)
      with (S (m_start mt - S (length pre))) by lia.
    done.
Qed.

Lemma rebuild_scan_sublist (re : regex) (repl : rmatch -> text) :
  (forall p pv r mt,
     match_at re p pv r = Some mt -> repl mt `sublist_of` m_text mt) ->
  forall r pre skip pv,
    rebuild repl (pre ++ r) (length pre + skip)
      (scan re skip (length pre) pv r)
    `sublist_of` drop skip r.
Proof.
  intros Hrepl. induction r as [|c r IH]; intros pre skip pv.
  - rewrite drop_nil.
    destruct skip; cbn [scan rebuild].
    2:{ rewrite drop_ge by (rewrite length_app; simpl; lia). done. }
    destruct (match_at re (length pre) pv []) as [mt|] eqn:E; cbn [rebuild].
    2:{ rewrite drop_ge by (rewrite length_app; simpl; lia). done. }
    destruct (match_at_prefix _ _ _ _ _ E)
      as (u & r' & Hr & Hstart & Hend & Htext & Hu).
    apply Hrepl in E. rewrite Htext in E.
    symmetry in Hr. apply app_eq_nil in Hr as [-> ->].
    apply sublist_nil_r in E. rewrite E, Hstart, Nat.add_0_r, slice_from.
    rewrite drop_ge by (rewrite Hend, length_app; simpl; lia). done.
  - assert (pre ++ c :: r = (pre ++ [c]) ++ r) as Hs
      by (by rewrite <- app_assoc).
    assert (S (length pre) = length (pre ++ [c])) as Hl
      by (rewrite length_app; simpl; lia).
    destruct skip as [|skip]; cbn [scan].
    + rewrite Nat.add_0_r. cbn [drop].
      destruct (match_at re (length pre) pv (c :: r)) as [mt|] eqn:E.
      * destruct (match_at_prefix _ _ _ _ _ E)
          as (u & r' & Hr & Hstart & Hend & Htext & Hu).
        cbn [rebuild]. rewrite Hstart, slice_from, app_nil_l.
        pose proof (Hrepl _ _ _ _ E) as Hsub. rewrite Htext in Hsub.
        destruct u as [|c' u].
        -- apply sublist_nil_r in Hsub. rewrite Hsub, app_nil_l.
           simpl in Hend. rewrite Nat.add_0_r in Hend. rewrite Hend.
           replace (length pre - length pre - 1) with 0 by lia.
           rewrite rebuild_step.
           2:{ intros mt' Hin. apply scan_lower in Hin. lia. }
           apply sublist_skip.
           specialize (IH (pre ++ [c]) 0 (Some c)).
           rewrite Nat.add_0_r in IH. cbn [drop] in IH.
           by rewrite <- Hs, <- Hl in IH.
        -- injection Hr as <- ->.
           rewrite (app_comm_cons u r' c). apply sublist_app; [done|].
           specialize (IH (pre ++ [c]) (length u) (Some c)).
           rewrite drop_app_length in IH.
           rewrite <- Hs, <- Hl in IH.
           replace (m_end mt - length pre - 1) with (length u)
             by (rewrite Hend; simpl; lia).
           replace (m_end mt) with (S (length pre) + length u)
             by (rewrite Hend; simpl; lia).
           exact IH.
      * rewrite rebuild_step.
        2:{ intros mt' Hin. apply scan_lower in Hin. lia. }
        apply sublist_skip.
        specialize (IH (pre ++ [c]) 0 (Some c)).
        rewrite Nat.add_0_r in IH. cbn [drop] in IH.
        by rewrite <- Hs, <- Hl in IH.
    + cbn [drop].
      specialize (IH (pre ++ [c]) skip (Some c)).
      rewrite <- Hs, <- Hl in IH.
      by replace (length pre + S skip) with (S (length pre) + skip) by lia.
Qed.

(** A substitution whose replacement is read off the match only deletes
    characters. *)
Lemma sub_sublist (re : regex) (w : text) (s : text) :
  (forall u, embeds (musts re) u = true ->
             embeds (map (fun c => COneOf [c]) w) u = true) ->
  sub re (fun _ => w) s `sublist_of` s.
Proof.
  intros Hw. unfold sub, finditer.
  apply (rebuild_scan_sublist re (fun _ => w)) with (pre := []) (skip := 0).
  intros p pv r mt Hmt.
  destruct (match_at_prefix _ _ _ _ _ Hmt) as (u & r' & _ & _ & _ & -> & Hu).
  by apply embeds_singletons_sublist, Hw.
Qed.

Lemma collapse_semis_sublist (s : text) : collapse_semis s `sublist_of` s.
Proof.
  apply sub_sublist. intros u. apply (embeds_take [_] [_]).
Qed.

Lemma collapse_blank_lines_sublist (s : text) :
  collapse_blank_lines s `sublist_of` s.
Proof.
  apply (sub_sublist _ [NL; NL]). intros u.
  apply (embeds_take [_; _] [_]).
Qed.

Lemma take_drop_sublist (s : text) (a b : nat) :
  a <= b -> take a s ++ drop b s `sublist_of` s.
Proof.
  intros H. rewrite <- (take_drop a s) at 3. apply sublist_app; [done|].
  replace b with (a + (b - a)) by lia. rewrite <- drop_drop.
  apply sublist_drop.
Qed.

Lemma take_slice_drop (s : text) (a b : nat) :
  a <= b -> s = take a s ++ Py.slice s a b ++ drop b s.
Proof.
  intros H. unfold Py.slice.
  rewrite <- (take_drop a s) at 1. f_equal.
  rewrite <- (take_drop (b - a) (drop a s)) at 1. f_equal.
  rewrite drop_drop. f_equal. lia.
Qed.

Lemma rfind_go_bound (c : ascii) (s : text) :
  forall i last j,
    Py.rfind_go c s i last = Some j ->
    last = Some j \/ (i <= j /\ j < i + length s).
Proof.
  induction s as [|x s IH]; intros i last j; simpl; [by left|].
  intros H. apply IH in H as [H|H].
  - destruct (Chr.eqb x c); [|by left]. injection H as <-. right. lia.
  - right. lia.
Qed.

Lemma rfind_bound (c : ascii) (s : text) (upto j : nat) :
  Py.rfind c s upto = Some j -> j < upto /\ j < length s.
Proof.
  unfold Py.rfind. intros H. apply rfind_go_bound in H as [H|H]; [done|].
  rewrite length_take in H. lia.
Qed.

Lemma find_go_bound (c : ascii) (s : text) :
  forall i j, Py.find_go c s i = Some j -> i <= j /\ j < i + length s.
Proof.
  induction s as [|x s IH]; intros i j; simpl; [done|].
  destruct (Chr.eqb x c).
  - intros [= <-]. lia.
  - intros H. apply IH in H. lia.
Qed.

Lemma find_bound (c : ascii) (s : text) (from j : nat) :
  Py.find c s from = Some j -> from <= j.
Proof. unfold Py.find. intros H. apply find_go_bound in H. lia. Qed.

Lemma line_start_of_bound (content : text) (p : nat) :
  line_start_of content p <= p /\ line_start_of content p <= length content.
Proof.
  unfold line_start_of. destruct (Py.rfind NL content p) as [i|] eqn:E.
  - apply rfind_bound in E. lia.
  - lia.
Qed.

Lemma search_elem (re : regex) (s : text) (mt : rmatch) :
  search re s = Some mt -> mt ∈ finditer re s.
Proof. unfold search. apply head_Some_elem_of. Qed.

Lemma remove_position_sublist (name : text) (p : position)
    (st : text * list text) :
  p_start p <= p_end p ->
  fst (remove_position name p st) `sublist_of` fst st.
Proof.
  destruct st as [content changes], p as [t start end_]. cbn [p_start p_end fst].
  intros Hse.
  assert (fst (let line_start := line_start_of content start in
               let line_end :=
                 default (length content) (Py.find NL content end_) in
               let line := Py.slice content line_start line_end in
               if Py.startswith (txt "export") (Py.strip line) then
                 (take line_start content ++ drop (line_end + 1) content,
                  changes ++ [txt "Removed duplicate " ++ type_name t
                                ++ txt " export of " ++ name])
               else (content, changes))
          `sublist_of` content) as Hline.
  { cbn zeta. destruct (Py.startswith _ _); [|done]. cbn [fst].
    apply take_drop_sublist.
    destruct (line_start_of_bound content start) as [H1 H2].
    destruct (Py.find NL content end_) as [j|] eqn:E; cbn [default from_option id].
    - apply find_bound in E. lia.
    - unfold id. lia. }
  unfold remove_position.
  destruct t; try exact Hline. clear Hline.
  destruct (search _ _) as [mt|] eqn:Hm; [|done].
  apply search_elem, finditer_span_bounds in Hm as [H1 H2]; [|done].
  assert (start - 50 + m_end mt <= length content) as Hend.
  { unfold Py.slice in H2. rewrite length_take, length_drop in H2. lia. }
  cbn zeta. destruct (length _ =? 1); cbn [fst].
  - apply take_drop_sublist. lia.
  - rewrite (take_slice_drop content (start - 50 + m_start mt)
               (start - 50 + m_end mt)) at 4 by lia.
    apply sublist_app; [done|]. apply sublist_app; [|done].
    etrans; [apply sub_sublist|].
    { intros u Hu. apply (embeds_drop [_]) in Hu. exact Hu. }
    etrans; [apply sub_sublist|].
    { intros u. apply (embeds_take [_] [_]). }
    etrans; [apply sub_sublist|].
    { intros u. apply (embeds_take [_] [_]). }
    apply (sub_sublist _ []). intros u _. apply embeds_nil_l.
Qed.

End OnlyDeletes.

Lemma fold_remove_sublist (name : text) (keep : nat)
    (l : list (nat * position)) (st : text * list text) :
  Forall (fun ip => well_formed (snd ip)) l ->
  fst (fold_left
         (fun st '(i, p) => if i =? keep then st else remove_position name p st)
         l st)
  `sublist_of` fst st.
Proof.
  revert st. induction l as [|[i p] l IH]; intros st Hl; [done|].
  apply Forall_cons in Hl as [Hp Hl]. cbn [fold_left].
  etrans; [by apply IH|].
  destruct (i =? keep); [done|]. by apply remove_position_sublist.
Qed.

Lemma enumerate_from_snd {A : Type} (P : A -> Prop) (l : list A) :
  forall n, Forall P l -> Forall (fun ip => P (snd ip)) (enumerate_from n l).
Proof.
  induction l as [|x l IH]; intros n Hl; [constructor|].
  apply Forall_cons in Hl as [Hx Hl]. constructor; [done|]. by apply IH.
Qed.

Lemma resolve_name_sublist (st : text * list text)
    (entry : text * list position) :
  Forall well_formed (snd entry) ->
  fst (resolve_name st entry) `sublist_of` fst st.
Proof.
  destruct entry as [name positions]. cbn [snd]. intros H.
  unfold resolve_name. apply fold_remove_sublist, enumerate_from_snd.
  by rewrite sort_desc_perm.
Qed.

Lemma add_position_well_formed (name : text) (p : position)
    (all : list (text * list position)) :
  well_formed p ->
  Forall (fun entry => Forall well_formed (snd entry)) all ->
  Forall (fun entry => Forall well_formed (snd entry))
    (add_position name p all).
Proof.
  intros Hp. induction all as [|[n ps] all IH]; intros Hall; simpl.
  - repeat constructor. done.
  - apply Forall_cons in Hall as [Hps Hall].
    destruct (text_eqb n name).
    + constructor; [|done]. simpl. apply Forall_app. split; [done|].
      by repeat constructor.
    + constructor; [done|]. by apply IH.
Qed.

Lemma find_all_exports_bounds (content : text) (t : export_type)
    (l : list decl) (d : decl) :
  (t, l) ∈ items (find_all_exports content) -> d ∈ l ->
  d_start d < d_end d /\ d_end d <= length content.
Proof.
  intros Hl Hd.
  assert (forall re name,
            d ∈ map (fun mt => Decl (name mt) (Re.m_start mt) (Re.m_end mt))
                  (Re.finditer re content) ->
            embeds (musts re) [] = false ->
            d_start d < d_end d /\ d_end d <= length content) as Hmap.
  { intros re name Hin Hne.
    apply list_elem_of_fmap in Hin as (mt & -> & Hmt).
    by apply finditer_span_bounds in Hmt. }
  unfold items, find_all_exports in Hl.
  cbn [e_class e_function e_const e_named e_default e_destructured] in Hl.
  repeat (apply elem_of_cons in Hl as [[= -> ->]|Hl]);
    [| | | | | |by apply elem_of_nil in Hl].
  - cbn [flat_map] in Hd. rewrite app_nil_r, !elem_of_app in Hd.
    destruct Hd as [Hd|[Hd|Hd]].
    + by apply (Hmap _ (Re.group 1)) in Hd.
    + by apply (Hmap _ (fun _ => anonymous)) in Hd.
    + by apply (Hmap _ (fun _ => anonymous)) in Hd.
  - apply list_elem_of_In, in_flat_map in Hd as (mt & Hmt & Hd).
    apply list_elem_of_In in Hmt.
    apply finditer_span_bounds in Hmt; [|done].
    destruct (_ && _); [|by apply in_nil in Hd].
    by destruct Hd as [<-|[]].
  - by apply (Hmap _ (Re.group 1)) in Hd.
  - by apply (Hmap _ (Re.group 1)) in Hd.
  - by apply (Hmap _ (Re.group 1)) in Hd.
  - apply list_elem_of_In, in_flat_map in Hd as (mt & Hmt & Hd).
    apply list_elem_of_In in Hmt, Hd.
    apply list_elem_of_fmap in Hd as (name & -> & _).
    by apply finditer_span_bounds in Hmt.
Qed.

Lemma collect_exports_well_formed (content : text) :
  Forall (fun entry => Forall well_formed (snd entry))
    (collect_exports (find_all_exports content)).
Proof.
  unfold collect_exports.
  assert (forall t l, (t, l) ∈ items (find_all_exports content) ->
                      Forall (fun d => d_start d <= d_end d) l) as Hitems.
  { intros t l Hl. apply Forall_forall. intros d Hd.
    destruct (find_all_exports_bounds content t l d Hl Hd). lia. }
  revert Hitems. generalize (items (find_all_exports content)).
  intros its Hits.
  assert (Forall (fun entry : text * list position =>
                    Forall well_formed (snd entry)) []) as Hacc
    by constructor.
  revert Hacc. generalize (@nil (text * list position)).
  induction its as [|[t l] its IH]; intros acc Hacc; [done|].
  cbn [fold_left]. apply IH.
  - intros t' l' Hin. apply (Hits t'). by apply elem_of_cons; right.
  - specialize (Hits t l (list_elem_of_here _ _)).
    clear IH. revert acc Hacc.
    induction l as [|d l IHl]; intros acc Hacc; [done|].
    apply Forall_cons in Hits as [Hd Hl]. cbn [fold_left].
    apply IHl; [done|]. by apply add_position_well_formed.
Qed.

(** X10.  Duplicate resolution only deletes: its output is a subsequence
    of its input, no character is added, changed or moved. *)
Theorem duplicate_resolution_only_deletes (content : text) :
  fst (remove_duplicate_exports content) `sublist_of` content.
Proof.
  unfold remove_duplicate_exports.
  pose proof (collect_exports_well_formed content) as Hwf.
  assert (Forall (fun entry => Forall well_formed (snd entry))
            (filter (fun entry => 1 < length (snd entry))
               (collect_exports (find_all_exports content)))) as Hdup.
  { apply Forall_forall. intros entry [_ Hin]%list_elem_of_filter.
    by eapply Forall_forall in Hwf. }
  destruct (filter _ _) as [|entry duplicates] eqn:E; [done|].
  rewrite <- E in *. clear E entry duplicates.
  assert (forall l st,
            Forall (fun entry => Forall well_formed (snd entry)) l ->
            fst (fold_left resolve_name l st) `sublist_of` fst st) as Hfold.
  { induction l as [|entry l IH]; intros st Hl; [done|].
    apply Forall_cons in Hl as [He Hl]. cbn [fold_left].
    etrans; [by apply IH|]. by apply resolve_name_sublist. }
  specialize (Hfold _ (content, []) Hdup).
  destruct (fold_left resolve_name _ _) as [content' changes].
  cbn [fst] in *.
  etrans; [apply collapse_blank_lines_sublist|].
  etrans; [apply collapse_semis_sublist|]. done.
Qed.

(** *** The semicolon cleanup *)

Section SubUnfold.

Import Re.

Lemma scan_skip (re : regex) (v : text) :
  forall p pv r,
    scan re (length v) p pv (v ++ r)
    = scan re 0 (p + length v) (last_or pv v) r.
Proof.
  induction v as [|c v IH]; intros p pv r.
  - simpl. by rewrite Nat.add_0_r.
  - cbn [length app scan]. rewrite IH. f_equal; [lia|].
    change (c :: v) with ([c] ++ v). by rewrite <- last_or_app.
Qed.

(** The substitution from a position on, where the pattern has no match at
    that position. *)
Lemma sub_unfold_none (re : regex) (repl : rmatch -> text) (pre r : text)
    (c : ascii) (pv : option ascii) :
  match_at re (length pre) pv (c :: r) = None ->
  rebuild repl (pre ++ c :: r) (length pre)
    (scan re 0 (length pre) pv (c :: r))
  = c :: rebuild repl ((pre ++ [c]) ++ r) (length (pre ++ [c]))
           (scan re 0 (length (pre ++ [c])) (Some c) r).
Proof.
  intros E. cbn [scan]. rewrite E.
  rewrite rebuild_step.
  2:{ intros mt' Hin. apply scan_lower in Hin. lia. }
  rewrite <- app_assoc. cbn [app].
  replace (length (pre ++ [c])) with (S (length pre))
    by (rewrite length_app; simpl; lia).
  done.
Qed.

(** ... and where it has the match [u]. *)
Lemma sub_unfold_match (re : regex) (repl : rmatch -> text) (pre u r : text)
    (pv : option ascii) (mt : rmatch) :
  nonempty u = true ->
  match_at re (length pre) pv (u ++ r) = Some mt ->
  m_end mt = length pre + length u ->
  rebuild repl (pre ++ u ++ r) (length pre)
    (scan re 0 (length pre) pv (u ++ r))
  = repl mt
    ++ rebuild repl ((pre ++ u) ++ r) (length (pre ++ u))
         (scan re 0 (length (pre ++ u)) (last_or pv u) r).
Proof.
  intros Hu E Hend. destruct u as [|c u]; [done|].
  cbn [app scan]. change (c :: u ++ r) with ((c :: u) ++ r). rewrite E.
  cbn [rebuild].
  destruct (match_at_prefix _ _ _ _ _ E) as (_ & _ & _ & -> & _).
  rewrite slice_from, app_nil_l. f_equal.
  rewrite Hend. cbn [length].
  replace (length pre + S (length u) - length pre - 1) with (length u) by lia.
  rewrite scan_skip. rewrite <- app_assoc.
  replace (length (pre ++ c :: u)) with (length pre + S (length u))
    by (rewrite length_app; simpl; lia).
  replace (S (length pre) + length u) with (length pre + S (length u)) by lia.
  cbn [app]. f_equal. f_equal.
  change (c :: u) with ([c] ++ u). rewrite <- last_or_app. done.
Qed.

End SubUnfold.

Section Semicolons.

Import Re.

Lemma match_semis_none_nil p pv : match_at Pat.semis p pv [] = None.
Proof. done. Qed.

Lemma match_semis_none_other p pv c r :
  Chr.eqb semi c = false -> match_at Pat.semis p pv (c :: r) = None.
Proof.
  intros H. unfold match_at, Pat.semis. cbn [seqs]. rewrite run_seq.
  cbn [run rest Py.strip_prefix txt list_ascii_of_string].
  change ";"%char with semi. by rewrite H.
Qed.

Lemma match_semis_none_single p pv r :
  stops (COneOf (txt ";")) r = true ->
  match_at Pat.semis p pv (semi :: r) = None.
Proof.
  intros H. unfold match_at, Pat.semis. cbn [seqs]. rewrite run_seq.
  change (semi :: r) with (txt ";" ++ r). rewrite run_lit_app.
  unfold Plus. rewrite run_seq. cbn [run rest].
  destruct r as [|c r]; [done|]. cbn [stops] in H.
  apply negb_true_iff in H. by rewrite H.
Qed.

Lemma match_semis_run p pv v r :
  nonempty v = true -> forallb (cset_mem (COneOf (txt ";"))) v = true ->
  stops (COneOf (txt ";")) r = true ->
  exists mt,
    match_at Pat.semis p pv (txt ";" ++ v ++ r) = Some mt
    /\ m_end mt = p + length (txt ";" ++ v).
Proof.
  intros Hne Hv Hr. eexists. split.
  - unfold match_at, Pat.semis. cbn [seqs]. rewrite run_seq, run_lit_app.
    apply run_plus_exact; [done..|]. reflexivity.
  - cbn [m_end pos]. rewrite length_app. simpl. lia.
Qed.

(** The run of semicolons a text starts with. *)
Lemma semis_run (r : text) :
  exists v r',
    r = v ++ r' /\ forallb (cset_mem (COneOf (txt ";"))) v = true
    /\ stops (COneOf (txt ";")) r' = true.
Proof.
  induction r as [|c r (v & r' & -> & Hv & Hr')].
  - by exists [], [].
  - destruct (cset_mem (COneOf (txt ";")) c) eqn:E.
    + exists (c :: v), r'. cbn [forallb]. by rewrite E.
    + exists [], (c :: v ++ r'). cbn [stops]. by rewrite E.
Qed.

Lemma semis_mem c : cset_mem (COneOf (txt ";")) c = Chr.eqb semi c.
Proof.
  cbn [cset_mem]. unfold Chr.mem. cbn [txt list_ascii_of_string existsb].
  rewrite orb_false_r. unfold Chr.eqb. apply Ascii.eqb_sym.
Qed.

Lemma collapse_from_spec (n : nat) :
  forall r, length r <= n ->
  forall pre pv,
    let out :=
      rebuild (fun _ => txt ";") (pre ++ r) (length pre)
        (scan Pat.semis 0 (length pre) pv r) in
    Py.contains (txt ";;") out = false /\ head out = head r.
Proof.
  induction n as [|n IH]; intros r Hlen pre pv.
  { destruct r; [|simpl in Hlen; lia]. cbn zeta. cbn [scan].
    rewrite match_semis_none_nil. cbn [rebuild].
    rewrite drop_ge by (rewrite length_app; simpl; lia). done. }
  destruct r as [|c r].
  { cbn zeta. cbn [scan]. rewrite match_semis_none_nil. cbn [rebuild].
    rewrite drop_ge by (rewrite length_app; simpl; lia). done. }
  cbn [length] in Hlen.
  destruct (Chr.eqb semi c) eqn:Ec.
  - apply chr_eqb_eq in Ec as <-.
    destruct (semis_run r) as (v & r' & -> & Hv & Hr').
    assert (length r' <= n) as Hn by (rewrite length_app in Hlen; lia).
    destruct v as [|c v].
    + (* a single semicolon *)
      cbn [app]. cbn zeta.
      rewrite sub_unfold_none by (by apply match_semis_none_single).
      destruct (IH r' Hn (pre ++ [semi]) (Some semi)) as [H1 H2].
      cbn zeta in H1, H2. split; [|done].
      cbn [Py.contains]. rewrite H1, orb_false_r.
      destruct (rebuild _ _ _ _) as [|d out]; [done|].
      cbn [head] in H2. destruct r' as [|d' r']; [done|].
      injection H2 as ->. cbn [stops] in Hr'. rewrite semis_mem in Hr'.
      apply negb_true_iff in Hr'.
      change (txt ";;") with [semi; semi]. rewrite !startswith_cons.
      by rewrite Hr', andb_false_r.
    + (* two or more *)
      destruct (match_semis_run (length pre) pv (c :: v) r' eq_refl Hv Hr')
        as (mt & Hmt & Hend).
      cbn zeta.
      change (semi :: (c :: v) ++ r') with ((txt ";" ++ c :: v) ++ r').
      rewrite (sub_unfold_match _ _ _ _ _ _ mt);
        [|done|by rewrite <- app_assoc|done].
      destruct (IH r' Hn (pre ++ txt ";" ++ c :: v)
                  (last_or pv (txt ";" ++ c :: v))) as [H1 H2].
      cbn zeta in H1, H2. split; [|done].
      change (txt ";" ++ ?x) with (semi :: x).
      cbn [Py.contains]. rewrite H1, orb_false_r.
      destruct (rebuild _ _ _ _) as [|d out]; [done|].
      cbn [head] in H2. destruct r' as [|d' r']; [done|].
      injection H2 as ->. cbn [stops] in Hr'. rewrite semis_mem in Hr'.
      apply negb_true_iff in Hr'.
      change (txt ";;") with [semi; semi]. rewrite !startswith_cons.
      by rewrite Hr', andb_false_r.
  - cbn zeta.
    rewrite sub_unfold_none by (by apply match_semis_none_other).
    destruct (IH r ltac:(lia) (pre ++ [c]) (Some c)) as [H1 H2].
    cbn zeta in H1, H2. split; [|done].
    cbn [Py.contains]. rewrite H1, orb_false_r.
    change (txt ";;") with [semi; semi]. rewrite startswith_cons.
    by rewrite Ec.
Qed.

Lemma collapse_semis_clean (s : text) :
  Py.contains (txt ";;") (collapse_semis s) = false.
Proof.
  apply (collapse_from_spec (length s) s (le_n _) [] None).
Qed.

End Semicolons.

(** X11.  The text that the per-file passes return holds no two semicolons
    in a row. *)
Theorem no_doubled_semicolon_is_left (a : args)
    (keep_as_default should_be_named : list text)
    (export_style_map : gmap text style) (js_file content : text) :
  Py.contains (txt ";;")
    (fst (process_file a keep_as_default should_be_named export_style_map
            js_file content))
  = false.
Proof.
  unfold process_file.
  repeat match goal with
         | |- context [let '(x, y) := ?e in _] => destruct e
         end.
  match goal with
  | |- context [if Py.contains (txt ";;") ?c then _ else _] =>
      destruct (Py.contains (txt ";;") c) eqn:E; cbn [fst]; [|done]
  end.
  apply collapse_semis_clean.
Qed.

(** *** Texts without the keywords of the patterns *)

Section Keywords.

Import Re.

Lemma match_at_no_literal (l : text) (re : regex) p pv r :
  Py.startswith l r = false -> match_at (Seq (Lit l) re) p pv r = None.
Proof.
  unfold match_at, Py.startswith. rewrite run_seq. cbn [run rest].
  by destruct (Py.strip_prefix l r).
Qed.

Lemma contains_cons_false (l : text) (c : ascii) (r : text) :
  Py.contains l (c :: r) = false ->
  Py.startswith l (c :: r) = false /\ Py.contains l r = false.
Proof. cbn [Py.contains]. by intros [? ?]%orb_false_iff. Qed.

Lemma scan_no_literal (l : text) (re : regex) (r : text) :
  Py.contains l r = false ->
  forall skip p pv, scan (Seq (Lit l) re) skip p pv r = [].
Proof.
  induction r as [|c r IH]; intros H skip p pv.
  - destruct skip; [|done]. cbn [scan]. rewrite match_at_no_literal; [done|].
    cbn [Py.contains] in H. by apply orb_false_iff in H as [? _].
  - apply contains_cons_false in H as [H1 H2].
    destruct skip; cbn [scan]; [|by apply IH].
    rewrite match_at_no_literal by done. by apply IH.
Qed.

(** A text that does not hold the word a pattern starts with has no match
    of it. *)
Lemma finditer_no_literal (l : text) (re : regex) (s : text) :
  Py.contains l s = false -> finditer (Seq (Lit l) re) s = [].
Proof. intros H. by apply scan_no_literal. Qed.

Lemma search_no_literal (l : text) (re : regex) (s : text) :
  Py.contains l s = false -> search (Seq (Lit l) re) s = None.
Proof. intros H. unfold search. by rewrite finditer_no_literal. Qed.

Lemma find_all_exports_without_keywords (content : text) :
  Py.contains (txt "export") content = false ->
  Py.contains (txt "class") content = false ->
  find_all_exports content = Exports [] [] [] [] [] [].
Proof.
  intros He Hc. unfold find_all_exports.
  rewrite (finditer_no_literal (txt "export") _ content He
           : finditer Pat.export_default content = []).
  rewrite (finditer_no_literal (txt "export") _ content He
           : finditer Pat.export_class content = []).
  rewrite (finditer_no_literal (txt "export") _ content He
           : finditer Pat.export_function content = []).
  rewrite (finditer_no_literal (txt "export") _ content He
           : finditer Pat.export_const content = []).
  rewrite (finditer_no_literal (txt "export") _ content He
           : finditer Pat.export_braces content = []).
  rewrite (finditer_no_literal (txt "class") _ content Hc
           : finditer Pat.class_decl content = []).
  cbn [flat_map map app].
  rewrite (finditer_no_literal (txt "export") _ content He
           : finditer Pat.export_default_function content = []).
  rewrite (finditer_no_literal (txt "export") _ content He
           : finditer Pat.export_default_class content = []).
  done.
Qed.

Lemma find_all_imports_without_keyword (content : text) :
  Py.contains (txt "import") content = false ->
  find_all_imports content = Imports [] [].
Proof.
  intros Hi. unfold find_all_imports.
  rewrite (finditer_no_literal (txt "import") _ content Hi
           : finditer Pat.import_default content = []).
  rewrite (finditer_no_literal (txt "import") _ content Hi
           : finditer Pat.import_named content = []).
  done.
Qed.

Lemma fix_imports_without_keyword (content filename : text)
    (modern_imports default_imports : list (text * text)) :
  Py.contains (txt "import") content = false ->
  fix_imports content modern_imports default_imports filename = (content, []).
Proof.
  intros H. unfold fix_imports.
  rewrite (fold_search_none content [] PatS.import_default_of
             (fun module_name correct_import '(content, changes) =>
                (sub (PatS.import_default_of module_name)
                   (fun _ => correct_import) content,
                 changes ++ [txt "Import modernized: " ++ module_name]))).
  2:{ intros n. by apply (search_no_literal (txt "import")). }
  rewrite (fold_search_none content [] PatS.import_named_of
             (fun module_name correct_import '(content, changes) =>
                (sub (PatS.import_named_of module_name)
                   (fun _ => correct_import) content,
                 changes ++ [txt "Base class import fixed: " ++ module_name]))).
  2:{ intros n. by apply (search_no_literal (txt "import")). }
  cbn [fold_left fst].
  rewrite (finditer_no_literal (txt "import") _ content H
           : finditer PatS.import_default_path content = []).
  rewrite (finditer_no_literal (txt "import") _ content H
           : finditer PatS.import_named_path content = []).
  done.
Qed.

Lemma check_uicomponent_without_keyword (content filename : text) :
  Py.contains (txt "import") content = false ->
  check_uicomponent_imports content filename = (content, []).
Proof.
  intros H. unfold check_uicomponent_imports.
  destruct (text_eqb _ _); [done|].
  rewrite (finditer_no_literal (txt "import") _ content H
           : finditer PatS.import_uicomponent content = []).
  cbn [fold_left fst].
  by rewrite (finditer_no_literal (txt "import") _ content H
              : finditer PatS.import_from_uicomponent content = []).
Qed.

Lemma remove_duplicates_without_keywords (content : text) :
  Py.contains (txt "export") content = false ->
  Py.contains (txt "class") content = false ->
  remove_duplicate_exports content = (content, []).
Proof.
  intros He Hc. unfold remove_duplicate_exports.
  by rewrite find_all_exports_without_keywords.
Qed.

Lemma modernize_without_keywords (content filename : text)
    (keep named : list text) :
  Py.contains (txt "export") content = false ->
  Py.contains (txt "class") content = false ->
  modernize_exports content filename keep named = (content, []).
Proof.
  intros He Hc. unfold modernize_exports.
  rewrite find_all_exports_without_keywords by done.
  by destruct (mem_text _ keep).
Qed.

Lemma mismatches_without_keywords (content file_path : text)
    (export_style_map : gmap text style) :
  Py.contains (txt "export") content = false ->
  Py.contains (txt "class") content = false ->
  fix_import_export_mismatches content file_path export_style_map
  = (content, []).
Proof.
  intros He Hc. unfold fix_import_export_mismatches.
  rewrite find_all_exports_without_keywords by done.
  by destruct (export_style_map !! file_path) as [[]|].
Qed.

End Keywords.

(** X12.  With policy lists of identifiers, a text without the words
    export, import and class and without a doubled semicolon goes through
    the per-file passes unchanged, and no change is recorded. *)
Theorem text_without_keywords_is_kept (a : args)
    (keep_as_default should_be_named : list text)
    (export_style_map : gmap text style) (js_file content : text) :
  Forall (fun n => is_identifier n = true) keep_as_default ->
  Forall (fun n => is_identifier n = true) should_be_named ->
  Py.contains (txt "export") content = false ->
  Py.contains (txt "import") content = false ->
  Py.contains (txt "class") content = false ->
  Py.contains (txt ";;") content = false ->
  process_file a keep_as_default should_be_named export_style_map js_file
    content
  = (content, []).
Proof.
  intros _ _ He Hi Hc Hs. unfold process_file.
  rewrite remove_duplicates_without_keywords by done.
  destruct (fix_duplicates_only a), (skip_ui_component a); cbn [negb].
  all: rewrite ?modernize_without_keywords by done.
  all: rewrite ?fix_imports_without_keyword by done.
  all: rewrite ?check_uicomponent_without_keyword by done.
  all: rewrite mismatches_without_keywords by done.
  all: by rewrite Hs.
Qed.

Lemma text_without_keywords_is_kept_witness :
  let content := lines ["const x = 1;"; "console.log(x);"; blank] in
  Forall (fun n => is_identifier n = true) keep_as_default_exports
  /\ Forall (fun n => is_identifier n = true) should_be_named_exports
  /\ Py.contains (txt "export") content = false
  /\ Py.contains (txt "import") content = false
  /\ Py.contains (txt "class") content = false
  /\ Py.contains (txt ";;") content = false
  /\ process_file run_args keep_as_default_exports should_be_named_exports
       ∅ (txt "src/x.js") content
     = (content, []).
Proof.
  intros content.
  assert (Forall (fun n => is_identifier n = true) keep_as_default_exports)
    as H1 by (by repeat constructor).
  assert (Forall (fun n => is_identifier n = true) should_be_named_exports)
    as H2 by (by repeat constructor).
  split_and!; [exact H1|exact H2|reflexivity..|].
  exact (text_without_keywords_is_kept run_args keep_as_default_exports
           should_be_named_exports ∅ (txt "src/x.js") content
           H1 H2 eq_refl eq_refl eq_refl eq_refl).
Defined.

(** *** Texts without a word that a pattern mentions *)

Section Mentions.

Import Re.

Lemma contains_app_l (l u r : text) :
  Py.contains l u = true -> Py.contains l (u ++ r) = true.
Proof.
  induction u as [|c u IH].
  - cbn [Py.contains app]. rewrite orb_false_r. intros H.
    unfold Py.startswith in H. destruct l; [|done]. by destruct r.
  - cbn [app Py.contains]. intros [H|H]%orb_true_iff.
    + apply orb_true_iff. left. unfold Py.startswith in *.
      destruct (Py.strip_prefix l (c :: u)) as [x|] eqn:E; [|done].
      apply strip_prefix_Some in E. change (c :: u ++ r) with ((c :: u) ++ r).
      by rewrite E, <- app_assoc, strip_prefix_app.
    + rewrite IH by done. apply orb_true_r.
Qed.

(** A successful run hands a suffix of the text to its continuation. *)
Lemma run_suffix {A : Type} (re : regex) (k : cursor -> option A)
    (st : cursor) (a : A) :
  run re k st = Some a ->
  exists st' u, k st' = Some a /\ rest st = u ++ rest st'.
Proof.
  intros H. destruct (run_consumed re k st a H) as (st' & Hk & u & Hu & _).
  by exists st', u.
Qed.

(** A match of a pattern that mentions [l] has read [l]. *)
Lemma run_mentions (l : text) (re : regex) :
  mentions l re = true ->
  forall (A : Type) (k : cursor -> option A) (st : cursor) (a : A),
    run re k st = Some a ->
    exists st' u, k st' = Some a /\ rest st = u ++ rest st'
                  /\ Py.contains l u = true.
Proof.
  induction re as [s|cs|cs|cs|r1 IH1 r2 IH2|r1 IH1 r2 IH2|r IH|n r IH| | | | ];
    cbn [mentions]; intros Hm A k st a; try done.
  - cbn [run]. destruct (Py.strip_prefix s (rest st)) as [r'|] eqn:E; [|done].
    apply strip_prefix_Some in E. intros H. eexists _, s.
    split_and!; [exact H|done|done].
  - rewrite run_seq. intros H. apply orb_true_iff in Hm as [Hm|Hm].
    + destruct (IH1 Hm _ _ _ _ H) as (st1 & u1 & H1 & Hu1 & Hc).
      destruct (run_suffix _ _ _ _ H1) as (st' & u2 & Hk & Hu2).
      exists st', (u1 ++ u2). split_and!; [done| |by apply contains_app_l].
      by rewrite Hu1, Hu2, app_assoc.
    + destruct (run_suffix _ _ _ _ H) as (st1 & u1 & H1 & Hu1).
      destruct (IH2 Hm _ _ _ _ H1) as (st' & u2 & Hk & Hu2 & Hc).
      exists st', (u1 ++ u2). split_and!; [done| |by apply contains_app_r].
      by rewrite Hu1, Hu2, app_assoc.
  - apply andb_true_iff in Hm as [Hm1 Hm2]. cbn [run].
    destruct (run r1 k st) eqn:E.
    + intros [= ->]. by apply (IH1 Hm1 _ _ _ _ E).
    + by apply (IH2 Hm2).
  - rewrite run_group. intros H.
    destruct (IH Hm _ _ _ _ H) as (st' & u & Hk & Hu & Hc).
    eexists _, u. split_and!; [exact Hk|done|done].
Qed.

Lemma match_at_mentions (l : text) (re : regex) p pv (r : text) :
  mentions l re = true -> Py.contains l r = false -> match_at re p pv r = None.
Proof.
  intros Hm Hr. unfold match_at.
  destruct (run re _ _) as [mt|] eqn:E; [exfalso|done].
  destruct (run_mentions l re Hm _ _ _ _ E) as (st' & u & _ & Hu & Hc).
  cbn [rest] in Hu. rewrite Hu in Hr.
  by rewrite (contains_app_l _ _ _ Hc) in Hr.
Qed.

Lemma scan_mentions (l : text) (re : regex) (r : text) :
  mentions l re = true -> Py.contains l r = false ->
  forall skip p pv, scan re skip p pv r = [].
Proof.
  intros Hm. induction r as [|c r IH]; intros H skip p pv.
  - destruct skip; [|done]. cbn [scan]. by rewrite (match_at_mentions l).
  - destruct skip; cbn [scan].
    + rewrite (match_at_mentions l) by done.
      apply IH. by apply contains_cons_false in H as [_ ?].
    + apply IH. by apply contains_cons_false in H as [_ ?].
Qed.

(** A text that does not hold a word that a pattern mentions has no match
    of the pattern. *)
Lemma finditer_mentions (l : text) (re : regex) (s : text) :
  mentions l re = true -> Py.contains l s = false -> finditer re s = [].
Proof. intros Hm H. by apply (scan_mentions l). Qed.

End Mentions.

(** X25.  The UIComponent pass, in both files of the tool, returns a text
    that does not hold the name UIComponent as it is, with no change
    recorded. *)
Theorem uicomponent_pass_needs_the_name (content filename : text) :
  Py.contains (txt "UIComponent") content = false ->
  check_uicomponent_imports content filename = (content, [])
  /\ Abridged.check_uicomponent_imports content filename = (content, []).
Proof.
  intros H. unfold check_uicomponent_imports, Abridged.check_uicomponent_imports.
  destruct (text_eqb _ _); [done|].
  rewrite (finditer_mentions (txt "UIComponent") PatS.import_uicomponent)
    by done.
  cbn [fold_left fst].
  by rewrite (finditer_mentions (txt "UIComponent")
                PatS.import_from_uicomponent) by done.
Qed.

Lemma uicomponent_pass_needs_the_name_witness :
  let content := lines ["import { Menu } from './Menu';"; blank] in
  Py.contains (txt "UIComponent") content = false
  /\ check_uicomponent_imports content (txt "src/app.js") = (content, [])
  /\ Abridged.check_uicomponent_imports content (txt "src/app.js")
     = (content, []).
Proof.
  intros content. split; [reflexivity|].
  exact (uicomponent_pass_needs_the_name content (txt "src/app.js") eq_refl).
Defined.

Lemma filter_names_nil (basename : text) (l : list decl) :
  Forall (fun d => d_name d <> basename) l ->
  filter (fun n => text_eqb n basename = true) (map d_name l) = [].
Proof.
  induction 1 as [|d l Hd _ IH]; [done|]. cbn [map].
  rewrite filter_cons_False; [done|].
  intros H. by apply text_eqb_eq in H.
Qed.

(** X26.  [modernize_exports] returns the text as it is, with no change
    recorded, when no default export and no exported class that the scanner
    records has a name of the named policy list or the name of the file. *)
Theorem modernize_needs_a_policy_symbol (content filename : text)
    (keep_as_default should_be_named : list text) :
  Forall (fun d => mem_text (d_name d) should_be_named = false
                  /\ d_name d <> Path.stem filename)
    (e_default (find_all_exports content)
     ++ e_class (find_all_exports content)) ->
  modernize_exports content filename keep_as_default should_be_named
  = (content, []).
Proof.
  intros [Hd Hc]%Forall_app. unfold modernize_exports. cbn zeta.
  set (e := find_all_exports content) in *.
  destruct (mem_text (Path.stem filename) keep_as_default).
  - rewrite filter_names_nil; [done|].
    eapply Forall_impl; [exact Hc|]. by intros d [_ ?].
  - match goal with
    | |- fold_left ?g _ (fold_left ?f _ _) = _ =>
        assert (forall l st,
                  Forall (fun d => mem_text (d_name d) should_be_named = false
                                   /\ d_name d <> Path.stem filename) l ->
                  fold_left f l st = st) as H1;
        [|assert (forall l st,
                    Forall (fun d => mem_text (d_name d) should_be_named = false
                                     /\ d_name d <> Path.stem filename) l ->
                    fold_left g l st = st) as H2]
    end.
    + induction l as [|d l IH]; intros [c ch] Hl; [done|].
      apply Forall_cons in Hl as [[Hn Hb] Hl]. cbn [fold_left].
      rewrite Hn. destruct (text_eqb (d_name d) (Path.stem filename)) eqn:Eb.
      { by apply text_eqb_eq in Eb. }
      cbn [orb]. by apply IH.
    + induction l as [|d l IH]; intros [c ch] Hl; [done|].
      apply Forall_cons in Hl as [[Hn Hb] Hl]. cbn [fold_left].
      rewrite Hn. by apply IH.
    + by rewrite H1, H2.
Qed.

Lemma modernize_needs_a_policy_symbol_witness :
  let content :=
    lines ["export default helper;"; "export class Tool {}"; blank] in
  let filename := txt "src/app.js" in
  Forall (fun d => mem_text (d_name d) [txt "Sky"] = false
                   /\ d_name d <> Path.stem filename)
    (e_default (find_all_exports content)
     ++ e_class (find_all_exports content))
  /\ modernize_exports content filename [txt "World"] [txt "Sky"]
     = (content, []).
Proof.
  intros content filename.
  assert (Forall (fun d => mem_text (d_name d) [txt "Sky"] = false
                           /\ d_name d <> Path.stem filename)
            (e_default (find_all_exports content)
             ++ e_class (find_all_exports content))) as H
    by compute_done.
  split; [exact H|].
  exact (modernize_needs_a_policy_symbol content filename [txt "World"]
           [txt "Sky"] H).
Defined.

(** *** The groups of a match are pieces of the text *)

Section Pieces.

Import Re.

Lemma contains_refl (u : text) : Py.contains u u = true.
Proof.
  pose proof (startswith_app u []) as H. rewrite app_nil_r in H.
  destruct u; cbn [Py.contains]; by rewrite H.
Qed.

Lemma contains_inv (l r : text) :
  Py.contains l r = true -> exists a b, r = a ++ l ++ b.
Proof.
  induction r as [|c r IH]; cbn [Py.contains]; intros [H|H]%orb_true_iff;
    try done.
  - unfold Py.startswith in H.
    destruct (Py.strip_prefix l []) as [x|] eqn:E; [|done].
    apply strip_prefix_Some in E. by exists [], x.
  - unfold Py.startswith in H.
    destruct (Py.strip_prefix l (c :: r)) as [x|] eqn:E; [|done].
    apply strip_prefix_Some in E. by exists [], x.
  - destruct (IH H) as (a & b & ->). by exists (c :: a), b.
Qed.

Lemma contains_piece (l a b : text) : Py.contains l (a ++ l ++ b) = true.
Proof.
  apply contains_app_r, contains_app_l, contains_refl.
Qed.

Lemma contains_trans (u v r : text) :
  Py.contains u v = true -> Py.contains v r = true -> Py.contains u r = true.
Proof.
  intros (a & b & ->)%contains_inv (a' & b' & ->)%contains_inv.
  replace (a' ++ (a ++ u ++ b) ++ b') with ((a' ++ a) ++ u ++ (b ++ b'))
    by (by rewrite <- !app_assoc).
  apply contains_piece.
Qed.

Lemma contains_take (n : nat) (r : text) : Py.contains (take n r) r = true.
Proof.
  rewrite <- (take_drop n r) at 2. apply contains_app_l, contains_refl.
Qed.

Lemma contains_nil (r : text) : Py.contains [] r = true.
Proof. by destruct r. Qed.

Lemma reads_refl st : reads st st.
Proof. split; [by exists []|]. intros n s H. by left. Qed.

Lemma reads_trans st1 st2 st3 : reads st1 st2 -> reads st2 st3 -> reads st1 st3.
Proof.
  intros [[u Hu] H12] [[v Hv] H23]. split.
  - exists (u ++ v). by rewrite Hu, Hv, app_assoc.
  - intros n s H. destruct (H23 n s H) as [H'|H'].
    + by apply H12.
    + right. rewrite Hu. by apply contains_app_r.
Qed.

Lemma reads_step p pv r cp u p' pv' r' :
  r = u ++ r' -> reads (Cursor p pv r cp) (Cursor p' pv' r' cp).
Proof. intros ->. split; [by exists u|]. intros n s H. by left. Qed.

Context {A : Type}.
Implicit Types (k : cursor -> option A).

Lemma star_greedy_reads cs k r :
  forall p pv cp a,
    star_greedy cs k p pv r cp = Some a ->
    exists st', k st' = Some a /\ reads (Cursor p pv r cp) st'.
Proof.
  induction r as [|c r IH]; intros p pv cp a; cbn [star_greedy].
  - intros H. eexists. split; [exact H|]. apply reads_refl.
  - assert (k (Cursor p pv (c :: r) cp) = Some a ->
            exists st', k st' = Some a
                        /\ reads (Cursor p pv (c :: r) cp) st') as Hstop.
    { intros H. eexists. split; [exact H|]. apply reads_refl. }
    destruct (cset_mem cs c); [|done].
    destruct (star_greedy cs k (S p) (Some c) r cp) eqn:E; [|done].
    intros [= ->]. destruct (IH _ _ _ _ E) as (st' & Hk & Hr).
    exists st'. split; [done|].
    eapply reads_trans; [|exact Hr]. by apply (reads_step _ _ _ _ [c]).
Qed.

Lemma star_lazy_reads cs k r :
  forall p pv cp a,
    star_lazy cs k p pv r cp = Some a ->
    exists st', k st' = Some a /\ reads (Cursor p pv r cp) st'.
Proof.
  induction r as [|c r IH]; intros p pv cp a; cbn [star_lazy].
  - destruct (k _) eqn:E; [|done]. intros [= ->].
    eexists. split; [exact E|]. apply reads_refl.
  - destruct (k _) eqn:E.
    + intros [= ->]. eexists. split; [exact E|]. apply reads_refl.
    + destruct (cset_mem cs c); [|done].
      intros H. destruct (IH _ _ _ _ H) as (st' & Hk & Hr).
      exists st'. split; [done|].
      eapply reads_trans; [|exact Hr]. by apply (reads_step _ _ _ _ [c]).
Qed.

End Pieces.

(** The groups of a match are pieces of the text. *)
Lemma run_reads {A : Type} (re : Re.regex) :
  forall (k : Re.cursor -> option A) (st : Re.cursor) (a : A),
    Re.run re k st = Some a ->
    exists st', k st' = Some a /\ reads st st'.
Proof.
  revert A.
  induction re as [l|cs|cs|cs|r1 IH1 r2 IH2|r1 IH1 r2 IH2|r IH|n r IH| | | | ];
    intros A k st a; cbn [Re.run].
  - destruct (Py.strip_prefix l (Re.rest st)) as [r'|] eqn:E; [|done].
    apply strip_prefix_Some in E. intros H. eexists. split; [exact H|].
    destruct st. by apply (reads_step _ _ _ _ l).
  - destruct st as [p pv [|c r'] cp]; cbn [Re.rest]; [done|].
    destruct (Re.cset_mem cs c); [|done].
    intros H. eexists. split; [exact H|]. by apply (reads_step _ _ _ _ [c]).
  - destruct st as [p pv r cp]. apply star_greedy_reads.
  - destruct st as [p pv r cp]. apply star_lazy_reads.
  - intros H. destruct (IH1 _ _ _ _ H) as (st1 & H1 & Hr1).
    destruct (IH2 _ _ _ _ H1) as (st' & Hk & Hr2).
    exists st'. split; [done|]. by eapply reads_trans.
  - destruct (Re.run r1 k st) eqn:E.
    + intros [= ->]. by apply IH1.
    + by apply IH2.
  - destruct (Re.run r k st) eqn:E.
    + intros [= ->]. by apply IH.
    + intros H. eexists. split; [exact H|]. apply reads_refl.
  - intros H. destruct (IH _ _ _ _ H) as (st' & Hk & [Hu Hc]).
    eexists. split; [exact Hk|]. split; [done|].
    cbn [Re.caps]. intros m s [[= -> ->]|Hin]%elem_of_cons.
    + right. apply contains_take.
    + by apply Hc.
  - destruct (Re.at_boundary st); [|done].
    intros H. eexists. split; [exact H|]. apply reads_refl.
  - destruct (Re.pos st =? 0); [|done].
    intros H. eexists. split; [exact H|]. apply reads_refl.
  - destruct (Re.rest st) as [|c [|]]; try done.
    + intros H. eexists. split; [exact H|]. apply reads_refl.
    + destruct (Chr.eqb c NL); [|done].
      intros H. eexists. split; [exact H|]. apply reads_refl.
  - destruct (Re.rest st) as [|c ?].
    + intros H. eexists. split; [exact H|]. apply reads_refl.
    + destruct (Chr.eqb c NL); [|done].
      intros H. eexists. split; [exact H|]. apply reads_refl.
Qed.

Lemma assoc_elem (n : nat) (l : list (nat * text)) (s : text) :
  Re.assoc n l = Some s -> (n, s) ∈ l.
Proof.
  induction l as [|[i x] l IH]; [done|]. cbn [Re.assoc].
  destruct (Nat.eqb_spec i n) as [->|_].
  - intros [= ->]. apply elem_of_cons. by left.
  - intros H. apply elem_of_cons. right. by apply IH.
Qed.

Lemma match_at_group (re : Re.regex) p pv (r : text) (mt : Re.rmatch) n :
  Re.match_at re p pv r = Some mt -> Py.contains (Re.group n mt) r = true.
Proof.
  unfold Re.match_at. intros H.
  destruct (run_reads re _ _ _ H) as (st' & [= <-] & _ & Hc).
  unfold Re.group. cbn [Re.m_caps].
  destruct (Re.assoc n (Re.caps st')) as [s|] eqn:E; [|apply contains_nil].
  cbn [default]. apply assoc_elem in E.
  destruct (Hc n s E) as [Hin|Hin]; [|done].
  cbn [Re.caps] in Hin. by apply elem_of_nil in Hin.
Qed.

Lemma scan_group (re : Re.regex) n (r : text) :
  forall skip p pv mt,
    mt ∈ Re.scan re skip p pv r -> Py.contains (Re.group n mt) r = true.
Proof.
  induction r as [|c r IH]; intros skip p pv mt.
  - destruct skip; cbn [Re.scan]; [|by intros ?%elem_of_nil].
    destruct (Re.match_at re p pv []) eqn:E; [|by intros ?%elem_of_nil].
    intros ->%list_elem_of_singleton. by eapply match_at_group.
  - assert (forall skip' p' pv',
              mt ∈ Re.scan re skip' p' pv' r ->
              Py.contains (Re.group n mt) (c :: r) = true) as Hrest.
    { intros ??? H. apply (contains_app_r _ [c]). by eapply IH. }
    destruct skip; cbn [Re.scan]; [|apply Hrest].
    destruct (Re.match_at re p pv (c :: r)) eqn:E; [|apply Hrest].
    intros [->|H]%elem_of_cons; [by eapply match_at_group|].
    by eapply Hrest.
Qed.

(** Every group of a match that [finditer] returns is a piece of the
    text. *)
Lemma finditer_group (re : Re.regex) n (s : text) (mt : Re.rmatch) :
  mt ∈ Re.finditer re s -> Py.contains (Re.group n mt) s = true.
Proof. apply scan_group. Qed.

(** *** The resolver's choice, and passes that have nothing to do *)

Section Priority.

Lemma kept_first_of_kind (positions : list position) (t : export_type)
    (k : nat) :
  index_of t (p_type <$> sort_desc positions) = Some k ->
  exists p,
    sort_desc positions !! k = Some p /\ p_type p = t
    /\ forall q, q ∈ positions -> p_type q = t -> p_start q <= p_start p.
Proof.
  intros Hk. destruct (index_of_Some _ _ _ Hk) as [Hat Hfirst].
  apply list_lookup_fmap_Some in Hat as (p & Hp & Hty).
  exists p. split_and!; [done|done|].
  intros q Hq Hqt. rewrite <- (sort_desc_perm positions) in Hq.
  apply list_elem_of_lookup_1 in Hq as [j Hj].
  destruct (Nat.le_gt_cases k j) as [Hle|Hlt].
  - by apply (sort_desc_descending positions k j).
  - exfalso. apply (Hfirst j Hlt). by rewrite list_lookup_fmap, Hj, <- Hqt.
Qed.

Lemma absent_kind (positions : list position) (t : export_type) (q : position) :
  index_of t (p_type <$> sort_desc positions) = None ->
  q ∈ positions -> p_type q <> t.
Proof.
  intros Hno Hq Heq. apply index_of_None in Hno. apply Hno.
  apply list_elem_of_fmap. exists q. split; [done|].
  by rewrite (sort_desc_perm positions).
Qed.

End Priority.

(** The entry the resolver keeps is one of the most preferred kind in the
    list, among these the one with the greatest start offset; the others
    go to [remove_position]. *)
Lemma keep_index_spec (name : text)
    (positions : list position) (st : text * list text) :
  positions <> [] ->
  exists k p,
    keep_index (p_type <$> sort_desc positions) = k
    /\ sort_desc positions !! k = Some p
    /\ (forall q, q ∈ positions -> rank (p_type q) <= rank (p_type p))
    /\ (forall q, q ∈ positions -> rank (p_type q) = rank (p_type p) ->
                  p_start q <= p_start p)
    /\ length (delete k (sort_desc positions)) + 1 = length positions
    /\ resolve_name st (name, positions)
       = fold_left (fun st q => remove_position name q st)
           (delete k (sort_desc positions)) st.
Proof.
  intros Hne.
  assert (forall k p,
            sort_desc positions !! k = Some p ->
            length (delete k (sort_desc positions)) + 1 = length positions)
    as Hlen.
  { intros k p Hk. rewrite length_delete by eauto.
    rewrite (Permutation_length (sort_desc_perm positions)).
    apply lookup_lt_Some in Hk.
    rewrite (Permutation_length (sort_desc_perm positions)) in Hk. lia. }
  set (ts := p_type <$> sort_desc positions).
  assert (keep_index ts
          = match index_of Class ts with
            | Some i => i
            | None =>
                match index_of Function ts with
                | Some i => i
                | None =>
                    match index_of Const ts with
                    | Some i => i
                    | None => default 0 (index_of Destructured ts)
                    end
                end
            end) as Hkeep by done.
  destruct (index_of Class ts) as [k|] eqn:Hc.
  { destruct (kept_first_of_kind _ _ _ Hc) as (p & Hp & Hty & Hmax).
    exists k, p. rewrite resolve_name_removes. fold ts. rewrite Hkeep.
    split_and!; try done; [| |by eapply Hlen].
    - intros q _. rewrite Hty. destruct (p_type q); simpl; lia.
    - intros q Hq Hr. apply Hmax; [done|].
      rewrite Hty in Hr. by destruct (p_type q). }
  destruct (index_of Function ts) as [k|] eqn:Hf.
  { destruct (kept_first_of_kind _ _ _ Hf) as (p & Hp & Hty & Hmax).
    exists k, p. rewrite resolve_name_removes. fold ts. rewrite Hkeep.
    split_and!; try done; [| |by eapply Hlen].
    - intros q Hq. rewrite Hty.
      pose proof (absent_kind _ _ _ Hc Hq). destruct (p_type q); simpl; try lia.
      done.
    - intros q Hq Hr. apply Hmax; [done|].
      rewrite Hty in Hr. by destruct (p_type q). }
  destruct (index_of Const ts) as [k|] eqn:Hk.
  { destruct (kept_first_of_kind _ _ _ Hk) as (p & Hp & Hty & Hmax).
    exists k, p. rewrite resolve_name_removes. fold ts. rewrite Hkeep.
    split_and!; try done; [| |by eapply Hlen].
    - intros q Hq. rewrite Hty.
      pose proof (absent_kind _ _ _ Hc Hq).
      pose proof (absent_kind _ _ _ Hf Hq).
      destruct (p_type q); simpl; try lia; done.
    - intros q Hq Hr. apply Hmax; [done|].
      rewrite Hty in Hr. by destruct (p_type q). }
  destruct (index_of Destructured ts) as [k|] eqn:Hd.
  { destruct (kept_first_of_kind _ _ _ Hd) as (p & Hp & Hty & Hmax).
    exists k, p. rewrite resolve_name_removes. fold ts. rewrite Hkeep.
    split_and!; try done; [| |by eapply Hlen].
    - intros q Hq. rewrite Hty.
      pose proof (absent_kind _ _ _ Hc Hq).
      pose proof (absent_kind _ _ _ Hf Hq).
      pose proof (absent_kind _ _ _ Hk Hq).
      destruct (p_type q); simpl; try lia; done.
    - intros q Hq Hr. apply Hmax; [done|].
      rewrite Hty in Hr. by destruct (p_type q). }
  destruct (sort_desc_head positions Hne) as (p & l1 & l2 & Heq & Hhd & H1 & H2).
  assert (sort_desc positions !! 0 = Some p) as Hp.
  { by destruct (sort_desc positions). }
  exists 0, p. rewrite resolve_name_removes. fold ts. rewrite Hkeep.
  cbn [default from_option id].
  assert (forall q, q ∈ positions -> rank (p_type q) = 0) as Hzero.
  { intros q Hq.
    pose proof (absent_kind _ _ _ Hc Hq).
    pose proof (absent_kind _ _ _ Hf Hq).
    pose proof (absent_kind _ _ _ Hk Hq).
    pose proof (absent_kind _ _ _ Hd Hq).
    by destruct (p_type q). }
  split_and!; try done; [| |by eapply Hlen].
  - intros q Hq. rewrite (Hzero q Hq). lia.
  - intros q Hq _. rewrite Heq in Hq.
    apply elem_of_app in Hq as [Hq|Hq].
    + apply H1 in Hq. lia.
    + apply elem_of_cons in Hq as [->|Hq]; [done|]. by apply H2.
Qed.

(** X14.  The cross-file pass returns a file unchanged, with no change
    recorded, when no import statement of the tree resolves to its path. *)
Theorem cross_file_pass_needs_an_import (fs : files) (js_files : list text)
    (content file_path : text) :
  uses INamed fs js_files file_path = 0 ->
  uses IDefault fs js_files file_path = 0 ->
  fix_import_export_mismatches content file_path
    (analyze_import_export_relationships fs js_files)
  = (content, []).
Proof.
  intros Hn Hd. unfold fix_import_export_mismatches.
  rewrite analyze_lookup, import_tally_entry, Hn, Hd. reflexivity.
Qed.

Lemma cross_file_pass_needs_an_import_witness :
  let content := lines ["import { Sky } from './sky';"] in
  let file_path := txt "src/a.js" in
  uses INamed five_importers five_importers_paths file_path = 0
  /\ uses IDefault five_importers five_importers_paths file_path = 0
  /\ fix_import_export_mismatches content file_path
       (analyze_import_export_relationships five_importers five_importers_paths)
     = (content, []).
Proof.
  intros content file_path.
  assert (uses INamed five_importers five_importers_paths file_path = 0) as H1
    by (vm_compute; reflexivity).
  assert (uses IDefault five_importers five_importers_paths file_path = 0) as H2
    by (vm_compute; reflexivity).
  split_and!; [exact H1|exact H2|].
  exact (cross_file_pass_needs_an_import five_importers five_importers_paths
           content file_path H1 H2).
Defined.

Section NamedExportRemoval.

Lemma remove_named_step_absent (name : text) (st : text * list text)
    (mt : Re.rmatch) :
  mem_text name (map Py.strip (Py.split (txt ",") (Re.group 1 mt))) = false ->
  remove_named_step name st mt = st.
Proof. intros H. unfold remove_named_step. destruct st. by rewrite H. Qed.

Lemma text_eqb_sym (a b : text) : text_eqb a b = text_eqb b a.
Proof.
  destruct (text_eqb a b) eqn:E.
  - apply text_eqb_eq in E as ->. by rewrite text_eqb_refl.
  - destruct (text_eqb b a) eqn:E'; [|done].
    apply text_eqb_eq in E' as ->. by rewrite text_eqb_refl in E.
Qed.

Lemma mem_text_has_name (name : text) (names : list text) (a b : nat) :
  mem_text name names
  = has_name name (map (fun n => Decl n a b) names).
Proof.
  unfold mem_text, has_name. induction names as [|n ns IH]; [done|].
  cbn [map existsb d_name]. by rewrite IH, text_eqb_sym.
Qed.

End NamedExportRemoval.

(** X15.  [_remove_named_export] returns the text unchanged, with no
    change recorded, when the name is in no braces export list of it. *)
Theorem unlisted_name_removes_nothing (content name : text) :
  has_name name (e_destructured (find_all_exports content)) = false ->
  _remove_named_export content name = (content, []).
Proof.
  intros H. unfold _remove_named_export.
  unfold find_all_exports in H. cbn [e_destructured] in H.
  revert H. generalize (Re.finditer Pat.export_braces content).
  intros ms. generalize (@nil text) as changes.
  induction ms as [|mt ms IH]; intros changes H; [done|].
  cbn [fold_left flat_map] in *. unfold has_name in H.
  rewrite existsb_app in H. apply orb_false_iff in H as [H1 H2].
  rewrite remove_named_step_absent; [by apply IH|].
  by rewrite (mem_text_has_name _ _ (Re.m_start mt) (Re.m_end mt)).
Qed.

Lemma unlisted_name_removes_nothing_witness :
  let content := lines ["export { Alpha, Beta };"] in
  let name := txt "Gamma" in
  has_name name (e_destructured (find_all_exports content)) = false
  /\ _remove_named_export content name = (content, []).
Proof.
  intros content name.
  assert (has_name name (e_destructured (find_all_exports content)) = false)
    as H by (vm_compute; reflexivity).
  split; [exact H|].
  exact (unlisted_name_removes_nothing content name H).
Defined.

(** *** The resolver on a symbol declared twice *)

Section Lines.

Lemma rfind_go_app (c : ascii) (u v : text) :
  forall i last,
    Py.rfind_go c (u ++ v) i last
    = Py.rfind_go c v (i + length u) (Py.rfind_go c u i last).
Proof.
  induction u as [|x u IH]; intros i last; cbn [app Py.rfind_go length].
  - by rewrite Nat.add_0_r.
  - rewrite IH. f_equal. lia.
Qed.

Lemma rfind_go_absent (c : ascii) (u : text) :
  forallb (fun x => negb (Chr.eqb x c)) u = true ->
  forall i last, Py.rfind_go c u i last = last.
Proof.
  induction u as [|x u IH]; intros Hu i last; [done|].
  cbn [forallb] in Hu. apply andb_true_iff in Hu as [Hx%negb_true_iff Hu].
  cbn [Py.rfind_go]. rewrite Hx. by apply IH.
Qed.

Lemma find_go_absent (c : ascii) (u v : text) :
  forallb (fun x => negb (Chr.eqb x c)) u = true ->
  forall i, Py.find_go c (u ++ c :: v) i = Some (i + length u).
Proof.
  induction u as [|x u IH]; intros Hu i; cbn [app Py.find_go length].
  - rewrite chr_eqb_refl. f_equal. lia.
  - cbn [forallb] in Hu. apply andb_true_iff in Hu as [Hx%negb_true_iff Hu].
    rewrite Hx, IH by done. f_equal. lia.
Qed.

Lemma forallb_take {X : Type} (f : X -> bool) (n : nat) (l : list X) :
  forallb f l = true -> forallb f (take n l) = true.
Proof.
  revert n. induction l as [|x l IH]; intros [|n]; try done.
  cbn [forallb take]. intros [-> H]%andb_true_iff. by apply IH.
Qed.

Lemma forallb_drop {X : Type} (f : X -> bool) (n : nat) (l : list X) :
  forallb f l = true -> forallb f (drop n l) = true.
Proof.
  revert n. induction l as [|x l IH]; intros [|n]; try done.
  cbn [forallb drop]. intros [_ H]%andb_true_iff. by apply IH.
Qed.

(** The line that holds a span: in a text [A ++ L ++ NL :: B], where [A]
    is a number of whole lines and [L] holds no line break, the bounds the
    resolver computes for a span inside [L] are those of [L]. *)
Lemma line_of_span (A L B : text) (s e : nat) :
  ends_line A = true ->
  forallb (fun c => negb (Chr.eqb c NL)) L = true ->
  length A <= s -> s <= e -> e <= length A + length L ->
  line_start_of (A ++ L ++ NL :: B) s = length A
  /\ Py.find NL (A ++ L ++ NL :: B) e = Some (length A + length L).
Proof.
  intros HA HL Hs Hse He. split.
  - unfold line_start_of, Py.rfind.
    rewrite take_app_ge by done.
    rewrite take_app_le by lia.
    rewrite rfind_go_app.
    rewrite (rfind_go_absent NL (take (s - length A) L))
      by (by apply forallb_take).
    unfold ends_line in HA. apply orb_true_iff in HA as [HA|HA].
    + by destruct A.
    + destruct (exists_last (l:=A)) as (A' & c & ->).
      { intros ->. done. }
      unfold Py.endswith in HA. rewrite rev_app_distr in HA.
      cbn [rev app] in HA. rewrite startswith_cons in HA.
      apply andb_true_iff in HA as [Hc _]. apply chr_eqb_eq in Hc as <-.
      rewrite rfind_go_app. cbn [Py.rfind_go]. rewrite chr_eqb_refl.
      rewrite length_app. cbn [length]. f_equal. lia.
  - unfold Py.find.
    rewrite drop_app_ge by lia.
    rewrite drop_app_le by lia.
    rewrite find_go_absent by (by apply forallb_drop).
    rewrite length_drop. f_equal. lia.
Qed.

End Lines.

Section TwoDeclarations.

Lemma slice_middle (A L B : text) :
  Py.slice (A ++ L ++ B) (length A) (length A + length L) = L.
Proof.
  unfold Py.slice. rewrite drop_app_length.
  replace (length A + length L - length A) with (length L) by lia.
  by rewrite take_app_length.
Qed.

(** The removal of a declaration that is not in a braces list, standing in
    a line that begins with export: the line goes, with its line break. *)
Lemma remove_position_line (name : text) (p : position) (A L B : text)
    (changes : list text) :
  p_type p <> Destructured ->
  ends_line A = true ->
  forallb (fun c => negb (Chr.eqb c NL)) L = true ->
  length A <= p_start p -> p_start p <= p_end p ->
  p_end p <= length A + length L ->
  Py.startswith (txt "export") (Py.strip L) = true ->
  remove_position name p (A ++ L ++ NL :: B, changes)
  = (A ++ B,
     changes ++ [txt "Removed duplicate " ++ type_name (p_type p)
                   ++ txt " export of " ++ name]).
Proof.
  destruct p as [t s e]. cbn [p_type p_start p_end].
  intros Ht HA HL Hs Hse He Hline.
  destruct (line_of_span A L B s e HA HL Hs Hse He) as [H1 H2].
  assert (remove_position name (Position t s e) (A ++ L ++ NL :: B, changes)
          = let content := A ++ L ++ NL :: B in
            let line_start := line_start_of content s in
            let line_end := default (length content) (Py.find NL content e) in
            let line := Py.slice content line_start line_end in
            if Py.startswith (txt "export") (Py.strip line) then
              (take line_start content ++ drop (line_end + 1) content,
               changes ++ [txt "Removed duplicate " ++ type_name t
                             ++ txt " export of " ++ name])
            else (content, changes)) as ->
    by (by destruct t).
  cbn zeta. rewrite H1, H2. cbn [default].
  rewrite slice_middle, Hline, take_app_length.
  f_equal. f_equal. unfold id.
  rewrite drop_app_ge by lia. rewrite drop_app_ge by lia.
  replace (length A + length L + 1 - length A - length L) with 1 by lia.
  done.
Qed.

(** The symbol that alone is declared more than once, declared twice: the
    declaration of the less preferred kind, or the earlier one of two of
    equally preferred kinds, loses its line. *)
Lemma two_declarations_resolved (content name : text)
    (positions : list position) (winner loser : position) (A L B : text) :
  duplicates content = [(name, positions)] ->
  positions ≡ₚ [winner; loser] ->
  rank (p_type loser) < rank (p_type winner)
  \/ (rank (p_type loser) = rank (p_type winner)
      /\ p_start loser < p_start winner) ->
  p_type loser <> Destructured ->
  content = A ++ L ++ NL :: B ->
  ends_line A = true ->
  forallb (fun c => negb (Chr.eqb c NL)) L = true ->
  length A <= p_start loser -> p_start loser <= p_end loser ->
  p_end loser <= length A + length L ->
  Py.startswith (txt "export") (Py.strip L) = true ->
  remove_duplicate_exports content
  = (collapse_blank_lines (collapse_semis (A ++ B)),
     [txt "Removed duplicate " ++ type_name (p_type loser)
        ++ txt " export of " ++ name]).
Proof.
  intros Hdup Hperm Hpref Ht Hcontent HA HL Hs Hse He Hline.
  rewrite (one_duplicated_name content name positions Hdup).
  assert (positions <> []) as Hne.
  { intros ->. by apply Permutation_nil_cons in Hperm. }
  destruct (keep_index_spec name positions (content, []) Hne)
    as (k & p & _ & Hk & Hrank & Hstart & _ & ->).
  assert (winner ∈ positions) as Hw.
  { rewrite Hperm. apply elem_of_cons. by left. }
  assert (loser ∈ positions) as Hl.
  { rewrite Hperm. apply elem_of_cons. right. apply elem_of_cons. by left. }
  assert (p <> loser) as Hpl.
  { intros ->. specialize (Hrank _ Hw). specialize (Hstart winner Hw).
    destruct Hpref as [H|[H1 H2]]; [lia|].
    specialize (Hstart (eq_sym H1)). lia. }
  assert (winner <> loser) as Hwl.
  { intros ->. destruct Hpref as [H|[_ H]]; lia. }
  assert (delete k (sort_desc positions) = [loser]) as ->.
  { assert (sort_desc positions ≡ₚ [winner; loser]) as Hsort
      by (etrans; [apply sort_desc_perm|exact Hperm]).
    symmetry in Hsort. apply Permutation_length_2_inv in Hsort as [Hs'|Hs'];
      rewrite Hs' in Hk |- *.
    - destruct k as [|[|k]]; cbn in Hk; [done| |done].
      by injection Hk as <-.
    - destruct k as [|[|k]]; cbn in Hk; [|done|done].
      by injection Hk as <-. }
  cbn [fold_left]. rewrite Hcontent.
  by rewrite (remove_position_line name loser A L B []).
Qed.

End TwoDeclarations.



(** X13.  When a symbol alone is declared more than once in a text, and
    twice, the resolver removes the line of the declaration of the less
    preferred kind (class, then function, then const-form, then braces
    list, then default and bare class), or of the earlier one of two of
    equally preferred kinds, when that declaration is not in a braces list
    and its line begins with export: the output is the text without that
    line, cleaned of doubled semicolons and of runs of blank lines. *)
Theorem less_preferred_declaration_removed (content name : text)
    (positions : list position) (winner loser : position) (A L B : text) :
  duplicates content = [(name, positions)] ->
  positions ≡ₚ [winner; loser] ->
  rank (p_type loser) < rank (p_type winner)
  \/ (rank (p_type loser) = rank (p_type winner)
      /\ p_start loser < p_start winner) ->
  p_type loser <> Destructured ->
  content = A ++ L ++ NL :: B ->
  ends_line A = true ->
  forallb (fun c => negb (Chr.eqb c NL)) L = true ->
  length A <= p_start loser -> p_start loser <= p_end loser ->
  p_end loser <= length A + length L ->
  Py.startswith (txt "export") (Py.strip L) = true ->
  remove_duplicate_exports content
  = (collapse_blank_lines (collapse_semis (A ++ B)),
     [txt "Removed duplicate " ++ type_name (p_type loser)
        ++ txt " export of " ++ name]).
Proof. apply two_declarations_resolved. Qed.

Lemma less_preferred_declaration_removed_witness :
  let content :=
    lines ["export const A = 1;"; "export default A; // old"; "let x = 0;";
           blank] in
  let winner := Position Const 0 14 in
  let loser := Position Default 20 37 in
  let positions := [loser; winner] in
  let A := lines ["export const A = 1;"; blank] in
  let L := txt "export default A; // old" in
  let B := lines ["let x = 0;"; blank] in
  duplicates content = [(txt "A", positions)]
  /\ positions ≡ₚ [winner; loser]
  /\ (rank (p_type loser) < rank (p_type winner)
      \/ (rank (p_type loser) = rank (p_type winner)
          /\ p_start loser < p_start winner))
  /\ p_type loser <> Destructured
  /\ content = A ++ L ++ NL :: B
  /\ ends_line A = true
  /\ forallb (fun c => negb (Chr.eqb c NL)) L = true
  /\ length A <= p_start loser /\ p_start loser <= p_end loser
  /\ p_end loser <= length A + length L
  /\ Py.startswith (txt "export") (Py.strip L) = true
  /\ remove_duplicate_exports content
     = (collapse_blank_lines (collapse_semis (A ++ B)),
        [txt "Removed duplicate " ++ type_name (p_type loser)
           ++ txt " export of " ++ txt "A"])
  /\ collapse_blank_lines (collapse_semis (A ++ B))
     = lines ["export const A = 1;"; "let x = 0;"; blank].
Proof.
  intros content winner loser positions A L B.
  assert (duplicates content = [(txt "A", positions)]) as H1
    by (vm_compute; reflexivity).
  assert (positions ≡ₚ [winner; loser]) as H2 by apply perm_swap.
  assert (rank (p_type loser) < rank (p_type winner)
          \/ (rank (p_type loser) = rank (p_type winner)
              /\ p_start loser < p_start winner)) as H3
    by (left; vm_compute; lia).
  assert (p_type loser <> Destructured) as H4 by discriminate.
  assert (content = A ++ L ++ NL :: B) as H5 by (vm_compute; reflexivity).
  assert (length A <= p_start loser) as H8 by (vm_compute; lia).
  assert (p_start loser <= p_end loser) as H9 by (vm_compute; lia).
  assert (p_end loser <= length A + length L) as H10 by (vm_compute; lia).
  split_and!;
    [exact H1|exact H2|exact H3|exact H4|exact H5|reflexivity|reflexivity
    |exact H8|exact H9|exact H10|reflexivity| |vm_compute; reflexivity].
  exact (less_preferred_declaration_removed content (txt "A") positions
           winner loser A L B H1 H2 H3 H4 H5 eq_refl eq_refl H8 H9 H10
           eq_refl).
Defined.

(** *** The default export of UIComponent.js *)

Section Finds.

Import Re.

(** A pattern that matches at the start of [r] has a match in every text
    that ends with [r]. *)
Lemma scan_finds (re : regex) (r : text) :
  (forall p pv, is_Some (match_at re p pv r)) ->
  forall u p pv, scan re 0 p pv (u ++ r) <> [].
Proof.
  intros Hr. induction u as [|c u IH]; intros p pv.
  - destruct (Hr p pv) as [mt Hmt]. rewrite app_nil_l.
    destruct r; cbn [scan]; by rewrite Hmt.
  - cbn [app scan]. destruct (match_at re p pv (c :: u ++ r)); [done|].
    apply IH.
Qed.

Lemma search_finds (re : regex) (u r : text) :
  (forall p pv, is_Some (match_at re p pv r)) ->
  is_Some (search re (u ++ r)).
Proof.
  intros Hr. unfold search, finditer.
  pose proof (scan_finds re r Hr u 0 None).
  destruct (scan re 0 0 None (u ++ r)); [done|]. by eexists.
Qed.

Lemma replace_go_occurrence (old new : text) (s : text) :
  nonempty old = true -> Py.contains old s = true ->
  exists u v, Py.replace_go old new 0 s = u ++ new ++ v.
Proof.
  intros Hold. induction s as [|c s IH]; intros H.
  - destruct old; [done|]. discriminate H.
  - cbn [Py.contains] in H. cbn [Py.replace_go].
    destruct (Py.startswith old (c :: s)).
    + by exists [], (Py.replace_go old new (length old - 1) s).
    + destruct (IH H) as (u & v & ->). by exists (c :: u), v.
Qed.

End Finds.

(** X16.  In a run that writes and is not restricted to duplicates, when
    the first listed file named UIComponent.js can be read and holds the
    text class UIComponent, that file holds a default export statement after
    the handling of UIComponent.js in [main]. *)
Theorem uicomponent_gets_a_default_export (a : args) (js_files : list text)
    (fs : files) (ui content : text) :
  dry_run a = false -> fix_duplicates_only a = false ->
  head (filter (fun f => text_eqb (Path.name f) (txt "UIComponent.js") = true)
          js_files) = Some ui ->
  fs !! ui = Some content ->
  Py.contains (txt "class UIComponent") content = true ->
  exists content',
    ensure_uicomponent_default a js_files fs !! ui = Some content'
    /\ is_Some (Re.search PatS.export_default_any content').
Proof.
  intros Hdry Hmode Hui Hfs Hclass. unfold ensure_uicomponent_default.
  rewrite Hui, Hmode, Hfs, Hclass, Hdry.
  destruct (Re.search PatS.export_default_any content) as [mt|] eqn:Hm.
  { exists content. split; [done|]. rewrite Hm. by eexists. }
  cbn [andb].
  destruct (Py.contains (txt "export class UIComponent") content) eqn:Hexp;
    cbn [negb].
  - eexists. split; [apply lookup_insert_eq|].
    destruct (replace_go_occurrence (txt "export class UIComponent")
                (txt "export default class UIComponent") content eq_refl Hexp)
      as (u & v & Hrep).
    unfold Py.replace. rewrite Hrep. apply search_finds.
    intros p pv. eexists. reflexivity.
  - eexists. split; [apply lookup_insert_eq|].
    rewrite app_assoc. apply search_finds.
    intros p pv. eexists. reflexivity.
Qed.

Lemma uicomponent_gets_a_default_export_witness :
  let ui := txt "src/UIComponent.js" in
  let content := lines ["export class UIComponent {}"] in
  let fs : files := {[ ui := content ]} in
  dry_run run_args = false /\ fix_duplicates_only run_args = false
  /\ head (filter (fun f => text_eqb (Path.name f) (txt "UIComponent.js") = true)
             [ui]) = Some ui
  /\ fs !! ui = Some content
  /\ Py.contains (txt "class UIComponent") content = true
  /\ exists content',
       ensure_uicomponent_default run_args [ui] fs !! ui = Some content'
       /\ is_Some (Re.search PatS.export_default_any content').
Proof.
  intros ui content fs.
  assert (head (filter (fun f => text_eqb (Path.name f) (txt "UIComponent.js")
                                 = true) [ui]) = Some ui) as H3
    by (vm_compute; reflexivity).
  assert (fs !! ui = Some content) as H4 by (vm_compute; reflexivity).
  split_and!; [reflexivity|reflexivity|exact H3|exact H4|reflexivity|].
  exact (uicomponent_gets_a_default_export run_args [ui] fs ui content
           eq_refl eq_refl H3 H4 eq_refl).
Defined.

(** *** Texts in which a pattern cannot match *)

Section Dead.

Import Re.

Lemma dead_match_at re p pv r : dead re r -> match_at re p pv r = None.
Proof. intros H. apply H. Qed.

Lemma no_match_nil re : dead re [] -> no_match re [].
Proof.
  intros H [|skip] p pv; [|done]. cbn [scan]. by rewrite dead_match_at.
Qed.

Lemma no_match_cons re c r :
  dead re (c :: r) -> no_match re r -> no_match re (c :: r).
Proof.
  intros Hd Hr [|skip] p pv; cbn [scan]; [|apply Hr].
  rewrite dead_match_at by done. apply Hr.
Qed.

Lemma no_match_app re u r :
  (forall u1 u2, u = u1 ++ u2 -> u2 <> [] -> dead re (u2 ++ r)) ->
  no_match re r -> no_match re (u ++ r).
Proof.
  intros Hu Hr. induction u as [|c u IH]; [done|].
  cbn [app]. apply no_match_cons.
  - apply (Hu [] (c :: u)); done.
  - apply IH. intros u1 u2 -> Hne. by apply (Hu (c :: u1) u2).
Qed.

Lemma no_match_embed re r : embeds (musts re) r = false -> no_match re r.
Proof. intros H skip p pv. by apply scan_no_embed. Qed.

Lemma no_match_finditer re s : no_match re s -> finditer re s = [].
Proof. intros H. apply H. Qed.

Lemma no_match_search re s : no_match re s -> search re s = None.
Proof. intros H. unfold search. by rewrite no_match_finditer. Qed.

Lemma no_match_sub re repl s : no_match re s -> sub re repl s = s.
Proof. intros H. unfold sub. by rewrite no_match_finditer. Qed.

(** A match at the start of the text, with no match after it. *)
Lemma finditer_prefix re u r mt :
  nonempty u = true ->
  match_at re 0 None (u ++ r) = Some mt ->
  m_end mt = length u ->
  no_match re r ->
  finditer re (u ++ r) = [mt].
Proof.
  intros Hu Hm Hend Hr. unfold finditer.
  destruct u as [|c u]; [done|]. cbn [app scan].
  change (c :: u ++ r) with ((c :: u) ++ r). rewrite Hm. f_equal.
  rewrite Hend. cbn [length]. replace (S (length u) - 0 - 1) with (length u) by lia.
  rewrite scan_skip. apply Hr.
Qed.

Lemma sub_prefix re repl u r mt :
  nonempty u = true ->
  match_at re 0 None (u ++ r) = Some mt ->
  m_end mt = length u ->
  no_match re r ->
  sub re repl (u ++ r) = repl mt ++ r.
Proof.
  intros Hu Hm Hend Hr. unfold sub.
  rewrite (finditer_prefix re u r mt) by done. cbn [rebuild].
  destruct (match_at_prefix _ _ _ _ _ Hm) as (_ & _ & _ & -> & _ & _).
  rewrite slice_from, app_nil_l, Hend. by rewrite drop_app_length.
Qed.

(** Literals *)

Lemma dead_lit_ne a l re c r :
  Chr.eqb a c = false -> dead (Seq (Lit (a :: l)) re) (c :: r).
Proof.
  intros H A k p pv cp. rewrite run_seq. cbn [run rest Py.strip_prefix].
  by rewrite H.
Qed.

Lemma dead_lit_nil a l re : dead (Seq (Lit (a :: l)) re) [].
Proof. intros A k p pv cp. done. Qed.

Lemma strip_prefix_word (l W tl r : text) (s : ascii) :
  forallb Chr.is_word l = true -> Chr.is_word s = false ->
  Py.strip_prefix l (W ++ s :: tl) = Some r ->
  exists W2, W = l ++ W2 /\ r = W2 ++ s :: tl.
Proof.
  intros Hl Hs. revert W. induction l as [|a l IH]; intros W.
  - intros [= <-]. by exists W.
  - cbn [forallb] in Hl. apply andb_true_iff in Hl as [Ha Hl].
    destruct W as [|b W]; cbn [app Py.strip_prefix].
    + destruct (Chr.eqb a s) eqn:E; [|done].
      apply chr_eqb_eq in E as ->. congruence.
    + destruct (Chr.eqb a b) eqn:E; [|done].
      apply chr_eqb_eq in E as ->. intros H.
      destruct (IH Hl W H) as (W2 & -> & ->). by exists W2.
Qed.

(** A word literal against a block of word characters [W] that ends before
    [s]: the literal is the block, or what follows meets a word character
    or [s]. *)
Lemma dead_lit_block l re W s tl :
  forallb Chr.is_word l = true -> forallb Chr.is_word W = true ->
  Chr.is_word s = false ->
  (forall w r, Chr.is_word w = true -> dead re (w :: r)) ->
  (l = W -> dead re (s :: tl)) ->
  dead (Seq (Lit l) re) (W ++ s :: tl).
Proof.
  intros Hl HW Hs Hword Hend A k p pv cp. rewrite run_seq. cbn [run rest].
  destruct (Py.strip_prefix l (W ++ s :: tl)) as [r|] eqn:E; [|done].
  destruct (strip_prefix_word _ _ _ _ _ Hl Hs E) as (W2 & -> & ->).
  destruct W2 as [|w W2].
  - rewrite app_nil_l. apply Hend. by rewrite app_nil_r.
  - apply Hword. rewrite forallb_app in HW.
    apply andb_true_iff in HW as [_ HW]. cbn [forallb] in HW.
    by apply andb_true_iff in HW as [? _].
Qed.

(** What cannot start at a word character *)

Lemma dead_ws1_word re w r :
  Chr.is_word w = true -> dead (Seq Pat.ws1 re) (w :: r).
Proof.
  intros Hw A k p pv cp. unfold Pat.ws1, Plus. rewrite !run_seq.
  cbn [run rest cset_mem]. by rewrite (word_not_space w Hw).
Qed.

Lemma star_greedy_stop {A} cs (k : cursor -> option A) p pv r cp :
  stops cs r = true -> star_greedy cs k p pv r cp = k (Cursor p pv r cp).
Proof.
  destruct r as [|c r]; [done|]. cbn [stops star_greedy].
  by intros ->%negb_true_iff.
Qed.

Lemma run_ws_stop {A} re (k : cursor -> option A) p pv r cp :
  stops CSpace r = true ->
  run (Seq Pat.ws re) k (Cursor p pv r cp) = run re k (Cursor p pv r cp).
Proof.
  intros H. unfold Pat.ws. rewrite run_seq. cbn [run pos prev rest caps].
  by rewrite star_greedy_stop.
Qed.

Lemma dead_ws_lit_word a l re w r :
  Chr.is_word a = false -> Chr.is_word w = true ->
  dead (Seq Pat.ws (Seq (Lit (a :: l)) re)) (w :: r).
Proof.
  intros Ha Hw A k p pv cp. rewrite run_ws_stop.
  2:{ cbn [stops cset_mem]. by rewrite (word_not_space w Hw). }
  apply dead_lit_ne. destruct (Chr.eqb a w) eqn:E; [|done].
  apply chr_eqb_eq in E as ->. congruence.
Qed.

(** One white space character and then [r], which starts with none. *)
Lemma run_ws1_one {A} re (k : cursor -> option A) p pv c r cp :
  Chr.is_space c = true -> stops CSpace r = true ->
  run (Seq Pat.ws1 re) k (Cursor p pv (c :: r) cp)
  = run re k (Cursor (S p) (Some c) r cp).
Proof.
  intros Hc Hr. unfold Pat.ws1, Plus. rewrite !run_seq.
  cbn [run pos prev rest caps cset_mem]. rewrite Hc.
  by rewrite star_greedy_stop.
Qed.

(** The same for the optional white space: one character or none. *)
Lemma run_ws_one {A} re (k : cursor -> option A) p pv c r cp :
  Chr.is_space c = true -> stops CSpace r = true ->
  run (Seq Pat.ws re) k (Cursor p pv (c :: r) cp)
  = match run re k (Cursor (S p) (Some c) r cp) with
    | Some a => Some a
    | None => run re k (Cursor p pv (c :: r) cp)
    end.
Proof.
  intros Hc Hr. unfold Pat.ws. rewrite run_seq.
  cbn [run pos prev rest caps star_greedy cset_mem]. rewrite Hc.
  by rewrite star_greedy_stop.
Qed.

End Dead.

Section ImportStatements.

Import Re.

Lemma after_import_ws1 re : after_import (Seq Pat.ws1 re).
Proof.
  intros c r Hc _ A k p pv cp. unfold Pat.ws1, Plus. rewrite !run_seq.
  cbn [run rest cset_mem]. by rewrite Hc.
Qed.

Lemma after_import_ws_brace l re :
  after_import (Seq Pat.ws (Seq (Lit ("{"%char :: l)) re)).
Proof.
  intros c r Hc Hb A k p pv cp. rewrite run_ws_stop.
  2:{ cbn [stops cset_mem]. by rewrite Hc. }
  by apply dead_lit_ne.
Qed.

Lemma strip_prefix_sep (l W tl r : text) (s : ascii) :
  forallb (fun a => negb (Chr.eqb a s)) l = true ->
  Py.strip_prefix l (W ++ s :: tl) = Some r ->
  exists W2, W = l ++ W2 /\ r = W2 ++ s :: tl.
Proof.
  revert W. induction l as [|a l IH]; intros W Hl.
  - intros [= <-]. by exists W.
  - cbn [forallb] in Hl. apply andb_true_iff in Hl as [Ha Hl].
    apply negb_true_iff in Ha.
    destruct W as [|b W]; cbn [app Py.strip_prefix].
    + by rewrite Ha.
    + destruct (Chr.eqb a b) eqn:E; [|done].
      apply chr_eqb_eq in E as ->. intros H.
      destruct (IH W Hl H) as (W2 & -> & ->). by exists W2.
Qed.

Lemma word_not_lbrace c : Chr.is_word c = true -> Chr.eqb "{" c = false.
Proof. by_cases_on_char c. Qed.

Lemma quote_not_lbrace c : is_quote c = true -> Chr.eqb "{" c = false.
Proof. by_cases_on_char c. Qed.

Lemma quote_not_word c : is_quote c = true -> Chr.is_word c = false.
Proof. by_cases_on_char c. Qed.

Lemma import_no_quote q :
  is_quote q = true ->
  forallb (fun a => negb (Chr.eqb a q)) (txt "import") = true.
Proof. by_cases_on_char q. Qed.

Lemma module_path_inv P :
  is_module_path P = true ->
  nonempty P = true
  /\ forallb (fun c => negb (is_quote c)) P = true
  /\ forallb (fun c => negb (Chr.is_space c)) P = true
  /\ forallb (fun c => negb (Chr.eqb "{" c)) P = true.
Proof.
  unfold is_module_path. intros [H1 H2]%andb_true_iff.
  apply plain_path_inv in H1 as (?&?&?). done.
Qed.

(** No match of a pattern that starts with the word import begins in the
    quoted path or after it. *)
Lemma no_match_quoted re' q P tl :
  after_import re' -> is_quote q = true ->
  forallb (fun c => negb (Chr.is_space c)) P = true ->
  forallb (fun c => negb (Chr.eqb "{" c)) P = true ->
  Py.contains (txt "import") tl = false ->
  no_match (Seq (Lit (txt "import")) re') (q :: P ++ q :: tl).
Proof.
  intros Hre Hq HPs HPb Htl.
  assert (Chr.eqb "i" q = false) as Hiq by (revert Hq; by_cases_on_char q).
  apply no_match_cons; [by apply dead_lit_ne|].
  apply no_match_app.
  - intros P1 P2 -> HP2 A k p pv cp. rewrite run_seq. cbn [run rest].
    destruct (Py.strip_prefix _ _) as [r|] eqn:E; [|done].
    apply strip_prefix_sep in E as (P3 & -> & ->);
      [|by apply import_no_quote].
    rewrite !forallb_app in HPs, HPb.
    apply andb_true_iff in HPs as [_ [_ HPs]%andb_true_iff].
    apply andb_true_iff in HPb as [_ [_ HPb]%andb_true_iff].
    destruct P3 as [|c P3]; cbn [app].
    + apply Hre; [by apply quote_not_space|by apply quote_not_lbrace].
    + cbn [forallb] in HPs, HPb.
      apply andb_true_iff in HPs as [?%negb_true_iff _].
      apply andb_true_iff in HPb as [?%negb_true_iff _].
      by apply Hre.
  - apply no_match_cons; [by apply dead_lit_ne|].
    intros skip p pv. by apply scan_no_literal.
Qed.

(** The same for a text [pre ++ X ++ mid ++ q :: P ++ q :: tl] in which
    [X] is a block of word characters, [pre] and [mid] lack the letter i,
    and the pattern fails on what follows [X]. *)
Lemma no_match_statement re' pre X mid q P tl :
  after_import re' -> is_quote q = true ->
  forallb (fun c => negb (Chr.eqb "i" c)) pre = true ->
  forallb Chr.is_word X = true ->
  forallb (fun c => negb (Chr.eqb "i" c)) mid = true ->
  (exists s mid', mid = s :: mid' /\ Chr.is_word s = false) ->
  forallb (fun c => negb (Chr.is_space c)) P = true ->
  forallb (fun c => negb (Chr.eqb "{" c)) P = true ->
  Py.contains (txt "import") tl = false ->
  dead re' (mid ++ q :: P ++ q :: tl) ->
  no_match (Seq (Lit (txt "import")) re')
    (pre ++ X ++ mid ++ q :: P ++ q :: tl).
Proof.
  intros Hre Hq Hpre HX Hmid (s & mid' & -> & Hs) HPs HPb Htl Hdead.
  assert (forall u r,
            forallb (fun c => negb (Chr.eqb "i" c)) u = true ->
            no_match (Seq (Lit (txt "import")) re') r ->
            no_match (Seq (Lit (txt "import")) re') (u ++ r)) as Hskip.
  { intros u r Hu Hr. apply no_match_app; [|done].
    intros u1 [|c u2] -> Hne; [done|]. cbn [app].
    rewrite forallb_app in Hu. apply andb_true_iff in Hu as [_ Hu].
    cbn [forallb] in Hu. apply andb_true_iff in Hu as [Hc%negb_true_iff _].
    by apply dead_lit_ne. }
  apply Hskip; [done|].
  apply no_match_app.
  - intros X1 X2 -> HX2. rewrite forallb_app in HX.
    apply andb_true_iff in HX as [_ HX].
    cbn [app]. apply dead_lit_block; [done|done|done| |done].
    intros w r Hw. apply Hre; [by apply word_not_space|by apply word_not_lbrace].
  - apply Hskip; [done|]. by apply no_match_quoted.
Qed.

End ImportStatements.

(** *** The patterns of [fix_imports] on one import statement *)

Section ImportFacts.

Import Re.

Context (X P tl : text) (q : ascii).
Context (HX : is_identifier X = true) (Hq : is_quote q = true)
        (HP : is_module_path P = true)
        (Htl : Py.contains (txt "import") tl = false).

Local Abbreviation default_import := (default_import X P tl q).
Local Abbreviation named_import := (named_import X P tl q).
Local Abbreviation default_statement := (default_statement X P q).
Local Abbreviation named_statement := (named_statement X P q).

Lemma dead_lit1_ne a l c r : Chr.eqb a c = false -> dead (Lit (a :: l)) (c :: r).
Proof.
  intros H A k p pv cp. cbn [run rest Py.strip_prefix]. by rewrite H.
Qed.

Lemma X_word : forallb Chr.is_word X = true.
Proof using HX. by destruct (identifier_inv X HX) as (? & _). Qed.

Lemma X_stops (cs : cset) r :
  (forall c, Chr.is_word c = true -> cset_mem cs c = false) ->
  stops cs (X ++ r) = true.
Proof using HX.
  intros H. destruct (identifier_inv X HX) as (_ & (x & X' & -> & Hx) & _).
  cbn [app stops]. by rewrite (H x Hx).
Qed.

Lemma P_facts :
  nonempty P = true
  /\ forallb (fun c => negb (is_quote c)) P = true
  /\ forallb (fun c => negb (Chr.is_space c)) P = true
  /\ forallb (fun c => negb (Chr.eqb "{" c)) P = true.
Proof using HP. by apply module_path_inv. Qed.

Lemma f_not_quote : Chr.eqb "f" q = false.
Proof using Hq. revert Hq. by_cases_on_char q. Qed.

(** *** Patterns of the first loop: import\s+N\s+from *)

Lemma default_of_after (n : text) :
  after_import
    (Seq Pat.ws1 (Seq (Lit n) (Seq Pat.ws1 (Lit (txt "from"))))).
Proof. apply after_import_ws1. Qed.

Lemma default_of_dead_from (n : text) :
  is_identifier n = true ->
  dead (Seq Pat.ws1 (Seq (Lit n) (Seq Pat.ws1 (Lit (txt "from")))))
    (txt " from " ++ q :: P ++ q :: tl).
Proof using Hq.
  intros Hn A k p pv cp.
  destruct (identifier_inv n Hn) as (Hnw & _ & _).
  change (txt " from " ++ ?r) with (" "%char :: txt "from" ++ " "%char :: r).
  rewrite run_ws1_one by done.
  apply dead_lit_block; [done|done|done|apply dead_ws1_word|].
  intros _ B k' p' pv' cp'.
  rewrite run_ws1_one; [|done|].
  2:{ cbn [stops cset_mem]. by rewrite (quote_not_space q Hq). }
  apply dead_lit1_ne, f_not_quote.
Qed.

Lemma default_of_no_match_named (n : text) :
  is_identifier n = true ->
  no_match (PatS.import_default_of n) named_import.
Proof using HX Hq HP Htl.
  intros Hn. destruct P_facts as (_ & _ & HPs & HPb).
  destruct (identifier_inv n Hn) as (Hnw & (n0 & n' & -> & Hn0) & _).
  unfold named_import, PatS.import_default_of. cbn [seqs].
  change (txt "import { ") with ("i"%char :: txt "mport { ").
  cbn [app]. apply no_match_cons.
  { intros A k p pv cp.
    change ("i"%char :: txt "mport { " ++ ?r)
      with (txt "import" ++ " "%char :: "{"%char :: " "%char :: r).
    rewrite run_seq, run_lit_app. rewrite run_ws1_one by done.
    apply dead_lit_ne. destruct (Chr.eqb n0 "{") eqn:E; [|done].
    apply chr_eqb_eq in E as ->. done. }
  apply (no_match_statement _ (txt "mport { ") X (txt " } from ") q P tl);
    [apply default_of_after|done|done|apply X_word|done|
     by exists " "%char, (txt "} from ")|done|done|done|].
  intros A k p pv cp.
    change (txt " } from " ++ ?r) with (" "%char :: "}"%char :: txt " from " ++ r).
    rewrite run_ws1_one by done.
    apply dead_lit_ne. destruct (Chr.eqb n0 "}") eqn:E; [|done].
    apply chr_eqb_eq in E as ->. done.
Qed.

Lemma default_of_no_match_default (n : text) :
  is_identifier n = true -> n <> X ->
  no_match (PatS.import_default_of n) default_import.
Proof using HX Hq HP Htl.
  intros Hn Hne. destruct P_facts as (_ & _ & HPs & HPb).
  destruct (identifier_inv n Hn) as (Hnw & _ & _).
  unfold default_import, PatS.import_default_of. cbn [seqs].
  change (txt "import ") with ("i"%char :: txt "mport ").
  cbn [app]. apply no_match_cons.
  { intros A k p pv cp.
    change ("i"%char :: txt "mport " ++ ?r) with (txt "import" ++ " "%char :: r).
    rewrite run_seq, run_lit_app.
    rewrite run_ws1_one; [|done|].
    2:{ apply X_stops. intros c Hc. by apply word_not_space. }
    change (txt " from " ++ ?r) with (" "%char :: txt "from " ++ r).
    apply dead_lit_block; [done|apply X_word|done|apply dead_ws1_word|done]. }
  apply (no_match_statement _ (txt "mport ") X (txt " from ") q P tl);
    [apply default_of_after|done|done|apply X_word|done|
     by exists " "%char, (txt "from ")|done|done|done|].
  by apply default_of_dead_from.
Qed.

(** The match of the first loop's pattern for [X] itself. *)
Lemma default_of_match :
  match_at (PatS.import_default_of X) 0 None default_import
  = Some (Match 0 (length (txt "import " ++ X ++ txt " from"))
            (txt "import " ++ X ++ txt " from") []).
Proof using HX.
  destruct (identifier_inv X HX) as (HXw & _ & _).
  unfold match_at, default_import, PatS.import_default_of. cbn [seqs].
  change (txt "import ") with (txt "import" ++ txt " ").
  change (txt " from " ++ ?r) with (txt " " ++ txt "from" ++ " "%char :: r).
  rewrite <- !app_assoc.
  rewrite run_seq, run_lit_app.
  rewrite run_seq. apply run_plus_exact; [done|done| |].
  { apply X_stops. intros c Hc. by apply word_not_space. }
  rewrite run_seq, run_lit_app.
  rewrite run_seq. apply run_plus_exact; [done..|].
  rewrite run_lit_app. cbn beta iota delta [pos prev rest caps].
  f_equal. f_equal.
  - rewrite !length_app. simpl. lia.
  - rewrite !app_assoc. rewrite take_app_length'; [by rewrite <- !app_assoc|].
    rewrite !length_app. simpl. lia.
Qed.

Lemma default_of_sub (correct_import : text) :
  sub (PatS.import_default_of X) (fun _ => correct_import) default_import
  = correct_import ++ " "%char :: q :: P ++ q :: tl.
Proof using HX Hq HP Htl.
  destruct P_facts as (_ & _ & HPs & HPb).
  assert (default_import
          = (txt "import " ++ X ++ txt " from") ++ " "%char :: q :: P ++ q :: tl)
    as Hsplit.
  { unfold default_import. by rewrite <- !app_assoc. }
  rewrite Hsplit.
  rewrite (sub_prefix _ _ _ _
             (Match 0 (length (txt "import " ++ X ++ txt " from"))
                (txt "import " ++ X ++ txt " from") [])).
  all: swap 1 3.
  - rewrite <- Hsplit. apply default_of_match.
  - done.
  - done.
  - done.
  - unfold PatS.import_default_of. cbn [seqs].
    apply no_match_cons; [by apply dead_lit_ne|].
    apply no_match_quoted; try done. apply default_of_after.
Qed.

Lemma default_of_search :
  is_Some (search (PatS.import_default_of X) default_import).
Proof using HX.
  unfold search, finditer. unfold default_import.
  pose proof default_of_match as H. unfold default_import in H.
  change (txt "import " ++ ?r) with ("i"%char :: txt "mport " ++ r) in *.
  cbn [scan]. rewrite H. by eexists.
Qed.

(** *** Patterns of the second loop: import\s*{\s*N\s*}\s*from *)

Lemma named_of_after (m : text) :
  after_import
    (seqs [Pat.ws; Lit (txt "{"); Pat.ws; Lit m; Pat.ws; Lit (txt "}");
           Pat.ws; Lit (txt "from")]).
Proof. apply after_import_ws_brace. Qed.

Lemma dead_ws_brace_at (re : regex) (c d : ascii) (r : text) :
  Chr.is_space c = true -> Chr.is_space d = false ->
  Chr.eqb "{" d = false ->
  dead (Seq Pat.ws (Seq (Lit (txt "{")) re)) (c :: d :: r).
Proof.
  intros Hc Hd Hb A k p pv cp.
  rewrite run_ws_one; [|done|by cbn [stops cset_mem]; rewrite Hd].
  rewrite (dead_lit_ne "{" [] re d r Hb).
  apply dead_lit_ne. destruct (Chr.eqb "{" c) eqn:E; [|done].
  apply chr_eqb_eq in E as <-. done.
Qed.

Lemma named_of_no_match_default (m : text) :
  no_match (PatS.import_named_of m) default_import.
Proof using HX Hq HP Htl.
  destruct P_facts as (_ & _ & HPs & HPb).
  destruct (identifier_inv X HX) as (HXw & (x & X' & HXeq & Hx) & _).
  unfold default_import, PatS.import_named_of. cbn [seqs].
  change (txt "import ") with ("i"%char :: txt "mport ").
  cbn [app]. apply no_match_cons.
  { intros A k p pv cp.
    change ("i"%char :: txt "mport " ++ ?r) with (txt "import" ++ " "%char :: r).
    rewrite run_seq, run_lit_app. rewrite HXeq. cbn [app].
    apply dead_ws_brace_at; [done|by apply word_not_space|
                             by apply word_not_lbrace]. }
  apply (no_match_statement _ (txt "mport ") X (txt " from ") q P tl);
    [apply named_of_after|done|done|apply X_word|done|
     by exists " "%char, (txt "from ")|done|done|done|].
  change (txt " from " ++ ?r) with (" "%char :: "f"%char :: txt "rom " ++ r).
    by apply dead_ws_brace_at.
Qed.

Lemma named_of_dead_tail (m : text) :
  dead (seqs [Pat.ws; Lit (txt "{"); Pat.ws; Lit m; Pat.ws; Lit (txt "}");
              Pat.ws; Lit (txt "from")])
    (txt " } from " ++ q :: P ++ q :: tl).
Proof.
  change (txt " } from " ++ ?r) with (" "%char :: "}"%char :: txt " from " ++ r).
  by apply dead_ws_brace_at.
Qed.

Lemma named_of_no_match_named (m : text) :
  is_identifier m = true -> m <> X ->
  no_match (PatS.import_named_of m) named_import.
Proof using HX Hq HP Htl.
  intros Hm Hne. destruct P_facts as (_ & _ & HPs & HPb).
  destruct (identifier_inv m Hm) as (Hmw & (m0 & m' & Hmeq & Hm0) & _).
  unfold named_import, PatS.import_named_of. cbn [seqs].
  change (txt "import { ") with ("i"%char :: txt "mport { ").
  cbn [app]. apply no_match_cons.
  { intros A k p pv cp.
    change ("i"%char :: txt "mport { " ++ ?r)
      with (txt "import" ++ " "%char :: txt "{" ++ " "%char :: r).
    rewrite run_seq, run_lit_app.
    rewrite run_ws_one by done.
    assert (forall B (k' : cursor -> option B) p' pv' cp',
              run (seqs [Lit (txt "{"); Pat.ws; Lit m; Pat.ws;
                         Lit (txt "}"); Pat.ws; Lit (txt "from")]) k'
                (Cursor p' pv'
                   (txt "{" ++ " "%char :: X ++ txt " } from " ++ q :: P ++ q :: tl)
                   cp') = None) as ->.
    { intros B k' p' pv' cp'. cbn [seqs]. rewrite run_seq, run_lit_app.
      rewrite run_ws_one; [|done|].
      2:{ apply X_stops. intros c Hc. by apply word_not_space. }
      change (txt " } from " ++ ?r) with (" "%char :: txt "} from " ++ r).
      rewrite (dead_lit_block m _ X " " _ Hmw X_word eq_refl); [| |done].
      2:{ intros w r Hw. by apply dead_ws_lit_word. }
      rewrite Hmeq. apply dead_lit_ne.
      destruct (Chr.eqb m0 " ") eqn:E; [|done].
      apply chr_eqb_eq in E as ->. done. }
    apply dead_lit_ne. done. }
  apply (no_match_statement _ (txt "mport { ") X (txt " } from ") q P tl);
    [apply named_of_after|done|done|apply X_word|done|
     by exists " "%char, (txt "} from ")|done|done|done|].
  apply named_of_dead_tail.
Qed.

Lemma named_of_match :
  match_at (PatS.import_named_of X) 0 None named_import
  = Some (Match 0 (length (txt "import { " ++ X ++ txt " } from"))
            (txt "import { " ++ X ++ txt " } from") []).
Proof using HX.
  destruct (identifier_inv X HX) as (HXw & _ & _).
  unfold match_at, named_import, PatS.import_named_of. cbn [seqs].
  change (txt "import { ") with (txt "import" ++ txt " " ++ txt "{" ++ txt " ").
  change (txt " } from " ++ ?r)
    with (txt " " ++ txt "}" ++ txt " " ++ txt "from" ++ " "%char :: r).
  rewrite <- !app_assoc.
  rewrite run_seq, run_lit_app.
  rewrite run_seq. apply run_star_exact; [done..|].
  rewrite run_seq, run_lit_app.
  rewrite run_seq. apply run_star_exact; [done| |].
  { apply X_stops. intros c Hc. by apply word_not_space. }
  rewrite run_seq, run_lit_app.
  rewrite run_seq. apply run_star_exact; [done..|].
  rewrite run_seq, run_lit_app.
  rewrite run_seq. apply run_star_exact; [done..|].
  rewrite run_lit_app. cbn beta iota delta [pos prev rest caps].
  f_equal. f_equal.
  - rewrite !length_app. simpl. lia.
  - rewrite !app_assoc. rewrite take_app_length'; [by rewrite <- !app_assoc|].
    rewrite !length_app. simpl. lia.
Qed.

Lemma named_of_sub (correct_import : text) :
  sub (PatS.import_named_of X) (fun _ => correct_import) named_import
  = correct_import ++ " "%char :: q :: P ++ q :: tl.
Proof using HX Hq HP Htl.
  destruct P_facts as (_ & _ & HPs & HPb).
  assert (named_import
          = (txt "import { " ++ X ++ txt " } from")
            ++ " "%char :: q :: P ++ q :: tl) as Hsplit.
  { unfold named_import. by rewrite <- !app_assoc. }
  rewrite Hsplit.
  rewrite (sub_prefix _ _ _ _
             (Match 0 (length (txt "import { " ++ X ++ txt " } from"))
                (txt "import { " ++ X ++ txt " } from") [])).
  all: swap 1 3.
  - rewrite <- Hsplit. apply named_of_match.
  - done.
  - done.
  - done.
  - unfold PatS.import_named_of. cbn [seqs].
    apply no_match_cons; [by apply dead_lit_ne|].
    apply no_match_quoted; try done. apply named_of_after.
Qed.

Lemma named_of_search :
  is_Some (search (PatS.import_named_of X) named_import).
Proof using HX.
  unfold search, finditer.
  pose proof named_of_match as H. unfold named_import in *.
  change (txt "import { " ++ ?r) with ("i"%char :: txt "mport { " ++ r) in *.
  cbn [scan]. rewrite H. by eexists.
Qed.

(** *** Patterns of the scan for imported modules *)

Lemma dead_word1 (re : regex) (c : ascii) (r : text) :
  Chr.is_word c = false -> dead (Seq Pat.word1 re) (c :: r).
Proof.
  intros Hc A k p pv cp. unfold Pat.word1, Plus. rewrite !run_seq.
  cbn [run rest cset_mem]. by rewrite Hc.
Qed.

Lemma word_path_no_match_named (re : regex) :
  no_match (Seq (Lit (txt "import")) (Seq Pat.ws1 (Seq Pat.word1 re)))
    named_import.
Proof using HX Hq HP Htl.
  destruct P_facts as (_ & _ & HPs & HPb).
  unfold named_import.
  change (txt "import { ") with ("i"%char :: txt "mport { ").
  cbn [app]. apply no_match_cons.
  { intros A k p pv cp.
    change ("i"%char :: txt "mport { " ++ ?r)
      with (txt "import" ++ " "%char :: "{"%char :: " "%char :: r).
    rewrite run_seq, run_lit_app. rewrite run_ws1_one by done.
    by apply dead_word1. }
  apply (no_match_statement _ (txt "mport { ") X (txt " } from ") q P tl);
    [apply after_import_ws1|done|done|apply X_word|done|
     by exists " "%char, (txt "} from ")|done|done|done|].
  intros A k p pv cp.
  change (txt " } from " ++ ?r) with (" "%char :: "}"%char :: txt " from " ++ r).
  rewrite run_ws1_one by done. by apply dead_word1.
Qed.

Lemma default_path_no_match_named :
  no_match PatS.import_default_path named_import.
Proof using HX Hq HP Htl. apply word_path_no_match_named. Qed.

Lemma brace_no_match_default (re : regex) :
  no_match (Seq (Lit (txt "import")) (Seq Pat.ws (Seq (Lit (txt "{")) re)))
    default_import.
Proof using HX Hq HP Htl.
  destruct P_facts as (_ & _ & HPs & HPb).
  destruct (identifier_inv X HX) as (HXw & (x & X' & HXeq & Hx) & _).
  unfold default_import.
  change (txt "import ") with ("i"%char :: txt "mport ").
  cbn [app]. apply no_match_cons.
  { intros A k p pv cp.
    change ("i"%char :: txt "mport " ++ ?r) with (txt "import" ++ " "%char :: r).
    rewrite run_seq, run_lit_app. rewrite HXeq. cbn [app].
    apply dead_ws_brace_at; [done|by apply word_not_space|
                             by apply word_not_lbrace]. }
  apply (no_match_statement _ (txt "mport ") X (txt " from ") q P tl);
    [apply after_import_ws_brace|done|done|apply X_word|done|
     by exists " "%char, (txt "from ")|done|done|done|].
  change (txt " from " ++ ?r) with (" "%char :: "f"%char :: txt "rom " ++ r).
  by apply dead_ws_brace_at.
Qed.

Lemma named_path_no_match_default :
  no_match PatS.import_named_path default_import.
Proof using HX Hq HP Htl. apply brace_no_match_default. Qed.

Lemma no_match_rest (re' : regex) :
  no_match (Seq (Lit (txt "import")) re') tl.
Proof using Htl. intros skip p pv. by apply scan_no_literal. Qed.

Lemma default_import_split : default_import = default_statement ++ tl.
Proof.
  unfold default_import, default_statement. rewrite <- !app_assoc.
  cbn [app]. by rewrite <- !app_assoc.
Qed.

Lemma named_import_split : named_import = named_statement ++ tl.
Proof.
  unfold named_import, named_statement. rewrite <- !app_assoc.
  cbn [app]. by rewrite <- !app_assoc.
Qed.

Lemma default_path_match :
  match_at PatS.import_default_path 0 None default_import
  = Some (Match 0 (length default_statement) default_statement [(1, P)]).
Proof using HX Hq HP.
  destruct P_facts as (HPne & HPq & HPs & HPb).
  destruct (identifier_inv X HX) as (HXw & _ & _).
  unfold match_at, default_import, PatS.import_default_path. cbn [seqs].
  change (txt "import ") with (txt "import" ++ txt " ").
  change (txt " from " ++ ?r) with (txt " " ++ txt "from" ++ txt " " ++ r).
  change (q :: P ++ q :: tl) with ([q] ++ P ++ q :: tl).
  rewrite <- !app_assoc.
  rewrite run_seq, run_lit_app.
  rewrite run_seq. apply run_plus_exact; [done|done| |].
  { apply X_stops. intros c Hc. by apply word_not_space. }
  rewrite run_seq. apply run_plus_exact; [by destruct X|done|done|].
  rewrite run_seq. apply run_plus_exact; [done..|].
  rewrite run_seq, run_lit_app.
  rewrite run_seq. apply run_plus_exact; [done|done| |].
  { apply stops_quote; [apply quote_not_space|done]. }
  rewrite run_seq. unfold Pat.quote at 1. rewrite run_cls_app by exact Hq.
  rewrite run_seq, run_group.
  apply run_plus_exact; [done|done| |].
  { by apply stops_not_quote. }
  cbn beta iota delta [pos prev rest caps].
  unfold Pat.quote. rewrite run_cls_cons by exact Hq.
  cbn beta iota delta [pos prev rest caps].
  rewrite (take_app_length' P) by lia.
  match goal with
  | |- Some (Match _ ?n _ _) = _ =>
      replace n with (length default_statement)
        by (unfold default_statement; rewrite !length_app; simpl;
            rewrite ?length_app; simpl; lia)
  end.
  f_equal. f_equal. rewrite Nat.sub_0_r.
  change (txt "import" ++ txt " " ++ X ++ txt " " ++ txt "from" ++ txt " "
          ++ [q] ++ P ++ q :: tl) with default_import.
  rewrite default_import_split. by rewrite take_app_length.
Qed.

Lemma default_path_finditer :
  finditer PatS.import_default_path default_import
  = [Match 0 (length default_statement) default_statement [(1, P)]].
Proof using HX Hq HP Htl.
  rewrite default_import_split. apply finditer_prefix; [done| |done|].
  - rewrite <- default_import_split. apply default_path_match.
  - apply no_match_rest.
Qed.

Lemma named_path_match :
  match_at PatS.import_named_path 0 None named_import
  = Some (Match 0 (length named_statement) named_statement [(1, P)]).
Proof using HX Hq HP.
  destruct P_facts as (HPne & HPq & HPs & HPb).
  destruct (identifier_inv X HX) as (HXw & _ & _).
  unfold match_at, named_import, PatS.import_named_path. cbn [seqs].
  change (txt "import { " ++ X ++ txt " } from " ++ q :: P ++ q :: tl)
    with (txt "import" ++ txt " " ++ txt "{" ++ (txt " " ++ X ++ txt " ")
          ++ txt "}" ++ txt " " ++ txt "from" ++ txt " " ++ [q] ++ P
          ++ q :: tl)
    || (replace (txt "import { " ++ X ++ txt " } from " ++ q :: P ++ q :: tl)
          with (txt "import" ++ txt " " ++ txt "{" ++ (txt " " ++ X ++ txt " ")
                ++ txt "}" ++ txt " " ++ txt "from" ++ txt " " ++ [q] ++ P
                ++ q :: tl)
         by (cbn [app txt list_ascii_of_string]; rewrite <- !app_assoc;
             reflexivity)).
  rewrite run_seq, run_lit_app.
  rewrite run_seq. apply run_star_exact; [done..|].
  rewrite run_seq, run_lit_app.
  rewrite run_seq. apply run_plus_exact; [done| |done|].
  { rewrite !forallb_app. rewrite (forallb_impl _ _ _ word_not_brace HXw).
    done. }
  rewrite run_seq, run_lit_app.
  rewrite run_seq. apply run_plus_exact; [done..|].
  rewrite run_seq, run_lit_app.
  rewrite run_seq. apply run_plus_exact; [done|done| |].
  { apply stops_quote; [apply quote_not_space|done]. }
  rewrite run_seq. unfold Pat.quote at 1. rewrite run_cls_app by exact Hq.
  rewrite run_seq, run_group.
  apply run_plus_exact; [done|done| |].
  { by apply stops_not_quote. }
  cbn beta iota delta [pos prev rest caps].
  unfold Pat.quote. rewrite run_cls_cons by exact Hq.
  cbn beta iota delta [pos prev rest caps].
  rewrite (take_app_length' P) by lia.
  assert (named_statement ++ tl
          = txt "import" ++ txt " " ++ txt "{" ++ (txt " " ++ X ++ txt " ")
            ++ txt "}" ++ txt " " ++ txt "from" ++ txt " " ++ [q] ++ P
            ++ q :: tl) as Hsplit.
  { rewrite <- named_import_split. unfold named_import.
    rewrite <- !app_assoc. reflexivity. }
  rewrite <- Hsplit.
  match goal with
  | |- Some (Match _ ?n _ _) = _ =>
      replace n with (length named_statement)
        by (unfold named_statement; rewrite !length_app; simpl;
            rewrite ?length_app; simpl; lia)
  end.
  f_equal. f_equal. rewrite Nat.sub_0_r. by rewrite take_app_length.
Qed.

Lemma named_path_finditer :
  finditer PatS.import_named_path named_import
  = [Match 0 (length named_statement) named_statement [(1, P)]].
Proof using HX Hq HP Htl.
  rewrite named_import_split. apply finditer_prefix; [done| |done|].
  - rewrite <- named_import_split. apply named_path_match.
  - apply no_match_rest.
Qed.

(** *** The pattern of the last loop: import\s+(\w+)\s+from\s+Q(PATH)Q *)

Lemma default_from_match :
  match_at (PatS.import_default_from P) 0 None default_import
  = Some (Match 0 (length default_statement) default_statement
            [(2, P); (1, X)]).
Proof using HX Hq HP.
  destruct P_facts as (HPne & HPq & HPs & HPb).
  destruct (identifier_inv X HX) as (HXw & _ & _).
  unfold match_at, default_import, PatS.import_default_from. cbn [seqs].
  change (txt "import ") with (txt "import" ++ txt " ").
  change (txt " from " ++ ?r) with (txt " " ++ txt "from" ++ txt " " ++ r).
  change (q :: P ++ q :: tl) with ([q] ++ P ++ q :: tl).
  rewrite <- !app_assoc.
  rewrite run_seq, run_lit_app.
  rewrite run_seq. apply run_plus_exact; [done|done| |].
  { apply X_stops. intros c Hc. by apply word_not_space. }
  rewrite run_seq, run_group.
  apply run_plus_exact; [by destruct X|done|done|].
  cbn beta iota delta [pos prev rest caps].
  rewrite run_seq. apply run_plus_exact; [done..|].
  rewrite run_seq, run_lit_app.
  rewrite run_seq. apply run_plus_exact; [done|done| |].
  { apply stops_quote; [apply quote_not_space|done]. }
  rewrite run_seq. unfold Pat.quote at 1. rewrite run_cls_app by exact Hq.
  rewrite run_seq, run_group. rewrite run_lit_app.
  cbn beta iota delta [pos prev rest caps].
  unfold Pat.quote. rewrite run_cls_cons by exact Hq.
  cbn beta iota delta [pos prev rest caps].
  rewrite (take_app_length' P) by lia.
  rewrite (take_app_length' X) by lia.
  match goal with
  | |- Some (Match _ ?n _ _) = _ =>
      replace n with (length default_statement)
        by (unfold default_statement; rewrite !length_app; simpl;
            rewrite ?length_app; simpl; lia)
  end.
  f_equal. f_equal. rewrite Nat.sub_0_r.
  change (txt "import" ++ txt " " ++ X ++ txt " " ++ txt "from" ++ txt " "
          ++ [q] ++ P ++ q :: tl) with default_import.
  rewrite default_import_split. by rewrite take_app_length.
Qed.

Lemma default_from_finditer :
  finditer (PatS.import_default_from P) default_import
  = [Match 0 (length default_statement) default_statement [(2, P); (1, X)]].
Proof using HX Hq HP Htl.
  rewrite default_import_split. apply finditer_prefix; [done| |done|].
  - rewrite <- default_import_split. apply default_from_match.
  - apply no_match_rest.
Qed.

End ImportFacts.

(** *** [fix_imports] on one import statement *)

Section FixImports.

Import Re.

Context (X P tl : text) (q : ascii).
Context (HX : is_identifier X = true) (Hq : is_quote q = true)
        (HP : is_module_path P = true)
        (Htl : Py.contains (txt "import") tl = false).

Local Abbreviation default_import := (default_import X P tl q).
Local Abbreviation named_import := (named_import X P tl q).

Lemma modern_keeps_named (l : list text) (changes : list text) :
  Forall (fun n => is_identifier n = true) l ->
  fold_left modern_step (modern_import_fixes l) (named_import, changes)
  = (named_import, changes).
Proof using HX Hq HP Htl.
  induction l as [|n l IH]; intros Hl; [done|].
  apply Forall_cons in Hl as [Hn Hl]. cbn [modern_import_fixes map fold_left].
  unfold modern_step at 2.
  rewrite no_match_search by (by apply default_of_no_match_named).
  by apply IH.
Qed.

Lemma modern_keeps_default (l : list text) (changes : list text) :
  Forall (fun n => is_identifier n = true) l -> X ∉ l ->
  fold_left modern_step (modern_import_fixes l) (default_import, changes)
  = (default_import, changes).
Proof using HX Hq HP Htl.
  induction l as [|n l IH]; intros Hl Hnot; [done|].
  apply Forall_cons in Hl as [Hn Hl].
  apply not_elem_of_cons in Hnot as [Hne Hnot].
  cbn [modern_import_fixes map fold_left]. unfold modern_step at 2.
  rewrite no_match_search by (by apply default_of_no_match_default).
  by apply IH.
Qed.

Lemma modern_rewrites (l : list text) (changes : list text) :
  Forall (fun n => is_identifier n = true) l -> X ∈ l ->
  fold_left modern_step (modern_import_fixes l) (default_import, changes)
  = (named_import, changes ++ [txt "Import modernized: " ++ X]).
Proof using HX Hq HP Htl.
  induction l as [|n l IH]; intros Hl Hin; [by apply elem_of_nil in Hin|].
  apply Forall_cons in Hl as [Hn Hl].
  cbn [modern_import_fixes map fold_left]. unfold modern_step at 2.
  destruct (decide (n = X)) as [->|Hne].
  - destruct (default_of_search X P tl q HX) as [mt ->].
    rewrite default_of_sub by done.
    replace ((txt "import { " ++ X ++ txt " } from")
             ++ " "%char :: q :: P ++ q :: tl) with named_import
      by (unfold named_import; by rewrite <- !app_assoc).
    by apply modern_keeps_named.
  - rewrite no_match_search by (by apply default_of_no_match_default).
    apply IH; [done|]. by apply elem_of_cons in Hin as [->|Hin].
Qed.

Lemma default_keeps_default (l : list text) (changes : list text) :
  fold_left default_step (keep_default_imports l) (default_import, changes)
  = (default_import, changes).
Proof using HX Hq HP Htl.
  induction l as [|n l IH]; [done|].
  cbn [keep_default_imports map fold_left]. unfold default_step at 2.
  rewrite no_match_search by (by apply named_of_no_match_default).
  by apply IH.
Qed.

Lemma default_keeps_named (l : list text) (changes : list text) :
  Forall (fun n => is_identifier n = true) l -> X ∉ l ->
  fold_left default_step (keep_default_imports l) (named_import, changes)
  = (named_import, changes).
Proof using HX Hq HP Htl.
  induction l as [|n l IH]; intros Hl Hnot; [done|].
  apply Forall_cons in Hl as [Hn Hl].
  apply not_elem_of_cons in Hnot as [Hne Hnot].
  cbn [keep_default_imports map fold_left]. unfold default_step at 2.
  rewrite no_match_search by (by apply named_of_no_match_named).
  by apply IH.
Qed.

Lemma default_rewrites (l : list text) (changes : list text) :
  Forall (fun n => is_identifier n = true) l -> X ∈ l ->
  fold_left default_step (keep_default_imports l) (named_import, changes)
  = (default_import, changes ++ [txt "Base class import fixed: " ++ X]).
Proof using HX Hq HP Htl.
  induction l as [|n l IH]; intros Hl Hin; [by apply elem_of_nil in Hin|].
  apply Forall_cons in Hl as [Hn Hl].
  cbn [keep_default_imports map fold_left]. unfold default_step at 2.
  destruct (decide (n = X)) as [->|Hne].
  - destruct (named_of_search X P tl q HX) as [mt ->].
    rewrite named_of_sub by done.
    replace ((txt "import " ++ X ++ txt " from")
             ++ " "%char :: q :: P ++ q :: tl) with default_import
      by (unfold default_import; by rewrite <- !app_assoc).
    by apply default_keeps_default.
  - rewrite no_match_search by (by apply named_of_no_match_named).
    apply IH; [done|]. by apply elem_of_cons in Hin as [->|Hin].
Qed.

End FixImports.

Lemma fix_imports_loops (content : text)
    (modern_imports default_imports : list (text * text)) (filename : text) :
  fix_imports content modern_imports default_imports filename
  = let st :=
      fold_left default_step default_imports
        (fold_left modern_step modern_imports (content, [])) in
    let imported_modules :=
      fold_left
        (fun acc '(pattern, import_type) =>
           fold_left
             (fun acc mt => add_import_type (Re.group 1 mt) import_type acc)
             (Re.finditer pattern (fst st)) acc)
        [(PatS.import_default_path, IDefault); (PatS.import_named_path, INamed)]
        [] in
    fold_left
      (fun '(content, changes) '(path, import_types) =>
         let module_name := Path.stem path in
         if mem_text module_name (map fst default_imports) then
           if has_type INamed import_types
              && negb (has_type IDefault import_types) then
             (Re.sub (PatS.import_named_of_from module_name path)
                (fun mt =>
                   txt "import " ++ module_name ++ txt " from '"
                   ++ Re.group 1 mt ++ txt "'")
                content,
              changes ++ [txt "Fixed named import to default: " ++ module_name])
           else (content, changes)
         else if mem_text module_name (map fst modern_imports) then
           if has_type IDefault import_types
              && negb (has_type INamed import_types) then
             fold_left
               (fun '(content', changes) mt =>
                  let import_name := Re.group 1 mt in
                  let replacement :=
                    txt "import { " ++ module_name ++ txt " } from '\2'" in
                  (take (Re.m_start mt) content' ++ replacement
                   ++ drop (Re.m_end mt) content',
                   changes ++ [txt "Fixed default import to named: "
                                 ++ import_name ++ txt " -> " ++ module_name]))
               (Re.finditer (PatS.import_default_from path) content)
               (content, changes)
           else (content, changes)
         else (content, changes))
      imported_modules st.
Proof. reflexivity. Qed.

Lemma map_fst_modern (l : list text) : map fst (modern_import_fixes l) = l.
Proof. induction l; simpl; congruence. Qed.

Lemma map_fst_default (l : list text) : map fst (keep_default_imports l) = l.
Proof. induction l; simpl; congruence. Qed.

(** X17.  [fix_imports] turns the default import of a symbol of the named
    policy list, which is not in the default policy list, into a named
    import of the same symbol from the same path, and records it. *)
Theorem default_import_of_named_symbol_is_rewritten
    (named keep : list text) (X P tl filename : text) (q : ascii) :
  Forall (fun n => is_identifier n = true) named ->
  Forall (fun n => is_identifier n = true) keep ->
  X ∈ named -> X ∉ keep ->
  is_quote q = true -> is_module_path P = true ->
  Py.contains (txt "import") tl = false ->
  mem_text (Path.stem P) keep = false ->
  fix_imports (default_import X P tl q) (modern_import_fixes named)
    (keep_default_imports keep) filename
  = (named_import X P tl q, [txt "Import modernized: " ++ X]).
Proof.
  intros Hnamed Hkeep Hin Hnot Hq HP Htl Hstem.
  assert (is_identifier X = true) as HX.
  { by eapply Forall_forall in Hnamed. }
  rewrite fix_imports_loops.
  rewrite (modern_rewrites X P tl q) by done.
  rewrite (default_keeps_named X P tl q) by done.
  cbn zeta. cbn [fst fold_left].
  rewrite (no_match_finditer _ _ (default_path_no_match_named X P tl q HX Hq HP Htl)).
  rewrite (named_path_finditer X P tl q) by done.
  cbn [fold_left add_import_type].
  change (Re.group 1 (Re.Match _ _ _ [(1, P)])) with P.
  rewrite map_fst_default, Hstem.
  by destruct (mem_text (Path.stem P) (map fst (modern_import_fixes named))).
Qed.

Lemma default_import_of_named_symbol_is_rewritten_witness :
  let named := [txt "Sky"] in
  let keep := [txt "World"] in
  let X := txt "Sky" in
  let P := txt "./sky" in
  let tl := txt ";" in
  let q := "'"%char in
  Forall (fun n => is_identifier n = true) named
  /\ Forall (fun n => is_identifier n = true) keep
  /\ X ∈ named /\ (X ∉ keep) /\ is_quote q = true /\ is_module_path P = true
  /\ Py.contains (txt "import") tl = false
  /\ mem_text (Path.stem P) keep = false
  /\ fix_imports (default_import X P tl q) (modern_import_fixes named)
       (keep_default_imports keep) (txt "src/app.js")
     = (named_import X P tl q, [txt "Import modernized: " ++ X]).
Proof.
  intros named keep X P tl q.
  assert (Forall (fun n => is_identifier n = true) named) as H1
    by (by repeat constructor).
  assert (Forall (fun n => is_identifier n = true) keep) as H2
    by (by repeat constructor).
  assert (X ∈ named) as H3 by compute_done.
  assert (X ∉ keep) as H4 by compute_done.
  split_and!; [exact H1|exact H2|exact H3|exact H4|reflexivity..|].
  exact (default_import_of_named_symbol_is_rewritten named keep X P tl
           (txt "src/app.js") q H1 H2 H3 H4 eq_refl eq_refl eq_refl eq_refl).
Defined.

(** X18.  [fix_imports] turns the named import of a symbol of the default
    policy list into a default import of the same symbol from the same path,
    and records it. *)
Theorem named_import_of_default_symbol_is_rewritten
    (named keep : list text) (X P tl filename : text) (q : ascii) :
  Forall (fun n => is_identifier n = true) named ->
  Forall (fun n => is_identifier n = true) keep ->
  X ∈ keep ->
  is_quote q = true -> is_module_path P = true ->
  Py.contains (txt "import") tl = false ->
  mem_text (Path.stem P) keep || negb (mem_text (Path.stem P) named) = true ->
  fix_imports (named_import X P tl q) (modern_import_fixes named)
    (keep_default_imports keep) filename
  = (default_import X P tl q, [txt "Base class import fixed: " ++ X]).
Proof.
  intros Hnamed Hkeep Hin Hq HP Htl Hstem.
  assert (is_identifier X = true) as HX.
  { by eapply Forall_forall in Hkeep. }
  rewrite fix_imports_loops.
  rewrite (modern_keeps_named X P tl q) by done.
  rewrite (default_rewrites X P tl q) by done.
  cbn zeta. cbn [fst fold_left].
  rewrite (default_path_finditer X P tl q) by done.
  rewrite (no_match_finditer _ _ (named_path_no_match_default X P tl q HX Hq HP Htl)).
  cbn [fold_left add_import_type].
  change (Re.group 1 (Re.Match _ _ _ [(1, P)])) with P.
  rewrite map_fst_default, map_fst_modern.
  destruct (mem_text (Path.stem P) keep); [done|].
  cbn [orb] in Hstem. apply negb_true_iff in Hstem. by rewrite Hstem.
Qed.

Lemma named_import_of_default_symbol_is_rewritten_witness :
  let named := [txt "Sky"] in
  let keep := [txt "World"] in
  let X := txt "World" in
  let P := txt "./World" in
  let tl := txt ";" in
  let q := "'"%char in
  Forall (fun n => is_identifier n = true) named
  /\ Forall (fun n => is_identifier n = true) keep
  /\ X ∈ keep /\ is_quote q = true /\ is_module_path P = true
  /\ Py.contains (txt "import") tl = false
  /\ mem_text (Path.stem P) keep || negb (mem_text (Path.stem P) named) = true
  /\ fix_imports (named_import X P tl q) (modern_import_fixes named)
       (keep_default_imports keep) (txt "src/app.js")
     = (default_import X P tl q, [txt "Base class import fixed: " ++ X]).
Proof.
  intros named keep X P tl q.
  assert (Forall (fun n => is_identifier n = true) named) as H1
    by (by repeat constructor).
  assert (Forall (fun n => is_identifier n = true) keep) as H2
    by (by repeat constructor).
  assert (X ∈ keep) as H3 by compute_done.
  split_and!; [exact H1|exact H2|exact H3|reflexivity..|].
  exact (named_import_of_default_symbol_is_rewritten named keep X P tl
           (txt "src/app.js") q H1 H2 H3 eq_refl eq_refl eq_refl eq_refl).
Defined.

(** X19.  With policy lists of identifiers, a default import under
    another local name, of a module whose file name is in the named policy
    list, is replaced by a named import of
    the module name whose path is the text of the replacement template, a
    backslash and the digit 2: the statement's path is lost. *)
Theorem aliased_default_import_loses_its_path
    (named keep : list text) (A P tl filename : text) (q : ascii) :
  Forall (fun n => is_identifier n = true) named ->
  Forall (fun n => is_identifier n = true) keep ->
  is_identifier A = true -> A ∉ named ->
  is_quote q = true -> is_module_path P = true ->
  Py.contains (txt "import") tl = false ->
  mem_text (Path.stem P) keep = false ->
  mem_text (Path.stem P) named = true ->
  fix_imports (default_import A P tl q) (modern_import_fixes named)
    (keep_default_imports keep) filename
  = (txt "import { " ++ Path.stem P ++ txt " } from '\2'" ++ tl,
     [txt "Fixed default import to named: " ++ A ++ txt " -> "
      ++ Path.stem P]).
Proof.
  intros Hnamed Hids HA Hnot Hq HP Htl Hkeep Hstem.
  rewrite fix_imports_loops.
  rewrite (modern_keeps_default A P tl q) by done.
  rewrite (default_keeps_default A P tl q) by done.
  cbn zeta. cbn [fst fold_left].
  rewrite (default_path_finditer A P tl q) by done.
  rewrite (no_match_finditer _ _ (named_path_no_match_default A P tl q HA Hq HP Htl)).
  cbn [fold_left add_import_type].
  change (Re.group 1 (Re.Match _ _ _ [(1, P)])) with P.
  rewrite map_fst_default, map_fst_modern, Hkeep, Hstem.
  cbn [has_type existsb import_type_eqb orb andb negb].
  rewrite (default_from_finditer A P tl q) by done.
  cbn [fold_left Re.m_start Re.m_end take].
  change (Re.group 1 _) with A.
  rewrite default_import_split, drop_app_length. 
  by rewrite <- !app_assoc.
Qed.

Lemma aliased_default_import_loses_its_path_witness :
  let named := [txt "Sky"] in
  let keep := [txt "World"] in
  let A := txt "Heaven" in
  let P := txt "./Sky" in
  let tl := txt ";" in
  let q := "'"%char in
  Forall (fun n => is_identifier n = true) named
  /\ Forall (fun n => is_identifier n = true) keep
  /\ is_identifier A = true /\ (A ∉ named) /\ is_quote q = true
  /\ is_module_path P = true /\ Py.contains (txt "import") tl = false
  /\ mem_text (Path.stem P) keep = false
  /\ mem_text (Path.stem P) named = true
  /\ fix_imports (default_import A P tl q) (modern_import_fixes named)
       (keep_default_imports keep) (txt "src/app.js")
     = (txt "import { " ++ Path.stem P ++ txt " } from '\2'" ++ tl,
        [txt "Fixed default import to named: " ++ A ++ txt " -> "
           ++ Path.stem P]).
Proof.
  intros named keep A P tl q.
  assert (Forall (fun n => is_identifier n = true) named) as H1
    by (by repeat constructor).
  assert (Forall (fun n => is_identifier n = true) keep) as H2
    by (by repeat constructor).
  assert (A ∉ named) as H3 by compute_done.
  split_and!; [exact H1|exact H2|reflexivity|exact H3|reflexivity..|].
  exact (aliased_default_import_loses_its_path named keep A P tl
           (txt "src/app.js") q H1 H2 eq_refl H3 eq_refl eq_refl eq_refl
           eq_refl eq_refl).
Defined.

(** *** [fix_imports] on a text without policy names *)

Section PolicyNames.

Lemma split_char_piece (sep : ascii) (x : text) (s : text) :
  forall cur,
    x ∈ Py.split_go [sep] 0 cur s ->
    Py.contains x (rev cur ++ s) = true.
Proof.
  induction s as [|c s IH]; intros cur; cbn [Py.split_go].
  - intros ->%list_elem_of_singleton. rewrite app_nil_r. apply contains_refl.
  - destruct (Py.startswith [sep] (c :: s)).
    + cbn [length Nat.sub]. intros [->|H]%elem_of_cons.
      * apply contains_app_l, contains_refl.
      * apply contains_app_r, (contains_app_r _ [c]). by apply (IH []).
    + intros H. apply IH in H. cbn [rev] in H.
      by rewrite <- app_assoc in H.
Qed.

Lemma name_piece (p : text) : Py.contains (Path.name p) p = true.
Proof.
  unfold Path.name. destruct (last (Path.parts p)) as [x|] eqn:E;
    [|apply contains_nil].
  cbn [default]. apply last_Some_elem_of in E. unfold Path.parts in E.
  apply list_elem_of_filter in E as [_ E].
  by apply (split_char_piece Path.slash x p []) in E.
Qed.

(** The file name without extension is a piece of the path. *)
Lemma stem_piece (p : text) : Py.contains (Path.stem p) p = true.
Proof.
  unfold Path.stem. cbn zeta.
  destruct (Py.rfind _ _ _) as [i|]; [|apply name_piece].
  destruct (_ && _); [|apply name_piece].
  eapply contains_trans; [apply contains_take|apply name_piece].
Qed.

Lemma mem_text_elem (x : text) (l : list text) :
  mem_text x l = true -> x ∈ l.
Proof.
  unfold mem_text. induction l as [|y l IH]; [done|]. cbn [existsb].
  intros [H|H]%orb_true_iff; apply elem_of_cons.
  - left. by apply text_eqb_eq.
  - right. by apply IH.
Qed.

Context (content : text) (modern_imports default_imports : list (text * text)).
Context (Hmodern : Forall (fun n => Py.contains n content = false)
                     (map fst modern_imports))
        (Hdefault : Forall (fun n => Py.contains n content = false)
                      (map fst default_imports)).

Lemma modern_loop_idle (l : list (text * text)) (st : text * list text) :
  fst st = content ->
  Forall (fun n => Py.contains n content = false) (map fst l) ->
  fold_left modern_step l st = st.
Proof.
  revert st. induction l as [|[n c] l IH]; intros [s ch] Hs Hl; [done|].
  cbn [fst] in Hs. subst s. cbn [map fst] in Hl.
  apply Forall_cons in Hl as [Hn Hl]. cbn [fold_left modern_step].
  unfold Re.search.
  rewrite (finditer_mentions n); [by apply IH| |done].
  unfold PatS.import_default_of. cbn [Re.seqs mentions].
  rewrite contains_refl. by rewrite !orb_true_r.
Qed.

Lemma default_loop_idle (l : list (text * text)) (st : text * list text) :
  fst st = content ->
  Forall (fun n => Py.contains n content = false) (map fst l) ->
  fold_left default_step l st = st.
Proof.
  revert st. induction l as [|[n c] l IH]; intros [s ch] Hs Hl; [done|].
  cbn [fst] in Hs. subst s. cbn [map fst] in Hl.
  apply Forall_cons in Hl as [Hn Hl]. cbn [fold_left default_step].
  unfold Re.search.
  rewrite (finditer_mentions n); [by apply IH| |done].
  unfold PatS.import_named_of. cbn [Re.seqs mentions].
  rewrite contains_refl. by rewrite !orb_true_r.
Qed.

Lemma add_import_type_pieces (path : text) (t : import_type)
    (l : list (text * list import_type)) :
  Py.contains path content = true ->
  Forall (fun e => Py.contains (fst e) content = true) l ->
  Forall (fun e => Py.contains (fst e) content = true)
    (add_import_type path t l).
Proof.
  intros Hp. induction 1 as [|[p ts] l Hx Hl IH]; cbn [add_import_type].
  - by repeat constructor.
  - destruct (text_eqb p path); by constructor.
Qed.

Lemma imported_paths_pieces (t : import_type)
    (ms : list Re.rmatch) (acc : list (text * list import_type)) :
  Forall (fun mt => Py.contains (Re.group 1 mt) content = true) ms ->
  Forall (fun e => Py.contains (fst e) content = true) acc ->
  Forall (fun e => Py.contains (fst e) content = true)
    (fold_left (fun acc mt => add_import_type (Re.group 1 mt) t acc) ms acc).
Proof.
  intros Hms. revert acc. induction Hms as [|mt ms Hmt _ IH]; intros acc Hacc;
    [done|].
  cbn [fold_left]. apply IH. by apply add_import_type_pieces.
Qed.

Lemma finditer_pieces (re : Re.regex) :
  Forall (fun mt => Py.contains (Re.group 1 mt) content = true)
    (Re.finditer re content).
Proof. apply Forall_forall. intros mt H. by apply (finditer_group re). Qed.

Lemma not_a_policy_name (path : text) (l : list (text * text)) :
  Py.contains path content = true ->
  Forall (fun n => Py.contains n content = false) (map fst l) ->
  mem_text (Path.stem path) (map fst l) = false.
Proof.
  intros Hp Hl. destruct (mem_text _ _) eqn:E; [exfalso|done].
  apply mem_text_elem in E.
  rewrite Forall_forall in Hl. specialize (Hl _ E).
  by rewrite (contains_trans _ _ _ (stem_piece path) Hp) in Hl.
Qed.

End PolicyNames.

(** X27.  [fix_imports] returns a text that holds none of the policy names
    as it is, with no change recorded. *)
Theorem fix_imports_needs_a_policy_name (content : text)
    (modern_imports default_imports : list (text * text)) (filename : text) :
  Forall (fun n => is_identifier n = true /\ Py.contains n content = false)
    (map fst modern_imports ++ map fst default_imports) ->
  fix_imports content modern_imports default_imports filename = (content, []).
Proof.
  intros H.
  assert (Forall (fun n => Py.contains n content = false)
            (map fst modern_imports ++ map fst default_imports)) as H'.
  { eapply Forall_impl; [exact H|]. by intros n [_ ?]. }
  apply Forall_app in H' as [Hm Hd].
  rewrite fix_imports_loops. cbn zeta.
  rewrite (modern_loop_idle content) by done.
  rewrite (default_loop_idle content) by done.
  cbn [fst fold_left].
  match goal with
  | |- fold_left _ ?l _ = _ =>
      assert (Forall (fun e => Py.contains (fst e) content = true) l) as Hl
  end.
  { apply imported_paths_pieces; [apply finditer_pieces|].
    apply imported_paths_pieces; [apply finditer_pieces|done]. }
  match goal with
  | |- fold_left ?f ?l0 _ = _ =>
      revert Hl; generalize l0; intros l Hl;
      generalize (content, @nil text)
  end.
  induction Hl as [|[path ts] l Hp _ IH]; intros [c ch]; [done|].
  cbn [fold_left fst] in *.
  rewrite (not_a_policy_name content path default_imports) by done.
  rewrite (not_a_policy_name content path modern_imports) by done.
  apply IH.
Qed.

Lemma fix_imports_needs_a_policy_name_witness :
  let content := lines ["import { Menu } from './Menu';"; blank] in
  let modern_imports := modern_import_fixes [txt "Sky"] in
  let default_imports := keep_default_imports [txt "World"] in
  Forall (fun n => is_identifier n = true /\ Py.contains n content = false)
    (map fst modern_imports ++ map fst default_imports)
  /\ fix_imports content modern_imports default_imports (txt "src/app.js")
     = (content, []).
Proof.
  intros content modern_imports default_imports.
  assert (Forall (fun n => is_identifier n = true
                           /\ Py.contains n content = false)
            (map fst modern_imports ++ map fst default_imports)) as H
    by (by repeat constructor).
  split; [exact H|].
  exact (fix_imports_needs_a_policy_name content modern_imports
           default_imports (txt "src/app.js") H).
Defined.

(** *** The two functions of [fix.py] on texts without the names *)

Section AbridgedIdle.

Lemma lstrip_suffix (s : text) : exists a, s = a ++ Py.lstrip s.
Proof.
  induction s as [|c s [a IH]]; [by exists []|]. cbn [Py.lstrip].
  destruct (Chr.is_space c); [|by exists []].
  exists (c :: a). cbn [app]. by f_equal.
Qed.

Lemma contains_of_split (u s a b : text) :
  s = a ++ u ++ b -> Py.contains u s = true.
Proof. intros ->. apply contains_piece. Qed.

(** What [strip] returns is a piece of the text. *)
Lemma strip_piece (s : text) : Py.contains (Py.strip s) s = true.
Proof.
  unfold Py.strip, Py.rstrip.
  destruct (lstrip_suffix s) as [a Ha].
  destruct (lstrip_suffix (rev (Py.lstrip s))) as [b Hb].
  apply (f_equal (@rev ascii)) in Hb.
  rewrite rev_involutive, rev_app_distr in Hb.
  apply (contains_of_split _ _ a (rev b)). by rewrite <- Hb.
Qed.

Lemma listed_name_piece (name export_list : text) :
  mem_text name
    (filter (fun n => nonempty n = true)
       (map Py.strip (Py.split (txt ",") export_list))) = true ->
  Py.contains name export_list = true.
Proof.
  intros H%mem_text_elem.
  apply list_elem_of_filter in H as [_ H].
  apply list_elem_of_fmap in H as (x & -> & H).
  apply (split_char_piece ","%char x export_list []) in H.
  eapply contains_trans; [apply strip_piece|exact H].
Qed.

Lemma import_paths_pieces (content : text) :
  Forall (fun i => Py.contains (i_path i) content = true)
    (i_default (find_all_imports content))
  /\ Forall (fun i => Py.contains (i_path i) content = true)
       (i_named (find_all_imports content)).
Proof.
  unfold find_all_imports. cbn [i_default i_named]. split.
  - apply Forall_forall. intros i (mt & -> & Hmt)%list_elem_of_fmap.
    cbn [i_path]. by apply (finditer_group Pat.import_default).
  - apply Forall_forall. intros i Hi.
    apply list_elem_of_In, in_flat_map in Hi as (mt & Hmt & Hi).
    apply list_elem_of_In in Hmt.
    cbn zeta in Hi. apply list_elem_of_In in Hi.
    apply list_elem_of_fmap in Hi as (n & -> & _). cbn [i_path].
    by apply (finditer_group Pat.import_named).
Qed.

Lemma add_import_pieces (content path : text) (e : import_type * text)
    (l : list (text * list (import_type * text))) :
  Py.contains path content = true ->
  Forall (fun g => Py.contains (fst g) content = true) l ->
  Forall (fun g => Py.contains (fst g) content = true)
    (AbridgedFixers.add_import path e l).
Proof.
  intros Hp. induction 1 as [|[p es] l Hx Hl IH];
    cbn [AbridgedFixers.add_import].
  - by repeat constructor.
  - destruct (text_eqb p path); by constructor.
Qed.

Lemma import_groups_pieces (content : text) (t : import_type)
    (l : list import_decl) (acc : list (text * list (import_type * text))) :
  Forall (fun i => Py.contains (i_path i) content = true) l ->
  Forall (fun g => Py.contains (fst g) content = true) acc ->
  Forall (fun g => Py.contains (fst g) content = true)
    (fold_left
       (fun acc i => AbridgedFixers.add_import (i_path i) (t, i_name i) acc)
       l acc).
Proof.
  intros His. revert acc. induction His as [|i l Hi _ IH]; intros acc Hacc;
    [done|].
  cbn [fold_left]. apply IH. by apply add_import_pieces.
Qed.

End AbridgedIdle.

(** X28.  [fix_imports] of [fix.py] returns a text that holds none of the
    policy names as it is, with no change recorded. *)
Theorem abridged_fix_imports_needs_a_policy_name (content : text)
    (modern_imports default_imports : list (text * text)) (filename : text) :
  Forall (fun n => is_identifier n = true /\ Py.contains n content = false)
    (map fst modern_imports ++ map fst default_imports) ->
  AbridgedFixers.fix_imports content modern_imports default_imports filename
  = Some (content, []).
Proof.
  intros H.
  assert (Forall (fun n => Py.contains n content = false)
            (map fst modern_imports ++ map fst default_imports)) as H'.
  { eapply Forall_impl; [exact H|]. by intros n [_ ?]. }
  apply Forall_app in H' as [Hm Hd].
  unfold AbridgedFixers.fix_imports. cbn zeta.
  rewrite (modern_loop_idle content) by done.
  rewrite (default_loop_idle content) by done.
  rewrite abridged_find_all_imports.
  destruct (import_paths_pieces content) as [H1 H2].
  cbn [fold_left].
  match goal with
  | |- fold_left _ ?l _ = _ =>
      assert (Forall (fun g => Py.contains (fst g) content = true) l) as Hl
  end.
  { apply import_groups_pieces; [done|].
    apply import_groups_pieces; [done|done]. }
  match goal with
  | |- fold_left ?f ?l0 _ = _ =>
      revert Hl; generalize l0; intros l Hl;
      generalize (content, @nil text)
  end.
  induction Hl as [|[path es] l Hp _ IH]; intros st; [done|].
  cbn [fold_left fst] in *.
  rewrite (not_a_policy_name content path default_imports) by done.
  rewrite (not_a_policy_name content path modern_imports) by done.
  cbn [andb]. apply IH.
Qed.

Lemma abridged_fix_imports_needs_a_policy_name_witness :
  let content := lines ["import { Menu } from './Menu';"; blank] in
  let modern_imports := modern_import_fixes [txt "Sky"] in
  let default_imports := keep_default_imports [txt "World"] in
  Forall (fun n => is_identifier n = true /\ Py.contains n content = false)
    (map fst modern_imports ++ map fst default_imports)
  /\ AbridgedFixers.fix_imports content modern_imports default_imports
       (txt "src/app.js")
     = Some (content, []).
Proof.
  intros content modern_imports default_imports.
  assert (Forall (fun n => is_identifier n = true
                           /\ Py.contains n content = false)
            (map fst modern_imports ++ map fst default_imports)) as H
    by (by repeat constructor).
  split; [exact H|].
  exact (abridged_fix_imports_needs_a_policy_name content modern_imports
           default_imports (txt "src/app.js") H).
Defined.

(** X29.  [_remove_named_export] of [fix.py] returns a text that does not
    hold the name as it is, with no change recorded. *)
Theorem abridged_remove_needs_the_name (content name : text) :
  Py.contains name content = false ->
  AbridgedFixers._remove_named_export content name = (content, []).
Proof.
  intros H. unfold AbridgedFixers._remove_named_export.
  assert (Forall (fun mt => Py.contains (Re.group 1 mt) content = true)
            (Re.finditer Pat.export_braces content)) as Hl
    by apply finditer_pieces.
  revert Hl. generalize (Re.finditer Pat.export_braces content).
  generalize (@nil text). intros ch l Hl. revert ch.
  induction Hl as [|mt l Hmt _ IH]; intros ch; [done|].
  cbn [fold_left AbridgedFixers.remove_named_step].
  destruct (mem_text name _) eqn:E; [exfalso|apply IH].
  apply listed_name_piece in E.
  by rewrite (contains_trans _ _ _ E Hmt) in H.
Qed.

Lemma abridged_remove_needs_the_name_witness :
  let content := lines ["export { Alpha, Beta };"; blank] in
  let name := txt "Gamma" in
  Py.contains name content = false
  /\ AbridgedFixers._remove_named_export content name = (content, []).
Proof.
  intros content name. split; [reflexivity|].
  exact (abridged_remove_needs_the_name content name eq_refl).
Defined.

(** *** [fix_imports] of [fix.py] on one import statement *)

Section AbridgedImport.

Import Re.

Context (X P tl : text) (q : ascii).
Context (HX : is_identifier X = true) (Hq : is_quote q = true)
        (HP : is_module_path P = true)
        (Htl : Py.contains (txt "import") tl = false).

Local Abbreviation default_import := (default_import X P tl q).
Local Abbreviation named_import := (named_import X P tl q).
Local Abbreviation default_statement := (default_statement X P q).

(** No pattern that reads a word after import matches in the named
    import. *)
Lemma lit_no_match_named (n0 : ascii) (n' : text) (re : regex) :
  Chr.is_word n0 = true ->
  no_match
    (Seq (Lit (txt "import")) (Seq Pat.ws1 (Seq (Lit (n0 :: n')) re)))
    named_import.
Proof using HX Hq HP Htl.
  intros Hn0. destruct (P_facts P HP) as (_ & _ & HPs & HPb).
  unfold named_import.
  change (txt "import { ") with ("i"%char :: txt "mport { ").
  cbn [app]. apply no_match_cons.
  { intros A k p pv cp.
    change ("i"%char :: txt "mport { " ++ ?r)
      with (txt "import" ++ " "%char :: "{"%char :: " "%char :: r).
    rewrite run_seq, run_lit_app. rewrite run_ws1_one by done.
    apply dead_lit_ne. destruct (Chr.eqb n0 "{") eqn:E; [|done].
    apply chr_eqb_eq in E as ->. done. }
  apply (no_match_statement _ (txt "mport { ") X (txt " } from ") q P tl);
    [apply after_import_ws1|done|done|by apply X_word|done|
     by exists " "%char, (txt "} from ")|done|done|done|].
  intros A k p pv cp.
  change (txt " } from " ++ ?r) with (" "%char :: "}"%char :: txt " from " ++ r).
  rewrite run_ws1_one by done.
  apply dead_lit_ne. destruct (Chr.eqb n0 "}") eqn:E; [|done].
  apply chr_eqb_eq in E as ->. done.
Qed.

(** The scanner's pattern for a default import matches the statement. *)
Lemma import_default_match :
  match_at Pat.import_default 0 None default_import
  = Some (Match 0 (length default_statement) default_statement
            [(2, P); (1, X)]).
Proof using HX Hq HP.
  destruct (P_facts P HP) as (HPne & HPq & HPs & HPb).
  destruct (identifier_inv X HX) as (HXw & _ & _).
  unfold match_at, default_import, Pat.import_default.
  cbn [seqs].
  change (txt "import ") with (txt "import" ++ txt " ").
  change (txt " from " ++ ?r) with (txt " " ++ txt "from" ++ txt " " ++ r).
  change (q :: P ++ q :: tl) with ([q] ++ P ++ q :: tl).
  rewrite <- !app_assoc.
  rewrite run_seq, run_lit_app.
  rewrite run_seq. apply run_plus_exact; [done|done| |].
  { apply X_stops; [done|]. intros c Hc. by apply word_not_space. }
  rewrite run_seq, run_group. apply run_plus_exact; [by destruct X|done|done|].
  cbn beta iota delta [pos prev rest caps].
  rewrite run_seq. apply run_plus_exact; [done..|].
  rewrite run_seq, run_lit_app.
  rewrite run_seq. apply run_plus_exact; [done|done| |].
  { apply stops_quote; [apply quote_not_space|done]. }
  rewrite run_seq. unfold Pat.quote at 1. rewrite run_cls_app by exact Hq.
  rewrite run_seq, run_group.
  apply run_plus_exact; [done|done| |].
  { by apply stops_not_quote. }
  cbn beta iota delta [pos prev rest caps].
  unfold Pat.quote. rewrite run_cls_cons by exact Hq.
  cbn beta iota delta [pos prev rest caps].
  rewrite (take_app_length' P) by lia.
  rewrite (take_app_length' X) by lia.
  match goal with
  | |- Some (Match _ ?n _ _) = _ =>
      replace n with (length default_statement)
        by (unfold default_statement;
            rewrite !length_app; simpl; rewrite ?length_app; simpl; lia)
  end.
  f_equal. f_equal. rewrite Nat.sub_0_r.
  change (txt "import" ++ txt " " ++ X ++ txt " " ++ txt "from" ++ txt " "
          ++ [q] ++ P ++ q :: tl) with default_import.
  rewrite (default_import_split X P tl q). by rewrite take_app_length.
Qed.

(** What the import scanner records for the statement. *)
Lemma find_all_imports_default :
  find_all_imports default_import
  = Imports [Import X P 0 (length default_statement)] [].
Proof using HX Hq HP Htl.
  unfold find_all_imports.
  rewrite (no_match_finditer Pat.import_named).
  2:{ unfold Pat.import_named. cbn [seqs]. by apply brace_no_match_default. }
  assert (finditer Pat.import_default default_import
          = [Match 0 (length default_statement) default_statement
               [(2, P); (1, X)]]) as ->.
  { rewrite (default_import_split X P tl q).
    apply finditer_prefix; [done| |done|].
    - rewrite <- (default_import_split X P tl q). apply import_default_match.
    - unfold Pat.import_default. cbn [seqs]. by apply no_match_rest. }
  reflexivity.
Qed.

Lemma plain_template_app (a b : text) :
  AbridgedFixers.plain_template (a ++ b)
  = AbridgedFixers.plain_template a && AbridgedFixers.plain_template b.
Proof.
  unfold AbridgedFixers.plain_template, Chr.mem.
  by rewrite existsb_app, negb_orb.
Qed.

Lemma word_plain (w : text) :
  forallb Chr.is_word w = true -> AbridgedFixers.plain_template w = true.
Proof.
  unfold AbridgedFixers.plain_template, Chr.mem.
  induction w as [|c w IH]; [done|]. cbn [forallb existsb].
  intros [Hc Hw]%andb_true_iff. rewrite negb_orb, (IH Hw), andb_true_r.
  apply negb_true_iff. destruct (Chr.eqb _ c) eqn:E; [|done].
  apply chr_eqb_eq in E as <-. done.
Qed.

Lemma elem_mem_text (x : text) (l : list text) : x ∈ l -> mem_text x l = true.
Proof.
  unfold mem_text. induction 1 as [x l|x y l _ IH]; cbn [existsb].
  - by rewrite text_eqb_refl.
  - rewrite IH. apply orb_true_r.
Qed.

End AbridgedImport.

(** X30.  [fix_imports] of [fix.py] turns the default import of a symbol
    of the named policy list, from a file of the symbol's name, into a named
    import, and records the change twice: once in the first loop and once in
    the consolidation, which finds nothing left to replace. *)
Theorem abridged_default_import_is_recorded_twice
    (named keep : list text) (X P tl filename : text) (q : ascii) :
  Forall (fun n => is_identifier n = true) named ->
  Forall (fun n => is_identifier n = true) keep ->
  X ∈ named -> X ∉ keep ->
  is_quote q = true -> is_module_path P = true ->
  AbridgedFixers.plain_template P = true ->
  Py.contains (txt "import") tl = false ->
  Path.stem P = X ->
  AbridgedFixers.fix_imports (default_import X P tl q)
    (modern_import_fixes named) (keep_default_imports keep) filename
  = Some (named_import X P tl q,
          [txt "Import modernized: " ++ X;
           txt "Fixed default import to named: " ++ X]).
Proof.
  intros Hnamed Hkeep Hin Hnot Hq HP Hplain Htl Hstem.
  assert (is_identifier X = true) as HX.
  { by eapply Forall_forall in Hnamed. }
  destruct (identifier_inv X HX) as (HXw & (x & X' & HXeq & Hx) & _).
  unfold AbridgedFixers.fix_imports. cbn zeta.
  rewrite abridged_find_all_imports, find_all_imports_default by done.
  rewrite (modern_rewrites X P tl q) by done.
  rewrite (default_keeps_named X P tl q) by done.
  cbn [fold_left i_default i_named i_path i_name AbridgedFixers.add_import].
  rewrite Hstem, map_fst_default, map_fst_modern.
  destruct (mem_text X keep) eqn:E; [by apply mem_text_elem in E|].
  rewrite (elem_mem_text X named Hin).
  cbn [andb existsb fst snd import_type_eqb orb fold_left
       AbridgedFixers.consolidate app].
  rewrite text_eqb_refl.
  rewrite !plain_template_app, (word_plain X HXw), Hplain.
  cbn [andb].
  assert (forall n, n = X ->
            no_match (AbridgedFixers.import_default_at n P)
              (named_import X P tl q)) as Hgen.
  { intros n Hn. rewrite HXeq in Hn. subst n.
    unfold AbridgedFixers.import_default_at. cbn [Re.seqs].
    by apply lit_no_match_named. }
  by rewrite no_match_sub by (by apply Hgen).
Qed.

Lemma abridged_default_import_is_recorded_twice_witness :
  let named := [txt "Sky"] in
  let keep := [txt "World"] in
  let X := txt "Sky" in
  let P := txt "./Sky" in
  let tl := txt ";" in
  let q := "'"%char in
  Forall (fun n => is_identifier n = true) named
  /\ Forall (fun n => is_identifier n = true) keep
  /\ X ∈ named /\ (X ∉ keep) /\ is_quote q = true
  /\ is_module_path P = true /\ AbridgedFixers.plain_template P = true
  /\ Py.contains (txt "import") tl = false
  /\ Path.stem P = X
  /\ AbridgedFixers.fix_imports (default_import X P tl q)
       (modern_import_fixes named) (keep_default_imports keep)
       (txt "src/app.js")
     = Some (named_import X P tl q,
             [txt "Import modernized: " ++ X;
              txt "Fixed default import to named: " ++ X]).
Proof.
  intros named keep X P tl q.
  assert (Forall (fun n => is_identifier n = true) named) as H1
    by (by repeat constructor).
  assert (Forall (fun n => is_identifier n = true) keep) as H2
    by (by repeat constructor).
  assert (X ∈ named) as H3 by compute_done.
  assert (X ∉ keep) as H4 by compute_done.
  split_and!; [exact H1|exact H2|exact H3|exact H4|reflexivity..|].
  exact (abridged_default_import_is_recorded_twice named keep X P tl
           (txt "src/app.js") q H1 H2 H3 H4 eq_refl eq_refl eq_refl eq_refl
           eq_refl).
Defined.

(** *** One match between lines without the keyword *)

Section Keyword.

Import Re.

Implicit Types (l pre u r : text) (re : regex).

Lemma contains_middle l a b : Py.contains l (a ++ l ++ b) = true.
Proof.
  apply contains_app_r.
  pose proof (startswith_app l b) as H.
  destruct (l ++ b); cbn [Py.contains]; by rewrite H.
Qed.

Lemma no_match_literal l re' r :
  Py.contains l r = false -> no_match (Seq (Lit l) re') r.
Proof. intros H skip p pv. by apply scan_no_literal. Qed.

(** No match of a pattern that starts with a word begins in the lines
    before, when they do not hold the word. *)
Lemma dead_in_lines l re' pre r :
  forallb (fun a => negb (Chr.eqb a NL)) l = true ->
  ends_line pre = true -> Py.contains l pre = false ->
  forall p1 p2, pre = p1 ++ p2 -> p2 <> [] -> dead (Seq (Lit l) re') (p2 ++ r).
Proof.
  intros Hl Hpre Hno p1 p2 -> Hp2 A k p pv cp. rewrite run_seq. cbn [run rest].
  destruct (Py.strip_prefix l (p2 ++ r)) as [x|] eqn:E; [exfalso|done].
  unfold ends_line in Hpre. apply orb_true_iff in Hpre as [Hpre|Hpre].
  { destruct p1, p2; done. }
  assert (exists p2', p2 = p2' ++ [NL]) as (p2' & ->).
  { destruct (exists_last (l:=p2) Hp2) as (p2' & c & ->). exists p2'.
    unfold Py.endswith in Hpre. rewrite app_assoc, rev_app_distr in Hpre.
    cbn [rev app] in Hpre. rewrite startswith_cons in Hpre.
    apply andb_true_iff in Hpre as [Hc _]. apply chr_eqb_eq in Hc as <-. done. }
  rewrite <- app_assoc in E. cbn [app] in E.
  apply strip_prefix_sep in E as (W2 & -> & _); [|done].
  rewrite <- !app_assoc in Hno. by rewrite contains_middle in Hno.
Qed.

Lemma no_match_lines l re' pre r :
  forallb (fun a => negb (Chr.eqb a NL)) l = true ->
  ends_line pre = true -> Py.contains l pre = false ->
  no_match (Seq (Lit l) re') r ->
  no_match (Seq (Lit l) re') (pre ++ r).
Proof.
  intros Hl Hpre Hno Hr. apply no_match_app; [|done].
  by apply dead_in_lines.
Qed.

(** ... nor in a block of word characters that does not end with the word,
    or that is followed by a text on which the rest of the pattern fails. *)
Lemma no_match_block l re' W s t :
  forallb Chr.is_word l = true -> forallb Chr.is_word W = true ->
  Chr.is_word s = false -> after_import re' ->
  (Py.endswith l W = true -> dead re' (s :: t)) ->
  no_match (Seq (Lit l) re') (s :: t) ->
  no_match (Seq (Lit l) re') (W ++ s :: t).
Proof.
  intros Hl HW Hs Hre Hend Hr. apply no_match_app; [|done].
  intros W1 W2 -> HW2. rewrite forallb_app in HW.
  apply andb_true_iff in HW as [_ HW].
  apply dead_lit_block; [done|done|done| |].
  - intros w r Hw. apply Hre; [by apply word_not_space|by apply word_not_lbrace].
  - intros ->. apply Hend. apply endswith_app.
Qed.

(** One match in a text: none begins before it, none after it. *)
Lemma finditer_one re pre u r caps :
  nonempty u = true ->
  (forall p1 p2, pre = p1 ++ p2 -> p2 <> [] -> dead re (p2 ++ u ++ r)) ->
  (forall pv, match_at re (length pre) pv (u ++ r)
              = Some (Match (length pre) (length pre + length u) u caps)) ->
  no_match re r ->
  finditer re (pre ++ u ++ r)
  = [Match (length pre) (length pre + length u) u caps].
Proof.
  intros Hu Hpre Hm Hr. unfold finditer.
  assert (forall pre0 p pv,
            (forall p1 p2, pre0 = p1 ++ p2 -> p2 <> [] ->
                           dead re (p2 ++ u ++ r)) ->
            scan re 0 p pv (pre0 ++ u ++ r)
            = scan re 0 (p + length pre0) (last_or pv pre0) (u ++ r)) as Hskip.
  { induction pre0 as [|c pre0 IH]; intros p pv Hdead.
    - cbn [app length]. rewrite Nat.add_0_r. by destruct pv.
    - cbn [app]. rewrite scan_cons_none.
      2:{ apply dead_match_at. by apply (Hdead [] (c :: pre0)). }
      rewrite IH.
      + cbn [length]. f_equal; [lia|].
        change (c :: pre0) with ([c] ++ pre0). rewrite <- last_or_app.
        done.
      + intros p1 p2 -> Hne. by apply (Hdead (c :: p1) p2). }
  rewrite Hskip by done. cbn [Nat.add].
  destruct u as [|c u]; [done|]. cbn [app scan].
  change (c :: u ++ r) with ((c :: u) ++ r). rewrite Hm. f_equal.
  cbn [m_end length].
  replace (length pre + S (length u) - length pre - 1) with (length u) by lia.
  rewrite scan_skip. apply Hr.
Qed.

Lemma sub_one re repl pre u r caps :
  nonempty u = true ->
  (forall p1 p2, pre = p1 ++ p2 -> p2 <> [] -> dead re (p2 ++ u ++ r)) ->
  (forall pv, match_at re (length pre) pv (u ++ r)
              = Some (Match (length pre) (length pre + length u) u caps)) ->
  no_match re r ->
  sub re repl (pre ++ u ++ r)
  = pre ++ repl (Match (length pre) (length pre + length u) u caps) ++ r.
Proof.
  intros Hu Hpre Hm Hr. unfold sub.
  rewrite (finditer_one re pre u r caps) by done. cbn [rebuild m_start m_end].
  unfold Py.slice. rewrite Nat.sub_0_r, drop_0, take_app_length. f_equal.
  f_equal. rewrite app_assoc.
  replace (length pre + length u) with (length (pre ++ u))
    by (by rewrite length_app).
  by rewrite drop_app_length.
Qed.

Lemma identifier_stops (cs : cset) (M r : text) :
  is_identifier M = true ->
  (forall c, Chr.is_word c = true -> cset_mem cs c = false) ->
  stops cs (M ++ r) = true.
Proof.
  intros HM H. destruct (identifier_inv M HM) as (_ & (x & X' & -> & Hx) & _).
  cbn [app stops]. by rewrite (H x Hx).
Qed.

End Keyword.

(** *** The export passes on a default export statement *)

Section ExportStatements.

Import Re.

Lemma export_no_newline :
  forallb (fun a => negb (Chr.eqb a NL)) (txt "export") = true.
Proof. done. Qed.

Lemma non_word_not_e s : Chr.is_word s = false -> Chr.eqb "e" s = false.
Proof.
  intros H. destruct (Chr.eqb "e" s) eqn:E; [|done].
  apply chr_eqb_eq in E as <-. done.
Qed.

(** After a word and a character that no pattern of the tool reads after
    export, no export statement begins. *)
Lemma no_match_word_then re' W s t :
  after_import re' -> forallb Chr.is_word W = true ->
  Chr.is_word s = false -> Chr.is_space s = false -> Chr.eqb "{" s = false ->
  Py.contains (txt "export") t = false ->
  no_match (Seq (Lit (txt "export")) re') (W ++ s :: t).
Proof.
  intros Hre HW Hs Hsp Hb Ht.
  apply no_match_block; [done|done|done|done| |].
  - intros _. by apply Hre.
  - apply no_match_cons; [|by apply no_match_literal].
    apply dead_lit_ne. by apply non_word_not_e.
Qed.

Lemma no_match_word_tail re' X tl :
  after_import re' -> forallb Chr.is_word X = true ->
  starts_non_word tl = true -> Py.endswith (txt "export") X = false ->
  Py.contains (txt "export") tl = false ->
  no_match (Seq (Lit (txt "export")) re') (X ++ tl).
Proof.
  intros Hre HX Htl Hend Hno. destruct tl as [|s t]; [done|].
  cbn [starts_non_word] in Htl. apply negb_true_iff in Htl.
  apply no_match_block; [done|done|done|done| |].
  - intros H. by rewrite H in Hend.
  - by apply no_match_literal.
Qed.

Lemma run_opt_semi {A} (k : cursor -> option A) p pv r cp a :
  k (Cursor (p + 1) (Some ";"%char) r cp) = Some a ->
  run Pat.opt_semi k (Cursor p pv (";"%char :: r) cp) = Some a.
Proof.
  intros Hk. unfold Pat.opt_semi.
  change (run (Opt ?re) k ?st)
    with (match run re k st with Some a => Some a | None => k st end).
  rewrite run_ws_stop by done.
  change (run (Lit (txt ";")) k (Cursor p pv (";"%char :: r) cp))
    with (k (Cursor (p + 1) (Some ";"%char) r cp)).
  by rewrite Hk.
Qed.

End ExportStatements.

Ltac finish_match tl :=
  f_equal; f_equal;
  first
    [ done
    | by (rewrite ?length_app; simpl; lia)
    | match goal with
      | |- take ?n ?t = ?u =>
          replace n with (length u) by (rewrite ?length_app; simpl; lia);
          replace t with (u ++ tl) by (by rewrite <- ?app_assoc);
          apply take_app_length
      end
    | repeat f_equal;
      match goal with
      | |- take ?n (?u ++ _) = ?u =>
          replace n with (length u) by lia; apply take_app_length
      end ].

Ltac skip_concrete :=
  repeat (apply no_match_cons; [intros ? ? ? ? ?; reflexivity|]).

Section DefaultExport.

Import Re.

Context (pre M tl : text).
Context (HM : is_identifier M = true)
        (Hpre : ends_line pre = true)
        (Hnpre : Py.contains (txt "export") pre = false)
        (Hntl : Py.contains (txt "export") tl = false).

Local Abbreviation stmt := (txt "export default " ++ M ++ txt ";").

Lemma M_word : forallb Chr.is_word M = true.
Proof using HM. by destruct (identifier_inv M HM) as (? & _). Qed.

(** No pattern that reads white space or a brace after export matches in
    the statement after its first character. *)
Lemma default_export_rest re' :
  after_import re' ->
  no_match (Seq (Lit (txt "export")) re')
    (txt "xport default " ++ M ++ txt ";" ++ tl).
Proof using HM Hntl.
  intros Hre. skip_concrete.
  apply no_match_word_then; [done|apply M_word|done..].
Qed.

Lemma default_export_no_match re' :
  after_import re' ->
  dead (Seq (Lit (txt "export")) re')
    (txt "export default " ++ M ++ txt ";" ++ tl) ->
  no_match (Seq (Lit (txt "export")) re')
    (pre ++ txt "export default " ++ M ++ txt ";" ++ tl).
Proof using HM Hpre Hnpre Hntl.
  intros Hre Hd. apply no_match_lines; [done..|].
  apply no_match_cons; [done|]. by apply default_export_rest.
Qed.

Lemma default_export_split :
  pre ++ txt "export default " ++ M ++ txt ";" ++ tl = pre ++ stmt ++ tl.
Proof. by rewrite <- !app_assoc. Qed.

(** The scanner's pattern for a default export matches the statement. *)
Lemma default_export_match p pv :
  match_at Pat.export_default p pv (stmt ++ tl)
  = Some (Match p (p + length stmt) stmt [(1, M)]).
Proof using HM.
  pose proof M_word as HMw.
  unfold match_at, Pat.export_default. cbn [seqs].
  rewrite <- !app_assoc.
  change (txt "export default " ++ ?r)
    with (txt "export" ++ txt " " ++ txt "default" ++ txt " " ++ r).
  rewrite run_seq, run_lit_app.
  rewrite run_seq. apply run_plus_exact; [done|done|done|].
  rewrite run_seq, run_lit_app.
  rewrite run_seq. apply run_plus_exact; [done|done| |].
  { apply identifier_stops; [done|]. intros c Hc. by apply word_not_space. }
  rewrite run_seq, run_group.
  apply run_plus_exact; [by destruct M|done|done|].
  cbn beta iota delta [pos prev rest caps].
  apply run_opt_semi.
  cbn beta iota delta [pos prev rest caps].
  finish_match tl.
Qed.

Lemma default_export_finditer :
  finditer Pat.export_default
    (pre ++ txt "export default " ++ M ++ txt ";" ++ tl)
  = [Match (length pre) (length pre + length stmt) stmt [(1, M)]].
Proof using HM Hpre Hnpre Hntl.
  rewrite default_export_split. apply finditer_one.
  - done.
  - unfold Pat.export_default. cbn [seqs]. by apply dead_in_lines.
  - intros pv. apply default_export_match.
  - unfold Pat.export_default. cbn [seqs]. by apply no_match_literal.
Qed.

Lemma dead_ws_paren w r :
  Chr.is_word w = true -> dead (Seq Pat.ws (Lit (txt "("))) (w :: r).
Proof.
  intros Hw A k p pv cp. rewrite run_ws_stop.
  2:{ cbn [stops cset_mem]. by rewrite (word_not_space w Hw). }
  assert (Chr.eqb "(" w = false) as E.
  { destruct (Chr.eqb "(" w) eqn:E; [|done]. apply chr_eqb_eq in E as <-. done. }
  change (txt "(") with ["("%char]. cbn [run rest Py.strip_prefix].
  by rewrite E.
Qed.

Lemma default_export_no_function :
  no_match Pat.export_default_function
    (pre ++ txt "export default " ++ M ++ txt ";" ++ tl).
Proof using HM Hpre Hnpre Hntl.
  unfold Pat.export_default_function. cbn [seqs].
  apply default_export_no_match; [apply after_import_ws1|].
  intros A k p pv cp.
  change (txt "export default " ++ ?r)
    with (txt "export" ++ " "%char :: txt "default" ++ " "%char :: r).
  rewrite run_seq, run_lit_app. rewrite run_ws1_one by done.
  rewrite run_seq, run_lit_app. rewrite run_ws1_one; [|done|].
  2:{ apply identifier_stops; [done|]. intros c Hc. by apply word_not_space. }
  apply dead_lit_block; [done|apply M_word|done| |].
  - intros w r Hw. by apply dead_ws_paren.
  - intros _. by intros ? ? ? ? ?.
Qed.

Lemma default_export_no_class :
  no_match Pat.export_default_class
    (pre ++ txt "export default " ++ M ++ txt ";" ++ tl).
Proof using HM Hpre Hnpre Hntl.
  unfold Pat.export_default_class. cbn [seqs].
  apply default_export_no_match; [apply after_import_ws1|].
  intros A k p pv cp.
  change (txt "export default " ++ ?r)
    with (txt "export" ++ " "%char :: txt "default" ++ " "%char :: r).
  rewrite run_seq, run_lit_app. rewrite run_ws1_one by done.
  rewrite run_seq, run_lit_app. rewrite run_ws1_one; [|done|].
  2:{ apply identifier_stops; [done|]. intros c Hc. by apply word_not_space. }
  apply dead_lit_block; [done|apply M_word|done| |].
  - intros w r Hw. by apply dead_ws1_word.
  - intros _. by intros ? ? ? ? ?.
Qed.

(** What the scanner records for the statement. *)
Lemma default_export_e_default :
  e_default (find_all_exports
               (pre ++ txt "export default " ++ M ++ txt ";" ++ tl))
  = [Decl M (length pre) (length pre + length stmt)].
Proof using HM Hpre Hnpre Hntl.
  unfold find_all_exports. cbn [e_default flat_map].
  rewrite default_export_finditer.
  rewrite (no_match_finditer _ _ default_export_no_function).
  rewrite (no_match_finditer _ _ default_export_no_class).
  done.
Qed.

Lemma default_export_e_destructured :
  e_destructured (find_all_exports
                    (pre ++ txt "export default " ++ M ++ txt ";" ++ tl))
  = [].
Proof using HM Hpre Hnpre Hntl.
  unfold find_all_exports. cbn [e_destructured].
  rewrite no_match_finditer; [done|].
  unfold Pat.export_braces. cbn [seqs].
  apply default_export_no_match; [apply after_import_ws_brace|].
  by intros ? ? ? ? ?.
Qed.

Lemma default_export_e_class :
  e_class (find_all_exports
             (pre ++ txt "export default " ++ M ++ txt ";" ++ tl))
  = [].
Proof using HM Hpre Hnpre Hntl.
  unfold find_all_exports. cbn [e_class].
  rewrite no_match_finditer; [done|].
  unfold Pat.export_class. cbn [seqs].
  apply default_export_no_match; [apply after_import_ws1|].
  by intros ? ? ? ? ?.
Qed.

Lemma default_export_e_function :
  e_function (find_all_exports
                (pre ++ txt "export default " ++ M ++ txt ";" ++ tl))
  = [].
Proof using HM Hpre Hnpre Hntl.
  unfold find_all_exports. cbn [e_function].
  rewrite no_match_finditer; [done|].
  unfold Pat.export_function. cbn [seqs].
  apply default_export_no_match; [apply after_import_ws1|].
  by intros ? ? ? ? ?.
Qed.

Lemma default_export_e_const :
  e_const (find_all_exports
             (pre ++ txt "export default " ++ M ++ txt ";" ++ tl))
  = [].
Proof using HM Hpre Hnpre Hntl.
  unfold find_all_exports. cbn [e_const].
  rewrite no_match_finditer; [done|].
  unfold Pat.export_const. cbn [seqs].
  apply default_export_no_match; [apply after_import_ws1|].
  by intros ? ? ? ? ?.
Qed.

(** The substitution of the statement. *)
Lemma default_export_named_match p pv :
  match_at (PatS.export_default_named M) p pv (stmt ++ tl)
  = Some (Match p (p + length stmt) stmt []).
Proof using HM.
  unfold match_at, PatS.export_default_named. cbn [seqs].
  rewrite <- !app_assoc.
  change (txt "export default " ++ ?r)
    with (txt "export" ++ txt " " ++ txt "default" ++ txt " " ++ r).
  rewrite run_seq, run_lit_app.
  rewrite run_seq. apply run_plus_exact; [done|done|done|].
  rewrite run_seq, run_lit_app.
  rewrite run_seq. apply run_plus_exact; [done|done| |].
  { apply identifier_stops; [done|]. intros c Hc. by apply word_not_space. }
  rewrite run_seq, run_lit_app.
  apply run_opt_semi.
  cbn beta iota delta [pos prev rest caps].
  finish_match tl.
Qed.

Lemma default_export_sub (new : text) :
  sub (PatS.export_default_named M) (fun _ => new)
    (pre ++ txt "export default " ++ M ++ txt ";" ++ tl)
  = pre ++ new ++ tl.
Proof using HM Hpre Hnpre Hntl.
  rewrite default_export_split.
  rewrite (sub_one _ _ pre stmt tl []); [done|done| | |].
  - unfold PatS.export_default_named. cbn [seqs]. by apply dead_in_lines.
  - intros pv. apply default_export_named_match.
  - unfold PatS.export_default_named. cbn [seqs]. by apply no_match_literal.
Qed.

(** The named export that replaces it matches no default pattern. *)
Lemma named_export_no_default re'' :
  no_match
    (Seq (Lit (txt "export")) (Seq Pat.ws1 (Seq (Lit (txt "default")) re'')))
    (pre ++ txt "export { " ++ M ++ txt " };" ++ tl).
Proof using HM Hpre Hnpre Hntl.
  apply no_match_lines; [done..|].
  skip_concrete.
  change (txt " };" ++ tl) with (" "%char :: txt "};" ++ tl).
  apply no_match_block;
    [done|apply M_word|done|apply after_import_ws1| |].
  - by intros _ ? ? ? ? ?.
  - skip_concrete. by apply no_match_literal.
Qed.

End DefaultExport.

(** X20.  A default export statement of an identifier, on a line of its
    own in a text with no other export, in a module that the tree imports by
    name, becomes a named export of the identifier, and the change is
    recorded. *)
Theorem default_export_becomes_named (pre M tl file_path : text)
    (export_style_map : gmap text style) :
  export_style_map !! file_path = Some StyleNamed ->
  is_identifier M = true -> M <> anonymous ->
  ends_line pre = true ->
  Py.contains (txt "export") pre = false ->
  Py.contains (txt "export") tl = false ->
  fix_import_export_mismatches
    (pre ++ txt "export default " ++ M ++ txt ";" ++ tl)
    file_path export_style_map
  = (pre ++ txt "export { " ++ M ++ txt " };" ++ tl,
     [txt "Converted default export to named export: " ++ M]).
Proof.
  intros Hmap HM Hanon Hpre Hnpre Hntl.
  unfold fix_import_export_mismatches. rewrite Hmap. cbn zeta.
  rewrite default_export_e_default, default_export_e_destructured by done.
  cbn [fold_left d_name has_name existsb negb].
  destruct (text_eqb M anonymous) eqn:E.
  { by apply text_eqb_eq in E. }
  rewrite default_export_sub by done.
  rewrite (no_match_sub (PatS.export_default_class_named M)).
  2:{ unfold PatS.export_default_class_named. cbn [Re.seqs].
      rewrite <- !app_assoc. by apply named_export_no_default. }
  rewrite (no_match_sub (PatS.export_default_function_named M)).
  2:{ unfold PatS.export_default_function_named. cbn [Re.seqs].
      rewrite <- !app_assoc. by apply named_export_no_default. }
  by rewrite <- !app_assoc.
Qed.

Lemma default_export_becomes_named_witness :
  let pre := lines ["class Foo {}"; blank] in
  let M := txt "Foo" in
  let tl := [NL] in
  let file_path := txt "src/Foo.js" in
  let export_style_map : gmap text style := {[ file_path := StyleNamed ]} in
  export_style_map !! file_path = Some StyleNamed
  /\ is_identifier M = true /\ M <> anonymous /\ ends_line pre = true
  /\ Py.contains (txt "export") pre = false
  /\ Py.contains (txt "export") tl = false
  /\ fix_import_export_mismatches
       (pre ++ txt "export default " ++ M ++ txt ";" ++ tl)
       file_path export_style_map
     = (pre ++ txt "export { " ++ M ++ txt " };" ++ tl,
        [txt "Converted default export to named export: " ++ M]).
Proof.
  intros pre M tl file_path export_style_map.
  assert (export_style_map !! file_path = Some StyleNamed) as H1
    by (vm_compute; reflexivity).
  assert (M <> anonymous) as H3 by discriminate.
  split_and!; [exact H1|reflexivity|exact H3|reflexivity..|].
  exact (default_export_becomes_named pre M tl file_path export_style_map
           H1 eq_refl H3 eq_refl eq_refl eq_refl).
Defined.

(** X21.  In a file that the policy does not keep as a default export, the
    default export statement of a symbol that the policy wants named, or
    that has the file's name, becomes a named export. *)
Theorem default_export_is_modernized (pre M tl filename : text)
    (keep_as_default should_be_named : list text) :
  mem_text (Path.stem filename) keep_as_default = false ->
  mem_text M should_be_named || text_eqb M (Path.stem filename) = true ->
  is_identifier M = true ->
  ends_line pre = true ->
  Py.contains (txt "export") pre = false ->
  Py.contains (txt "export") tl = false ->
  modernize_exports
    (pre ++ txt "export default " ++ M ++ txt ";" ++ tl)
    filename keep_as_default should_be_named
  = (pre ++ txt "export { " ++ M ++ txt " };" ++ tl,
     [txt "Default to Named export: " ++ M]).
Proof.
  intros Hkeep Hnamed HM Hpre Hnpre Hntl.
  unfold modernize_exports. cbn zeta. rewrite Hkeep.
  rewrite default_export_e_default, default_export_e_destructured,
    default_export_e_class, default_export_e_function,
    default_export_e_const by done.
  cbn [fold_left d_name has_name existsb negb orb]. rewrite Hnamed.
  rewrite default_export_sub by done. by rewrite <- !app_assoc.
Qed.

Lemma default_export_is_modernized_witness :
  let pre := lines ["class Sky {}"; blank] in
  let M := txt "Sky" in
  let tl := [NL] in
  let filename := txt "src/world/Sky.js" in
  mem_text (Path.stem filename) [txt "World"] = false
  /\ mem_text M [txt "Sky"] || text_eqb M (Path.stem filename) = true
  /\ is_identifier M = true /\ ends_line pre = true
  /\ Py.contains (txt "export") pre = false
  /\ Py.contains (txt "export") tl = false
  /\ modernize_exports (pre ++ txt "export default " ++ M ++ txt ";" ++ tl)
       filename [txt "World"] [txt "Sky"]
     = (pre ++ txt "export { " ++ M ++ txt " };" ++ tl,
        [txt "Default to Named export: " ++ M]).
Proof.
  intros pre M tl filename. split_and!; [reflexivity..|].
  exact (default_export_is_modernized pre M tl filename [txt "World"]
           [txt "Sky"] eq_refl eq_refl eq_refl eq_refl eq_refl eq_refl).
Defined.

(** *** The export passes on a class export *)

Section ClassExport.

Import Re.

Context (pre X tl : text).
Context (HX : is_identifier X = true)
        (Hend : Py.endswith (txt "export") X = false)
        (Hpre : ends_line pre = true)
        (Hnpre : Py.contains (txt "export") pre = false)
        (Htl : starts_non_word tl = true)
        (Hntl : Py.contains (txt "export") tl = false).

Local Abbreviation stmt := (txt "export class " ++ X).

Lemma class_export_split :
  pre ++ txt "export class " ++ X ++ tl = pre ++ stmt ++ tl.
Proof using Type. by rewrite <- !app_assoc. Qed.

Lemma class_export_no_match re' :
  after_import re' ->
  dead (Seq (Lit (txt "export")) re') (txt "export class " ++ X ++ tl) ->
  no_match (Seq (Lit (txt "export")) re')
    (pre ++ txt "export class " ++ X ++ tl).
Proof using All.
  intros Hre Hd. apply no_match_lines; [done..|].
  apply no_match_cons; [done|]. skip_concrete.
  apply no_match_word_tail; [done|by apply M_word|done..].
Qed.

Lemma tl_stops : stops CWord tl = true.
Proof using All. revert Htl. generalize tl. by intros [|s t]. Qed.

Lemma X_boundary pv : at_boundary (Cursor 0 (last_or pv X) tl []) = true.
Proof using All.
  destruct (identifier_inv X HX) as (_ & _ & (X' & c & -> & Hc)).
  unfold at_boundary, last_or. cbn [prev rest]. rewrite last_snoc.
  cbn [word_opt]. rewrite Hc. revert Htl. generalize tl.
  intros [|s t]; [done|].
  cbn [starts_non_word]. intros Hs%negb_true_iff.
  cbn [head word_opt]. by rewrite Hs.
Qed.

Lemma class_export_match p pv :
  match_at Pat.export_class p pv (stmt ++ tl)
  = Some (Match p (p + length stmt) stmt [(1, X)]).
Proof using All.
  pose proof (M_word X HX) as HXw.
  unfold match_at, Pat.export_class. cbn [seqs].
  rewrite <- !app_assoc.
  change (txt "export class " ++ ?r)
    with (txt "export" ++ txt " " ++ txt "class" ++ txt " " ++ r).
  rewrite run_seq, run_lit_app.
  rewrite run_seq. apply run_plus_exact; [done|done|done|].
  rewrite run_seq, run_lit_app.
  rewrite run_seq. apply run_plus_exact; [done|done| |].
  { apply identifier_stops; [done|]. intros c Hc. by apply word_not_space. }
  rewrite run_group.
  apply run_plus_exact; [by destruct X|done|apply tl_stops|].
  cbn beta iota delta [pos prev rest caps].
  finish_match tl.
Qed.

Lemma class_export_finditer :
  finditer Pat.export_class (pre ++ txt "export class " ++ X ++ tl)
  = [Match (length pre) (length pre + length stmt) stmt [(1, X)]].
Proof using All.
  rewrite class_export_split. apply finditer_one.
  - done.
  - unfold Pat.export_class. cbn [seqs]. by apply dead_in_lines.
  - intros pv. apply class_export_match.
  - unfold Pat.export_class. cbn [seqs]. by apply no_match_literal.
Qed.

(** What the scanner records for the statement. *)
Lemma class_export_e_class :
  e_class (find_all_exports (pre ++ txt "export class " ++ X ++ tl))
  = [Decl X (length pre) (length pre + length stmt)].
Proof using All.
  unfold find_all_exports. cbn [e_class].
  by rewrite class_export_finditer.
Qed.

Lemma class_export_e_default :
  e_default (find_all_exports (pre ++ txt "export class " ++ X ++ tl)) = [].
Proof using All.
  unfold find_all_exports. cbn [e_default flat_map].
  rewrite !no_match_finditer; [done| | |].
  - unfold Pat.export_default_class. cbn [seqs].
    apply class_export_no_match; [apply after_import_ws1|].
    by intros ? ? ? ? ?.
  - unfold Pat.export_default_function. cbn [seqs].
    apply class_export_no_match; [apply after_import_ws1|].
    by intros ? ? ? ? ?.
  - unfold Pat.export_default. cbn [seqs].
    apply class_export_no_match; [apply after_import_ws1|].
    by intros ? ? ? ? ?.
Qed.

Lemma class_export_e_destructured :
  e_destructured (find_all_exports (pre ++ txt "export class " ++ X ++ tl))
  = [].
Proof using All.
  unfold find_all_exports. cbn [e_destructured].
  rewrite no_match_finditer; [done|].
  unfold Pat.export_braces. cbn [seqs].
  apply class_export_no_match; [apply after_import_ws_brace|].
  by intros ? ? ? ? ?.
Qed.

(** The two patterns that the rewriting functions build from the name. *)
Lemma class_export_named_b_match p pv :
  match_at (PatS.export_class_named_b X) p pv (stmt ++ tl)
  = Some (Match p (p + length stmt) stmt []).
Proof using All.
  unfold match_at, PatS.export_class_named_b. cbn [seqs].
  rewrite <- !app_assoc.
  change (txt "export class " ++ ?r)
    with (txt "export" ++ txt " " ++ txt "class" ++ txt " " ++ r).
  rewrite run_seq, run_lit_app.
  rewrite run_seq. apply run_plus_exact; [done|done|done|].
  rewrite run_seq, run_lit_app.
  rewrite run_seq. apply run_plus_exact; [done|done| |].
  { apply identifier_stops; [done|]. intros c Hc. by apply word_not_space. }
  rewrite run_seq, run_lit_app.
  cbn [run].
  match goal with
  | |- (if at_boundary (Cursor _ (last_or ?v X) tl _) then _ else _) = _ =>
      pose proof (X_boundary v) as Hb
  end.
  unfold at_boundary in *. cbn [prev rest] in *. rewrite Hb.
  cbn beta iota delta [pos prev rest caps].
  finish_match tl.
Qed.

Lemma class_export_named_match p pv :
  match_at (PatS.export_class_named X) p pv (stmt ++ tl)
  = Some (Match p (p + length stmt) stmt []).
Proof using All.
  unfold match_at, PatS.export_class_named. cbn [seqs].
  rewrite <- !app_assoc.
  change (txt "export class " ++ ?r)
    with (txt "export" ++ txt " " ++ txt "class" ++ txt " " ++ r).
  rewrite run_seq, run_lit_app.
  rewrite run_seq. apply run_plus_exact; [done|done|done|].
  rewrite run_seq, run_lit_app.
  rewrite run_seq. apply run_plus_exact; [done|done| |].
  { apply identifier_stops; [done|]. intros c Hc. by apply word_not_space. }
  rewrite run_lit_app.
  cbn beta iota delta [pos prev rest caps].
  finish_match tl.
Qed.

Lemma class_export_sub_b (new : text) :
  sub (PatS.export_class_named_b X) (fun _ => new)
    (pre ++ txt "export class " ++ X ++ tl)
  = pre ++ new ++ tl.
Proof using All.
  rewrite class_export_split.
  rewrite (sub_one _ _ pre stmt tl []); [done|done| | |].
  - unfold PatS.export_class_named_b. cbn [seqs]. by apply dead_in_lines.
  - intros pv. apply class_export_named_b_match.
  - unfold PatS.export_class_named_b. cbn [seqs]. by apply no_match_literal.
Qed.

Lemma class_export_sub (new : text) :
  sub (PatS.export_class_named X) (fun _ => new)
    (pre ++ txt "export class " ++ X ++ tl)
  = pre ++ new ++ tl.
Proof using All.
  rewrite class_export_split.
  rewrite (sub_one _ _ pre stmt tl []); [done|done| | |].
  - unfold PatS.export_class_named. cbn [seqs]. by apply dead_in_lines.
  - intros pv. apply class_export_named_match.
  - unfold PatS.export_class_named. cbn [seqs]. by apply no_match_literal.
Qed.

Lemma class_export_search :
  is_Some (search (PatS.export_class_named X)
             (pre ++ txt "export class " ++ X ++ tl)).
Proof using All.
  rewrite class_export_split. unfold search.
  rewrite (finditer_one _ pre stmt tl []); [by eexists|done| | |].
  - unfold PatS.export_class_named. cbn [seqs]. by apply dead_in_lines.
  - intros pv. apply class_export_named_match.
  - unfold PatS.export_class_named. cbn [seqs]. by apply no_match_literal.
Qed.

End ClassExport.

(** X22.  In a file that the policy does not keep as a default export, an
    exported class that the policy wants named loses its export keyword, and
    a named export of the class is appended to the text, stripped of its
    trailing white space. *)
Theorem class_export_is_modernized (pre X tl filename : text)
    (keep_as_default should_be_named : list text) :
  mem_text (Path.stem filename) keep_as_default = false ->
  mem_text X should_be_named = true ->
  is_identifier X = true -> Py.endswith (txt "export") X = false ->
  ends_line pre = true -> Py.contains (txt "export") pre = false ->
  starts_non_word tl = true -> Py.contains (txt "export") tl = false ->
  modernize_exports (pre ++ txt "export class " ++ X ++ tl)
    filename keep_as_default should_be_named
  = (Py.rstrip (pre ++ txt "class " ++ X ++ tl)
       ++ [NL; NL] ++ txt "export { " ++ X ++ txt " };" ++ [NL],
     [txt "Class export to Named: " ++ X]).
Proof.
  intros Hkeep Hnamed HX Hend Hpre Hnpre Htl Hntl.
  unfold modernize_exports. cbn zeta. rewrite Hkeep.
  rewrite class_export_e_default, class_export_e_destructured,
    class_export_e_class by done.
  cbn [fold_left d_name has_name existsb negb orb]. rewrite Hnamed.
  rewrite class_export_sub_b by done. by rewrite <- !app_assoc.
Qed.

Lemma class_export_is_modernized_witness :
  let pre := lines ["// the sky"; blank] in
  let X := txt "Sky" in
  let tl := lines [" {}"; blank] in
  let filename := txt "src/world/Sky.js" in
  mem_text (Path.stem filename) [txt "World"] = false
  /\ mem_text X [txt "Sky"] = true
  /\ is_identifier X = true /\ Py.endswith (txt "export") X = false
  /\ ends_line pre = true /\ Py.contains (txt "export") pre = false
  /\ starts_non_word tl = true /\ Py.contains (txt "export") tl = false
  /\ modernize_exports (pre ++ txt "export class " ++ X ++ tl)
       filename [txt "World"] [txt "Sky"]
     = (Py.rstrip (pre ++ txt "class " ++ X ++ tl)
          ++ [NL; NL] ++ txt "export { " ++ X ++ txt " };" ++ [NL],
        [txt "Class export to Named: " ++ X]).
Proof.
  intros pre X tl filename. split_and!; [reflexivity..|].
  exact (class_export_is_modernized pre X tl filename [txt "World"]
           [txt "Sky"] eq_refl eq_refl eq_refl eq_refl eq_refl eq_refl
           eq_refl eq_refl).
Defined.

(** X23.  In a file that the policy keeps as a default export, the
    exported class of the file's name becomes the default export. *)
Theorem class_export_is_kept_as_default (pre X tl filename : text)
    (keep_as_default should_be_named : list text) :
  Path.stem filename = X ->
  mem_text X keep_as_default = true ->
  is_identifier X = true -> Py.endswith (txt "export") X = false ->
  ends_line pre = true -> Py.contains (txt "export") pre = false ->
  starts_non_word tl = true -> Py.contains (txt "export") tl = false ->
  modernize_exports (pre ++ txt "export class " ++ X ++ tl)
    filename keep_as_default should_be_named
  = (pre ++ txt "export default class " ++ X ++ tl,
     [txt "Class to Default export: " ++ X]).
Proof.
  intros Hstem Hkeep HX Hend Hpre Hnpre Htl Hntl.
  unfold modernize_exports. cbn zeta. rewrite Hstem, Hkeep.
  rewrite class_export_e_default, class_export_e_destructured,
    class_export_e_class by done.
  cbn [map d_name has_name existsb negb orb andb is_nil].
  rewrite !text_eqb_refl. cbn [orb].
  rewrite filter_cons_True by apply text_eqb_refl.
  cbn [is_nil negb andb].
  rewrite class_export_sub_b by done. by rewrite <- !app_assoc.
Qed.

Lemma class_export_is_kept_as_default_witness :
  let pre := lines ["// the world"; blank] in
  let X := txt "World" in
  let tl := lines [" {}"; blank] in
  let filename := txt "src/world/World.js" in
  Path.stem filename = X
  /\ mem_text X [txt "World"] = true
  /\ is_identifier X = true /\ Py.endswith (txt "export") X = false
  /\ ends_line pre = true /\ Py.contains (txt "export") pre = false
  /\ starts_non_word tl = true /\ Py.contains (txt "export") tl = false
  /\ modernize_exports (pre ++ txt "export class " ++ X ++ tl)
       filename [txt "World"] [txt "Sky"]
     = (pre ++ txt "export default class " ++ X ++ tl,
        [txt "Class to Default export: " ++ X]).
Proof.
  intros pre X tl filename. split_and!; [reflexivity..|].
  exact (class_export_is_kept_as_default pre X tl filename [txt "World"]
           [txt "Sky"] eq_refl eq_refl eq_refl eq_refl eq_refl eq_refl
           eq_refl eq_refl).
Defined.

(** X24.  In a module that the tree imports as a default, the exported
    class of the file's name becomes the default export, and the change is
    recorded. *)
Theorem class_export_becomes_default (pre X tl file_path : text)
    (export_style_map : gmap text style) :
  export_style_map !! file_path = Some StyleDefault ->
  Path.splitext_root (Path.basename file_path) = X ->
  is_identifier X = true -> Py.endswith (txt "export") X = false ->
  ends_line pre = true -> Py.contains (txt "export") pre = false ->
  starts_non_word tl = true -> Py.contains (txt "export") tl = false ->
  fix_import_export_mismatches (pre ++ txt "export class " ++ X ++ tl)
    file_path export_style_map
  = (pre ++ txt "export default class " ++ X ++ tl,
     [txt "Converted named class export to default: " ++ X]).
Proof.
  intros Hmap Hbase HX Hend Hpre Hnpre Htl Hntl.
  unfold fix_import_export_mismatches. rewrite Hmap, Hbase. cbn zeta.
  rewrite class_export_e_default, class_export_e_class by done.
  cbn [app has_name existsb d_name is_nil negb].
  rewrite text_eqb_refl. cbn [orb andb].
  assert (nonempty X = true) as -> by (by destruct X).
  destruct (class_export_search pre X tl HX Hend Hpre Hnpre Htl Hntl) as [mt ->].
  rewrite class_export_sub by done. by rewrite <- !app_assoc.
Qed.

Lemma class_export_becomes_default_witness :
  let pre := lines ["// the sky"; blank] in
  let X := txt "Sky" in
  let tl := lines [" {}"; blank] in
  let file_path := txt "src/world/Sky.js" in
  let export_style_map : gmap text style := {[ file_path := StyleDefault ]} in
  export_style_map !! file_path = Some StyleDefault
  /\ Path.splitext_root (Path.basename file_path) = X
  /\ is_identifier X = true /\ Py.endswith (txt "export") X = false
  /\ ends_line pre = true /\ Py.contains (txt "export") pre = false
  /\ starts_non_word tl = true /\ Py.contains (txt "export") tl = false
  /\ fix_import_export_mismatches (pre ++ txt "export class " ++ X ++ tl)
       file_path export_style_map
     = (pre ++ txt "export default class " ++ X ++ tl,
        [txt "Converted named class export to default: " ++ X]).
Proof.
  intros pre X tl file_path export_style_map.
  assert (export_style_map !! file_path = Some StyleDefault) as H1
    by (vm_compute; reflexivity).
  split_and!; [exact H1|reflexivity..|].
  exact (class_export_becomes_default pre X tl file_path export_style_map
           H1 eq_refl eq_refl eq_refl eq_refl eq_refl eq_refl eq_refl).
Defined.
